(** * Eidos runtime core: symbol tables, string interning, termination,
      command-line constants, and the MutationRun free list.

    A shallow embedding of
      - eidos_symbol_table.cpp  (EidosSymbolTable),
      - eidos_global.cpp        (string-ID registry, termination, command-line
                                 constants, error positions, memory check),
      - mutation_run.h          (MutationRun and its free list),
      - eidos_rng.h             (eidos_random_bool),
      - slim_global.h           (the SLiMClampTo...Type functions),
    followed by the properties proved about them.

    Conventions.
      - uint32_t identifiers are [N] with the wrap-around of [++] written out.
      - [EIDOS_TERMINATION << ... << eidos_terminate(...)] never returns to its
        caller; a method that may reach it yields an [outcome] that records the
        text streamed before the terminator and the object state at that point.
      - An [EidosSymbolTable] value is a table together with its chain of
        parents, as reached through [parent_symbol_table_]. *)

From Stdlib Require Import ZArith NArith List String Ascii Bool Lia.
From stdpp Require Import base option list gmap strings pretty.

Open Scope string_scope.
Open Scope list_scope.

(** ** Outcomes of calls that may hit the terminator *)

(** A [const] method either returns or terminates with a diagnostic. *)
Inductive result (A : Type) : Type :=
| Ok (a : A)
| Raise (msg : string).
Arguments Ok {A} a.
Arguments Raise {A} msg.

(** A mutating call: the state it leaves behind is part of the outcome in both
    cases (an exception does not roll anything back). *)
Inductive outcome (St A : Type) : Type :=
| Returned (a : A) (st : St)
| Terminated (msg : string) (st : St).
Arguments Returned {St A} a st.
Arguments Terminated {St A} msg st.

Definition state_of {St A} (o : outcome St A) : St :=
  match o with
  | Returned _ st => st
  | Terminated _ st => st
  end.

Definition terminated {St A} (o : outcome St A) : bool :=
  match o with
  | Returned _ _ => false
  | Terminated _ _ => true
  end.

(** Sequencing: a terminated call skips the rest. *)
Definition and_then {St A B} (o : outcome St A) (k : A → St → outcome St B) : outcome St B :=
  match o with
  | Returned a st => k a st
  | Terminated msg st => Terminated msg st
  end.

(** A call made on a sub-object [inner] of [outer]: [rebuild] puts the
    sub-object's final state back. *)
Definition inside {Inner Outer A} (rebuild : Inner → Outer) (o : outcome Inner A)
    : outcome Outer A :=
  match o with
  | Returned a st => Returned a (rebuild st)
  | Terminated msg st => Terminated msg (rebuild st)
  end.

(** ** Constants that live in headers outside this development

    eidos_global.h and eidos_symbol_table.h are not part of the sources at
    hand; the constants the code reads from them are taken as parameters. *)
Class EidosHeaders : Type := {
  (** first ID handed out by [EidosGlobalStringIDForString] *)
  gEidosID_LastContextEntry : N;
  (** capacity of [internal_symbols_] *)
  EIDOS_SYMBOL_TABLE_BASE_SIZE : nat;
  (** [#ifdef DEBUG] *)
  DEBUG : bool;
  (** default argument of the constructor's [p_start_with_hash] *)
  p_start_with_hash_default : bool;
  (** default member initialiser of [eidos_terminate::print_backtrace_] *)
  print_backtrace_default : bool;
  (** IDs of the seven intrinsic constants *)
  gEidosID_T : N;
  gEidosID_F : N;
  gEidosID_NULL : N;
  gEidosID_PI : N;
  gEidosID_E : N;
  gEidosID_INF : N;
  gEidosID_NAN : N;
}.

(** ** eidos_global.cpp: the global string registry *)

Module eidos_global.

Definition EidosGlobalStringID : Type := N.

(** [uint32_t] arithmetic. *)
Definition uint32_modulus : N := 2 ^ 32.
Definition uint32_succ (n : N) : N := ((n + 1) mod uint32_modulus)%N.

Definition gEidosStr_undefined : string := "undefined".

(** [gStringToID], [gIDToString] and [gNextUnusedID]. *)
Record StringRegistry : Type := {
  gStringToID : gmap string N;
  gIDToString : gmap N string;
  gNextUnusedID : N;
}.

Section Registry.
Context `{EidosHeaders}.

(** The file-scope initialisers. *)
Definition initial_registry : StringRegistry :=
  {| gStringToID := ∅; gIDToString := ∅; gNextUnusedID := gEidosID_LastContextEntry |}.

(** [gIDToString] keeps a pointer to the caller's string where interning keeps
    a copy of its own; the callers pass file-scope constants, and the map is
    modelled as holding the string's text. *)
Definition Eidos_RegisterStringForGlobalID (p_string : string) (p_string_id : N)
    (g : StringRegistry) : outcome StringRegistry unit :=
  match gStringToID g !! p_string with
  | Some _ =>
      Terminated ("ERROR (Eidos_RegisterStringForGlobalID): string " +:+ p_string
                  +:+ " has already been registered.") g
  | None =>
      match gIDToString g !! p_string_id with
      | Some _ =>
          Terminated ("ERROR (Eidos_RegisterStringForGlobalID): id " +:+ pretty p_string_id
                      +:+ " has already been registered.") g
      | None =>
          if (gEidosID_LastContextEntry <=? p_string_id)%N then
            Terminated ("ERROR (Eidos_RegisterStringForGlobalID): id " +:+ pretty p_string_id
                        +:+ " it out of the legal range for preregistered strings.") g
          else
            Returned tt
              {| gStringToID := <[p_string := p_string_id]> (gStringToID g);
                 gIDToString := <[p_string_id := p_string]> (gIDToString g);
                 gNextUnusedID := gNextUnusedID g |}
      end
  end.

Definition EidosGlobalStringIDForString (p_string : string) (g : StringRegistry)
    : N * StringRegistry :=
  match gStringToID g !! p_string with
  | None =>
      let string_id := gNextUnusedID g in
      (string_id,
       {| gStringToID := <[p_string := string_id]> (gStringToID g);
          gIDToString := <[string_id := p_string]> (gIDToString g);
          gNextUnusedID := uint32_succ (gNextUnusedID g) |})
  | Some found => (found, g)
  end.

Definition StringForEidosGlobalStringID (p_string_id : N) (g : StringRegistry) : string :=
  match gIDToString g !! p_string_id with
  | None => gEidosStr_undefined
  | Some found => found
  end.

(** Clients of the registry: a sequence of calls, in program order. *)
Inductive registry_call : Type :=
| CallRegister (p_string : string) (p_string_id : N)
| CallIntern (p_string : string).

Definition run_call (g : StringRegistry) (c : registry_call) : StringRegistry :=
  match c with
  | CallRegister s id => state_of (Eidos_RegisterStringForGlobalID s id g)
  | CallIntern s => snd (EidosGlobalStringIDForString s g)
  end.

Definition run_calls (g : StringRegistry) (calls : list registry_call) : StringRegistry :=
  foldl run_call g calls.

(** The IDs a sequence of calls registered or got back from interning. *)
Fixpoint ids_issued (g : StringRegistry) (calls : list registry_call) : list N :=
  match calls with
  | [] => []
  | c :: rest =>
      match c with
      | CallRegister s id =>
          if terminated (Eidos_RegisterStringForGlobalID s id g) then ids_issued (run_call g c) rest
          else id :: ids_issued (run_call g c) rest
      | CallIntern s =>
          fst (EidosGlobalStringIDForString s g) :: ids_issued (run_call g c) rest
      end
  end.

(** Every ID the registry maps back was issued, and issued IDs lie below the
    counter; every string's ID maps back to that string. *)
Record registry_inv (g : StringRegistry) : Prop := {
  inv_back : ∀ s id, gStringToID g !! s = Some id → gIDToString g !! id = Some s;
  inv_below : ∀ id, is_Some (gIDToString g !! id) → (id < gNextUnusedID g)%N;
  inv_floor : (gEidosID_LastContextEntry ≤ gNextUnusedID g)%N;
}.

End Registry.

(** *** Termination *)

Definition newline : ascii := "010"%char.
Definition carriage_return : ascii := "013"%char.
Definition tab : ascii := "009"%char.
Definition endl : string := String newline "".

(** The globals the terminator reads and writes.  [gEidosTermination] is the
    text accumulated in the string stream, [std_cerr] everything sent to the
    error output, [gEidosCurrentScript] the script's string ([None] for a null
    pointer). *)
Record TerminationGlobals : Type := {
  gEidosTerminateThrows : bool;
  gEidosTermination : string;
  std_cerr : string;
  gEidosCharacterStartOfError : Z;
  gEidosCharacterEndOfError : Z;
  gEidosCurrentScript : option string;
  gEidosExecutingRuntimeScript : bool;
  gEidosErrorLine : Z;
  gEidosErrorLineCharacter : Z;
}.

(** The two streams a diagnostic can go to. *)
Inductive ostream : Type :=
| termination_stream
| cerr_stream.

(** [p_out << text]. *)
Definition write (p_out : ostream) (text : string) (st : TerminationGlobals) : TerminationGlobals :=
  match p_out with
  | termination_stream =>
      {| gEidosTerminateThrows := gEidosTerminateThrows st;
         gEidosTermination := gEidosTermination st +:+ text;
         std_cerr := std_cerr st;
         gEidosCharacterStartOfError := gEidosCharacterStartOfError st;
         gEidosCharacterEndOfError := gEidosCharacterEndOfError st;
         gEidosCurrentScript := gEidosCurrentScript st;
         gEidosExecutingRuntimeScript := gEidosExecutingRuntimeScript st;
         gEidosErrorLine := gEidosErrorLine st;
         gEidosErrorLineCharacter := gEidosErrorLineCharacter st |}
  | cerr_stream =>
      {| gEidosTerminateThrows := gEidosTerminateThrows st;
         gEidosTermination := gEidosTermination st;
         std_cerr := std_cerr st +:+ text;
         gEidosCharacterStartOfError := gEidosCharacterStartOfError st;
         gEidosCharacterEndOfError := gEidosCharacterEndOfError st;
         gEidosCurrentScript := gEidosCurrentScript st;
         gEidosExecutingRuntimeScript := gEidosExecutingRuntimeScript st;
         gEidosErrorLine := gEidosErrorLine st;
         gEidosErrorLineCharacter := gEidosErrorLineCharacter st |}
  end.

Definition contents (p_out : ostream) (st : TerminationGlobals) : string :=
  match p_out with
  | termination_stream => gEidosTermination st
  | cerr_stream => std_cerr st
  end.

(** Modelled from the spec: the macro is defined in eidos_global.h.  "Define
    string stream used for output when gEidosTerminateThrows == 1; otherwise,
    terminates call exit()": diagnostics go to the string stream in throws
    mode and to the error output in exits mode. *)
Definition EIDOS_TERMINATION (st : TerminationGlobals) : ostream :=
  if gEidosTerminateThrows st then termination_stream else cerr_stream.

Definition set_error_line (line character : Z) (st : TerminationGlobals) : TerminationGlobals :=
  {| gEidosTerminateThrows := gEidosTerminateThrows st;
     gEidosTermination := gEidosTermination st;
     std_cerr := std_cerr st;
     gEidosCharacterStartOfError := gEidosCharacterStartOfError st;
     gEidosCharacterEndOfError := gEidosCharacterEndOfError st;
     gEidosCurrentScript := gEidosCurrentScript st;
     gEidosExecutingRuntimeScript := gEidosExecutingRuntimeScript st;
     gEidosErrorLine := line;
     gEidosErrorLineCharacter := character |}.

(** [script_string[i]] for an [int] index.  At [length] the C++ string yields
    NUL; outside [0, length] the source's read is undefined and the model
    yields NUL as well. *)
Definition char_at (script_string : string) (i : Z) : ascii :=
  if (i <? 0)%Z then "000"%char
  else
    match String.get (Z.to_nat i) script_string with
    | Some c => c
    | None => "000"%char
    end.

Definition is_line_break (c : ascii) : bool :=
  Ascii.eqb c newline || Ascii.eqb c carriage_return.

(** [for (; lineStart > 0; --lineStart) if (line break at lineStart - 1) break;] *)
Fixpoint scan_to_line_start (script_string : string) (lineStart : nat) : nat :=
  match lineStart with
  | O => O
  | S before =>
      if is_line_break (char_at script_string (Z.of_nat before)) then lineStart
      else scan_to_line_start script_string before
  end.

(** [for (; lineEnd < length - 1; ++lineEnd) if (line break at lineEnd + 1) break;]
    with [remaining] the distance from [lineEnd] to [length - 1]. *)
Fixpoint scan_to_line_end (script_string : string) (lineEnd : Z) (remaining : nat) : Z :=
  match remaining with
  | O => lineEnd
  | S remaining' =>
      if is_line_break (char_at script_string (lineEnd + 1)) then lineEnd
      else scan_to_line_end script_string (lineEnd + 1) remaining'
  end.

(** "Emit the script line, converting tabs to three spaces", from index [i]
    for at most [count] characters. *)
Fixpoint emit_script_line (script_string : string) (i : Z) (count : nat) : string :=
  match count with
  | O => ""
  | S count' =>
      let script_char := char_at script_string i in
      if Ascii.eqb script_char tab then
        "   " +:+ emit_script_line script_string (i + 1) count'
      else if is_line_break script_char then ""
      else String script_char (emit_script_line script_string (i + 1) count')
  end.

(** "Emit the error indicator line, again emitting three spaces where the
    script had a tab". *)
Fixpoint emit_indicator_padding (script_string : string) (i : Z) (count : nat) : string :=
  match count with
  | O => ""
  | S count' =>
      let script_char := char_at script_string i in
      if Ascii.eqb script_char tab then
        "   " +:+ emit_indicator_padding script_string (i + 1) count'
      else if is_line_break script_char then ""
      else String " "%char (emit_indicator_padding script_string (i + 1) count')
  end.

(** [for (int i = 0; i < count; ++i) p_out << "^";] *)
Fixpoint carets (count : nat) : string :=
  match count with
  | O => ""
  | S count' => "^" +:+ carets count'
  end.

(** The line and column of the error, as both [eidos_script_error_position]
    and [eidos_log_script_error] compute them: [(lineStart, lineEnd,
    lineNumber)]. *)
Definition locate_error_line (script_string : string) (p_start p_end : Z) : Z * Z * Z :=
  let length := Z.of_nat (String.length script_string) in
  let lineStart := if (p_start <? length)%Z then p_start else (length - 1)%Z in
  let lineEnd := if (p_end <? length)%Z then p_end else (length - 1)%Z in
  let lineStart :=
    if (0 <? lineStart)%Z then Z.of_nat (scan_to_line_start script_string (Z.to_nat lineStart))
    else lineStart in
  let lineEnd := scan_to_line_end script_string lineEnd (Z.to_nat (length - 1 - lineEnd)) in
  let lineNumber :=
    foldl (λ lineNumber i,
             if Ascii.eqb (char_at script_string i) newline then (lineNumber + 1)%Z
             else lineNumber)
          1%Z (seqZ 0 lineStart) in
  (lineStart, lineEnd, lineNumber).

(** The text [eidos_log_script_error] sends to [p_out] once its guards have
    passed. *)
Definition script_error_text (script_string : string) (p_start p_end : Z)
    (p_inside_lambda : bool) : string :=
  let '(lineStart, lineEnd, lineNumber) := locate_error_line script_string p_start p_end in
  endl +:+ "Error on script line " +:+ pretty lineNumber
  +:+ ", character " +:+ pretty (p_start - lineStart)%Z
  +:+ (if p_inside_lambda then " (inside runtime script block)" else "")
  +:+ ":" +:+ endl +:+ endl
  +:+ emit_script_line script_string lineStart (Z.to_nat (lineEnd - lineStart + 1))
  +:+ endl
  +:+ emit_indicator_padding script_string lineStart (Z.to_nat (p_start - lineStart))
  +:+ carets (Z.to_nat (p_end - p_start + 1))
  +:+ endl.

Definition eidos_log_script_error (p_out : ostream) (p_start p_end : Z)
    (p_script : option string) (p_inside_lambda : bool) (st : TerminationGlobals)
    : TerminationGlobals :=
  match p_script with
  | Some script_string =>
      let length := Z.of_nat (String.length script_string) in
      if (0 <=? p_start)%Z && (p_start <=? p_end)%Z
         && (p_start <=? length)%Z && (p_end <=? length)%Z then
        let '(lineStart, lineEnd, lineNumber) :=
          locate_error_line script_string p_start p_end in
        let st := set_error_line lineNumber (p_start - lineStart)%Z st in
        write p_out (script_error_text script_string p_start p_end p_inside_lambda) st
      else st
  | None => st
  end.

(** The terminator object. *)
Record eidos_terminate : Type := {
  print_backtrace_ : bool;
}.

(** How control leaves the terminator: by a [std::runtime_error] carrying
    [what], or by [exit(status)]. *)
Inductive termination : Type :=
| Throws (what : string) (st : TerminationGlobals)
| Exits (status : Z) (st : TerminationGlobals).

Definition EXIT_FAILURE : Z := 1.

Definition state_at_termination (t : termination) : TerminationGlobals :=
  match t with
  | Throws _ st => st
  | Exits _ st => st
  end.


Definition runtime_error_text : string := "A runtime error occurred in Eidos".

(** [operator<<(std::ostream&, const eidos_terminate&)].  [stack_trace] is the
    text [eidos_print_stacktrace(stderr)] prints for the call stack at hand. *)
Definition terminate_stream (stack_trace : string) (p_out : ostream)
    (p_terminator : eidos_terminate) (st : TerminationGlobals) : termination :=
  let st := write p_out endl st in
  let st := if print_backtrace_ p_terminator then write cerr_stream stack_trace st else st in
  if gEidosTerminateThrows st then Throws runtime_error_text st
  else
    Exits EXIT_FAILURE
      (eidos_log_script_error p_out (gEidosCharacterStartOfError st)
         (gEidosCharacterEndOfError st) (gEidosCurrentScript st)
         (gEidosExecutingRuntimeScript st) st).

(** [terminationMessage.find_last_not_of("\n\r")], looking at indices [k-1]
    down to [0]; [None] is [npos]. *)
Fixpoint find_last_not_line_break (message : string) (k : nat) : option nat :=
  match k with
  | O => None
  | S i =>
      match String.get i message with
      | Some c => if is_line_break c then find_last_not_line_break message i else Some i
      | None => find_last_not_line_break message i
      end
  end.

Definition clear_termination (st : TerminationGlobals) : TerminationGlobals :=
  {| gEidosTerminateThrows := gEidosTerminateThrows st;
     gEidosTermination := "";
     std_cerr := std_cerr st;
     gEidosCharacterStartOfError := gEidosCharacterStartOfError st;
     gEidosCharacterEndOfError := gEidosCharacterEndOfError st;
     gEidosCurrentScript := gEidosCurrentScript st;
     gEidosExecutingRuntimeScript := gEidosExecutingRuntimeScript st;
     gEidosErrorLine := gEidosErrorLine st;
     gEidosErrorLineCharacter := gEidosErrorLineCharacter st |}.

Definition EidosGetTrimmedRaiseMessage (st : TerminationGlobals) : string * TerminationGlobals :=
  if gEidosTerminateThrows st then
    let terminationMessage := gEidosTermination st in
    let st := clear_termination st in
    match find_last_not_line_break terminationMessage (String.length terminationMessage) with
    | Some endpos => (substring 0 (endpos + 1) terminationMessage, st)
    | None => (terminationMessage, st)
    end
  else ("", st).

Definition EidosGetUntrimmedRaiseMessage (st : TerminationGlobals) : string * TerminationGlobals :=
  if gEidosTerminateThrows st then (gEidosTermination st, clear_termination st)
  else ("", st).

End eidos_global.

(** ** eidos_symbol_table.cpp *)

Module eidos_symbol_table.
Import eidos_global.

(** *** Values, as far as the symbol table looks at them *)

(** Element storage of a value.  A double is carried as its IEEE-754 bit
    pattern. *)
Inductive EidosValueData : Type :=
| ValueNULL
| ValueLogical (elements : list bool)
| ValueInt (elements : list Z)
| ValueFloat (elements : list N)
| ValueString (elements : list string)
| ValueObject (elements : list N).

Record EidosValue : Type := {
  value_data : EidosValueData;
  invisible_ : bool;
}.

(** A smart pointer handed to the table: the object it points to and the
    object's reference count at the time of the call. *)
Record EidosValue_SP : Type := {
  get : EidosValue;
  use_count : N;
}.

Definition Invisible (p_value : EidosValue_SP) : bool := invisible_ (get p_value).

(** Modelled from the spec: eidos_value.cpp is not at hand.  [CopyValues] is
    "a deep copy of element storage, producing a new value"; the new object is
    visible ("if the value is invisible then we copy it, since the symbol table
    never stores invisible values") and the returned pointer is its only
    owner. *)
Definition CopyValues (p_value : EidosValue_SP) : EidosValue_SP :=
  {| get := {| value_data := value_data (get p_value); invisible_ := false |};
     use_count := 1 |}.

(** Modelled from the spec: the statically allocated constants of section 4.4,
    "T (logical true), F (logical false), NULL (null), PI, E, INF, NAN (all
    singleton floats with the obvious IEEE-754 values)", none of them
    invisible. *)
Definition static_value (d : EidosValueData) : EidosValue_SP :=
  {| get := {| value_data := d; invisible_ := false |}; use_count := 2 |}.
Definition gStaticEidosValue_LogicalT : EidosValue_SP := static_value (ValueLogical [true]).
Definition gStaticEidosValue_LogicalF : EidosValue_SP := static_value (ValueLogical [false]).
Definition gStaticEidosValueNULL : EidosValue_SP := static_value ValueNULL.
Definition M_PI_bits : N := 0x400921FB54442D18.
Definition M_E_bits : N := 0x4005BF0A8B145769.
Definition infinity_bits : N := 0x7FF0000000000000.
Definition quiet_NaN_bits : N := 0x7FF8000000000000.

(** *** The table *)

Inductive EidosSymbolTableType : Type :=
| kEidosIntrinsicConstantsTable
| kEidosDefinedConstantsTable
| kVariablesTable.

Definition table_type_eqb (a b : EidosSymbolTableType) : bool :=
  match a, b with
  | kEidosIntrinsicConstantsTable, kEidosIntrinsicConstantsTable => true
  | kEidosDefinedConstantsTable, kEidosDefinedConstantsTable => true
  | kVariablesTable, kVariablesTable => true
  | _, _ => false
  end.

Record EidosSymbolTable_InternalSlot : Type := {
  symbol_name_ : N;
  symbol_value_SP_ : EidosValue;
}.

(** [internal_symbols_] holds the slots in use, so [internal_symbol_count_] is
    its length; [parent_symbol_table_] is [None] for [nullptr]. *)
#[warnings="-register-all"]
Inductive EidosSymbolTable : Type := mkEidosSymbolTable {
  table_type_ : EidosSymbolTableType;
  using_internal_symbols_ : bool;
  internal_symbols_ : list EidosSymbolTable_InternalSlot;
  hash_symbols_ : gmap N EidosValue;
  parent_symbol_table_ : option EidosSymbolTable;
}.

Definition internal_symbol_count_ (this : EidosSymbolTable) : nat :=
  length (internal_symbols_ this).

Definition set_parent (this : EidosSymbolTable) (p : option EidosSymbolTable) : EidosSymbolTable :=
  mkEidosSymbolTable (table_type_ this) (using_internal_symbols_ this)
    (internal_symbols_ this) (hash_symbols_ this) p.

Definition set_internal_symbols (this : EidosSymbolTable)
    (slots : list EidosSymbolTable_InternalSlot) : EidosSymbolTable :=
  mkEidosSymbolTable (table_type_ this) (using_internal_symbols_ this)
    slots (hash_symbols_ this) (parent_symbol_table_ this).

Definition set_hash_symbols (this : EidosSymbolTable) (h : gmap N EidosValue) : EidosSymbolTable :=
  mkEidosSymbolTable (table_type_ this) (using_internal_symbols_ this)
    (internal_symbols_ this) h (parent_symbol_table_ this).

(** The loop
    [for (i = (int)internal_symbol_count_ - 1; i >= 0; --i) if (slots[i].symbol_name_ == name) ...]:
    [scan_slots name slots k] looks at indices [k-1] down to [0] and yields the
    first index that matches, [None] when the loop runs out (index -1). *)
Fixpoint scan_slots (p_symbol_name : N) (slots : list EidosSymbolTable_InternalSlot)
    (k : nat) : option nat :=
  match k with
  | O => None
  | S symbol_index =>
      match slots !! symbol_index with
      | Some slot =>
          if (symbol_name_ slot =? p_symbol_name)%N then Some symbol_index
          else scan_slots p_symbol_name slots symbol_index
      | None => scan_slots p_symbol_name slots symbol_index
      end
  end.

Section Table.
Context `{EidosHeaders}.

Fixpoint ContainsSymbol (p_symbol_name : N) (this : EidosSymbolTable) : bool :=
  match this with
  | mkEidosSymbolTable _ internal slots hash parent =>
      let hit :=
        if internal then
          match scan_slots p_symbol_name slots (length slots) with
          | Some _ => true
          | None => false
          end
        else
          match hash !! p_symbol_name with
          | Some _ => true
          | None => false
          end in
      if hit then true
      else
        match parent with
        | Some parent_table => ContainsSymbol p_symbol_name parent_table
        | None => false
        end
  end.

Definition undefined_identifier (g : StringRegistry) (p_symbol_name : N) : string :=
  "ERROR (EidosSymbolTable::_GetValue): undefined identifier "
  +:+ StringForEidosGlobalStringID p_symbol_name g +:+ ".".

Fixpoint _GetValue (g : StringRegistry) (p_symbol_name : N) (this : EidosSymbolTable)
    : result EidosValue :=
  match this with
  | mkEidosSymbolTable _ internal slots hash parent =>
      let hit :=
        if internal then
          match scan_slots p_symbol_name slots (length slots) with
          | Some symbol_index => symbol_value_SP_ <$> slots !! symbol_index
          | None => None
          end
        else hash !! p_symbol_name in
      match hit with
      | Some value => Ok value
      | None =>
          match parent with
          | Some parent_table => _GetValue g p_symbol_name parent_table
          | None => Raise (undefined_identifier g p_symbol_name)
          end
      end
  end.

(** [_SymbolNames]: the parent's names first, then this table's, in slot order
    for the array and in the map's iteration order for the hash. *)
Fixpoint _SymbolNames (g : StringRegistry) (p_include_constants p_include_variables : bool)
    (this : EidosSymbolTable) : list string :=
  match this with
  | mkEidosSymbolTable type internal slots hash parent =>
      let symbol_names :=
        match parent with
        | Some parent_table => _SymbolNames g p_include_constants p_include_variables parent_table
        | None => []
        end in
      if (p_include_constants && negb (table_type_eqb type kVariablesTable))
         || (p_include_variables && table_type_eqb type kVariablesTable)
      then
        if internal then
          symbol_names ++ map (λ slot, StringForEidosGlobalStringID (symbol_name_ slot) g) slots
        else
          symbol_names ++ map (λ entry, StringForEidosGlobalStringID (fst entry) g) (map_to_list hash)
      else symbol_names
  end.

(** [hash_symbols_.insert(pair)]: no effect when the key is present. *)
Definition hash_insert (p_symbol_name : N) (p_value : EidosValue) (h : gmap N EidosValue)
    : gmap N EidosValue :=
  match h !! p_symbol_name with
  | Some _ => h
  | None => <[p_symbol_name := p_value]> h
  end.

Definition _SwitchToHash (this : EidosSymbolTable) : EidosSymbolTable :=
  if using_internal_symbols_ this then
    mkEidosSymbolTable (table_type_ this) false []
      (foldl (λ h slot, hash_insert (symbol_name_ slot) (symbol_value_SP_ slot) h)
             (hash_symbols_ this) (internal_symbols_ this))
      (parent_symbol_table_ this)
  else this.

Definition parent_contains (p_symbol_name : N) (this : EidosSymbolTable) : bool :=
  match parent_symbol_table_ this with
  | Some parent_table => ContainsSymbol p_symbol_name parent_table
  | None => false
  end.

Definition cannot_be_redefined (g : StringRegistry) (p_symbol_name : N) : string :=
  "ERROR (EidosSymbolTable::SetValueForSymbol): identifier '"
  +:+ StringForEidosGlobalStringID p_symbol_name g
  +:+ "' cannot be redefined because it is a constant.".

(** The "fall-through to the hash table case" of both setters. *)
Definition set_in_hash (g : StringRegistry) (p_symbol_name : N) (p_value : EidosValue)
    (this : EidosSymbolTable) : outcome EidosSymbolTable unit :=
  match hash_symbols_ this !! p_symbol_name with
  | None =>
      if parent_contains p_symbol_name this then
        Terminated (cannot_be_redefined g p_symbol_name) this
      else
        Returned tt (set_hash_symbols this (hash_insert p_symbol_name p_value (hash_symbols_ this)))
  | Some _ =>
      Returned tt (set_hash_symbols this (<[p_symbol_name := p_value]> (hash_symbols_ this)))
  end.

(** The body shared, line for line, by [SetValueForSymbol] (after its copy) and
    [SetValueForSymbolNoCopy] (after its check). *)
Definition set_value (g : StringRegistry) (p_symbol_name : N) (p_value : EidosValue)
    (this : EidosSymbolTable) : outcome EidosSymbolTable unit :=
  if using_internal_symbols_ this then
    match scan_slots p_symbol_name (internal_symbols_ this) (internal_symbol_count_ this) with
    | None =>
        if parent_contains p_symbol_name this then
          Terminated (cannot_be_redefined g p_symbol_name) this
        else if (internal_symbol_count_ this <? EIDOS_SYMBOL_TABLE_BASE_SIZE)%nat then
          Returned tt
            (set_internal_symbols this
               (internal_symbols_ this
                ++ [ {| symbol_name_ := p_symbol_name; symbol_value_SP_ := p_value |} ]))
        else set_in_hash g p_symbol_name p_value (_SwitchToHash this)
    | Some symbol_slot =>
        Returned tt
          (set_internal_symbols this
             (alter (λ slot, {| symbol_name_ := symbol_name_ slot; symbol_value_SP_ := p_value |})
                    symbol_slot (internal_symbols_ this)))
    end
  else set_in_hash g p_symbol_name p_value this.

(** What ends up in the table: "if we have the only reference to the value, we
    don't need to copy it; otherwise we copy". *)
Definition copy_unless_unique_and_visible (p_value : EidosValue_SP) : EidosValue_SP :=
  if negb (use_count p_value =? 1)%N || Invisible p_value then CopyValues p_value else p_value.

Definition SetValueForSymbol (g : StringRegistry) (p_symbol_name : N) (p_value : EidosValue_SP)
    (this : EidosSymbolTable) : outcome EidosSymbolTable unit :=
  let p_value := copy_unless_unique_and_visible p_value in
  set_value g p_symbol_name (get p_value) this.

Definition no_copy_with_invisible : string :=
  "ERROR (EidosSymbolTable::SetValueForSymbol): (internal) no copy requested with invisible value.".

Definition SetValueForSymbolNoCopy (g : StringRegistry) (p_symbol_name : N)
    (p_value : EidosValue_SP) (this : EidosSymbolTable) : outcome EidosSymbolTable unit :=
  if Invisible p_value then Terminated no_copy_with_invisible this
  else set_value g p_symbol_name (get p_value) this.

Definition only_non_invisible : string :=
  "ERROR (EidosSymbolTable::_InitializeConstantSymbolEntry): (internal error) this method should be called only for non-invisible objects.".
Definition only_constant_tables : string :=
  "ERROR (EidosSymbolTable::_InitializeConstantSymbolEntry): (internal error) this method should be called only on constant symbol tables.".

Definition _InitializeConstantSymbolEntry (p_symbol_name : N) (p_value : EidosValue_SP)
    (this : EidosSymbolTable) : outcome EidosSymbolTable unit :=
  if DEBUG && Invisible p_value then Terminated only_non_invisible this
  else if DEBUG && table_type_eqb (table_type_ this) kVariablesTable then
    Terminated only_constant_tables this
  else if using_internal_symbols_ this then
    if (internal_symbol_count_ this <? EIDOS_SYMBOL_TABLE_BASE_SIZE)%nat then
      Returned tt
        (set_internal_symbols this
           (internal_symbols_ this
            ++ [ {| symbol_name_ := p_symbol_name; symbol_value_SP_ := get p_value |} ]))
    else
      let this := _SwitchToHash this in
      Returned tt (set_hash_symbols this (hash_insert p_symbol_name (get p_value) (hash_symbols_ this)))
  else
    Returned tt (set_hash_symbols this (hash_insert p_symbol_name (get p_value) (hash_symbols_ this))).

(** *** Construction *)

Definition must_have_parent : string :=
  "ERROR (EidosSymbolTable::EidosSymbolTable): (internal error) symbol tables must have a parent table, except the Eidos intrinsic constants table.".
Definition intrinsic_cannot_have_parent : string :=
  "ERROR (EidosSymbolTable::EidosSymbolTable): (internal error) the Eidos intrinsic constants table cannot have a parent.".
Definition parent_must_be_constant : string :=
  "ERROR (EidosSymbolTable::EidosSymbolTable): (internal error) parent symbol tables must be constant in the current design.".

(** The constructor; the state of the outcome is the object being built. *)
Definition new_EidosSymbolTable (p_table_type : EidosSymbolTableType)
    (p_parent_table : option EidosSymbolTable) (p_start_with_hash : bool)
    : outcome EidosSymbolTable unit :=
  let this := mkEidosSymbolTable p_table_type (negb p_start_with_hash) [] ∅ None in
  match p_parent_table with
  | None =>
      if DEBUG && negb (table_type_eqb p_table_type kEidosIntrinsicConstantsTable) then
        Terminated must_have_parent this
      else
        and_then (_InitializeConstantSymbolEntry gEidosID_NAN (static_value (ValueFloat [quiet_NaN_bits])) this) (λ _ this,
        and_then (_InitializeConstantSymbolEntry gEidosID_INF (static_value (ValueFloat [infinity_bits])) this) (λ _ this,
        and_then (_InitializeConstantSymbolEntry gEidosID_PI (static_value (ValueFloat [M_PI_bits])) this) (λ _ this,
        and_then (_InitializeConstantSymbolEntry gEidosID_E (static_value (ValueFloat [M_E_bits])) this) (λ _ this,
        and_then (_InitializeConstantSymbolEntry gEidosID_NULL gStaticEidosValueNULL this) (λ _ this,
        and_then (_InitializeConstantSymbolEntry gEidosID_F gStaticEidosValue_LogicalF this) (λ _ this,
        _InitializeConstantSymbolEntry gEidosID_T gStaticEidosValue_LogicalT this))))))
  | Some parent_table =>
      let this := set_parent this (Some parent_table) in
      if DEBUG && table_type_eqb p_table_type kEidosIntrinsicConstantsTable then
        Terminated intrinsic_cannot_have_parent this
      else if DEBUG && table_type_eqb (table_type_ parent_table) kVariablesTable then
        Terminated parent_must_be_constant this
      else Returned tt this
  end.

(** *** DefineConstantForSymbol *)

(** A pointer into the chain of [this] is the number of [parent_symbol_table_]
    links to follow.  [at_depth k method this] calls [method] on that ancestor
    and leaves every table on the way as it was. *)
Fixpoint at_depth (k : nat) (method : EidosSymbolTable → outcome EidosSymbolTable unit)
    (this : EidosSymbolTable) : outcome EidosSymbolTable unit :=
  match k with
  | O => method this
  | S k' =>
      match this with
      | mkEidosSymbolTable type internal slots hash (Some parent_table) =>
          inside (λ p, mkEidosSymbolTable type internal slots hash (Some p))
                 (at_depth k' method parent_table)
      | mkEidosSymbolTable _ _ _ _ None => Returned tt this
      end
  end.

(** [for (t = this; t != nullptr; t = t->parent_symbol_table_)
       if (t->table_type_ == kEidosDefinedConstantsTable) break;] *)
Fixpoint find_defined_constants_table (this : EidosSymbolTable) : option nat :=
  match this with
  | mkEidosSymbolTable type _ _ _ parent =>
      if table_type_eqb type kEidosDefinedConstantsTable then Some O
      else
        match parent with
        | Some parent_table => S <$> find_defined_constants_table parent_table
        | None => None
        end
  end.

(** [for (c = this; c != nullptr; c = c->parent_symbol_table_)
       if (c->parent_symbol_table_ &&
           c->parent_symbol_table_->table_type_ == kEidosIntrinsicConstantsTable) break;] *)
Fixpoint find_child_of_intrinsic_table (this : EidosSymbolTable) : option nat :=
  match this with
  | mkEidosSymbolTable _ _ _ _ parent =>
      match parent with
      | Some parent_table =>
          if table_type_eqb (table_type_ parent_table) kEidosIntrinsicConstantsTable then Some O
          else S <$> find_child_of_intrinsic_table parent_table
      | None => None
      end
  end.

(** "Make a defined constants table and insert it in between". *)
Definition insert_defined_constants_table (childTable : EidosSymbolTable)
    : outcome EidosSymbolTable unit :=
  let intrinsicConstantsTable := parent_symbol_table_ childTable in
  match new_EidosSymbolTable kEidosDefinedConstantsTable intrinsicConstantsTable
          p_start_with_hash_default with
  | Returned _ definedConstantsTable =>
      Returned tt (set_parent childTable (Some definedConstantsTable))
  | Terminated msg _ => Terminated msg childTable
  end.

Definition already_defined (g : StringRegistry) (p_symbol_name : N) : string :=
  "ERROR (EidosSymbolTable::DefineConstantForSymbol): identifier '"
  +:+ StringForEidosGlobalStringID p_symbol_name g +:+ "' is already defined.".
Definition no_child_of_intrinsic_table : string :=
  "ERROR (EidosSymbolTable::DefineConstantForSymbol): (internal) could not find child symbol table of the intrinsic constants table.".

Definition DefineConstantForSymbol (g : StringRegistry) (p_symbol_name : N)
    (p_value : EidosValue_SP) (this : EidosSymbolTable) : outcome EidosSymbolTable unit :=
  if ContainsSymbol p_symbol_name this then Terminated (already_defined g p_symbol_name) this
  else
    let located : outcome EidosSymbolTable nat :=
      match find_defined_constants_table this with
      | Some definedConstantsTable => Returned definedConstantsTable this
      | None =>
          match find_child_of_intrinsic_table this with
          | None => Terminated no_child_of_intrinsic_table this
          | Some childTable =>
              and_then (at_depth childTable insert_defined_constants_table this)
                       (λ _ this, Returned (S childTable) this)
          end
      end in
    and_then located (λ definedConstantsTable this,
      let p_value := copy_unless_unique_and_visible p_value in
      at_depth definedConstantsTable (_InitializeConstantSymbolEntry p_symbol_name p_value) this).

(** *** _RemoveSymbol *)

Definition intrinsic_cannot_be_removed (g : StringRegistry) (p_symbol_name : N) : string :=
  "ERROR (EidosSymbolTable::_RemoveSymbol): identifier '"
  +:+ StringForEidosGlobalStringID p_symbol_name g
  +:+ "' is an intrinsic Eidos constant and thus cannot be removed.".
Definition constant_cannot_be_removed (g : StringRegistry) (p_symbol_name : N) : string :=
  "ERROR (EidosSymbolTable::_RemoveSymbol): identifier '"
  +:+ StringForEidosGlobalStringID p_symbol_name g
  +:+ "' is a constant and thus cannot be removed.".

(** "remove the slot from the vector": the count drops by one and the last
    slot moves into the hole, unless the hole is the last slot. *)
Definition remove_slot (slots : list EidosSymbolTable_InternalSlot) (symbol_slot : nat)
    : list EidosSymbolTable_InternalSlot :=
  let count := (length slots - 1)%nat in
  if (symbol_slot =? count)%nat then take count slots
  else
    match slots !! count with
    | Some backfill => <[symbol_slot := backfill]> (take count slots)
    | None => take count slots
    end.

(** The checks made once the symbol is found in [this]. *)
Definition removal_refused (g : StringRegistry) (p_symbol_name : N) (p_remove_constant : bool)
    (type : EidosSymbolTableType) : option string :=
  if negb (table_type_eqb type kVariablesTable) then
    if table_type_eqb type kEidosIntrinsicConstantsTable then
      Some (intrinsic_cannot_be_removed g p_symbol_name)
    else if negb p_remove_constant then Some (constant_cannot_be_removed g p_symbol_name)
    else None
  else None.

Fixpoint _RemoveSymbol (g : StringRegistry) (p_symbol_name : N) (p_remove_constant : bool)
    (this : EidosSymbolTable) : outcome EidosSymbolTable unit :=
  match this with
  | mkEidosSymbolTable type internal slots hash parent =>
      let in_parent :=
        match parent with
        | Some parent_table =>
            inside (λ p, mkEidosSymbolTable type internal slots hash (Some p))
                   (_RemoveSymbol g p_symbol_name p_remove_constant parent_table)
        | None => Returned tt this
        end in
      if internal then
        match scan_slots p_symbol_name slots (length slots) with
        | Some symbol_slot =>
            match removal_refused g p_symbol_name p_remove_constant type with
            | Some msg => Terminated msg this
            | None =>
                Returned tt (mkEidosSymbolTable type internal (remove_slot slots symbol_slot) hash parent)
            end
        | None => in_parent
        end
      else
        match hash !! p_symbol_name with
        | Some _ =>
            match removal_refused g p_symbol_name p_remove_constant type with
            | Some msg => Terminated msg this
            | None =>
                Returned tt (mkEidosSymbolTable type internal slots (delete p_symbol_name hash) parent)
            end
        | None => in_parent
        end
  end.

End Table.

(** The tables of a chain, nearest first: [this], its parent, and so on. *)
Fixpoint chain (this : EidosSymbolTable) : list EidosSymbolTable :=
  this ::
  match parent_symbol_table_ this with
  | Some parent_table => chain parent_table
  | None => []
  end.

(** *** Vocabulary of the statements below *)

(** The table's own storage has an entry named [n]. *)
Definition holds (this : EidosSymbolTable) (n : N) : Prop :=
  if using_internal_symbols_ this then n ∈ map symbol_name_ (internal_symbols_ this)
  else is_Some (hash_symbols_ this !! n).

#[global] Instance holds_dec (this : EidosSymbolTable) (n : N) : Decision (holds this n).
Proof. unfold holds. destruct (using_internal_symbols_ this); apply _. Defined.

(** The table's own storage binds [n] to [v]: in the array, the slot named
    [n] that is nearest to the back. *)
Definition bound_in (this : EidosSymbolTable) (n : N) (v : EidosValue) : Prop :=
  if using_internal_symbols_ this then
    ∃ i, internal_symbols_ this !! i = Some {| symbol_name_ := n; symbol_value_SP_ := v |}
         ∧ ∀ j slot, (i < j)%nat → internal_symbols_ this !! j = Some slot → symbol_name_ slot ≠ n
  else hash_symbols_ this !! n = Some v.

(** No name sits in two slots, and only the storage in use is populated. *)
Definition storage_ok (this : EidosSymbolTable) : Prop :=
  NoDup (map symbol_name_ (internal_symbols_ this))
  ∧ if using_internal_symbols_ this then hash_symbols_ this = ∅ else internal_symbols_ this = [].

(** Every value stored anywhere in the chain is visible. *)
Definition table_values_visible (this : EidosSymbolTable) : Prop :=
  (∀ slot, slot ∈ internal_symbols_ this → invisible_ (symbol_value_SP_ slot) = false)
  ∧ (∀ n v, hash_symbols_ this !! n = Some v → invisible_ v = false).
Definition chain_values_visible (this : EidosSymbolTable) : Prop :=
  Forall table_values_visible (chain this).

(** A chain of constant tables: defined-constants tables over the intrinsic
    table, which is the root. *)
Fixpoint constants_chain (this : EidosSymbolTable) : Prop :=
  match this with
  | mkEidosSymbolTable type _ _ _ parent =>
      match parent with
      | None => type = kEidosIntrinsicConstantsTable
      | Some parent_table => type = kEidosDefinedConstantsTable ∧ constants_chain parent_table
      end
  end.


Section Vocabulary.
Context `{EidosHeaders}.

(** The value a table's own storage gives for a name: what every method
    computes before it turns to the parent. *)
Definition own_value (n : N) (this : EidosSymbolTable) : option EidosValue :=
  if using_internal_symbols_ this then
    match scan_slots n (internal_symbols_ this) (length (internal_symbols_ this)) with
    | Some symbol_index => symbol_value_SP_ <$> internal_symbols_ this !! symbol_index
    | None => None
    end
  else hash_symbols_ this !! n.

(** The first slot named [n], front to back: what [_SwitchToHash] keeps. *)
Fixpoint first_slot_value (n : N) (slots : list EidosSymbolTable_InternalSlot)
    : option EidosValue :=
  match slots with
  | [] => None
  | slot :: rest =>
      if (symbol_name_ slot =? n)%N then Some (symbol_value_SP_ slot)
      else first_slot_value n rest
  end.

(** The state a successful [set_value] leaves, case by case. *)
Definition after_set_value (n : N) (v : EidosValue) (this : EidosSymbolTable) : EidosSymbolTable :=
  if using_internal_symbols_ this then
    match scan_slots n (internal_symbols_ this) (length (internal_symbols_ this)) with
    | Some symbol_slot =>
        set_internal_symbols this
          (alter (λ slot, {| symbol_name_ := symbol_name_ slot; symbol_value_SP_ := v |})
                 symbol_slot (internal_symbols_ this))
    | None =>
        if (length (internal_symbols_ this) <? EIDOS_SYMBOL_TABLE_BASE_SIZE)%nat then
          set_internal_symbols this
            (internal_symbols_ this ++ [ {| symbol_name_ := n; symbol_value_SP_ := v |} ])
        else
          set_hash_symbols (_SwitchToHash this) (<[n := v]> (hash_symbols_ (_SwitchToHash this)))
    end
  else set_hash_symbols this (<[n := v]> (hash_symbols_ this)).

(** The names a table's own storage enumerates. *)
Definition own_names (this : EidosSymbolTable) : list N :=
  if using_internal_symbols_ this then map symbol_name_ (internal_symbols_ this)
  else map fst (map_to_list (hash_symbols_ this)).

Definition enumerated (p_include_constants p_include_variables : bool)
    (this : EidosSymbolTable) : bool :=
  (p_include_constants && negb (table_type_eqb (table_type_ this) kVariablesTable))
  || (p_include_variables && table_type_eqb (table_type_ this) kVariablesTable).

(** The receiver after a removal from its own storage. *)
Definition after_remove (n : N) (this : EidosSymbolTable) : EidosSymbolTable :=
  if using_internal_symbols_ this then
    match scan_slots n (internal_symbols_ this) (length (internal_symbols_ this)) with
    | Some symbol_slot =>
        set_internal_symbols this (remove_slot (internal_symbols_ this) symbol_slot)
    | None => this
    end
  else set_hash_symbols this (delete n (hash_symbols_ this)).

(** What a successful removal of [n] from the table [holder] of the chain
    leaves behind, seen from the receiver. *)
Definition removed_from (g : StringRegistry) (n : N) (holder this this' : EidosSymbolTable)
    : Prop :=
  length (chain this') = length (chain this)
  ∧ (storage_ok holder →
     (∀ m, m ≠ n → _GetValue g m this' = _GetValue g m this)
     ∧ _GetValue g n this'
       = match parent_symbol_table_ holder with
         | Some above => _GetValue g n above
         | None => Raise (undefined_identifier g n)
         end).

End Vocabulary.

End eidos_symbol_table.

(** ** eidos_global.cpp: constants defined on the command line *)

Module eidos_command_line.
Import eidos_global eidos_symbol_table.

Definition string_in (s : string) (candidates : list string) : bool :=
  existsb (String.eqb s) candidates.

Definition intrinsic_constant_names : list string :=
  ["T"; "F"; "NULL"; "PI"; "E"; "INF"; "NAN"].
Definition reserved_keywords : list string :=
  ["if"; "else"; "do"; "while"; "for"; "in"; "next"; "break"; "return"].

(** [(idx_ch < '0') || (idx_ch > '9')] *)
Definition not_a_digit (idx_ch : ascii) : bool :=
  (nat_of_ascii idx_ch <? 48)%nat || (57 <? nat_of_ascii idx_ch)%nat.

(** [for (ch_index = 1; ch_index < len; ++ch_index) if (not a digit) break;]
    started at [ch_index] with [remaining = len - ch_index]; yields the final
    [ch_index]. *)
Fixpoint scan_digits (p_symbol_name : string) (ch_index remaining : nat) : nat :=
  match remaining with
  | O => ch_index
  | S remaining' =>
      match String.get ch_index p_symbol_name with
      | Some idx_ch =>
          if not_a_digit idx_ch then ch_index
          else scan_digits p_symbol_name (S ch_index) remaining'
      | None => ch_index
      end
  end.

Definition Eidos_GoodSymbolForDefine (p_symbol_name : string) : bool :=
  let good_symbol := true in
  let good_symbol :=
    if string_in p_symbol_name intrinsic_constant_names then false else good_symbol in
  let good_symbol :=
    if string_in p_symbol_name reserved_keywords then false else good_symbol in
  let good_symbol := if String.eqb p_symbol_name "sim" then false else good_symbol in
  let len := String.length p_symbol_name in
  if (2 <=? len)%nat then
    match String.get 0 p_symbol_name with
    | Some first_ch =>
        if Ascii.eqb first_ch "p" || Ascii.eqb first_ch "g"
           || Ascii.eqb first_ch "m" || Ascii.eqb first_ch "s" then
          let ch_index := scan_digits p_symbol_name 1 (len - 1) in
          if (ch_index =? len)%nat then false else good_symbol
        else good_symbol
    | None => good_symbol
    end
  else good_symbol.

(** The pattern the host reserves: [p], [g], [m] or [s] followed by one or more
    digits and nothing else. *)
Fixpoint all_digits (s : string) : bool :=
  match s with
  | EmptyString => true
  | String c rest => negb (not_a_digit c) && all_digits rest
  end.

Definition host_reserved_pattern (s : string) : bool :=
  match s with
  | EmptyString => false
  | String first_ch rest =>
      (Ascii.eqb first_ch "p" || Ascii.eqb first_ch "g"
       || Ascii.eqb first_ch "m" || Ascii.eqb first_ch "s")
      && negb (String.eqb rest "") && all_digits rest
  end.

(** *** Scripts, as far as this function looks at them *)

Inductive EidosTokenType : Type :=
| kTokenInterpreterBlock
| kTokenAssign
| kTokenIdentifier
| kTokenOther.

Definition token_type_eqb (a b : EidosTokenType) : bool :=
  match a, b with
  | kTokenInterpreterBlock, kTokenInterpreterBlock => true
  | kTokenAssign, kTokenAssign => true
  | kTokenIdentifier, kTokenIdentifier => true
  | kTokenOther, kTokenOther => true
  | _, _ => false
  end.

Record EidosToken : Type := {
  token_type_ : EidosTokenType;
  token_string_ : string;
  token_end_ : Z;
}.

(** A node and its children; a null child pointer is [None]. *)
#[warnings="-register-all"]
Inductive EidosASTNode : Type := mkEidosASTNode {
  token_ : EidosToken;
  children_ : list (option EidosASTNode);
}.

(** The process state this function touches. *)
Record EidosGlobals : Type := {
  termination_globals : TerminationGlobals;
  string_registry : StringRegistry;
  gEidosConstantsSymbolTable : EidosSymbolTable;
}.

Definition with_termination (G : EidosGlobals) (st : TerminationGlobals) : EidosGlobals :=
  {| termination_globals := st;
     string_registry := string_registry G;
     gEidosConstantsSymbolTable := gEidosConstantsSymbolTable G |}.

Definition with_registry (G : EidosGlobals) (g : StringRegistry) : EidosGlobals :=
  {| termination_globals := termination_globals G;
     string_registry := g;
     gEidosConstantsSymbolTable := gEidosConstantsSymbolTable G |}.

Definition with_constants (G : EidosGlobals) (t : EidosSymbolTable) : EidosGlobals :=
  {| termination_globals := termination_globals G;
     string_registry := string_registry G;
     gEidosConstantsSymbolTable := t |}.

(** [gEidosTerminateThrows = b;] *)
Definition set_throws (b : bool) (st : TerminationGlobals) : TerminationGlobals :=
  {| gEidosTerminateThrows := b;
     gEidosTermination := gEidosTermination st;
     std_cerr := std_cerr st;
     gEidosCharacterStartOfError := gEidosCharacterStartOfError st;
     gEidosCharacterEndOfError := gEidosCharacterEndOfError st;
     gEidosCurrentScript := gEidosCurrentScript st;
     gEidosExecutingRuntimeScript := gEidosExecutingRuntimeScript st;
     gEidosErrorLine := gEidosErrorLine st;
     gEidosErrorLineCharacter := gEidosErrorLineCharacter st |}.

(** How [Eidos_DefineConstantsFromCommandLine] ends. *)
Inductive run_result : Type :=
| Completed (G : EidosGlobals)
| RuntimeError (what : string) (G : EidosGlobals)
| OutOfRange (G : EidosGlobals)
| Exited (status : Z) (G : EidosGlobals).

Definition final_globals (r : run_result) : EidosGlobals :=
  match r with
  | Completed G => G
  | RuntimeError _ G => G
  | OutOfRange G => G
  | Exited _ G => G
  end.

(** [constant.substr(pos)]: throws [std::out_of_range] ([None]) when [pos]
    lies beyond the end; a negative [int] turns into a huge [size_t]. *)
Definition substr_from (constant : string) (pos : Z) : option string :=
  if (0 <=? pos)%Z && (pos <=? Z.of_nat (String.length constant))%Z then
    Some (substring (Z.to_nat pos) (String.length constant - Z.to_nat pos) constant)
  else None.

Definition double_quote : string := String "034"%char "".

Definition malformed_definition_text (constant : string) : string :=
  "ERROR (Eidos_DefineConstantsFromCommandLine): malformed command-line constant definition: "
  +:+ constant.
Definition illegal_name_text (symbol_name : string) : string :=
  "ERROR (Eidos_DefineConstantsFromCommandLine): illegal defined constant name "
  +:+ double_quote +:+ symbol_name +:+ double_quote +:+ ".".

(** How a definition that is refused ends: in the mode saved on entry, with
    [text] and a line end added to the stream of that mode ([rest] is the
    script excerpt, if the terminator prints one). *)
Definition ends_with_diagnostic (save_throws : bool) (text : string) (before : EidosGlobals)
    (r : EidosGlobals + run_result) : Prop :=
  ∃ after rest,
    r = inr (if save_throws then RuntimeError "A runtime error occurred in Eidos" after
             else Exited EXIT_FAILURE after)
    ∧ contents (if save_throws then termination_stream else cerr_stream)
               (termination_globals after)
      = ((contents (if save_throws then termination_stream else cerr_stream)
                   (termination_globals before) +:+ text) +:+ endl) +:+ rest
    ∧ (save_throws = true → rest = "")
    ∧ gEidosTerminateThrows (termination_globals after) = save_throws
    ∧ gEidosConstantsSymbolTable after = gEidosConstantsSymbolTable before
    ∧ string_registry after = string_registry before.

Section CommandLine.
Context `{EidosHeaders}.

(** The text [eidos_print_stacktrace] would print. *)
Variable stack_trace : string.

(** The script front end and the interpreter are not part of the sources at
    hand.  [Script_Parse] stands for [SetFinalSemicolonOptional(true);
    Tokenize(); ParseInterpreterBlockToAST();] followed by [AST()]: [None]
    when an exception escapes, else the root pointer.  [Interpreter_Evaluate]
    stands for building the interpreter over a symbol table and calling
    [EvaluateInterpreterBlock(false)]: [None] when an exception escapes.  Both
    run in throws mode; besides their result they yield the registry as they
    leave it and the text they sent to the termination stream. *)
Variable Script_Parse :
  string → StringRegistry → option (option EidosASTNode) * StringRegistry * string.
Variable Interpreter_Evaluate :
  option EidosASTNode → EidosSymbolTable → StringRegistry
  → option EidosValue_SP * StringRegistry * string.

(** [eidos_terminate(nullptr)]. *)
Definition eidos_terminate_nullptr : eidos_terminate :=
  {| print_backtrace_ := print_backtrace_default |}.

(** [EIDOS_TERMINATION << text << eidos_terminate(nullptr)]. *)
Definition raise (text : string) (st : TerminationGlobals) : termination :=
  terminate_stream stack_trace (EIDOS_TERMINATION st) eidos_terminate_nullptr
    (write (EIDOS_TERMINATION st) text st).

Definition leave (G : EidosGlobals) (t : termination) : run_result :=
  match t with
  | Throws what st => RuntimeError what (with_termination G st)
  | Exits status st => Exited status (with_termination G st)
  end.

(** State after front-end or interpreter code has run in throws mode. *)
Definition after_script_code (G : EidosGlobals) (g : StringRegistry) (text : string)
    : EidosGlobals :=
  with_termination (with_registry G g) (write termination_stream text (termination_globals G)).

Definition Eidos_ValueForCommandLineExpression (p_value_expression : string) (G : EidosGlobals)
    : option EidosValue_SP * EidosGlobals :=
  let '(parsed, g, text) := Script_Parse p_value_expression (string_registry G) in
  let G := after_script_code G g text in
  match parsed with
  | None => (None, G)
  | Some AST =>
      match new_EidosSymbolTable kVariablesTable (Some (gEidosConstantsSymbolTable G))
              p_start_with_hash_default with
      | Terminated msg _ =>
          match raise msg (termination_globals G) with
          | Throws _ st => (None, with_termination G st)
          | Exits _ st => (None, with_termination G st)
          end
      | Returned _ symbol_table =>
          let '(value, g, text) := Interpreter_Evaluate AST symbol_table (string_registry G) in
          (value, after_script_code G g text)
      end
  end.

(** The three nested shape tests on the parsed definition: the symbol name,
    the end of the assignment token and the right-hand node. *)
Definition definition_shape (AST : option EidosASTNode)
    : option (string * Z * option EidosASTNode) :=
  match AST with
  | Some (mkEidosASTNode block_token [top_node]) =>
      if token_type_eqb (token_type_ block_token) kTokenInterpreterBlock then
        match top_node with
        | Some (mkEidosASTNode assign_token [left_node; right_node]) =>
            if token_type_eqb (token_type_ assign_token) kTokenAssign then
              match left_node with
              | Some (mkEidosASTNode identifier_token []) =>
                  if token_type_eqb (token_type_ identifier_token) kTokenIdentifier then
                    Some (token_string_ identifier_token, token_end_ assign_token, right_node)
                  else None
              | _ => None
              end
            else None
        | _ => None
        end
      else None
  | _ => None
  end.

(** The tail of the loop body: "terminate without putting out a script
    line/character diagnostic". *)
Definition malformed_definition (save_throws : bool) (constant : string) (G : EidosGlobals)
    : run_result :=
  let st := set_throws save_throws (termination_globals G) in
  let st := write (EIDOS_TERMINATION st) (malformed_definition_text constant) st in
  if gEidosTerminateThrows st then
    leave G (terminate_stream stack_trace (EIDOS_TERMINATION st) eidos_terminate_nullptr st)
  else Exited EXIT_FAILURE (with_termination G (write (EIDOS_TERMINATION st) endl st)).

Definition illegal_name (save_throws : bool) (symbol_name : string) (G : EidosGlobals)
    : run_result :=
  let st := set_throws save_throws (termination_globals G) in
  leave G (raise (illegal_name_text symbol_name) st).

(** One turn of the loop: [inl] to go on with the next constant. *)
Definition define_constant (save_throws : bool) (constant : string) (G : EidosGlobals)
    : EidosGlobals + run_result :=
  let '(parsed, g, text) := Script_Parse constant (string_registry G) in
  let G := after_script_code G g text in
  match parsed with
  | None => inr (malformed_definition save_throws constant G)
  | Some AST =>
      match definition_shape AST with
      | Some (symbol_name, assign_end, right_node) =>
          if Eidos_GoodSymbolForDefine symbol_name then
            match right_node with
            | Some _ =>
                match substr_from constant (assign_end + 1) with
                | None => inr (OutOfRange G)
                | Some value_expression =>
                    let '(x_value_sp, G) :=
                      Eidos_ValueForCommandLineExpression value_expression G in
                    match x_value_sp with
                    | Some value =>
                        let '(symbol_id, g) :=
                          EidosGlobalStringIDForString symbol_name (string_registry G) in
                        let G := with_registry G g in
                        match _InitializeConstantSymbolEntry symbol_id value
                                (gEidosConstantsSymbolTable G) with
                        | Returned _ table => inl (with_constants G table)
                        | Terminated msg table =>
                            inr (leave (with_constants G table)
                                       (raise msg (termination_globals G)))
                        end
                    | None => inr (malformed_definition save_throws constant G)
                    end
                end
            | None => inr (malformed_definition save_throws constant G)
            end
          else inr (illegal_name save_throws symbol_name G)
      | None => inr (malformed_definition save_throws constant G)
      end
  end.

Fixpoint define_constants (save_throws : bool) (p_constants : list string) (G : EidosGlobals)
    : run_result :=
  match p_constants with
  | [] => Completed (with_termination G (set_throws save_throws (termination_globals G)))
  | constant :: rest =>
      match define_constant save_throws constant G with
      | inl G => define_constants save_throws rest G
      | inr ended => ended
      end
  end.

Definition Eidos_DefineConstantsFromCommandLine (p_constants : list string) (G : EidosGlobals)
    : run_result :=
  let save_throws := gEidosTerminateThrows (termination_globals G) in
  let G := with_termination G (set_throws true (termination_globals G)) in
  define_constants save_throws p_constants G.

End CommandLine.

End eidos_command_line.

(** ** mutation_run.h *)

Module mutation_run.
Import eidos_global.

Definition SLIM_MUTRUN_BUFFER_SIZE : Z := 4.

(** [mutations_] is the array in use, [mutation_capacity_] entries long;
    [on_internal_buffer] says whether it is [mutations_buffer_]. *)
Record MutationRun : Type := {
  intrusive_ref_count : N;
  mutation_count_ : Z;
  mutation_capacity_ : Z;
  mutations_ : list Z;
  on_internal_buffer : bool;
  operation_id_ : Z;
}.

(** [MutationRun(void)]: "constructed empty".  The constructor's body is in
    mutation_run.cpp, not at hand; the object is taken as the header's default
    member initialisers leave it, with a reference count of zero. *)
Definition new_MutationRun : MutationRun :=
  {| intrusive_ref_count := 0;
     mutation_count_ := 0;
     mutation_capacity_ := SLIM_MUTRUN_BUFFER_SIZE;
     mutations_ := replicate (Z.to_nat SLIM_MUTRUN_BUFFER_SIZE) 0%Z;
     on_internal_buffer := true;
     operation_id_ := 0 |}.

Definition size (run : MutationRun) : Z := mutation_count_ run.

Definition with_count (run : MutationRun) (count : Z) : MutationRun :=
  {| intrusive_ref_count := intrusive_ref_count run;
     mutation_count_ := count;
     mutation_capacity_ := mutation_capacity_ run;
     mutations_ := mutations_ run;
     on_internal_buffer := on_internal_buffer run;
     operation_id_ := operation_id_ run |}.

Definition with_ref_count (run : MutationRun) (count : N) : MutationRun :=
  {| intrusive_ref_count := count;
     mutation_count_ := mutation_count_ run;
     mutation_capacity_ := mutation_capacity_ run;
     mutations_ := mutations_ run;
     on_internal_buffer := on_internal_buffer run;
     operation_id_ := operation_id_ run |}.

Section Runs.
Context `{EidosHeaders}.

(** [SLIM_MUTRUN_LOCK_CHECK()]: with [DEBUG], a run referenced more than once
    must not be modified; [LockingViolation] does not return. *)
Definition locking_violation (run : MutationRun) : bool :=
  DEBUG && (1 <? intrusive_ref_count run)%N.

(** The modifying methods; [None] when [LockingViolation] is reached. *)
Definition set_size (p_size : Z) (run : MutationRun) : option MutationRun :=
  if locking_violation run then None else Some (with_count run p_size).

Definition clear (run : MutationRun) : option MutationRun :=
  if locking_violation run then None else Some (with_count run 0).

Definition pop_back (run : MutationRun) : option MutationRun :=
  if locking_violation run then None
  else if (0 <? mutation_count_ run)%Z then Some (with_count run (mutation_count_ run - 1))
  else Some run.

Definition emplace_back (p_mutation_index : Z) (run : MutationRun) : option MutationRun :=
  if locking_violation run then None
  else
    let grown :=
      if (mutation_count_ run =? mutation_capacity_ run)%Z then
        let capacity :=
          if on_internal_buffer run then (SLIM_MUTRUN_BUFFER_SIZE * 2)%Z
          else if (mutation_capacity_ run <? 32)%Z then (mutation_capacity_ run * 2)%Z
          else (mutation_capacity_ run + 16)%Z in
        {| intrusive_ref_count := intrusive_ref_count run;
           mutation_count_ := mutation_count_ run;
           mutation_capacity_ := capacity;
           mutations_ := mutations_ run
                         ++ replicate (Z.to_nat (capacity - mutation_capacity_ run)) 0%Z;
           on_internal_buffer := false;
           operation_id_ := operation_id_ run |}
      else run in
    Some {| intrusive_ref_count := intrusive_ref_count grown;
            mutation_count_ := mutation_count_ grown + 1;
            mutation_capacity_ := mutation_capacity_ grown;
            mutations_ := <[Z.to_nat (mutation_count_ grown) := p_mutation_index]> (mutations_ grown);
            on_internal_buffer := on_internal_buffer grown;
            operation_id_ := operation_id_ grown |}.

(** *** The free list

    Runs live at addresses; [new MutationRun()] takes the next unused one and
    no run is ever deleted. *)
Record RunPool : Type := {
  runs : gmap N MutationRun;
  next_address : N;
  s_freed_mutation_runs_ : list N;
}.

Definition initial_pool : RunPool :=
  {| runs := ∅; next_address := 0; s_freed_mutation_runs_ := [] |}.

Definition NewMutationRun (pool : RunPool) : N * RunPool :=
  match last (s_freed_mutation_runs_ pool) with
  | Some back =>
      (back,
       {| runs := runs pool;
          next_address := next_address pool;
          s_freed_mutation_runs_ := removelast (s_freed_mutation_runs_ pool) |})
  | None =>
      (next_address pool,
       {| runs := <[next_address pool := new_MutationRun]> (runs pool);
          next_address := (next_address pool + 1)%N;
          s_freed_mutation_runs_ := s_freed_mutation_runs_ pool |})
  end.

Definition FreeMutationRun (p_run : N) (pool : RunPool) : RunPool :=
  {| runs := alter (λ run, with_count run 0) p_run (runs pool);
     next_address := next_address pool;
     s_freed_mutation_runs_ := s_freed_mutation_runs_ pool ++ [p_run] |}.

Definition Eidos_intrusive_ptr_add_ref (p_value : N) (pool : RunPool) : RunPool :=
  {| runs := alter (λ run, with_ref_count run (uint32_succ (intrusive_ref_count run)))
                   p_value (runs pool);
     next_address := next_address pool;
     s_freed_mutation_runs_ := s_freed_mutation_runs_ pool |}.

(** [--count] on a [uint32_t]. *)
Definition uint32_pred (n : N) : N := ((n + uint32_modulus - 1) mod uint32_modulus)%N.

Definition Eidos_intrusive_ptr_release (p_value : N) (pool : RunPool) : RunPool :=
  match runs pool !! p_value with
  | Some run =>
      let count := uint32_pred (intrusive_ref_count run) in
      let pool :=
        {| runs := <[p_value := with_ref_count run count]> (runs pool);
           next_address := next_address pool;
           s_freed_mutation_runs_ := s_freed_mutation_runs_ pool |} in
      if (count =? 0)%N then FreeMutationRun p_value pool else pool
  | None => pool
  end.

(** A method call through a pointer; a run stays as it was when the method
    does not return. *)
Definition call_method (method : MutationRun → option MutationRun) (p_run : N) (pool : RunPool)
    : RunPool :=
  {| runs := alter (λ run, default run (method run)) p_run (runs pool);
     next_address := next_address pool;
     s_freed_mutation_runs_ := s_freed_mutation_runs_ pool |}.

(** What the rest of the program does with the pool.  [CallOtherMethod]
    stands for the remaining methods that change the run they are called on
    ([emplace_back_bulk], [insert_sorted_mutation], [copy_from_run],
    [RemoveFixedMutations], writes through [begin_pointer], ...), each given
    by what it does to the run, [None] when it does not return. *)
Inductive pool_call : Type :=
| CallNewMutationRun
| CallFreeMutationRun (p_run : N)
| CallAddRef (p_run : N)
| CallRelease (p_run : N)
| CallSetSize (p_run : N) (p_size : Z)
| CallClear (p_run : N)
| CallPopBack (p_run : N)
| CallEmplaceBack (p_run : N) (p_mutation_index : Z)
| CallOtherMethod (p_run : N) (method : MutationRun → option MutationRun).

Definition run_pool_call (pool : RunPool) (c : pool_call) : RunPool :=
  match c with
  | CallNewMutationRun => snd (NewMutationRun pool)
  | CallFreeMutationRun p_run => FreeMutationRun p_run pool
  | CallAddRef p_run => Eidos_intrusive_ptr_add_ref p_run pool
  | CallRelease p_run => Eidos_intrusive_ptr_release p_run pool
  | CallSetSize p_run p_size => call_method (set_size p_size) p_run pool
  | CallClear p_run => call_method clear p_run pool
  | CallPopBack p_run => call_method pop_back p_run pool
  | CallEmplaceBack p_run p_mutation_index => call_method (emplace_back p_mutation_index) p_run pool
  | CallOtherMethod p_run method => call_method method p_run pool
  end.

(** The pointer a call goes through. *)
Definition pointer_of (c : pool_call) : option N :=
  match c with
  | CallNewMutationRun => None
  | CallFreeMutationRun p | CallAddRef p | CallRelease p | CallSetSize p _
  | CallClear p | CallPopBack p | CallEmplaceBack p _ | CallOtherMethod p _ => Some p
  end.

(** Whether a call modifies the run's contents. *)
Definition modifies_run (c : pool_call) : bool :=
  match c with
  | CallSetSize _ _ | CallClear _ | CallPopBack _ | CallEmplaceBack _ _
  | CallOtherMethod _ _ => true
  | _ => false
  end.

(** Client discipline: every pointer used came from [NewMutationRun], and a
    run that sits on the free list is not modified. *)
Fixpoint disciplined (pool : RunPool) (calls : list pool_call) : Prop :=
  match calls with
  | [] => True
  | c :: rest =>
      match pointer_of c with
      | Some p =>
          is_Some (runs pool !! p)
          ∧ (modifies_run c = true → p ∉ s_freed_mutation_runs_ pool)
      | None => True
      end
      ∧ disciplined (run_pool_call pool c) rest
  end.

(** Every run on the free list is an allocated run with no mutations, and
    allocated addresses lie below the next one to be used. *)
Record pool_inv (pool : RunPool) : Prop := {
  freed_empty : ∀ p, p ∈ s_freed_mutation_runs_ pool →
                     ∃ run, runs pool !! p = Some run ∧ mutation_count_ run = 0%Z;
  allocated_below : ∀ p, is_Some (runs pool !! p) → (p < next_address pool)%N;
}.

End Runs.

End mutation_run.

(** ** Concrete tables and states for the worked examples *)

Module examples.
Import eidos_global eidos_symbol_table eidos_command_line mutation_run.

(** Header constants for the examples: a debug build, arrays of 30 slots,
    the intrinsic names registered under the IDs 1 to 7 and interning that
    starts at 100. *)
Definition headers : EidosHeaders :=
  {| gEidosID_LastContextEntry := 100;
     EIDOS_SYMBOL_TABLE_BASE_SIZE := 30;
     DEBUG := true;
     p_start_with_hash_default := false;
     print_backtrace_default := false;
     gEidosID_T := 1; gEidosID_F := 2; gEidosID_NULL := 3; gEidosID_PI := 4;
     gEidosID_E := 5; gEidosID_INF := 6; gEidosID_NAN := 7 |}.
#[local] Existing Instance headers.

Definition intrinsic_registrations : list registry_call :=
  [CallRegister "T" 1; CallRegister "F" 2; CallRegister "NULL" 3; CallRegister "PI" 4;
   CallRegister "E" 5; CallRegister "INF" 6; CallRegister "NAN" 7].

(** The registry once the intrinsic names are registered and [x] and [y]
    have been interned. *)
Definition registry : StringRegistry :=
  run_calls initial_registry (intrinsic_registrations ++ [CallIntern "x"; CallIntern "y"]).
Definition x_id : N := 100.
Definition y_id : N := 101.

Definition integer (i : Z) : EidosValue_SP :=
  {| get := {| value_data := ValueInt [i]; invisible_ := false |}; use_count := 1 |}.
Definition float (bits : N) : EidosValue_SP :=
  {| get := {| value_data := ValueFloat [bits]; invisible_ := false |}; use_count := 1 |}.
(** The result of an assignment expression: invisible. *)
Definition hidden_integer (i : Z) : EidosValue_SP :=
  {| get := {| value_data := ValueInt [i]; invisible_ := true |}; use_count := 1 |}.
(** 4.0 as a double. *)
Definition four_bits : N := 0x4010000000000000.

Definition intrinsic_table : EidosSymbolTable :=
  state_of (new_EidosSymbolTable kEidosIntrinsicConstantsTable None false).
Definition variables_table : EidosSymbolTable :=
  state_of (new_EidosSymbolTable kVariablesTable (Some intrinsic_table) false).
(** [x = 7] *)
Definition scope_with_x : EidosSymbolTable :=
  state_of (SetValueForSymbol registry x_id (integer 7) variables_table).
(** [defineConstant("y", 3)] after that: a defined-constants table sits
    between the scope and the intrinsic table. *)
Definition scope_with_constant : EidosSymbolTable :=
  state_of (DefineConstantForSymbol registry y_id (integer 3) scope_with_x).

(** A diagnostic waiting for its terminator, in throws mode and in exits
    mode; in the latter the script [x = y;] is current and the error covers
    its fifth byte. *)
Definition undefined_y : string :=
  "ERROR (EidosSymbolTable::_GetValue): undefined identifier y.".
Definition raising_state : TerminationGlobals :=
  {| gEidosTerminateThrows := true;
     gEidosTermination := undefined_y;
     std_cerr := "";
     gEidosCharacterStartOfError := 4;
     gEidosCharacterEndOfError := 4;
     gEidosCurrentScript := Some "x = y;";
     gEidosExecutingRuntimeScript := false;
     gEidosErrorLine := (-1);
     gEidosErrorLineCharacter := (-1) |}.
Definition exiting_state : TerminationGlobals :=
  {| gEidosTerminateThrows := false;
     gEidosTermination := "";
     std_cerr := undefined_y;
     gEidosCharacterStartOfError := 4;
     gEidosCharacterEndOfError := 4;
     gEidosCurrentScript := Some "x = y;";
     gEidosExecutingRuntimeScript := false;
     gEidosErrorLine := (-1);
     gEidosErrorLineCharacter := (-1) |}.
(** The same in exits mode when no script is current. *)
Definition exiting_state_without_script : TerminationGlobals :=
  {| gEidosTerminateThrows := false;
     gEidosTermination := "";
     std_cerr := undefined_y;
     gEidosCharacterStartOfError := (-1);
     gEidosCharacterEndOfError := (-1);
     gEidosCurrentScript := None;
     gEidosExecutingRuntimeScript := false;
     gEidosErrorLine := (-1);
     gEidosErrorLineCharacter := (-1) |}.
Definition quiet_state : TerminationGlobals :=
  {| gEidosTerminateThrows := true;
     gEidosTermination := "";
     std_cerr := "";
     gEidosCharacterStartOfError := (-1);
     gEidosCharacterEndOfError := (-1);
     gEidosCurrentScript := None;
     gEidosExecutingRuntimeScript := false;
     gEidosErrorLine := (-1);
     gEidosErrorLineCharacter := (-1) |}.

(** Trees as the script front end builds them, and the text of a syntax
    error. *)
Definition leaf (type : EidosTokenType) (text : string) (last : Z) : option EidosASTNode :=
  Some (mkEidosASTNode {| token_type_ := type; token_string_ := text; token_end_ := last |} []).
Definition block (last : Z) (statement : option EidosASTNode) : option EidosASTNode :=
  Some (mkEidosASTNode
          {| token_type_ := kTokenInterpreterBlock; token_string_ := ""; token_end_ := last |}
          [statement]).
Definition assignment (name : string) (assign_end : Z) (value : option EidosASTNode)
    : option EidosASTNode :=
  Some (mkEidosASTNode
          {| token_type_ := kTokenAssign; token_string_ := "="; token_end_ := assign_end |}
          [leaf kTokenIdentifier name (assign_end - 1); value]).
Definition syntax_error : string := "ERROR (EidosScript::Parse): unexpected token." +:+ endl.

(** A stand-in for the script front end.  A string [c=e], with [c] a single
    character and [e] not empty, is the assignment of the expression [e] to
    the identifier [c]; [c=] and the empty string are syntax errors; every
    other string is an expression. *)
Definition last_index (script_string : string) : Z :=
  (Z.of_nat (String.length script_string) - 1)%Z.
Definition stand_in_parse (script_string : string) (g : StringRegistry)
    : option (option EidosASTNode) * StringRegistry * string :=
  match script_string with
  | String name (String "="%char (String first rest)) =>
      (Some (block (last_index script_string)
               (assignment (String name "") 1
                  (leaf kTokenOther (String first rest) (last_index script_string)))),
       g, "")
  | String _ (String "="%char EmptyString) => (None, g, syntax_error)
  | String _ _ =>
      (Some (block (last_index script_string)
               (leaf kTokenOther script_string (last_index script_string))),
       g, "")
  | EmptyString => (None, g, syntax_error)
  end.

(** A stand-in for the interpreter: the expression [f()] evaluates to an
    invisible value, as a call made for its effect does, the expression [11]
    to the integer 11 and every other expression to the integer 10. *)
Definition stand_in_evaluate (AST : option EidosASTNode) (symbol_table : EidosSymbolTable)
    (g : StringRegistry) : option EidosValue_SP * StringRegistry * string :=
  match AST with
  | Some (mkEidosASTNode _ [Some (mkEidosASTNode expression [])]) =>
      if (token_string_ expression =? "f()")%string then (Some (hidden_integer 5), g, "")
      else if (token_string_ expression =? "11")%string then (Some (integer 11), g, "")
      else (Some (integer 10), g, "")
  | _ => (None, g, "")
  end.

(** The header constants of [headers] in a release build: [DEBUG] is not
    defined. *)
Definition release_headers : EidosHeaders :=
  {| gEidosID_LastContextEntry := 100;
     EIDOS_SYMBOL_TABLE_BASE_SIZE := 30;
     DEBUG := false;
     p_start_with_hash_default := false;
     print_backtrace_default := false;
     gEidosID_T := 1; gEidosID_F := 2; gEidosID_NULL := 3; gEidosID_PI := 4;
     gEidosID_E := 5; gEidosID_INF := 6; gEidosID_NAN := 7 |}.

(** The process in exits mode before the command line is read, in a debug and
    in a release build: nothing is interned or printed, and
    [gEidosConstantsSymbolTable] is the intrinsic constants table as
    constructed. *)
Definition exits_state : TerminationGlobals :=
  {| gEidosTerminateThrows := false;
     gEidosTermination := "";
     std_cerr := "";
     gEidosCharacterStartOfError := (-1);
     gEidosCharacterEndOfError := (-1);
     gEidosCurrentScript := None;
     gEidosExecutingRuntimeScript := false;
     gEidosErrorLine := (-1);
     gEidosErrorLineCharacter := (-1) |}.
Definition debug_globals : EidosGlobals :=
  {| termination_globals := exits_state;
     string_registry := initial_registry;
     gEidosConstantsSymbolTable := intrinsic_table |}.
Definition release_globals : EidosGlobals :=
  {| termination_globals := exits_state;
     string_registry := @initial_registry release_headers;
     gEidosConstantsSymbolTable :=
       state_of (@new_EidosSymbolTable release_headers kEidosIntrinsicConstantsTable None false) |}.

(** The twenty-three definitions [a=10] to [w=10]: with the seven intrinsic
    constants they fill the 30 slots of the table's array. *)
Definition twenty_three_definitions : list string :=
  map (λ name, String name "=10") (list_ascii_of_string "abcdefghijklmnopqrstuvw").

(** A client of the run pool: take a run, add two mutations, free it. *)
Definition pool_calls : list pool_call :=
  [CallNewMutationRun; CallEmplaceBack 0 11; CallEmplaceBack 0 12; CallFreeMutationRun 0].

End examples.

(** ** More vocabulary for the symbol table *)

Module eidos_symbol_table_shape.
Import eidos_global eidos_symbol_table.

(** The table types along a chain, nearest first. *)
Definition chain_types (this : EidosSymbolTable) : list EidosSymbolTableType :=
  table_type_ <$> chain this.

(** The IDs the constructor enters into a table that has no parent, in the
    order of its seven calls. *)
Definition intrinsic_ids `{EidosHeaders} : list N :=
  [gEidosID_NAN; gEidosID_INF; gEidosID_PI; gEidosID_E; gEidosID_NULL; gEidosID_F; gEidosID_T].

(** The seven entries of the constructor, with their values. *)
Definition intrinsic_entries `{EidosHeaders} : list (N * EidosValue_SP) :=
  [(gEidosID_NAN, static_value (ValueFloat [quiet_NaN_bits]));
   (gEidosID_INF, static_value (ValueFloat [infinity_bits]));
   (gEidosID_PI, static_value (ValueFloat [M_PI_bits]));
   (gEidosID_E, static_value (ValueFloat [M_E_bits]));
   (gEidosID_NULL, gStaticEidosValueNULL);
   (gEidosID_F, gStaticEidosValue_LogicalF);
   (gEidosID_T, gStaticEidosValue_LogicalT)].

(** A run of [_InitializeConstantSymbolEntry] calls, one per entry. *)
Fixpoint enter_constants `{EidosHeaders} (entries : list (N * EidosValue_SP))
    (this : EidosSymbolTable) : outcome EidosSymbolTable unit :=
  match entries with
  | [] => Returned tt this
  | (id, value) :: rest =>
      and_then (_InitializeConstantSymbolEntry id value this) (λ _ this, enter_constants rest this)
  end.

(** [_GetValue_IsConst]: the value, and what the call leaves in
    [*p_is_const]. *)
Fixpoint _GetValue_IsConst (g : StringRegistry) (p_symbol_name : N) (this : EidosSymbolTable)
    : result (EidosValue * bool) :=
  match this with
  | mkEidosSymbolTable type internal slots hash parent =>
      let hit :=
        if internal then
          match scan_slots p_symbol_name slots (length slots) with
          | Some symbol_index => symbol_value_SP_ <$> slots !! symbol_index
          | None => None
          end
        else hash !! p_symbol_name in
      match hit with
      | Some value => Ok (value, negb (table_type_eqb type kVariablesTable))
      | None =>
          match parent with
          | Some parent_table => _GetValue_IsConst g p_symbol_name parent_table
          | None => Raise (undefined_identifier g p_symbol_name)
          end
      end
  end.

End eidos_symbol_table_shape.

(** ** mutation_run.h: the methods that read and write a run's mutations *)

Module mutation_run_methods.
Import eidos_global mutation_run.

(** The entries in use, [begin_pointer_const()] up to [end_pointer_const()]. *)
Definition contents (run : MutationRun) : list Z :=
  take (Z.to_nat (mutation_count_ run)) (mutations_ run).

(** What the class keeps true of its members: the count is within the
    capacity, [mutations_] has [mutation_capacity_] entries, no array is
    smaller than the internal buffer, and the internal buffer has
    [SLIM_MUTRUN_BUFFER_SIZE] entries. *)
Record run_ok (run : MutationRun) : Prop := {
  count_in_capacity : (0 ≤ mutation_count_ run ≤ mutation_capacity_ run)%Z;
  capacity_allocated : length (mutations_ run) = Z.to_nat (mutation_capacity_ run);
  capacity_at_least_buffer : (SLIM_MUTRUN_BUFFER_SIZE ≤ mutation_capacity_ run)%Z;
  buffer_capacity :
    on_internal_buffer run = true → mutation_capacity_ run = SLIM_MUTRUN_BUFFER_SIZE;
}.

Definition with_mutations (run : MutationRun) (mutations : list Z) : MutationRun :=
  {| intrusive_ref_count := intrusive_ref_count run;
     mutation_count_ := mutation_count_ run;
     mutation_capacity_ := mutation_capacity_ run;
     mutations_ := mutations;
     on_internal_buffer := on_internal_buffer run;
     operation_id_ := operation_id_ run |}.

(** [memcpy(dst + offset, src, ...)] with the whole of [src] copied; the
    callers make room in [dst] first. *)
Definition memcpy (dst : list Z) (offset : nat) (src : list Z) : list Z :=
  take offset dst ++ src ++ drop (offset + length src) dst.

(** [memmove(dst + to, dst + from, n entries)]. *)
Definition memmove (dst : list Z) (to from n : nat) : list Z :=
  memcpy dst to (take n (drop from dst)).

(** The loop of [contains_mutation] over the entries in use. *)
Fixpoint scan_for (p_mutation_index : Z) (positions : list Z) : bool :=
  match positions with
  | [] => false
  | entry :: rest =>
      if (entry =? p_mutation_index)%Z then true else scan_for p_mutation_index rest
  end.

Definition contains_mutation (p_mutation_index : Z) (run : MutationRun) : bool :=
  scan_for p_mutation_index (contents run).

(** "Up to a point, we want to double our capacity each time we have to
    realloc.  Beyond a certain point ... we start expanding at a linear rate". *)
Definition grow_capacity (capacity : Z) : Z :=
  if (capacity <? 32)%Z then (capacity * 2)%Z else (capacity + 16)%Z.

(** [while (needed > capacity) capacity = grow_capacity(capacity)]; [None]
    when the loop is still running after [fuel] rounds. *)
Fixpoint grow_until (fuel : nat) (needed capacity : Z) {struct fuel} : option Z :=
  if (needed >? capacity)%Z then
    match fuel with
    | O => None
    | S fuel => grow_until fuel needed (grow_capacity capacity)
    end
  else Some capacity.

Section Methods.
Context `{EidosHeaders}.

(** [emplace_back_bulk]: [None] when it does not return.  The caller passes
    at least [p_copy_count] indices.  Memory that [malloc] and [realloc] hand
    over uninitialised reads as 0. *)
Definition emplace_back_bulk (p_mutation_indices : list Z) (p_copy_count : Z)
    (run : MutationRun) : option MutationRun :=
  if locking_violation run then None
  else
    let needed := (mutation_count_ run + p_copy_count)%Z in
    let grown :=
      if (needed >? mutation_capacity_ run)%Z then
        if on_internal_buffer run then
          capacity ← grow_until (Z.to_nat needed) needed (SLIM_MUTRUN_BUFFER_SIZE * 2);
          Some {| intrusive_ref_count := intrusive_ref_count run;
                  mutation_count_ := mutation_count_ run;
                  mutation_capacity_ := capacity;
                  mutations_ := memcpy (replicate (Z.to_nat capacity) 0%Z) 0 (contents run);
                  on_internal_buffer := false;
                  operation_id_ := operation_id_ run |}
        else
          capacity ← grow_until (Z.to_nat needed) needed
                                (grow_capacity (mutation_capacity_ run));
          Some {| intrusive_ref_count := intrusive_ref_count run;
                  mutation_count_ := mutation_count_ run;
                  mutation_capacity_ := capacity;
                  mutations_ := resize (Z.to_nat capacity) 0%Z (mutations_ run);
                  on_internal_buffer := false;
                  operation_id_ := operation_id_ run |}
      else Some run in
    grown ← grown;
    Some {| intrusive_ref_count := intrusive_ref_count grown;
            mutation_count_ := mutation_count_ grown + p_copy_count;
            mutation_capacity_ := mutation_capacity_ grown;
            mutations_ := memcpy (mutations_ grown) (Z.to_nat (mutation_count_ grown))
                                 (take (Z.to_nat p_copy_count) p_mutation_indices);
            on_internal_buffer := on_internal_buffer grown;
            operation_id_ := operation_id_ grown |}.

(** [copy_from_run]. *)
Definition copy_from_run (p_source_run : MutationRun) (run : MutationRun)
    : option MutationRun :=
  if locking_violation run then None
  else
    let source_mutation_count := mutation_count_ p_source_run in
    let grown :=
      if (source_mutation_count >? mutation_capacity_ run)%Z then
        {| intrusive_ref_count := intrusive_ref_count run;
           mutation_count_ := mutation_count_ run;
           mutation_capacity_ := mutation_capacity_ p_source_run;
           mutations_ :=
             resize (Z.to_nat (mutation_capacity_ p_source_run)) 0%Z
                    (if on_internal_buffer run then [] else mutations_ run);
           on_internal_buffer := false;
           operation_id_ := operation_id_ run |}
      else run in
    Some {| intrusive_ref_count := intrusive_ref_count grown;
            mutation_count_ := source_mutation_count;
            mutation_capacity_ := mutation_capacity_ grown;
            mutations_ := memcpy (mutations_ grown) 0 (contents p_source_run);
            on_internal_buffer := on_internal_buffer grown;
            operation_id_ := operation_id_ grown |}.

(** [begin_pointer()] and [end_pointer()] check the lock as well. *)
Definition begin_pointer (run : MutationRun) : option nat :=
  if locking_violation run then None else Some 0.

Definition end_pointer (run : MutationRun) : option nat :=
  if locking_violation run then None else Some (Z.to_nat (mutation_count_ run)).

Definition end_pointer_const (run : MutationRun) : nat := Z.to_nat (mutation_count_ run).

(** *** Sorted insertion

    [CompareMutations] and [gSLiM_Mutation_Block] are declared in mutation.h,
    which is not among the sources; the comparison of the mutations at two
    indices of the block is a parameter here. *)
Variable CompareMutations : Z → Z → bool.

(** The loop of [insert_sorted_mutation]: where [sort_position] stands when
    the loop is left, [end_position] when it ran to the end. *)
Fixpoint find_sort_position (p_mutation_index : Z) (sort_position : nat) (before : list Z)
    : nat :=
  match before with
  | [] => sort_position
  | entry :: rest =>
      if CompareMutations p_mutation_index entry then sort_position
      else find_sort_position p_mutation_index (S sort_position) rest
  end.

(** "the new mutation has a position less than that at sort_position, so we
    need to move everybody upward ... finally, put the mutation where it
    belongs". *)
Definition move_upward_and_put (p_mutation_index : Z) (sort_position end_position : nat)
    (run : MutationRun) : MutationRun :=
  with_mutations run
    (<[sort_position := p_mutation_index]>
       (memmove (mutations_ run) (S sort_position) sort_position
                (end_position - sort_position))).

Definition insert_sorted_mutation (p_mutation_index : Z) (run : MutationRun)
    : option MutationRun :=
  run ← emplace_back p_mutation_index run;
  if (mutation_count_ run =? 1)%Z then Some run
  else
    begin ← begin_pointer run;
    let end_position := end_pointer_const run - 1 in
    let sort_position :=
      find_sort_position p_mutation_index begin (take end_position (mutations_ run)) in
    if (sort_position =? end_position)%nat then Some run
    else Some (move_upward_and_put p_mutation_index sort_position end_position run).

(** The loop of [insert_sorted_mutation_if_unique] has a third way out. *)
Inductive unique_scan : Type :=
| LeftAt (sort_position : nat)
| Discarded.

Fixpoint find_unique_sort_position (p_mutation_index : Z) (sort_position : nat)
    (before : list Z) : unique_scan :=
  match before with
  | [] => LeftAt sort_position
  | entry :: rest =>
      if CompareMutations p_mutation_index entry then LeftAt sort_position
      else if (p_mutation_index =? entry)%Z then Discarded
      else find_unique_sort_position p_mutation_index (S sort_position) rest
  end.

Definition insert_sorted_mutation_if_unique (p_mutation_index : Z) (run : MutationRun)
    : option MutationRun :=
  run ← emplace_back p_mutation_index run;
  if (mutation_count_ run =? 1)%Z then Some run
  else
    begin ← begin_pointer run;
    let end_position := end_pointer_const run - 1 in
    match find_unique_sort_position p_mutation_index begin
                                    (take end_position (mutations_ run)) with
    | Discarded => Some (with_count run (mutation_count_ run - 1))
    | LeftAt sort_position =>
        if (sort_position =? end_position)%nat then Some run
        else Some (move_upward_and_put p_mutation_index sort_position end_position run)
    end.

End Methods.

(** *** Hash and Identical *)

Definition uint64_modulus : Z := 2 ^ 64.

(** Conversion to [uint64_t], and of a [uint64_t] to the [int64_t] returned. *)
Definition to_uint64 (z : Z) : Z := (z mod uint64_modulus)%Z.
Definition to_int64 (z : Z) : Z := if (z <? 2 ^ 63)%Z then z else (z - uint64_modulus)%Z.

(** [(uint64_t)entry + (hash << 6) + (hash << 16) - hash], in [uint64_t]
    arithmetic: wrapping each operation is wrapping the exact result. *)
Definition Hash_step (entry hash : Z) : Z :=
  to_uint64 (to_uint64 entry + Z.shiftl hash 6 + Z.shiftl hash 16 - hash).

(** The [for] loop of [Hash], [mut_index += 4] each round. *)
Fixpoint Hash_loop (fuel : nat) (run : MutationRun) (mut_index hash : Z) : Z :=
  match fuel with
  | O => hash
  | S fuel =>
      if (mut_index <? mutation_count_ run)%Z then
        Hash_loop fuel run (mut_index + 4)
                  (Hash_step (mutations_ run !!! Z.to_nat mut_index) hash)
      else hash
  end.

(** One round per entry would be enough fuel; the loop makes a quarter of them. *)
Definition Hash (run : MutationRun) : Z :=
  to_int64 (Hash_loop (Z.to_nat (mutation_count_ run)) run 0
                      (to_uint64 (mutation_count_ run))).

(** [memcmp(...) != 0] over entries of equal width is inequality of the two
    ranges. *)
Definition Identical (p_run : MutationRun) (run : MutationRun) : bool :=
  if negb (mutation_count_ run =? mutation_count_ p_run)%Z then false
  else if negb (bool_decide (contents run
                             = take (Z.to_nat (mutation_count_ run)) (mutations_ p_run)))
       then false
  else true.

(** Entries 0, 4, 8, ... of a list. *)
Fixpoint every_fourth_from (skip : nat) (l : list Z) : list Z :=
  match l with
  | [] => []
  | x :: rest =>
      match skip with
      | O => x :: every_fourth_from 3 rest
      | S skip => every_fourth_from skip rest
      end
  end.

Definition every_fourth (l : list Z) : list Z := every_fourth_from 0 l.

(** Sorted by the position a mutation has in the mutation block. *)
Fixpoint sorted_by (position : Z → Z) (l : list Z) : Prop :=
  match l with
  | [] => True
  | x :: rest => Forall (λ y, (position x ≤ position y)%Z) rest ∧ sorted_by position rest
  end.

End mutation_run_methods.

(** ** eidos_global.cpp: the strings Eidos registers at start-up *)

Module eidos_global_strings.
Import eidos_global.

(** The IDs eidos_global.h gives to the registered strings, besides those of
    the intrinsic constants. *)
Class EidosStringIDs : Type := {
  gEidosID_method : N;
  gEidosID_size : N;
  gEidosID_property : N;
  gEidosID_str : N;
  gEidosID_applyValue : N;
  gEidosID__TestElement : N;
  gEidosID__yolk : N;
  gEidosID__increment : N;
  gEidosID__cubicYolk : N;
  gEidosID__squareTest : N;
  gEidosID_weights : N;
  gEidosID_n : N;
  gEidosID_x : N;
  gEidosID_y : N;
  gEidosID_z : N;
  gEidosID_color : N;
}.

Definition gEidosStr_method : string := "method".
Definition gEidosStr_size : string := "size".
Definition gEidosStr_property : string := "property".
Definition gEidosStr_str : string := "str".
Definition gEidosStr_applyValue : string := "applyValue".
Definition gEidosStr_T : string := "T".
Definition gEidosStr_F : string := "F".
Definition gEidosStr_NULL : string := "NULL".
Definition gEidosStr_PI : string := "PI".
Definition gEidosStr_E : string := "E".
Definition gEidosStr_INF : string := "INF".
Definition gEidosStr_NAN : string := "NAN".
Definition gEidosStr__TestElement : string := "_TestElement".
Definition gEidosStr__yolk : string := "_yolk".
Definition gEidosStr__increment : string := "_increment".
Definition gEidosStr__cubicYolk : string := "_cubicYolk".
Definition gEidosStr__squareTest : string := "_squareTest".
Definition gEidosStr_weights : string := "weights".
Definition gEidosStr_n : string := "n".
Definition gEidosStr_x : string := "x".
Definition gEidosStr_y : string := "y".
Definition gEidosStr_z : string := "z".
Definition gEidosStr_color : string := "color".

Section Strings.
Context `{EidosHeaders} `{EidosStringIDs}.

(** The calls of [Eidos_RegisterGlobalStringsAndIDs], in their order. *)
Definition global_strings_and_ids : list (string * N) :=
  [(gEidosStr_method, gEidosID_method);
   (gEidosStr_size, gEidosID_size);
   (gEidosStr_property, gEidosID_property);
   (gEidosStr_str, gEidosID_str);
   (gEidosStr_applyValue, gEidosID_applyValue);
   (gEidosStr_T, gEidosID_T);
   (gEidosStr_F, gEidosID_F);
   (gEidosStr_NULL, gEidosID_NULL);
   (gEidosStr_PI, gEidosID_PI);
   (gEidosStr_E, gEidosID_E);
   (gEidosStr_INF, gEidosID_INF);
   (gEidosStr_NAN, gEidosID_NAN);
   (gEidosStr__TestElement, gEidosID__TestElement);
   (gEidosStr__yolk, gEidosID__yolk);
   (gEidosStr__increment, gEidosID__increment);
   (gEidosStr__cubicYolk, gEidosID__cubicYolk);
   (gEidosStr__squareTest, gEidosID__squareTest);
   (gEidosStr_weights, gEidosID_weights);
   (gEidosStr_n, gEidosID_n);
   (gEidosStr_x, gEidosID_x);
   (gEidosStr_y, gEidosID_y);
   (gEidosStr_z, gEidosID_z);
   (gEidosStr_color, gEidosID_color)].

(** One [Eidos_RegisterStringForGlobalID] call after the other; a call that
    terminates skips the rest. *)
Fixpoint register_each (entries : list (string * N)) (g : StringRegistry)
    : outcome StringRegistry unit :=
  match entries with
  | [] => Returned tt g
  | (p_string, p_string_id) :: rest =>
      and_then (Eidos_RegisterStringForGlobalID p_string p_string_id g)
               (λ _ g, register_each rest g)
  end.

(** The registry together with the function's [static bool been_here]. *)
Record RegistryGlobals : Type := {
  been_here : bool;
  the_registry : StringRegistry;
}.

Definition Eidos_RegisterGlobalStringsAndIDs (st : RegistryGlobals)
    : outcome RegistryGlobals unit :=
  if negb (been_here st) then
    inside (λ g, {| been_here := true; the_registry := g |})
           (register_each global_strings_and_ids (the_registry st))
  else Returned tt st.

End Strings.

End eidos_global_strings.

(** ** eidos_global.cpp: where in the script an error lies *)

Module eidos_global_position.
Import eidos_global.

(** [eidos_script_error_position]: the same search as in
    [eidos_log_script_error], without output and with both globals reset
    first. *)
Definition eidos_script_error_position (p_start p_end : Z) (p_script : option string)
    (st : TerminationGlobals) : TerminationGlobals :=
  let st := set_error_line (-1) (-1) st in
  match p_script with
  | Some script_string =>
      if (0 <=? p_start)%Z && (p_start <=? p_end)%Z then
        let length := Z.of_nat (String.length script_string) in
        if (p_start <=? length)%Z && (p_end <=? length)%Z then
          let '(lineStart, lineEnd, lineNumber) :=
            locate_error_line script_string p_start p_end in
          set_error_line lineNumber (p_start - lineStart)%Z st
        else st
      else st
  | None => st
  end.

(** A text made of line breaks only. *)
Definition only_line_breaks (text : string) : Prop :=
  ∀ i c, String.get i text = Some c → is_line_break c = true.

(** [count] spaces. *)
Fixpoint spaces (count : nat) : string :=
  match count with
  | O => ""
  | S count => String " "%char (spaces count)
  end.

End eidos_global_position.

(** ** eidos_rng.h: random booleans *)

Module eidos_rng.

(** [gEidos_random_bool_bit_counter] and [gEidos_random_bool_bit_buffer]. *)
Record RandomBoolGlobals : Type := {
  gEidos_random_bool_bit_counter : Z;
  gEidos_random_bool_bit_buffer : Z;
}.

Section Generator.
(** The GSL generator: its state, and [gsl_rng_get], which returns an
    [unsigned long] and moves the state on. *)
Variable gsl_rng : Type.
Variable gsl_rng_get : gsl_rng → Z * gsl_rng.

Definition eidos_random_bool (r : gsl_rng) (st : RandomBoolGlobals)
    : bool * gsl_rng * RandomBoolGlobals :=
  if (0 <? gEidos_random_bool_bit_counter st)%Z then
    let buffer := Z.shiftr (gEidos_random_bool_bit_buffer st) 1 in
    (negb (Z.land buffer 1 =? 0)%Z, r,
     {| gEidos_random_bool_bit_counter := gEidos_random_bool_bit_counter st - 1;
        gEidos_random_bool_bit_buffer := buffer |})
  else
    let '(buffer, r) := gsl_rng_get r in
    (negb (Z.land buffer 1 =? 0)%Z, r,
     {| gEidos_random_bool_bit_counter := 31;
        gEidos_random_bool_bit_buffer := buffer |}).

(** [count] calls in a row. *)
Fixpoint random_bools (count : nat) (r : gsl_rng) (st : RandomBoolGlobals)
    : list bool * gsl_rng * RandomBoolGlobals :=
  match count with
  | O => ([], r, st)
  | S count =>
      let '(retval, r, st) := eidos_random_bool r st in
      let '(rest, r, st) := random_bools count r st in
      (retval :: rest, r, st)
  end.

End Generator.

End eidos_rng.

(** ** eidos_global.cpp: the memory limit and the home directory *)

Module eidos_memory.

(** [size_t] is 64 bits wide. *)
Definition size_t_modulus : Z := 2 ^ 64.

Definition ten_megabytes : Z := 10 * 1024 * 1024.

(** "more than 1024 TB" *)
Definition unlimited_above : Z := 1024 * 1024 * 1024 * 1024 * 1024.

(** A warning sent to [std::cerr]: the two messages and the two sizes, which
    the source prints in MB as floating-point numbers. *)
Record memory_warning : Type := {
  warning_message1 : string;
  warning_current_rss : Z;
  warning_max_rss : Z;
  warning_message2 : string;
}.

(** The statics of [EidosGetMaxRSS] and of [EidosCheckRSSAgainstMax], the
    flag [eidos_do_memory_checks], and the warnings printed so far. *)
Record MemoryGlobals : Type := {
  EidosGetMaxRSS_beenHere : bool;
  EidosGetMaxRSS_max_rss : Z;
  EidosCheckRSSAgainstMax_beenHere : bool;
  EidosCheckRSSAgainstMax_max_rss : Z;
  eidos_do_memory_checks : bool;
  warnings_printed : list memory_warning;
}.

Definition initial_memory_globals (eidos_do_memory_checks : bool) : MemoryGlobals :=
  {| EidosGetMaxRSS_beenHere := false;
     EidosGetMaxRSS_max_rss := 0;
     EidosCheckRSSAgainstMax_beenHere := false;
     EidosCheckRSSAgainstMax_max_rss := 0;
     eidos_do_memory_checks := eidos_do_memory_checks;
     warnings_printed := [] |}.

(** [getrlimit(RLIMIT_RSS, &rlim)]: [Some rlim_max] when it returns 0. *)
Definition EidosGetMaxRSS (getrlimit : option Z) (st : MemoryGlobals) : Z * MemoryGlobals :=
  if negb (EidosGetMaxRSS_beenHere st) then
    let max_rss :=
      match getrlimit with
      | Some rlim_max =>
          let max_rss := (rlim_max mod size_t_modulus)%Z in
          if (max_rss >? unlimited_above)%Z then 0%Z else max_rss
      | None => 0%Z
      end in
    (max_rss,
     {| EidosGetMaxRSS_beenHere := true;
        EidosGetMaxRSS_max_rss := max_rss;
        EidosCheckRSSAgainstMax_beenHere := EidosCheckRSSAgainstMax_beenHere st;
        EidosCheckRSSAgainstMax_max_rss := EidosCheckRSSAgainstMax_max_rss st;
        eidos_do_memory_checks := eidos_do_memory_checks st;
        warnings_printed := warnings_printed st |})
  else (EidosGetMaxRSS_max_rss st, st).

(** [current_rss + 10L*1024L*1024L > max_rss], in [size_t] arithmetic. *)
Definition close_to_limit (current_rss max_rss : Z) : bool :=
  ((current_rss + ten_megabytes) mod size_t_modulus >? max_rss)%Z.

(** What the operating system answers during one call: [getrlimit], and
    [EidosGetCurrentRSS()] at the sanity check and at the check proper. *)
Record system_answers : Type := {
  getrlimit : option Z;
  current_rss_at_first_call : Z;
  current_rss : Z;
}.

Definition EidosCheckRSSAgainstMax (os : system_answers) (p_message1 p_message2 : string)
    (st : MemoryGlobals) : MemoryGlobals :=
  let st :=
    if negb (EidosCheckRSSAgainstMax_beenHere st) then
      let '(max_rss, st) := EidosGetMaxRSS (getrlimit os) st in
      let max_rss :=
        if negb (max_rss =? 0)%Z then
          if close_to_limit (current_rss_at_first_call os) max_rss then 0%Z else max_rss
        else max_rss in
      {| EidosGetMaxRSS_beenHere := EidosGetMaxRSS_beenHere st;
         EidosGetMaxRSS_max_rss := EidosGetMaxRSS_max_rss st;
         EidosCheckRSSAgainstMax_beenHere := true;
         EidosCheckRSSAgainstMax_max_rss := max_rss;
         eidos_do_memory_checks :=
           if (max_rss =? 0)%Z then false else eidos_do_memory_checks st;
         warnings_printed := warnings_printed st |}
    else st in
  if eidos_do_memory_checks st && negb (EidosCheckRSSAgainstMax_max_rss st =? 0)%Z then
    if close_to_limit (current_rss os) (EidosCheckRSSAgainstMax_max_rss st) then
      {| EidosGetMaxRSS_beenHere := EidosGetMaxRSS_beenHere st;
         EidosGetMaxRSS_max_rss := EidosGetMaxRSS_max_rss st;
         EidosCheckRSSAgainstMax_beenHere := EidosCheckRSSAgainstMax_beenHere st;
         EidosCheckRSSAgainstMax_max_rss := EidosCheckRSSAgainstMax_max_rss st;
         eidos_do_memory_checks := false;
         warnings_printed :=
           warnings_printed st
           ++ [{| warning_message1 := p_message1;
                  warning_current_rss := current_rss os;
                  warning_max_rss := EidosCheckRSSAgainstMax_max_rss st;
                  warning_message2 := p_message2 |}] |}
    else st
  else st.

(** The calls a run of the program makes, each with what the system answers
    at that time. *)
Definition check_calls (st : MemoryGlobals) (calls : list (system_answers * string * string))
    : MemoryGlobals :=
  foldl (λ st '(os, p_message1, p_message2), EidosCheckRSSAgainstMax os p_message1 p_message2 st)
        st calls.

(** What holds of the globals between calls of [EidosCheckRSSAgainstMax],
    [flag] being the value [eidos_do_memory_checks] started with. *)
Record memory_inv (flag : bool) (st : MemoryGlobals) : Prop := {
  at_most_one : (length (warnings_printed st) ≤ 1)%nat;
  warned_is_off : warnings_printed st ≠ [] → eidos_do_memory_checks st = false;
  warned_was_on : warnings_printed st ≠ [] → flag = true;
  limit_sane :
    EidosCheckRSSAgainstMax_beenHere st = true →
    (0 ≤ EidosCheckRSSAgainstMax_max_rss st ≤ unlimited_above)%Z;
  no_limit_is_off :
    EidosCheckRSSAgainstMax_beenHere st = true →
    EidosCheckRSSAgainstMax_max_rss st = 0%Z → eidos_do_memory_checks st = false;
  warnings_real :
    Forall (λ w, (0 < warning_max_rss w ≤ unlimited_above)%Z
                 ∧ close_to_limit (warning_current_rss w) (warning_max_rss w) = true)
           (warnings_printed st);
  fresh_is_quiet :
    EidosCheckRSSAgainstMax_beenHere st = false →
    EidosGetMaxRSS_beenHere st = false
    ∧ warnings_printed st = [] ∧ eidos_do_memory_checks st = flag;
  off_stays : flag = false → eidos_do_memory_checks st = false;
}.


End eidos_memory.

(** ** slim_global.h: clamping Eidos integers to SLiM's types *)

Module slim_global.

Definition SLIM_MAX_GENERATION : Z := 1000000000.
Definition SLIM_MAX_BASE_POSITION : Z := 1000000000.
Definition SLIM_MAX_ID_VALUE : Z := 1000000000.
Definition SLIM_MAX_SUBPOP_SIZE : Z := 1000000000.

(** Conversion to [int32_t], as [static_cast] and [return] do it. *)
Definition to_int32 (z : Z) : Z := ((z + 2 ^ 31) mod 2 ^ 32 - 2 ^ 31)%Z.

Definition SLiMClampToGenerationType (p_long_value : Z) : Z :=
  if (p_long_value <? 1)%Z then 1%Z
  else if (p_long_value >? SLIM_MAX_GENERATION)%Z then to_int32 SLIM_MAX_GENERATION
  else to_int32 p_long_value.

Definition SLiMClampToPositionType (p_long_value : Z) : Z :=
  if (p_long_value <? 0)%Z then 0%Z
  else if (p_long_value >? SLIM_MAX_BASE_POSITION)%Z then to_int32 SLIM_MAX_BASE_POSITION
  else to_int32 p_long_value.

Definition SLiMClampToObjectidType (p_long_value : Z) : Z :=
  if (p_long_value <? 0)%Z then 0%Z
  else if (p_long_value >? SLIM_MAX_ID_VALUE)%Z then to_int32 SLIM_MAX_ID_VALUE
  else to_int32 p_long_value.

Definition SLiMClampToPopsizeType (p_long_value : Z) : Z :=
  if (p_long_value <? 0)%Z then 0%Z
  else if (p_long_value >? SLIM_MAX_SUBPOP_SIZE)%Z then to_int32 SLIM_MAX_SUBPOP_SIZE
  else to_int32 p_long_value.

End slim_global.

(** ** Concrete runs, scripts and answers for the further worked examples *)

Module more_examples.
Import eidos_global eidos_symbol_table mutation_run mutation_run_methods.
Import eidos_global_strings eidos_rng eidos_memory examples.

(** The remaining registered strings under the IDs 8 to 23. *)
Definition string_ids : EidosStringIDs :=
  {| gEidosID_method := 8; gEidosID_size := 9; gEidosID_property := 10; gEidosID_str := 11;
     gEidosID_applyValue := 12; gEidosID__TestElement := 13; gEidosID__yolk := 14;
     gEidosID__increment := 15; gEidosID__cubicYolk := 16; gEidosID__squareTest := 17;
     gEidosID_weights := 18; gEidosID_n := 19; gEidosID_x := 20; gEidosID_y := 21;
     gEidosID_z := 22; gEidosID_color := 23 |}.

(** A run with three mutations in its internal buffer, held by one genome;
    the fourth entry is left over from an earlier use. *)
Definition three_mutations : MutationRun :=
  {| intrusive_ref_count := 1;
     mutation_count_ := 3;
     mutation_capacity_ := 4;
     mutations_ := [10; 25; 30; 77]%Z;
     on_internal_buffer := true;
     operation_id_ := 0 |}.

(** The same three mutations in a run that has outgrown its buffer. *)
Definition three_of_eight : MutationRun :=
  {| intrusive_ref_count := 1;
     mutation_count_ := 3;
     mutation_capacity_ := 8;
     mutations_ := [10; 25; 30; 41; 52; 0; 0; 0]%Z;
     on_internal_buffer := false;
     operation_id_ := 0 |}.

(** A run of six mutations. *)
Definition six_mutations : MutationRun :=
  {| intrusive_ref_count := 1;
     mutation_count_ := 6;
     mutation_capacity_ := 8;
     mutations_ := [10; 25; 30; 41; 52; 63; 0; 0]%Z;
     on_internal_buffer := false;
     operation_id_ := 0 |}.

(** Six mutations that differ from those in the second, third and sixth
    place. *)
Definition six_others : MutationRun :=
  {| intrusive_ref_count := 1;
     mutation_count_ := 6;
     mutation_capacity_ := 8;
     mutations_ := [10; 26; 31; 41; 52; 64; 0; 0]%Z;
     on_internal_buffer := false;
     operation_id_ := 0 |}.

(** A mutation block in which mutation [i] sits at position [i / 10], so that
    mutations 25 and 27 share a position. *)
Definition position_in_block (index : Z) : Z := (index / 10)%Z.
Definition compare_in_block (a b : Z) : bool := (position_in_block a <? position_in_block b)%Z.

(** A pool with one run that one pointer refers to. *)
Definition pool_with_run : RunPool :=
  {| runs := {[ 0%N := three_mutations ]}; next_address := 1; s_freed_mutation_runs_ := [] |}.

(** A script of two lines, the second indented with a tab. *)
Definition two_lines : string :=
  "a = 1;" +:+ String newline (String tab "b = c;").

(** A generator that counts: its numbers are 0xA5, 0xA6, ... *)
Definition counting_rng (r : nat) : Z * nat := ((165 + Z.of_nat r)%Z, S r).

End more_examples.

(* ################################################################# *)
(** * Properties *)

Section RegistryFacts.
Import eidos_global.
Context `{EidosHeaders}.

Lemma initial_registry_inv : registry_inv initial_registry.
Proof.
  split; simpl.
  - intros s id Hs. by rewrite lookup_empty in Hs.
  - intros id [x Hx]. by rewrite lookup_empty in Hx.
  - lia.
Qed.

Lemma uint32_succ_no_wrap (n : N) :
  (n + 1 < uint32_modulus)%N → uint32_succ n = (n + 1)%N.
Proof. intros Hn. unfold uint32_succ. by apply N.mod_small. Qed.

Lemma run_call_inv (g : StringRegistry) (c : registry_call) :
  registry_inv g →
  (gNextUnusedID g + 1 < uint32_modulus)%N →
  registry_inv (run_call g c) ∧ (gNextUnusedID (run_call g c) ≤ gNextUnusedID g + 1)%N.
Proof.
  intros [Hback Hbelow Hfloor] Hroom.
  destruct c as [s id | s]; simpl.
  - unfold Eidos_RegisterStringForGlobalID.
    destruct (gStringToID g !! s) as [old|] eqn:Hs; simpl; [split; [done | lia] |].
    destruct (gIDToString g !! id) as [olds|] eqn:Hid; simpl; [split; [done | lia] |].
    destruct (N.leb_spec gEidosID_LastContextEntry id) as [Hle | Hlt]; simpl;
      [split; [done | lia] |].
    split; [| lia]. split; simpl.
    + intros s' id' Hl.
      destruct (decide (s = s')) as [-> | Hne].
      * rewrite lookup_insert_eq in Hl. injection Hl as <-. by rewrite lookup_insert_eq.
      * rewrite lookup_insert_ne in Hl by done.
        specialize (Hback _ _ Hl).
        rewrite lookup_insert_ne; [done |]. intros ->. congruence.
    + intros id' [x Hx].
      destruct (decide (id = id')) as [<- | Hne]; [lia |].
      rewrite lookup_insert_ne in Hx by done. apply Hbelow. by exists x.
    + done.
  - unfold EidosGlobalStringIDForString.
    destruct (gStringToID g !! s) as [old|] eqn:Hs; simpl; [split; [done | lia] |].
    rewrite uint32_succ_no_wrap by done.
    split; [| lia]. split; simpl.
    + intros s' id' Hl.
      destruct (decide (s = s')) as [-> | Hne].
      * rewrite lookup_insert_eq in Hl. injection Hl as <-. by rewrite lookup_insert_eq.
      * rewrite lookup_insert_ne in Hl by done.
        specialize (Hback _ _ Hl).
        rewrite lookup_insert_ne; [done |]. intros Heq.
        assert (id' < gNextUnusedID g)%N by (apply Hbelow; by exists s'). lia.
    + intros id' [x Hx].
      destruct (decide (gNextUnusedID g = id')) as [<- | Hne]; [lia |].
      rewrite lookup_insert_ne in Hx by done.
      assert (id' < gNextUnusedID g)%N by (apply Hbelow; by exists x). lia.
    + lia.
Qed.

Lemma run_calls_inv (calls : list registry_call) (g : StringRegistry) :
  registry_inv g →
  (gNextUnusedID g + N.of_nat (length calls) < uint32_modulus)%N →
  registry_inv (run_calls g calls).
Proof.
  revert g. induction calls as [| c rest IH]; intros g Hinv Hroom; [done |].
  simpl in Hroom. unfold run_calls. simpl.
  destruct (run_call_inv g c Hinv) as [Hinv' Hnext]; [lia |].
  apply IH; [done | lia].
Qed.

(** A string that has an ID keeps it. *)
Lemma run_call_keeps_id (g : StringRegistry) (c : registry_call) (s : string) (id : N) :
  gStringToID g !! s = Some id → gStringToID (run_call g c) !! s = Some id.
Proof.
  intros Hs. destruct c as [s' id' | s']; simpl.
  - unfold Eidos_RegisterStringForGlobalID.
    destruct (gStringToID g !! s') eqn:Hs'; simpl; [done |].
    destruct (gIDToString g !! id'); simpl; [done |].
    destruct (gEidosID_LastContextEntry <=? id')%N; simpl; [done |].
    rewrite lookup_insert_ne; [done | congruence].
  - unfold EidosGlobalStringIDForString.
    destruct (gStringToID g !! s') eqn:Hs'; simpl; [done |].
    rewrite lookup_insert_ne; [done | congruence].
Qed.

Lemma run_calls_keeps_id (calls : list registry_call) (g : StringRegistry) (s : string) (id : N) :
  gStringToID g !! s = Some id → gStringToID (run_calls g calls) !! s = Some id.
Proof.
  revert g. induction calls as [| c rest IH]; intros g Hs; [done |].
  unfold run_calls. simpl. apply IH. by apply run_call_keeps_id.
Qed.

Lemma intern_binds (g : StringRegistry) (s : string) :
  gStringToID (snd (EidosGlobalStringIDForString s g)) !! s
  = Some (fst (EidosGlobalStringIDForString s g)).
Proof.
  unfold EidosGlobalStringIDForString.
  destruct (gStringToID g !! s) eqn:Hs; simpl; [done |]. by rewrite lookup_insert_eq.
Qed.

(** The IDs that map back are exactly the issued ones. *)
Lemma issued_covers_domain (calls : list registry_call) (g : StringRegistry) (id : N) :
  is_Some (gIDToString (run_calls g calls) !! id) →
  is_Some (gIDToString g !! id) ∨ id ∈ ids_issued g calls.
Proof.
  revert g. induction calls as [| c rest IH]; intros g Hid; [by left |].
  unfold run_calls in Hid. simpl in Hid.
  destruct (IH _ Hid) as [Hnow | Hlater].
  - destruct c as [s' id' | s']; simpl in *.
    + unfold Eidos_RegisterStringForGlobalID in *.
      destruct (gStringToID g !! s'); simpl in *; [by left |].
      destruct (gIDToString g !! id') eqn:Hid'; simpl in *; [by left |].
      destruct (gEidosID_LastContextEntry <=? id')%N; simpl in *; [by left |].
      destruct (decide (id' = id)) as [-> | Hne]; [right; by left |].
      rewrite lookup_insert_ne in Hnow by done. by left.
    + unfold EidosGlobalStringIDForString in *.
      destruct (gStringToID g !! s') eqn:Hs'; simpl in *; [by left |].
      destruct (decide (gNextUnusedID g = id)) as [-> | Hne]; [right; by left |].
      rewrite lookup_insert_ne in Hnow by done. by left.
  - right. destruct c as [s' id' | s']; simpl.
    + destruct (terminated _); [done | by right].
    + by right.
Qed.

(** C10.  An ID that no call ever registered or returned reads back as the
    canonical "undefined" string (the lookup never raises), and an ID that
    [EidosGlobalStringIDForString s] returned reads back as [s] after any
    further registry calls, as long as the 32-bit ID counter has not run
    out ([calls_before], the interning call and [calls_after] fit below
    2^32 from [gEidosID_LastContextEntry]). *)
Theorem StringForEidosGlobalStringID_roundtrip
    (calls_before calls_after : list registry_call) (s : string) :
  (gEidosID_LastContextEntry + N.of_nat (length calls_before) + 1
     + N.of_nat (length calls_after) < uint32_modulus)%N →
  let g1 := run_calls initial_registry calls_before in
  let id := fst (EidosGlobalStringIDForString s g1) in
  let g2 := snd (EidosGlobalStringIDForString s g1) in
  let g3 := run_calls g2 calls_after in
  StringForEidosGlobalStringID id g3 = s
  ∧ ∀ unknown : N,
      unknown ∉ ids_issued initial_registry (calls_before ++ CallIntern s :: calls_after) →
      StringForEidosGlobalStringID unknown g3 = gEidosStr_undefined.
Proof.
  intros Hroom g1 id g2 g3.
  assert (Hall : g3 = run_calls initial_registry (calls_before ++ CallIntern s :: calls_after)).
  { unfold g3, g2, g1, run_calls. by rewrite foldl_app. }
  split.
  - assert (Hinv3 : registry_inv g3).
    { rewrite Hall. apply run_calls_inv; [apply initial_registry_inv |].
      simpl. rewrite length_app. simpl. lia. }
    assert (Hs : gStringToID g3 !! s = Some id).
    { apply run_calls_keeps_id. apply intern_binds. }
    unfold StringForEidosGlobalStringID. by rewrite (inv_back _ Hinv3 _ _ Hs).
  - intros unknown Hnot. unfold StringForEidosGlobalStringID.
    destruct (gIDToString g3 !! unknown) as [found|] eqn:Hfound; [| done].
    exfalso. rewrite Hall in Hfound.
    destruct (issued_covers_domain (calls_before ++ CallIntern s :: calls_after)
                initial_registry unknown) as [Hinit | Hissued].
    + by exists found.
    + simpl in Hinit. destruct Hinit as [x Hx]. by rewrite lookup_empty in Hx.
    + done.
Qed.

End RegistryFacts.

Section TerminationFacts.
Import eidos_global.

Lemma string_append_cons (x : ascii) (a b : string) : String x a +:+ b = String x (a +:+ b).
Proof. done. Qed.

Lemma string_append_assoc (a b c : string) : a +:+ (b +:+ c) = (a +:+ b) +:+ c.
Proof.
  induction a as [| x a IH]; [done |]. rewrite !string_append_cons. by f_equal.
Qed.

Lemma string_append_empty_r (a : string) : a +:+ "" = a.
Proof.
  induction a as [| x a IH]; [done |]. rewrite string_append_cons. by f_equal.
Qed.

Lemma string_length_append (a b : string) :
  String.length (a +:+ b) = (String.length a + String.length b)%nat.
Proof.
  induction a as [| x a IH]; [done |]. rewrite string_append_cons. simpl. by rewrite IH.
Qed.

Lemma string_get_append_l (a b : string) (i : nat) :
  (i < String.length a)%nat → String.get i (a +:+ b) = String.get i a.
Proof.
  revert i. induction a as [| x a IH]; intros i Hi; simpl in Hi; [lia |].
  rewrite string_append_cons. destruct i as [| i]; [done |]. simpl. apply IH. lia.
Qed.

Lemma string_get_append_r (a b : string) (i : nat) :
  String.get (String.length a + i) (a +:+ b) = String.get i b.
Proof.
  induction a as [| x a IH]; [done |]. rewrite string_append_cons. simpl. apply IH.
Qed.

Lemma substring_append_prefix (a b : string) : substring 0 (String.length a) (a +:+ b) = a.
Proof.
  induction a as [| x a IH]; [by destruct b |]. rewrite string_append_cons. simpl. by f_equal.
Qed.

(** Trimming a message that ends in something other than a line break, after
    the terminator has ended the line, gives the message back. *)
Lemma trim_after_endl (body : string) (c : ascii) :
  is_line_break c = false →
  let message := body +:+ String c "" in
  find_last_not_line_break (message +:+ endl) (String.length (message +:+ endl))
  = Some (String.length body).
Proof.
  intros Hc message.
  assert (Hlen : String.length message = S (String.length body)).
  { unfold message. rewrite string_length_append. simpl. lia. }
  rewrite string_length_append, Hlen. simpl. rewrite Nat.add_1_r. simpl.
  assert (Hlast : String.get (S (String.length body)) (message +:+ endl) = Some newline).
  { rewrite <- Hlen, <- (Nat.add_0_r (String.length message)).
    by rewrite string_get_append_r. }
  rewrite Hlast. simpl.
  assert (Hc_at : String.get (String.length body) (message +:+ endl) = Some c).
  { rewrite string_get_append_l by lia. unfold message.
    rewrite <- (Nat.add_0_r (String.length body)). by rewrite string_get_append_r. }
  by rewrite Hc_at, Hc.
Qed.

Lemma script_error_text_ends_in_carets (script_string : string) (p_start p_end : Z)
    (p_inside_lambda : bool) :
  ∃ before,
    script_error_text script_string p_start p_end p_inside_lambda
    = (before +:+ carets (Z.to_nat (p_end - p_start + 1))) +:+ endl.
Proof.
  unfold script_error_text.
  destruct (locate_error_line script_string p_start p_end) as [[lineStart lineEnd] lineNumber].
  rewrite !string_append_assoc. by eexists.
Qed.

Lemma write_keeps_mode (p_out : ostream) (text : string) (st : TerminationGlobals) :
  gEidosTerminateThrows (write p_out text st) = gEidosTerminateThrows st.
Proof. by destruct p_out. Qed.

Lemma eidos_log_script_error_keeps_mode (p_out : ostream) (p_start p_end : Z)
    (p_script : option string) (p_inside_lambda : bool) (st : TerminationGlobals) :
  gEidosTerminateThrows (eidos_log_script_error p_out p_start p_end p_script p_inside_lambda st)
  = gEidosTerminateThrows st.
Proof.
  unfold eidos_log_script_error. destruct p_script as [script_string |]; [| done].
  destruct (_ && _); [| done].
  destruct (locate_error_line script_string p_start p_end) as [[lineStart lineEnd] lineNumber].
  by rewrite write_keeps_mode.
Qed.

Lemma terminate_stream_keeps_mode (stack_trace : string) (p_out : ostream)
    (p_terminator : eidos_terminate) (st : TerminationGlobals) :
  gEidosTerminateThrows
    (state_at_termination (terminate_stream stack_trace p_out p_terminator st))
  = gEidosTerminateThrows st.
Proof.
  unfold terminate_stream.
  set (traced := if print_backtrace_ p_terminator
                 then write cerr_stream stack_trace (write p_out endl st)
                 else write p_out endl st).
  assert (Hmode : gEidosTerminateThrows traced = gEidosTerminateThrows st).
  { unfold traced. destruct (print_backtrace_ p_terminator); by rewrite !write_keeps_mode. }
  destruct (gEidosTerminateThrows traced) eqn:Htraced; simpl; [congruence |].
  by rewrite eidos_log_script_error_keeps_mode, Htraced.
Qed.

(** The terminator applied to the stream of the current mode, in throws mode:
    the line is ended on the string stream and a runtime error leaves. *)
Lemma terminate_stream_throws (stack_trace : string) (p_terminator : eidos_terminate)
    (st : TerminationGlobals) :
  gEidosTerminateThrows st = true →
  ∃ st',
    terminate_stream stack_trace (EIDOS_TERMINATION st) p_terminator st
    = Throws runtime_error_text st'
    ∧ gEidosTerminateThrows st' = true
    ∧ gEidosTermination st' = gEidosTermination st +:+ endl.
Proof.
  intros Hmode. unfold terminate_stream, EIDOS_TERMINATION. rewrite Hmode.
  destruct (print_backtrace_ p_terminator); cbn [write gEidosTerminateThrows];
    rewrite Hmode; by eexists.
Qed.

(** In exits mode: the line is ended on the error output, which may get more
    text after it, and the process exits. *)
Lemma terminate_stream_exits (stack_trace : string) (p_terminator : eidos_terminate)
    (st : TerminationGlobals) :
  gEidosTerminateThrows st = false →
  ∃ st' rest,
    terminate_stream stack_trace (EIDOS_TERMINATION st) p_terminator st
    = Exits EXIT_FAILURE st'
    ∧ gEidosTerminateThrows st' = false
    ∧ std_cerr st' = (std_cerr st +:+ endl) +:+ rest.
Proof.
  intros Hmode. unfold terminate_stream, EIDOS_TERMINATION. rewrite Hmode.
  set (traced := if print_backtrace_ p_terminator
                 then write cerr_stream stack_trace (write cerr_stream endl st)
                 else write cerr_stream endl st).
  assert (Htraced : gEidosTerminateThrows traced = false
                    ∧ std_cerr traced
                      = (std_cerr st +:+ endl)
                        +:+ (if print_backtrace_ p_terminator then stack_trace else "")).
  { unfold traced. destruct (print_backtrace_ p_terminator); simpl; [done |].
    by rewrite string_append_empty_r. }
  destruct Htraced as [Hmode' Hcerr]. rewrite Hmode'.
  unfold eidos_log_script_error.
  destruct (gEidosCurrentScript traced) as [script_string |];
    [| do 2 eexists; by rewrite Hcerr].
  destruct (_ && _); [| do 2 eexists; by rewrite Hcerr].
  destruct (locate_error_line script_string _ _) as [[lineStart lineEnd] lineNumber].
  do 2 eexists. split; [done |]. split; [by rewrite write_keeps_mode |].
  simpl. rewrite Hcerr. by rewrite <- string_append_assoc.
Qed.

(** C8 (as the code has it).  In throws mode the terminator ends the line on
    the stream it is applied to and raises a runtime error whose text is the
    fixed string "A runtime error occurred in Eidos"; the accumulated
    diagnostic is not in the error but stays in the termination stream, from
    where [EidosGetTrimmedRaiseMessage] (or the untrimmed variant) fetches it,
    leaving the stream empty; a diagnostic that does not end in a line break
    comes back exactly.  In exits mode the terminator ends the line on the
    error output, where the diagnostic has been written, appends the excerpt
    of the script line with its row of carets, one per byte from the stored
    start offset to the stored end offset, when a current script is set and
    the offsets lie within it, and exits with [EXIT_FAILURE], which is not
    zero. *)
Theorem terminator_throws_or_exits (stack_trace : string) (p_terminator : eidos_terminate)
    (st : TerminationGlobals) :
  let p_out := EIDOS_TERMINATION st in
  let p_start := gEidosCharacterStartOfError st in
  let p_end := gEidosCharacterEndOfError st in
  (gEidosTerminateThrows st = true →
   ∃ st',
     terminate_stream stack_trace p_out p_terminator st
     = Throws "A runtime error occurred in Eidos" st'
     ∧ gEidosTerminateThrows st' = true
     ∧ gEidosTermination st' = gEidosTermination st +:+ endl
     ∧ fst (EidosGetUntrimmedRaiseMessage st') = gEidosTermination st +:+ endl
     ∧ gEidosTermination (snd (EidosGetUntrimmedRaiseMessage st')) = ""
     ∧ gEidosTermination (snd (EidosGetTrimmedRaiseMessage st')) = ""
     ∧ (∀ body c, gEidosTermination st = body +:+ String c "" → is_line_break c = false →
                  fst (EidosGetTrimmedRaiseMessage st') = gEidosTermination st))
  ∧ (gEidosTerminateThrows st = false →
     ∃ st',
       terminate_stream stack_trace p_out p_terminator st = Exits EXIT_FAILURE st'
       ∧ EXIT_FAILURE ≠ 0%Z
       ∧ gEidosTermination st' = gEidosTermination st
       ∧ let printed :=
           (std_cerr st +:+ endl)
           +:+ (if print_backtrace_ p_terminator then stack_trace else "") in
         match gEidosCurrentScript st with
         | Some script_string =>
             if (0 <=? p_start)%Z && (p_start <=? p_end)%Z
                && (p_start <=? Z.of_nat (String.length script_string))%Z
                && (p_end <=? Z.of_nat (String.length script_string))%Z
             then
               std_cerr st'
               = printed +:+ script_error_text script_string p_start p_end
                               (gEidosExecutingRuntimeScript st)
               ∧ ∃ before,
                   script_error_text script_string p_start p_end
                     (gEidosExecutingRuntimeScript st)
                   = (before +:+ carets (Z.to_nat (p_end - p_start + 1))) +:+ endl
             else std_cerr st' = printed
         | None => std_cerr st' = printed
         end).
Proof.
  intros p_out p_start p_end.
  set (ended := write p_out endl st).
  set (traced := if print_backtrace_ p_terminator
                 then write cerr_stream stack_trace ended else ended).
  assert (Hthrows : gEidosTerminateThrows traced = gEidosTerminateThrows st).
  { unfold traced, ended. by destruct (print_backtrace_ p_terminator), p_out. }
  assert (Hcall : terminate_stream stack_trace p_out p_terminator st
                  = if gEidosTerminateThrows st then Throws runtime_error_text traced
                    else Exits EXIT_FAILURE
                           (eidos_log_script_error p_out (gEidosCharacterStartOfError traced)
                              (gEidosCharacterEndOfError traced) (gEidosCurrentScript traced)
                              (gEidosExecutingRuntimeScript traced) traced)).
  { unfold terminate_stream. fold ended. fold traced. by rewrite Hthrows. }
  split; intros Hmode; rewrite Hcall, Hmode.
  - exists traced. split; [done |]. split; [by rewrite Hthrows |].
    assert (Hstream : gEidosTermination traced = gEidosTermination st +:+ endl).
    { unfold traced, ended, p_out, EIDOS_TERMINATION. rewrite Hmode.
      by destruct (print_backtrace_ p_terminator). }
    unfold EidosGetUntrimmedRaiseMessage, EidosGetTrimmedRaiseMessage.
    rewrite Hthrows, Hmode, Hstream.
    split; [done |]. split; [done |]. split; [done |].
    split; [by destruct (find_last_not_line_break _ _) |].
    intros body c Hbody Hc. rewrite Hbody, (trim_after_endl body c Hc). simpl.
    rewrite <- (substring_append_prefix (body +:+ String c "") endl) at 2. f_equal.
    rewrite string_length_append. simpl. lia.
  - assert (Hout : p_out = cerr_stream) by (unfold p_out, EIDOS_TERMINATION; by rewrite Hmode).
    assert (Hcerr : std_cerr traced
                    = (std_cerr st +:+ endl)
                      +:+ (if print_backtrace_ p_terminator then stack_trace else "")).
    { unfold traced, ended. rewrite Hout.
      destruct (print_backtrace_ p_terminator); simpl; [done |].
      by rewrite string_append_empty_r. }
    assert (Hsame : gEidosCharacterStartOfError traced = p_start
                    ∧ gEidosCharacterEndOfError traced = p_end
                    ∧ gEidosCurrentScript traced = gEidosCurrentScript st
                    ∧ gEidosExecutingRuntimeScript traced = gEidosExecutingRuntimeScript st
                    ∧ gEidosTermination traced = gEidosTermination st).
    { unfold traced, ended. rewrite Hout. by destruct (print_backtrace_ p_terminator). }
    destruct Hsame as (-> & -> & -> & -> & Hstream).
    eexists. split; [reflexivity |]. split; [done |].
    unfold eidos_log_script_error. rewrite Hout.
    destruct (gEidosCurrentScript st) as [script_string |]; [| by rewrite Hcerr].
    destruct ((0 <=? p_start)%Z && (p_start <=? p_end)%Z
              && (p_start <=? Z.of_nat (String.length script_string))%Z
              && (p_end <=? Z.of_nat (String.length script_string))%Z);
      [| by rewrite Hcerr].
    destruct (locate_error_line script_string p_start p_end)
      as [[lineStart lineEnd] lineNumber] eqn:Hlocate.
    simpl. rewrite Hcerr. split; [done |].
    split; [done | apply script_error_text_ends_in_carets].
Qed.

End TerminationFacts.

Section SymbolTableFacts.
Import eidos_global eidos_symbol_table.
Context `{EidosHeaders}.

(** Induction along [parent_symbol_table_]. *)
Lemma EidosSymbolTable_chain_ind (P : EidosSymbolTable → Prop) :
  (∀ type internal slots hash, P (mkEidosSymbolTable type internal slots hash None)) →
  (∀ type internal slots hash parent_table,
      P parent_table → P (mkEidosSymbolTable type internal slots hash (Some parent_table))) →
  ∀ this, P this.
Proof.
  intros Hroot Hchild. fix IH 1. intros [type internal slots hash [parent_table |]].
  - apply Hchild, IH.
  - apply Hroot.
Qed.

(** **** The backwards scan *)

Lemma scan_slots_None (n : N) (slots : list EidosSymbolTable_InternalSlot) (k : nat) :
  scan_slots n slots k = None ↔
  ∀ i slot, (i < k)%nat → slots !! i = Some slot → symbol_name_ slot ≠ n.
Proof.
  induction k as [| k IH]; simpl.
  - split; [intros _ i slot Hi; lia | done].
  - destruct (slots !! k) as [slot_k |] eqn:Hk.
    + destruct (N.eqb_spec (symbol_name_ slot_k) n) as [Heq | Hne].
      * split; [done |]. intros Hall. exfalso. by apply (Hall k slot_k); [lia | |].
      * rewrite IH. split; intros Hall i slot Hi Hslot.
        -- destruct (decide (i = k)) as [-> | Hik]; [congruence |].
           apply (Hall i); [lia | done].
        -- apply (Hall i); [lia | done].
    + rewrite IH. split; intros Hall i slot Hi Hslot.
      * destruct (decide (i = k)) as [-> | Hik]; [congruence |].
        apply (Hall i); [lia | done].
      * apply (Hall i); [lia | done].
Qed.

Lemma scan_slots_Some (n : N) (slots : list EidosSymbolTable_InternalSlot) (k i : nat) :
  scan_slots n slots k = Some i ↔
  (i < k)%nat
  ∧ (∃ slot, slots !! i = Some slot ∧ symbol_name_ slot = n)
  ∧ ∀ j slot, (i < j < k)%nat → slots !! j = Some slot → symbol_name_ slot ≠ n.
Proof.
  induction k as [| k IH]; simpl.
  - split; [done | intros [Hi _]; lia].
  - destruct (slots !! k) as [slot_k |] eqn:Hk.
    + destruct (N.eqb_spec (symbol_name_ slot_k) n) as [Heq | Hne].
      * split.
        -- intros [= <-]. split; [lia |]. split; [by exists slot_k |]. intros j slot Hj; lia.
        -- intros (Hi & _ & Hlater). f_equal.
           destruct (decide (i = k)) as [-> | Hik]; [done |].
           exfalso. by apply (Hlater k slot_k); [lia | |].
      * rewrite IH. split.
        -- intros (Hi & Hslot & Hlater). split; [lia |]. split; [done |].
           intros j slot Hj Hslot_j.
           destruct (decide (j = k)) as [-> | Hjk]; [congruence |].
           apply (Hlater j); [lia | done].
        -- intros (Hi & (slot & Hslot & Hname) & Hlater).
           assert (i ≠ k) by (intros ->; congruence).
           split; [lia |]. split; [by exists slot |].
           intros j slot' Hj. apply Hlater. lia.
    + rewrite IH. split.
      * intros (Hi & Hslot & Hlater). split; [lia |]. split; [done |].
        intros j slot Hj Hslot_j.
        destruct (decide (j = k)) as [-> | Hjk]; [congruence |].
        apply (Hlater j); [lia | done].
      * intros (Hi & (slot & Hslot & Hname) & Hlater).
        assert (i ≠ k) by (intros ->; congruence).
        split; [lia |]. split; [by exists slot |].
        intros j slot' Hj. apply Hlater. lia.
Qed.

Lemma scan_slots_None_names (n : N) (slots : list EidosSymbolTable_InternalSlot) :
  scan_slots n slots (length slots) = None ↔ n ∉ map symbol_name_ slots.
Proof.
  rewrite scan_slots_None. split.
  - intros Hall Hin. apply list_elem_of_fmap in Hin as (slot & -> & Hslot).
    apply list_elem_of_lookup in Hslot as [i Hi].
    apply (Hall i slot); [by eapply lookup_lt_Some | done | done].
  - intros Hnot i slot _ Hi Hname. apply Hnot. apply list_elem_of_fmap.
    exists slot. split; [done |]. by eapply list_elem_of_lookup_2.
Qed.

Lemma own_value_None (n : N) (this : EidosSymbolTable) :
  own_value n this = None ↔ ¬ holds this n.
Proof.
  unfold own_value, holds. destruct (using_internal_symbols_ this).
  - rewrite <- scan_slots_None_names.
    destruct (scan_slots n _ _) as [i |] eqn:Hscan; [| done].
    apply scan_slots_Some in Hscan as (_ & (slot & Hslot & _) & _).
    rewrite Hslot. simpl. split; done.
  - rewrite <- eq_None_not_Some. done.
Qed.

Lemma own_value_Some (n : N) (this : EidosSymbolTable) (v : EidosValue) :
  own_value n this = Some v ↔ bound_in this n v.
Proof.
  unfold own_value, bound_in. destruct (using_internal_symbols_ this); [| done].
  destruct (scan_slots n _ _) as [i |] eqn:Hscan.
  - apply scan_slots_Some in Hscan as (Hi & (slot & Hslot & Hname) & Hlater).
    rewrite Hslot. simpl. split.
    + intros [= <-]. exists i. split; [by destruct slot; simpl in *; subst |].
      intros j slot' Hj Hslot'. apply (Hlater j); [| done].
      split; [done |]. by eapply lookup_lt_Some.
    + intros (i' & Hslot' & Hlater').
      destruct (Nat.lt_trichotomy i i') as [Hlt | [-> | Hgt]].
      * exfalso. apply (Hlater i' _) in Hslot'; [done |].
        split; [done |]. by eapply lookup_lt_Some.
      * rewrite Hslot in Hslot'. by injection Hslot' as ->.
      * exfalso. by apply (Hlater' i slot).
  - split; [done |]. intros (i & Hslot & _). exfalso.
    rewrite scan_slots_None in Hscan.
    apply (Hscan i _) in Hslot; [done |]. by eapply lookup_lt_Some.
Qed.

Lemma bound_in_holds (this : EidosSymbolTable) (n : N) (v : EidosValue) :
  bound_in this n v → holds this n.
Proof.
  intros Hb. apply own_value_Some in Hb.
  destruct (decide (holds this n)) as [Hh | Hn]; [done |].
  - apply own_value_None in Hn. congruence.
Qed.

Lemma holds_bound_in (this : EidosSymbolTable) (n : N) :
  holds this n → ∃ v, bound_in this n v.
Proof.
  intros Hh. destruct (own_value n this) as [v |] eqn:Hv.
  - exists v. by apply own_value_Some.
  - by apply own_value_None in Hv.
Qed.

Lemma bound_in_unique (this : EidosSymbolTable) (n : N) (v w : EidosValue) :
  bound_in this n v → bound_in this n w → v = w.
Proof. rewrite <- !own_value_Some. congruence. Qed.

(** **** Lookup along the chain *)

Lemma _GetValue_own_value (g : StringRegistry) (n : N) (this : EidosSymbolTable) :
  _GetValue g n this
  = match own_value n this with
    | Some v => Ok v
    | None =>
        match parent_symbol_table_ this with
        | Some parent_table => _GetValue g n parent_table
        | None => Raise (undefined_identifier g n)
        end
    end.
Proof. by destruct this as [type [] slots hash [parent_table |]]. Qed.

Lemma ContainsSymbol_own_value (n : N) (this : EidosSymbolTable) :
  ContainsSymbol n this
  = match own_value n this with
    | Some _ => true
    | None => parent_contains n this
    end.
Proof.
  destruct this as [type [] slots hash [parent_table |]]; unfold own_value, parent_contains; simpl.
  - destruct (scan_slots n slots (length slots)) as [i |] eqn:Hscan; [| done].
    apply scan_slots_Some in Hscan as (_ & (slot & -> & _) & _). done.
  - destruct (scan_slots n slots (length slots)) as [i |] eqn:Hscan; [| done].
    apply scan_slots_Some in Hscan as (_ & (slot & -> & _) & _). done.
  - by destruct (hash !! n).
  - by destruct (hash !! n).
Qed.

Lemma chain_unfold (this : EidosSymbolTable) :
  chain this = this :: match parent_symbol_table_ this with
                       | Some parent_table => chain parent_table
                       | None => []
                       end.
Proof. by destruct this. Qed.

Lemma ContainsSymbol_chain (n : N) (this : EidosSymbolTable) :
  ContainsSymbol n this = true ↔ Exists (λ t, holds t n) (chain this).
Proof.
  induction this as [type internal slots hash | type internal slots hash parent_table IH]
    using EidosSymbolTable_chain_ind;
    rewrite ContainsSymbol_own_value, chain_unfold; unfold parent_contains;
    cbn [parent_symbol_table_]; rewrite Exists_cons.
  - destruct (own_value n _) as [v |] eqn:Hv.
    + apply own_value_Some, bound_in_holds in Hv. tauto.
    + apply own_value_None in Hv. rewrite Exists_nil. split; [done | tauto].
  - destruct (own_value n _) as [v |] eqn:Hv.
    + apply own_value_Some, bound_in_holds in Hv. tauto.
    + apply own_value_None in Hv. rewrite IH. tauto.
Qed.

Lemma ContainsSymbol_false_chain (n : N) (this : EidosSymbolTable) :
  ContainsSymbol n this = false ↔ Forall (λ t, ¬ holds t n) (chain this).
Proof.
  rewrite <- not_true_iff_false, ContainsSymbol_chain. by rewrite <- Forall_Exists_neg.
Qed.

(** Tables that do not hold the name are passed over. *)
Lemma _GetValue_skips_nearer (g : StringRegistry) (n : N) (nearer : list EidosSymbolTable)
    (t : EidosSymbolTable) (further : list EidosSymbolTable) (this : EidosSymbolTable) :
  chain this = nearer ++ t :: further →
  Forall (λ t, ¬ holds t n) nearer →
  _GetValue g n this = _GetValue g n t.
Proof.
  revert this. induction nearer as [| x nearer IH]; intros this Hchain Hnearer;
    rewrite chain_unfold in Hchain; simpl in Hchain.
  - by injection Hchain as -> _.
  - injection Hchain as <- Hrest. apply Forall_cons in Hnearer as [Hthis Hnearer].
    apply own_value_None in Hthis. rewrite _GetValue_own_value, Hthis.
    destruct (parent_symbol_table_ this) as [parent_table |]; [by apply IH | by destruct nearer].
Qed.

(** C1.  [_GetValue] returns the value bound to the name in the nearest table
    of the chain that holds it: the receiver's own storage is consulted before
    its parent's, and within the array the slot nearest to the back decides.
    When no table of the chain holds the name, the call does not return: it
    terminates with the "undefined identifier" diagnostic.  [ContainsSymbol]
    tells the two cases apart. *)
Theorem GetValue_nearest_binding (g : StringRegistry) (n : N) (this : EidosSymbolTable) :
  (∀ nearer holder further v,
      chain this = nearer ++ holder :: further →
      Forall (λ t, ¬ holds t n) nearer →
      bound_in holder n v →
      _GetValue g n this = Ok v)
  ∧ (Forall (λ t, ¬ holds t n) (chain this) →
     _GetValue g n this
     = Raise ("ERROR (EidosSymbolTable::_GetValue): undefined identifier "
              +:+ StringForEidosGlobalStringID n g +:+ "."))
  ∧ (ContainsSymbol n this = true ↔ Exists (λ t, holds t n) (chain this)).
Proof.
  split; [| split; [| apply ContainsSymbol_chain]].
  - induction this as [type internal slots hash | type internal slots hash parent_table IH]
      using EidosSymbolTable_chain_ind;
      intros nearer holder further v Hchain Hnearer Hbound;
      rewrite _GetValue_own_value; rewrite chain_unfold in Hchain;
      cbn [parent_symbol_table_] in *.
    + destruct nearer as [| t nearer]; simpl in Hchain.
      * injection Hchain as <- _. apply own_value_Some in Hbound. by rewrite Hbound.
      * injection Hchain as _ Hrest. by destruct nearer.
    + destruct nearer as [| t nearer]; simpl in Hchain.
      * injection Hchain as <- _. apply own_value_Some in Hbound. by rewrite Hbound.
      * injection Hchain as <- Hrest. apply Forall_cons in Hnearer as [Hthis Hnearer].
        apply own_value_None in Hthis. rewrite Hthis. by eapply IH.
  - induction this as [type internal slots hash | type internal slots hash parent_table IH]
      using EidosSymbolTable_chain_ind;
      intros Hnone; rewrite _GetValue_own_value; rewrite chain_unfold in Hnone;
      cbn [parent_symbol_table_] in *; apply Forall_cons in Hnone as [Hthis Hrest];
      apply own_value_None in Hthis; rewrite Hthis; [done | by apply IH].
Qed.

(** **** Array facts used by the writers *)

Lemma scan_slots_names (n : N) (slots slots' : list EidosSymbolTable_InternalSlot) (k : nat) :
  (∀ i, (i < k)%nat → symbol_name_ <$> slots !! i = symbol_name_ <$> slots' !! i) →
  scan_slots n slots k = scan_slots n slots' k.
Proof.
  induction k as [| k IH]; intros Hsame; [done |]. simpl.
  rewrite IH by (intros i Hi; apply Hsame; lia).
  specialize (Hsame k (Nat.lt_succ_diag_r k)).
  destruct (slots !! k) as [a |], (slots' !! k) as [b |]; simpl in Hsame; try done.
  by injection Hsame as ->.
Qed.

Lemma foldl_hash_insert_lookup (slots : list EidosSymbolTable_InternalSlot)
    (h : gmap N EidosValue) (m : N) :
  foldl (λ h slot, hash_insert (symbol_name_ slot) (symbol_value_SP_ slot) h) h slots !! m
  = match h !! m with
    | Some v => Some v
    | None => first_slot_value m slots
    end.
Proof.
  revert h. induction slots as [| slot rest IH]; intros h; simpl.
  - by destruct (h !! m).
  - rewrite IH. unfold hash_insert.
    destruct (N.eqb_spec (symbol_name_ slot) m) as [-> | Hne].
    + destruct (h !! m) as [v |] eqn:Hm; [by rewrite Hm |]. by rewrite lookup_insert_eq.
    + destruct (h !! symbol_name_ slot); [done |]. by rewrite lookup_insert_ne.
Qed.

Lemma first_slot_value_None (n : N) (slots : list EidosSymbolTable_InternalSlot) :
  n ∉ map symbol_name_ slots → first_slot_value n slots = None.
Proof.
  induction slots as [| slot rest IH]; simpl; [done |]. intros Hnot.
  apply not_elem_of_cons in Hnot as [Hne Hrest].
  destruct (N.eqb_spec (symbol_name_ slot) n); [congruence | by apply IH].
Qed.

Lemma array_value_first (n : N) (slots : list EidosSymbolTable_InternalSlot) :
  NoDup (map symbol_name_ slots) →
  match scan_slots n slots (length slots) with
  | Some symbol_index => symbol_value_SP_ <$> slots !! symbol_index
  | None => None
  end = first_slot_value n slots.
Proof.
  intros Hnodup.
  destruct (scan_slots n slots (length slots)) as [i |] eqn:Hscan.
  - apply scan_slots_Some in Hscan as (_ & (slot & Hslot & Hname) & _).
    rewrite Hslot. simpl. clear - Hnodup Hslot Hname.
    revert i Hslot. induction slots as [| first rest IH]; intros i Hslot; [done |].
    simpl in Hnodup. apply NoDup_cons in Hnodup as [Hfirst Hrest]. simpl.
    destruct i as [| i]; simpl in Hslot.
    + injection Hslot as ->. by rewrite Hname, N.eqb_refl.
    + destruct (N.eqb_spec (symbol_name_ first) n) as [Heq | Hne]; [| by eapply IH].
      exfalso. apply Hfirst. rewrite Heq, <- Hname.
      apply list_elem_of_fmap. exists slot. split; [done |]. by eapply list_elem_of_lookup_2.
  - apply scan_slots_None_names in Hscan. by rewrite first_slot_value_None.
Qed.

Lemma own_value_SwitchToHash (m : N) (this : EidosSymbolTable) :
  storage_ok this → own_value m (_SwitchToHash this) = own_value m this.
Proof.
  intros [Hnodup Hmode]. unfold _SwitchToHash, own_value.
  destruct (using_internal_symbols_ this) eqn:Hinternal; simpl; [| by rewrite Hinternal].
  rewrite foldl_hash_insert_lookup, Hmode, lookup_empty. by rewrite array_value_first.
Qed.


(** **** What [set_value] does *)

Lemma own_value_set_hash_symbols (m : N) (this : EidosSymbolTable) (h : gmap N EidosValue) :
  using_internal_symbols_ this = false → own_value m (set_hash_symbols this h) = h !! m.
Proof. intros Hmode. unfold own_value. simpl. by rewrite Hmode. Qed.

Lemma set_in_hash_spec (g : StringRegistry) (n : N) (v : EidosValue) (this : EidosSymbolTable) :
  using_internal_symbols_ this = false →
  if bool_decide (own_value n this = None) && parent_contains n this then
    set_in_hash g n v this = Terminated (cannot_be_redefined g n) this
  else
    set_in_hash g n v this
    = Returned tt (set_hash_symbols this (<[n := v]> (hash_symbols_ this))).
Proof.
  intros Hmode. unfold set_in_hash, own_value, hash_insert. rewrite Hmode.
  destruct (hash_symbols_ this !! n) as [old |] eqn:Hn; simpl; [done |].
  by destruct (parent_contains n this).
Qed.

Lemma set_value_spec (g : StringRegistry) (n : N) (v : EidosValue) (this : EidosSymbolTable) :
  if bool_decide (own_value n this = None) && parent_contains n this then
    set_value g n v this = Terminated (cannot_be_redefined g n) this
  else set_value g n v this = Returned tt (after_set_value n v this).
Proof.
  unfold set_value, after_set_value, internal_symbol_count_.
  destruct (using_internal_symbols_ this) eqn:Hmode.
  - unfold own_value. rewrite Hmode.
    destruct (scan_slots n _ _) as [i |] eqn:Hscan.
    + apply scan_slots_Some in Hscan as (_ & (slot & -> & _) & _). done.
    + simpl. destruct (parent_contains n this) eqn:Hparent; [done |].
      destruct (_ <? _)%nat; [done |].
      pose proof (set_in_hash_spec g n v (_SwitchToHash this)) as Hhash.
      assert (Hswitched : using_internal_symbols_ (_SwitchToHash this) = false)
        by (unfold _SwitchToHash; by rewrite Hmode).
      specialize (Hhash Hswitched).
      assert (Hsame : parent_contains n (_SwitchToHash this) = false).
      { unfold parent_contains, _SwitchToHash in *. by rewrite Hmode. }
      rewrite Hsame, andb_false_r in Hhash. done.
  - pose proof (set_in_hash_spec g n v this Hmode) as Hhash.
    by destruct (bool_decide _ && _).
Qed.

Lemma after_set_value_frame (n : N) (v : EidosValue) (this : EidosSymbolTable) :
  table_type_ (after_set_value n v this) = table_type_ this
  ∧ parent_symbol_table_ (after_set_value n v this) = parent_symbol_table_ this.
Proof.
  unfold after_set_value, _SwitchToHash.
  destruct (using_internal_symbols_ this); [| done].
  destruct (scan_slots n _ _); [done |]. by destruct (_ <? _)%nat.
Qed.

Lemma lookup_alter_value (slots : list EidosSymbolTable_InternalSlot) (i j : nat) (v : EidosValue) :
  symbol_name_ <$> alter (λ slot, {| symbol_name_ := symbol_name_ slot; symbol_value_SP_ := v |}) i slots !! j
  = symbol_name_ <$> slots !! j.
Proof.
  destruct (decide (i = j)) as [-> | Hne].
  - rewrite list_lookup_alter_eq. by destruct (slots !! j).
  - by rewrite list_lookup_alter_ne.
Qed.

Lemma map_alter_value (slots : list EidosSymbolTable_InternalSlot) (i : nat) (v : EidosValue) :
  map symbol_name_ (alter (λ slot, {| symbol_name_ := symbol_name_ slot; symbol_value_SP_ := v |}) i slots)
  = map symbol_name_ slots.
Proof.
  apply list_eq. intros j. rewrite !list_lookup_fmap. apply lookup_alter_value.
Qed.

Lemma scan_slots_app (m : N) (slots extra : list EidosSymbolTable_InternalSlot) (k : nat) :
  (k ≤ length slots)%nat → scan_slots m (slots ++ extra) k = scan_slots m slots k.
Proof.
  intros Hk. apply scan_slots_names. intros i Hi. by rewrite lookup_app_l by lia.
Qed.

Lemma own_value_after_set_value (n : N) (v : EidosValue) (this : EidosSymbolTable) :
  own_value n (after_set_value n v this) = Some v.
Proof.
  unfold after_set_value. destruct (using_internal_symbols_ this) eqn:Hmode.
  - destruct (scan_slots n _ _) as [i |] eqn:Hscan.
    + unfold own_value. simpl. rewrite Hmode, length_alter.
      rewrite (scan_slots_names n _ (internal_symbols_ this)) by (intros; apply lookup_alter_value).
      rewrite Hscan. apply scan_slots_Some in Hscan as (_ & (slot & Hslot & _) & _).
      rewrite list_lookup_alter_eq, Hslot. done.
    + destruct (_ <? _)%nat.
      * unfold own_value. simpl. rewrite Hmode, length_app. simpl.
        rewrite Nat.add_1_r. simpl.
        rewrite lookup_app_r, Nat.sub_diag by lia. simpl. rewrite N.eqb_refl.
        rewrite lookup_app_r, Nat.sub_diag by lia. done.
      * rewrite own_value_set_hash_symbols; [apply lookup_insert_eq |].
        unfold _SwitchToHash. by rewrite Hmode.
  - rewrite own_value_set_hash_symbols by done. apply lookup_insert_eq.
Qed.

Lemma own_value_after_set_value_ne (n m : N) (v : EidosValue) (this : EidosSymbolTable) :
  storage_ok this → m ≠ n → own_value m (after_set_value n v this) = own_value m this.
Proof.
  intros Hok Hne. unfold after_set_value.
  destruct (using_internal_symbols_ this) eqn:Hmode.
  - destruct (scan_slots n _ _) as [i |] eqn:Hscan.
    + unfold own_value. simpl. rewrite Hmode, length_alter.
      rewrite (scan_slots_names m _ (internal_symbols_ this)) by (intros; apply lookup_alter_value).
      destruct (scan_slots m _ _) as [j |] eqn:Hscan_m; [| done].
      apply scan_slots_Some in Hscan as (_ & (slot & Hslot & Hname) & _).
      apply scan_slots_Some in Hscan_m as (_ & (slot' & Hslot' & Hname') & _).
      rewrite list_lookup_alter_ne; [done |]. intros ->. congruence.
    + destruct (_ <? _)%nat.
      * unfold own_value. simpl. rewrite Hmode, length_app. simpl.
        rewrite Nat.add_1_r. simpl.
        rewrite lookup_app_r, Nat.sub_diag by lia. simpl.
        destruct (N.eqb_spec n m) as [-> | _]; [done |].
        rewrite scan_slots_app by done.
        destruct (scan_slots m _ _) as [j |] eqn:Hscan_m; [| done].
        apply scan_slots_Some in Hscan_m as (Hj & _). by rewrite lookup_app_l.
      * rewrite own_value_set_hash_symbols by (unfold _SwitchToHash; by rewrite Hmode).
        rewrite lookup_insert_ne by done.
        rewrite <- (own_value_SwitchToHash m this Hok).
        unfold own_value, _SwitchToHash. by rewrite Hmode.
  - rewrite own_value_set_hash_symbols by done. rewrite lookup_insert_ne by done.
    unfold own_value. by rewrite Hmode.
Qed.

Lemma storage_ok_after_set_value (n : N) (v : EidosValue) (this : EidosSymbolTable) :
  storage_ok this → storage_ok (after_set_value n v this).
Proof.
  intros [Hnodup Hstore]. unfold after_set_value, storage_ok.
  destruct (using_internal_symbols_ this) eqn:Hmode.
  - destruct (scan_slots n _ _) as [i |] eqn:Hscan.
    + simpl. rewrite Hmode, map_alter_value. done.
    + destruct (_ <? _)%nat; simpl.
      * rewrite Hmode. split; [| done]. rewrite map_app. simpl.
        apply NoDup_app. split; [done |]. split; [| apply NoDup_singleton].
        intros x Hx Hx'. apply list_elem_of_singleton in Hx' as ->.
        by apply scan_slots_None_names in Hscan.
      * unfold _SwitchToHash. rewrite Hmode. simpl. split; [apply NoDup_nil_2 | done].
  - simpl. by rewrite Hmode.
Qed.

Lemma parent_contains_chain (n : N) (this : EidosSymbolTable) :
  parent_contains n this = true ↔
  ∃ parent_table, parent_symbol_table_ this = Some parent_table
                  ∧ Exists (λ t, holds t n) (chain parent_table).
Proof.
  unfold parent_contains. destruct (parent_symbol_table_ this) as [p |].
  - rewrite ContainsSymbol_chain. split; [by exists p | by intros (? & [= <-] & ?)].
  - split; [done | by intros (? & ? & _)].
Qed.

(** C2.  [SetValueForSymbol n v] terminates with the "cannot be redefined
    because it is a constant" diagnostic exactly when the receiver does not
    hold [n] itself and some ancestor does.  On that failure the receiver and
    its whole chain are left as they were.  Otherwise the call returns and the
    receiver binds [n] to the value handed in (or to its copy): an existing
    binding is replaced, a new one is added; type, parent and, for a table
    whose storage is in order, every other binding stay as they were. *)
Theorem SetValueForSymbol_redefinition_of_constant (g : StringRegistry) (n : N)
    (p_value : EidosValue_SP) (this : EidosSymbolTable) :
  let stored := get (copy_unless_unique_and_visible p_value) in
  let bound_above :=
    ∃ parent_table, parent_symbol_table_ this = Some parent_table
                    ∧ Exists (λ t, holds t n) (chain parent_table) in
  (terminated (SetValueForSymbol g n p_value this) = true ↔ ¬ holds this n ∧ bound_above)
  ∧ (terminated (SetValueForSymbol g n p_value this) = true →
     SetValueForSymbol g n p_value this
     = Terminated ("ERROR (EidosSymbolTable::SetValueForSymbol): identifier '"
                   +:+ StringForEidosGlobalStringID n g
                   +:+ "' cannot be redefined because it is a constant.") this)
  ∧ (terminated (SetValueForSymbol g n p_value this) = false →
     ∃ this', SetValueForSymbol g n p_value this = Returned tt this'
       ∧ bound_in this' n stored
       ∧ table_type_ this' = table_type_ this
       ∧ parent_symbol_table_ this' = parent_symbol_table_ this
       ∧ (storage_ok this →
          storage_ok this' ∧ ∀ m w, m ≠ n → bound_in this' m w ↔ bound_in this m w)).
Proof.
  intros stored bound_above. unfold SetValueForSymbol. fold stored.
  pose proof (set_value_spec g n stored this) as Hspec.
  destruct (bool_decide (own_value n this = None)) eqn:Hown; simpl in Hspec.
  - apply bool_decide_eq_true in Hown.
    destruct (parent_contains n this) eqn:Hparent; rewrite Hspec; simpl.
    + split; [| split; [done | done]].
      split; [intros _ | done]. split; [by apply own_value_None |].
      by apply parent_contains_chain.
    + split; [| split; [done |]].
      * split; [done |]. intros [_ Habove]. apply parent_contains_chain in Habove. congruence.
      * intros _. exists (after_set_value n stored this). split; [done |].
        split; [apply own_value_Some, own_value_after_set_value |].
        destruct (after_set_value_frame n stored this) as [-> ->]. split; [done |]. split; [done |].
        intros Hok. split; [by apply storage_ok_after_set_value |].
        intros m w Hne. by rewrite <- !own_value_Some, own_value_after_set_value_ne.
  - apply bool_decide_eq_false in Hown. rewrite Hspec; simpl.
    split; [| split; [done |]].
    + split; [done |]. intros [Hnot _]. by apply own_value_None in Hnot.
    + intros _. exists (after_set_value n stored this). split; [done |].
      split; [apply own_value_Some, own_value_after_set_value |].
      destruct (after_set_value_frame n stored this) as [-> ->]. split; [done |]. split; [done |].
      intros Hok. split; [by apply storage_ok_after_set_value |].
      intros m w Hne. by rewrite <- !own_value_Some, own_value_after_set_value_ne.
Qed.

(** **** Enumeration *)

Lemma elem_of_own_names (this : EidosSymbolTable) (m : N) : m ∈ own_names this ↔ holds this m.
Proof.
  unfold own_names, holds. destruct (using_internal_symbols_ this); [done |].
  rewrite list_elem_of_fmap. split.
  - intros ([k v] & -> & Hin). apply elem_of_map_to_list in Hin. by exists v.
  - intros [v Hv]. exists (m, v). split; [done |]. by apply elem_of_map_to_list.
Qed.

Lemma _SymbolNames_own_names (g : StringRegistry) (c v : bool) (this : EidosSymbolTable) :
  _SymbolNames g c v this
  = match parent_symbol_table_ this with
    | Some parent_table => _SymbolNames g c v parent_table
    | None => []
    end
    ++ (if enumerated c v this
        then map (λ m, StringForEidosGlobalStringID m g) (own_names this) else []).
Proof.
  destruct this as [type [] slots hash parent]; unfold enumerated, own_names; simpl;
    destruct (_ || _); rewrite ?app_nil_r; try done.
  - by rewrite map_map.
  - by rewrite map_map.
Qed.

Lemma elem_of_SymbolNames (g : StringRegistry) (c v : bool) (this : EidosSymbolTable)
    (name : string) :
  name ∈ _SymbolNames g c v this ↔
  (∃ parent_table, parent_symbol_table_ this = Some parent_table
                   ∧ name ∈ _SymbolNames g c v parent_table)
  ∨ (enumerated c v this = true
     ∧ ∃ m, holds this m ∧ name = StringForEidosGlobalStringID m g).
Proof.
  rewrite _SymbolNames_own_names, elem_of_app.
  apply Morphisms_Prop.or_iff_morphism.
  - destruct (parent_symbol_table_ this) as [p |].
    + split; [by exists p | by intros (? & [= <-] & ?)].
    + split; [by intros ?%not_elem_of_nil | by intros (? & ? & _)].
  - destruct (enumerated c v this).
    + rewrite list_elem_of_fmap. split.
      * intros (m & -> & Hm). split; [done |]. exists m. by rewrite <- elem_of_own_names.
      * intros (_ & m & Hm & ->). exists m. by rewrite elem_of_own_names.
    + split; [by intros ?%not_elem_of_nil | by intros [? _]].
Qed.

Lemma holds_own_value (this : EidosSymbolTable) (m : N) :
  holds this m ↔ is_Some (own_value m this).
Proof.
  destruct (own_value m this) as [v |] eqn:Hv.
  - split; [by exists v |]. intros _. by eapply bound_in_holds, own_value_Some.
  - apply own_value_None in Hv. split; [done | by intros [? ?]].
Qed.

(** **** The switch is one-way *)

Lemma state_of_inside {Inner Outer A} (rebuild : Inner → Outer) (o : outcome Inner A) :
  state_of (inside rebuild o) = rebuild (state_of o).
Proof. by destruct o. Qed.





(** **** Constants *)

Lemma copy_unless_unique_and_visible_visible (p_value : EidosValue_SP) :
  Invisible (copy_unless_unique_and_visible p_value) = false.
Proof.
  unfold copy_unless_unique_and_visible.
  destruct (negb (use_count p_value =? 1)%N) eqn:Hcount; simpl; [done |].
  by destruct (Invisible p_value) eqn:Hinv.
Qed.

(** For a visible value and a name the table does not hold yet,
    [_InitializeConstantSymbolEntry] on a constants table leaves what
    [set_value] would. *)
Lemma _InitializeConstantSymbolEntry_fresh (n : N) (p_value : EidosValue_SP)
    (this : EidosSymbolTable) :
  Invisible p_value = false →
  table_type_ this ≠ kVariablesTable →
  storage_ok this →
  ¬ holds this n →
  _InitializeConstantSymbolEntry n p_value this
  = Returned tt (after_set_value n (get p_value) this).
Proof.
  intros Hvisible Htype [Hnodup Hstore] Hnot.
  unfold _InitializeConstantSymbolEntry, after_set_value, internal_symbol_count_.
  rewrite Hvisible, andb_false_r.
  assert (Hty : table_type_eqb (table_type_ this) kVariablesTable = false)
    by (by destruct (table_type_ this)).
  rewrite Hty, andb_false_r.
  unfold holds in Hnot. destruct (using_internal_symbols_ this) eqn:Hmode.
  - apply scan_slots_None_names in Hnot as Hscan. rewrite Hscan.
    destruct (_ <? _)%nat; [done |].
    unfold hash_insert. f_equal. f_equal.
    assert (Hfree : hash_symbols_ (_SwitchToHash this) !! n = None).
    { unfold _SwitchToHash. rewrite Hmode. simpl.
      rewrite foldl_hash_insert_lookup, Hstore, lookup_empty.
      by apply first_slot_value_None. }
    by rewrite Hfree.
  - unfold hash_insert. apply eq_None_not_Some in Hnot. by rewrite Hnot.
Qed.

Lemma chain_values_visible_unfold (this : EidosSymbolTable) :
  chain_values_visible this ↔
  table_values_visible this
  ∧ match parent_symbol_table_ this with
    | Some parent_table => chain_values_visible parent_table
    | None => True
    end.
Proof.
  unfold chain_values_visible. rewrite chain_unfold, Forall_cons.
  destruct (parent_symbol_table_ this); [done |]. split; [by intros [? _] | by intros [? _]].
Qed.

Lemma foldl_hash_insert_visible (slots : list EidosSymbolTable_InternalSlot)
    (h : gmap N EidosValue) :
  (∀ slot, slot ∈ slots → invisible_ (symbol_value_SP_ slot) = false) →
  (∀ n v, h !! n = Some v → invisible_ v = false) →
  ∀ n v, foldl (λ h slot, hash_insert (symbol_name_ slot) (symbol_value_SP_ slot) h) h slots !! n
         = Some v → invisible_ v = false.
Proof.
  revert h. induction slots as [| slot rest IH]; intros h Hslots Hh n v; simpl; [apply Hh |].
  apply IH.
  - intros slot' Hin. apply Hslots. by right.
  - intros n' v'. unfold hash_insert. destruct (h !! symbol_name_ slot) eqn:Hs; [apply Hh |].
    destruct (decide (symbol_name_ slot = n')) as [<- | Hne].
    + rewrite lookup_insert_eq. intros [= <-]. apply Hslots. by left.
    + rewrite lookup_insert_ne by done. apply Hh.
Qed.

Lemma table_values_visible_SwitchToHash (this : EidosSymbolTable) :
  table_values_visible this → table_values_visible (_SwitchToHash this).
Proof.
  intros [Hslots Hhash]. unfold _SwitchToHash.
  destruct (using_internal_symbols_ this); [| done]. split; simpl.
  - by intros slot ?%not_elem_of_nil.
  - by apply foldl_hash_insert_visible.
Qed.

Lemma table_values_visible_hash_insert (this : EidosSymbolTable) (n : N) (v : EidosValue) :
  invisible_ v = false →
  table_values_visible this →
  table_values_visible (set_hash_symbols this (hash_insert n v (hash_symbols_ this)))
  ∧ table_values_visible (set_hash_symbols this (<[n := v]> (hash_symbols_ this))).
Proof.
  intros Hv [Hslots Hhash]. split; (split; simpl; [done |]); intros m w.
  - unfold hash_insert. destruct (hash_symbols_ this !! n); [apply Hhash |].
    destruct (decide (n = m)) as [<- | Hne].
    + rewrite lookup_insert_eq. by intros [= <-].
    + rewrite lookup_insert_ne by done. apply Hhash.
  - destruct (decide (n = m)) as [<- | Hne].
    + rewrite lookup_insert_eq. by intros [= <-].
    + rewrite lookup_insert_ne by done. apply Hhash.
Qed.

Lemma table_values_visible_append (this : EidosSymbolTable) (n : N) (v : EidosValue) :
  invisible_ v = false →
  table_values_visible this →
  table_values_visible
    (set_internal_symbols this
       (internal_symbols_ this ++ [ {| symbol_name_ := n; symbol_value_SP_ := v |} ])).
Proof.
  intros Hv [Hslots Hhash]. split; simpl; [| done].
  intros slot [Hin | Hin]%elem_of_app; [by apply Hslots |].
  by apply list_elem_of_singleton in Hin as ->.
Qed.

(** Only the receiver's own storage changes in [set_value] and
    [_InitializeConstantSymbolEntry], so visibility of the chain reduces to
    visibility of the receiver. *)
Lemma set_value_visible (g : StringRegistry) (n : N) (v : EidosValue) (this : EidosSymbolTable) :
  invisible_ v = false →
  chain_values_visible this →
  chain_values_visible (state_of (set_value g n v this)).
Proof.
  intros Hv Hchain. pose proof (set_value_spec g n v this) as Hspec.
  destruct (bool_decide _ && _); rewrite Hspec; simpl; [done |].
  apply chain_values_visible_unfold in Hchain as [Hthis Hparent].
  apply chain_values_visible_unfold.
  destruct (after_set_value_frame n v this) as [_ ->]. split; [| done].
  unfold after_set_value. destruct (using_internal_symbols_ this).
  - destruct (scan_slots n _ _) as [i |].
    + destruct Hthis as [Hslots Hhash]. split; simpl; [| done].
      intros slot Hin. apply list_elem_of_lookup in Hin as [j Hj].
      destruct (decide (i = j)) as [-> | Hne].
      * rewrite list_lookup_alter_eq in Hj.
        destruct (internal_symbols_ this !! j); simpl in Hj; [| done]. by injection Hj as <-.
      * rewrite list_lookup_alter_ne in Hj by done. apply Hslots. by eapply list_elem_of_lookup_2.
    + destruct (_ <? _)%nat; [by apply table_values_visible_append |].
      by apply table_values_visible_hash_insert, table_values_visible_SwitchToHash.
  - by apply table_values_visible_hash_insert.
Qed.

Lemma _InitializeConstantSymbolEntry_visible (n : N) (p_value : EidosValue_SP)
    (this : EidosSymbolTable) :
  Invisible p_value = false →
  chain_values_visible this →
  chain_values_visible (state_of (_InitializeConstantSymbolEntry n p_value this)).
Proof.
  intros Hv Hchain. unfold _InitializeConstantSymbolEntry.
  destruct (DEBUG && Invisible p_value); [done |].
  destruct (DEBUG && table_type_eqb _ _); [done |].
  apply chain_values_visible_unfold in Hchain as [Hthis Hparent].
  destruct (using_internal_symbols_ this) eqn:Hmode.
  - destruct (_ <? _)%nat; simpl; apply chain_values_visible_unfold.
    + split; [by apply table_values_visible_append | done].
    + split; [by apply table_values_visible_hash_insert, table_values_visible_SwitchToHash |].
      simpl. unfold _SwitchToHash. by rewrite Hmode.
  - simpl. apply chain_values_visible_unfold.
    split; [by apply table_values_visible_hash_insert | done].
Qed.

(** In a debug build an invisible value is refused, so the check can stand in
    for the caller's promise. *)
Lemma _InitializeConstantSymbolEntry_checked_visible (n : N) (p_value : EidosValue_SP)
    (this : EidosSymbolTable) :
  DEBUG = true ∨ Invisible p_value = false →
  chain_values_visible this →
  chain_values_visible (state_of (_InitializeConstantSymbolEntry n p_value this)).
Proof.
  intros Hchecked Hchain.
  destruct (Invisible p_value) eqn:Hinvisible; [| by apply _InitializeConstantSymbolEntry_visible].
  destruct Hchecked as [Hdebug | ?]; [| done].
  unfold _InitializeConstantSymbolEntry. by rewrite Hdebug, Hinvisible.
Qed.

Lemma at_depth_visible (k : nat) (method : EidosSymbolTable → outcome EidosSymbolTable unit)
    (this : EidosSymbolTable) :
  (∀ t, chain_values_visible t → chain_values_visible (state_of (method t))) →
  chain_values_visible this →
  chain_values_visible (state_of (at_depth k method this)).
Proof.
  intros Hmethod. revert this. induction k as [| k IH]; intros this Hchain; simpl; [by apply Hmethod |].
  destruct this as [type internal slots hash [parent_table |]]; [| done].
  rewrite state_of_inside.
  apply chain_values_visible_unfold in Hchain as [Hthis Hparent]. simpl in Hparent.
  apply chain_values_visible_unfold. split; [done |]. simpl. by apply IH.
Qed.

Lemma new_EidosSymbolTable_with_parent (type : EidosSymbolTableType)
    (parent_table : EidosSymbolTable) (start_with_hash : bool) :
  state_of (new_EidosSymbolTable type (Some parent_table) start_with_hash)
  = mkEidosSymbolTable type (negb start_with_hash) [] ∅ (Some parent_table).
Proof.
  unfold new_EidosSymbolTable.
  destruct (DEBUG && table_type_eqb type _); [done |].
  by destruct (DEBUG && table_type_eqb (table_type_ parent_table) _).
Qed.

Lemma and_then_state {St A B} (P : St → Prop) (o : outcome St A)
    (k : A → St → outcome St B) :
  P (state_of o) → (∀ a st, P st → P (state_of (k a st))) → P (state_of (and_then o k)).
Proof. destruct o as [a st | msg st]; simpl; [| done]. intros Hst Hk. by apply Hk. Qed.

Lemma new_EidosSymbolTable_visible (type : EidosSymbolTableType)
    (parent : option EidosSymbolTable) (start_with_hash : bool) :
  match parent with
  | Some parent_table => chain_values_visible parent_table
  | None => True
  end →
  chain_values_visible (state_of (new_EidosSymbolTable type parent start_with_hash)).
Proof.
  intros Hparent.
  assert (Hempty : ∀ p, match p with
                        | Some parent_table => chain_values_visible parent_table
                        | None => True
                        end →
                        chain_values_visible
                          (mkEidosSymbolTable type (negb start_with_hash) [] ∅ p)).
  { intros p Hp. apply chain_values_visible_unfold. split; [| done].
    split; simpl; [by intros slot ?%not_elem_of_nil | by intros n v ?%lookup_empty_Some]. }
  destruct parent as [parent_table |].
  - rewrite new_EidosSymbolTable_with_parent. by apply Hempty.
  - unfold new_EidosSymbolTable. destruct (DEBUG && _); simpl; [by apply Hempty |].
    apply and_then_state;
      [apply _InitializeConstantSymbolEntry_visible; [done | by apply Hempty] |].
    do 5 (intros _ ?st ?Hst; apply and_then_state;
          [by apply _InitializeConstantSymbolEntry_visible |]).
    intros _ st' Hst'. by apply _InitializeConstantSymbolEntry_visible.
Qed.

Lemma insert_defined_constants_table_visible (childTable : EidosSymbolTable) :
  chain_values_visible childTable →
  chain_values_visible (state_of (insert_defined_constants_table childTable)).
Proof.
  intros Hchain. unfold insert_defined_constants_table.
  pose proof (new_EidosSymbolTable_visible kEidosDefinedConstantsTable
                (parent_symbol_table_ childTable) p_start_with_hash_default) as Hnew.
  apply chain_values_visible_unfold in Hchain as [Hthis Hrest].
  specialize (Hnew Hrest).
  destruct (new_EidosSymbolTable _ _ _) as [[] dct | msg dct]; simpl in *.
  - apply chain_values_visible_unfold. by split.
  - apply chain_values_visible_unfold. by split.
Qed.

(** Whatever a write does, it leaves no invisible value behind. *)
Lemma SetValueForSymbol_visible (g : StringRegistry) (n : N) (p_value : EidosValue_SP)
    (this : EidosSymbolTable) :
  chain_values_visible this →
  chain_values_visible (state_of (SetValueForSymbol g n p_value this)).
Proof.
  intros Hchain. apply set_value_visible; [| done].
  apply copy_unless_unique_and_visible_visible.
Qed.

Lemma SetValueForSymbolNoCopy_visible (g : StringRegistry) (n : N) (p_value : EidosValue_SP)
    (this : EidosSymbolTable) :
  chain_values_visible this →
  chain_values_visible (state_of (SetValueForSymbolNoCopy g n p_value this)).
Proof.
  intros Hchain. unfold SetValueForSymbolNoCopy.
  destruct (Invisible p_value) eqn:Hv; [done |]. by apply set_value_visible.
Qed.

Lemma DefineConstantForSymbol_visible (g : StringRegistry) (n : N) (p_value : EidosValue_SP)
    (this : EidosSymbolTable) :
  chain_values_visible this →
  chain_values_visible (state_of (DefineConstantForSymbol g n p_value this)).
Proof.
  intros Hchain. unfold DefineConstantForSymbol.
  destruct (ContainsSymbol n this); [done |].
  apply and_then_state.
  - destruct (find_defined_constants_table this); [done |].
    destruct (find_child_of_intrinsic_table this); [| done].
    apply and_then_state; [| done].
    apply at_depth_visible; [apply insert_defined_constants_table_visible | done].
  - intros d st Hst. apply at_depth_visible; [| done].
    intros t Ht. apply _InitializeConstantSymbolEntry_visible; [| done].
    apply copy_unless_unique_and_visible_visible.
Qed.

(** **** Where a defined constant lands *)

Lemma _InitializeConstantSymbolEntry_returned (n : N) (p_value : EidosValue_SP)
    (this this' : EidosSymbolTable) :
  storage_ok this →
  ¬ holds this n →
  _InitializeConstantSymbolEntry n p_value this = Returned tt this' →
  this' = after_set_value n (get p_value) this.
Proof.
  intros [Hnodup Hstore] Hnot.
  unfold _InitializeConstantSymbolEntry, after_set_value, internal_symbol_count_.
  destruct (DEBUG && Invisible p_value); [done |].
  destruct (DEBUG && table_type_eqb _ _); [done |].
  unfold holds in Hnot. destruct (using_internal_symbols_ this) eqn:Hmode.
  - apply scan_slots_None_names in Hnot as Hscan. rewrite Hscan.
    destruct (_ <? _)%nat; [by intros [= <-] |].
    unfold hash_insert.
    assert (Hfree : hash_symbols_ (_SwitchToHash this) !! n = None).
    { unfold _SwitchToHash. rewrite Hmode. simpl.
      rewrite foldl_hash_insert_lookup, Hstore, lookup_empty.
      by apply first_slot_value_None. }
    rewrite Hfree. by intros [= <-].
  - unfold hash_insert. apply eq_None_not_Some in Hnot. rewrite Hnot. by intros [= <-].
Qed.

Lemma inside_returned {Inner Outer A} (rebuild : Inner → Outer) (o : outcome Inner A)
    (a : A) (st : Outer) :
  inside rebuild o = Returned a st → ∃ inner, o = Returned a inner ∧ st = rebuild inner.
Proof. destruct o as [a' inner | msg inner]; simpl; [| done]. intros [= <- <-]. by exists inner. Qed.

Lemma at_depth_Initialize_GetValue (g : StringRegistry) (n : N) (p_value : EidosValue_SP)
    (k : nat) (this this' : EidosSymbolTable) :
  Forall (λ t, ¬ holds t n) (chain this) →
  Forall storage_ok (chain this) →
  (k < length (chain this))%nat →
  at_depth k (_InitializeConstantSymbolEntry n p_value) this = Returned tt this' →
  _GetValue g n this' = Ok (get p_value).
Proof.
  revert this this'. induction k as [| k IH]; intros this this' Hnone Hok Hk Hcall.
  - simpl in Hcall. rewrite chain_unfold in Hnone, Hok.
    apply Forall_cons in Hnone as [Hnot _]. apply Forall_cons in Hok as [Hthis _].
    apply _InitializeConstantSymbolEntry_returned in Hcall as ->; [| done | done].
    by rewrite _GetValue_own_value, own_value_after_set_value.
  - destruct this as [type internal slots hash [parent_table |]]; simpl in Hcall, Hk; [| lia].
    apply inside_returned in Hcall as (parent' & Hcall & ->).
    rewrite chain_unfold in Hnone, Hok. simpl in Hnone, Hok.
    apply Forall_cons in Hnone as [Hnot Hnone]. apply Forall_cons in Hok as [_ Hok].
    rewrite _GetValue_own_value. simpl.
    apply own_value_None in Hnot. unfold own_value in *. simpl in *. rewrite Hnot.
    apply (IH parent_table); [done | done | lia | done].
Qed.

Lemma find_defined_constants_table_depth (this : EidosSymbolTable) (k : nat) :
  find_defined_constants_table this = Some k → (k < length (chain this))%nat.
Proof.
  revert k.
  induction this as [type internal slots hash | type internal slots hash parent_table IH]
    using EidosSymbolTable_chain_ind; intros k; simpl.
  - destruct (table_type_eqb type _); [| done]. intros [= <-]. lia.
  - destruct (table_type_eqb type _); [intros [= <-]; lia |].
    destruct (find_defined_constants_table parent_table) as [k' |]; simpl; [| done].
    intros [= <-]. specialize (IH k' eq_refl). lia.
Qed.

Lemma insert_then_Initialize_GetValue (g : StringRegistry) (n : N) (p_value : EidosValue_SP)
    (c : nat) (this this1 this' : EidosSymbolTable) :
  find_child_of_intrinsic_table this = Some c →
  Forall (λ t, ¬ holds t n) (chain this) →
  at_depth c insert_defined_constants_table this = Returned tt this1 →
  at_depth (S c) (_InitializeConstantSymbolEntry n p_value) this1 = Returned tt this' →
  _GetValue g n this' = Ok (get p_value).
Proof.
  revert this this1 this'. induction c as [| c IH]; intros this this1 this' Hfind Hnone Hins Hinit;
    destruct this as [type internal slots hash [parent_table |]]; try done;
    simpl in Hfind; rewrite chain_unfold in Hnone; simpl in Hnone;
    apply Forall_cons in Hnone as [Hnot Hnone]; apply own_value_None in Hnot.
  - cbn [at_depth] in Hins. unfold insert_defined_constants_table in Hins.
    cbn [parent_symbol_table_] in Hins.
    pose proof (new_EidosSymbolTable_with_parent kEidosDefinedConstantsTable parent_table
                  p_start_with_hash_default) as Hnew.
    destruct (new_EidosSymbolTable _ _ _) as [[] dct | msg dct]; [| done].
    simpl in Hnew. subst dct. injection Hins as <-.
    simpl in Hinit. apply inside_returned in Hinit as (dct' & Hinit & ->).
    apply _InitializeConstantSymbolEntry_returned in Hinit as ->.
    + rewrite _GetValue_own_value. unfold own_value in *. simpl in *. rewrite Hnot.
      rewrite _GetValue_own_value. by rewrite own_value_after_set_value.
    + split; simpl; [apply NoDup_nil_2 | by destruct (negb _)].
    + unfold holds. simpl. destruct (negb _); [by intros ?%not_elem_of_nil |].
      rewrite lookup_empty. by intros [? ?].
  - destruct (table_type_eqb (table_type_ parent_table) _); [done |].
    destruct (find_child_of_intrinsic_table parent_table) as [c' |] eqn:Hfind'; [| done].
    injection Hfind as <-.
    change (at_depth (S c') insert_defined_constants_table
              (mkEidosSymbolTable type internal slots hash (Some parent_table)))
      with (inside (λ p, mkEidosSymbolTable type internal slots hash (Some p))
                   (at_depth c' insert_defined_constants_table parent_table)) in Hins.
    apply inside_returned in Hins as (parent1 & Hins & ->).
    change (at_depth (S (S c')) ?m (mkEidosSymbolTable type internal slots hash (Some parent1)))
      with (inside (λ p, mkEidosSymbolTable type internal slots hash (Some p))
                   (at_depth (S c') m parent1)) in Hinit.
    apply inside_returned in Hinit as (parent' & Hinit & ->).
    rewrite _GetValue_own_value. unfold own_value in *. simpl in *. rewrite Hnot.
    by apply (IH parent_table parent1).
Qed.

Lemma and_then_returned {St A B} (o : outcome St A) (k : A → St → outcome St B)
    (b : B) (st' : St) :
  and_then o k = Returned b st' → ∃ a st, o = Returned a st ∧ k a st = Returned b st'.
Proof. destruct o as [a st | msg st]; simpl; [| done]. intros Hk. by exists a, st. Qed.

Lemma DefineConstantForSymbol_GetValue (g : StringRegistry) (n : N) (p_value : EidosValue_SP)
    (this this' : EidosSymbolTable) :
  Forall storage_ok (chain this) →
  DefineConstantForSymbol g n p_value this = Returned tt this' →
  _GetValue g n this' = Ok (get (copy_unless_unique_and_visible p_value)).
Proof.
  intros Hok. unfold DefineConstantForSymbol.
  destruct (ContainsSymbol n this) eqn:Hcontains; [done |].
  apply ContainsSymbol_false_chain in Hcontains.
  intros (d & st & Hlocated & Hinit)%and_then_returned.
  destruct (find_defined_constants_table this) as [k |] eqn:Hfind.
  - injection Hlocated as <- <-.
    eapply at_depth_Initialize_GetValue; [done | done | | done].
    by apply find_defined_constants_table_depth.
  - destruct (find_child_of_intrinsic_table this) as [c |] eqn:Hchild; [| done].
    apply and_then_returned in Hlocated as ([] & this1 & Hins & [= <- <-]).
    by eapply insert_then_Initialize_GetValue.
Qed.

(** **** Removal leaves no invisible value either *)

Lemma table_values_visible_sublist (this : EidosSymbolTable)
    (slots : list EidosSymbolTable_InternalSlot) (h : gmap N EidosValue) :
  table_values_visible this →
  (∀ slot, slot ∈ slots → slot ∈ internal_symbols_ this) →
  h ⊆ hash_symbols_ this →
  table_values_visible
    (mkEidosSymbolTable (table_type_ this) (using_internal_symbols_ this) slots h
       (parent_symbol_table_ this)).
Proof.
  intros [Hslots Hhash] Hsub Hh. split; simpl.
  - intros slot Hin. by apply Hslots, Hsub.
  - intros n v Hv. apply (Hhash n). by eapply lookup_weaken.
Qed.

Lemma elem_of_remove_slot (slots : list EidosSymbolTable_InternalSlot) (i : nat)
    (slot : EidosSymbolTable_InternalSlot) :
  slot ∈ remove_slot slots i → slot ∈ slots.
Proof.
  unfold remove_slot.
  assert (Htake : ∀ x, x ∈ take (length slots - 1) slots → x ∈ slots).
  { intros x Hx. rewrite <- (take_drop (length slots - 1) slots). apply elem_of_app. by left. }
  destruct (_ =? _)%nat; [apply Htake |].
  destruct (slots !! (length slots - 1)%nat) as [backfill |] eqn:Hlast; [| apply Htake].
  intros Hin. apply list_elem_of_lookup in Hin as [j Hj].
  destruct (decide (i = j)) as [-> | Hne].
  - destruct (decide (j < length (take (length slots - 1) slots))%nat) as [Hlt | Hge].
    + rewrite list_lookup_insert_eq in Hj by done. injection Hj as <-.
      by eapply list_elem_of_lookup_2.
    + rewrite list_insert_ge in Hj by lia. apply Htake. by eapply list_elem_of_lookup_2.
  - rewrite list_lookup_insert_ne in Hj by done. apply Htake. by eapply list_elem_of_lookup_2.
Qed.

Lemma _RemoveSymbol_visible (g : StringRegistry) (n : N) (flag : bool) (this : EidosSymbolTable) :
  chain_values_visible this →
  chain_values_visible (state_of (_RemoveSymbol g n flag this)).
Proof.
  induction this as [type internal slots hash | type internal slots hash parent_table IH]
    using EidosSymbolTable_chain_ind; intros Hchain;
    pose proof Hchain as [Hthis Hparent]%chain_values_visible_unfold; simpl in *.
  - destruct internal.
    + destruct (scan_slots n slots (length slots)); [| done].
      destruct (removal_refused g n flag type); [done |]. simpl.
      apply chain_values_visible_unfold. split; [| done].
      apply (table_values_visible_sublist _ _ _ Hthis); [apply elem_of_remove_slot | done].
    + destruct (hash !! n); [| done].
      destruct (removal_refused g n flag type); [done |]. simpl.
      apply chain_values_visible_unfold. split; [| done].
      apply (table_values_visible_sublist _ _ _ Hthis); [done | apply delete_subseteq].
  - assert (Hin : chain_values_visible
                    (state_of (inside (λ p, mkEidosSymbolTable type internal slots hash (Some p))
                                      (_RemoveSymbol g n flag parent_table)))).
    { rewrite state_of_inside. apply chain_values_visible_unfold. split; [done |].
      simpl. by apply IH. }
    destruct internal.
    + destruct (scan_slots n slots (length slots)); [| done].
      destruct (removal_refused g n flag type); [done |]. simpl.
      apply chain_values_visible_unfold. split; [| done].
      apply (table_values_visible_sublist _ _ _ Hthis); [apply elem_of_remove_slot | done].
    + destruct (hash !! n); [| done].
      destruct (removal_refused g n flag type); [done |]. simpl.
      apply chain_values_visible_unfold. split; [| done].
      apply (table_values_visible_sublist _ _ _ Hthis); [done | apply delete_subseteq].
Qed.

(** What the setters store is never invisible.  [SetValueForSymbol] and
    [DefineConstantForSymbol] store a copy of the value handed in whenever its
    reference count is not 1 or it is invisible, and the value itself when it
    is uniquely owned and visible; either way the stored value is visible and
    is what [_GetValue] then returns.  [SetValueForSymbolNoCopy] terminates
    when handed an invisible value, leaving the table untouched.  Hence a
    chain that holds no invisible value holds none after any of these calls
    (nor after a removal), whether the call returned or terminated.  The
    set-up entry [_InitializeConstantSymbolEntry], through which the
    constructor and [DefineConstantForSymbol] write, keeps the chain so when
    it is handed a visible value, as these two hand it, or when the build
    checks its argument. *)
Theorem symbol_table_never_stores_invisible (g : StringRegistry) (n : N)
    (p_value : EidosValue_SP) (this : EidosSymbolTable) :
  let stored := copy_unless_unique_and_visible p_value in
  Invisible stored = false
  ∧ (use_count p_value ≠ 1%N ∨ Invisible p_value = true → stored = CopyValues p_value)
  ∧ (use_count p_value = 1%N → Invisible p_value = false → stored = p_value)
  ∧ (∀ this', SetValueForSymbol g n p_value this = Returned tt this' →
              _GetValue g n this' = Ok (get stored))
  ∧ (Forall storage_ok (chain this) →
     ∀ this', DefineConstantForSymbol g n p_value this = Returned tt this' →
              _GetValue g n this' = Ok (get stored))
  ∧ (Invisible p_value = true →
     SetValueForSymbolNoCopy g n p_value this
     = Terminated "ERROR (EidosSymbolTable::SetValueForSymbol): (internal) no copy requested with invisible value." this)
  ∧ (∀ this', SetValueForSymbolNoCopy g n p_value this = Returned tt this' →
              _GetValue g n this' = Ok (get p_value) ∧ Invisible p_value = false)
  ∧ (chain_values_visible this →
     chain_values_visible (state_of (SetValueForSymbol g n p_value this))
     ∧ chain_values_visible (state_of (SetValueForSymbolNoCopy g n p_value this))
     ∧ chain_values_visible (state_of (DefineConstantForSymbol g n p_value this))
     ∧ (DEBUG = true ∨ Invisible p_value = false →
        chain_values_visible (state_of (_InitializeConstantSymbolEntry n p_value this)))
     ∧ ∀ flag, chain_values_visible (state_of (_RemoveSymbol g n flag this))).
Proof.
  intros stored.
  split; [apply copy_unless_unique_and_visible_visible |].
  split.
  { unfold stored, copy_unless_unique_and_visible. intros [Hcount | Hinv].
    - apply N.eqb_neq in Hcount. by rewrite Hcount.
    - by rewrite Hinv, orb_true_r. }
  split.
  { unfold stored, copy_unless_unique_and_visible. intros Hcount Hinv.
    apply N.eqb_eq in Hcount. by rewrite Hcount, Hinv. }
  split.
  { intros this'. unfold SetValueForSymbol. fold stored.
    pose proof (set_value_spec g n (get stored) this) as Hspec.
    destruct (bool_decide _ && _); rewrite Hspec; [done |]. intros [= <-].
    by rewrite _GetValue_own_value, own_value_after_set_value. }
  split; [intros Hok this'; by apply DefineConstantForSymbol_GetValue |].
  split; [intros Hinv; unfold SetValueForSymbolNoCopy; by rewrite Hinv |].
  split.
  { intros this'. unfold SetValueForSymbolNoCopy.
    destruct (Invisible p_value); [done |].
    pose proof (set_value_spec g n (get p_value) this) as Hspec.
    destruct (bool_decide _ && _); rewrite Hspec; [done |]. intros [= <-].
    by rewrite _GetValue_own_value, own_value_after_set_value. }
  intros Hchain.
  split; [by apply SetValueForSymbol_visible |].
  split; [by apply SetValueForSymbolNoCopy_visible |].
  split; [by apply DefineConstantForSymbol_visible |].
  split; [intros Hchecked; by apply _InitializeConstantSymbolEntry_checked_visible |].
  intros flag. by apply _RemoveSymbol_visible.
Qed.

Lemma at_depth_1 (method : EidosSymbolTable → outcome EidosSymbolTable unit)
    (this parent_table : EidosSymbolTable) :
  parent_symbol_table_ this = Some parent_table →
  at_depth 1 method this = inside (λ p, set_parent this (Some p)) (method parent_table).
Proof. destruct this as [type internal slots hash parent]. simpl. by intros ->. Qed.

(** C6.  On a variables scope whose ancestors are constants tables in good
    order, [DefineConstantForSymbol n v] terminates with the "is already
    defined" diagnostic when [n] is bound anywhere in the chain, leaving the
    chain as it was.  Otherwise it returns, and the scope's parent is then a
    defined-constants table [dc] that binds [n] to the value (or its copy):
    the former parent with the one binding added when that was a
    defined-constants table, and else a new table holding only [n], linked
    between the scope and the intrinsic table.  From then on [_GetValue n]
    from [dc], from the scope and from every table that has [dc] in its chain
    behind tables that do not hold [n] finds the binding, and
    [SetValueForSymbol n] on the scope terminates as a redefinition of a
    constant. *)
Theorem DefineConstantForSymbol_installs_constant (g : StringRegistry) (n : N)
    (p_value : EidosValue_SP) (this parent_table : EidosSymbolTable) :
  table_type_ this = kVariablesTable →
  parent_symbol_table_ this = Some parent_table →
  constants_chain parent_table →
  storage_ok parent_table →
  let stored := get (copy_unless_unique_and_visible p_value) in
  (ContainsSymbol n this = true →
   DefineConstantForSymbol g n p_value this
   = Terminated ("ERROR (EidosSymbolTable::DefineConstantForSymbol): identifier '"
                 +:+ StringForEidosGlobalStringID n g +:+ "' is already defined.") this)
  ∧ (ContainsSymbol n this = false →
     ∃ dc,
       DefineConstantForSymbol g n p_value this = Returned tt (set_parent this (Some dc))
       ∧ table_type_ dc = kEidosDefinedConstantsTable
       ∧ bound_in dc n stored
       ∧ (table_type_ parent_table = kEidosDefinedConstantsTable →
          parent_symbol_table_ dc = parent_symbol_table_ parent_table
          ∧ ∀ m w, m ≠ n → bound_in dc m w ↔ bound_in parent_table m w)
       ∧ (table_type_ parent_table = kEidosIntrinsicConstantsTable →
          parent_symbol_table_ dc = Some parent_table
          ∧ ∀ m, holds dc m → m = n)
       ∧ _GetValue g n (set_parent this (Some dc)) = Ok stored
       ∧ _GetValue g n dc = Ok stored
       ∧ (∀ scope nearer further,
             chain scope = nearer ++ dc :: further →
             Forall (λ t, ¬ holds t n) nearer →
             _GetValue g n scope = Ok stored)
       ∧ ∀ w, SetValueForSymbol g n w (set_parent this (Some dc))
              = Terminated ("ERROR (EidosSymbolTable::SetValueForSymbol): identifier '"
                            +:+ StringForEidosGlobalStringID n g
                            +:+ "' cannot be redefined because it is a constant.")
                           (set_parent this (Some dc))).
Proof.
  intros Htype Hparent Hconstants Hok stored.
  split; [intros Hcontains; unfold DefineConstantForSymbol; by rewrite Hcontains |].
  intros Hcontains.
  pose proof Hcontains as Hnone%ContainsSymbol_false_chain.
  rewrite chain_unfold, Hparent in Hnone.
  apply Forall_cons in Hnone as [Hnot_this Hnone].
  rewrite chain_unfold in Hnone. apply Forall_cons in Hnone as [Hnot_parent _].
  pose proof (copy_unless_unique_and_visible_visible p_value) as Hvisible.
  (* what follows once the constants table [target] that takes the entry is
     known to be the scope's parent *)
  assert (Hrest : ∀ target,
             storage_ok target → ¬ holds target n →
             let dc := after_set_value n stored target in
             bound_in dc n stored
             ∧ _GetValue g n (set_parent this (Some dc)) = Ok stored
             ∧ _GetValue g n dc = Ok stored
             ∧ (∀ scope nearer further,
                   chain scope = nearer ++ dc :: further →
                   Forall (λ t, ¬ holds t n) nearer →
                   _GetValue g n scope = Ok stored)
             ∧ ∀ w, SetValueForSymbol g n w (set_parent this (Some dc))
                    = Terminated (cannot_be_redefined g n) (set_parent this (Some dc))).
  { intros target Htarget Hfree dc.
    assert (Hdc : own_value n dc = Some stored) by apply own_value_after_set_value.
    assert (Hthis : own_value n (set_parent this (Some dc)) = None).
    { apply own_value_None in Hnot_this. by destruct this. }
    split; [by apply own_value_Some |].
    split; [rewrite _GetValue_own_value, Hthis; simpl; by rewrite _GetValue_own_value, Hdc |].
    split; [by rewrite _GetValue_own_value, Hdc |].
    split.
    { intros scope nearer further Hchain Hnearer.
      rewrite (_GetValue_skips_nearer g n nearer dc further scope Hchain Hnearer).
      by rewrite _GetValue_own_value, Hdc. }
    intros w. unfold SetValueForSymbol.
    pose proof (set_value_spec g n (get (copy_unless_unique_and_visible w))
                  (set_parent this (Some dc))) as Hspec.
    rewrite Hthis in Hspec. rewrite bool_decide_eq_true_2 in Hspec by done.
    unfold parent_contains in Hspec. simpl in Hspec.
    by rewrite ContainsSymbol_own_value, Hdc in Hspec. }
  unfold DefineConstantForSymbol. rewrite Hcontains.
  destruct parent_table as [ptype pinternal pslots phash [grandparent |]].
  - (* the parent is a defined-constants table *)
    destruct Hconstants as [-> Hconstants].
    set (parent_table := mkEidosSymbolTable kEidosDefinedConstantsTable pinternal pslots phash
                           (Some grandparent)) in *.
    exists (after_set_value n stored parent_table).
    assert (Hfind : find_defined_constants_table this = Some 1%nat).
    { destruct this as [type internal slots hash parent]. simpl in *. subst. done. }
    rewrite Hfind. cbn [and_then]. rewrite (at_depth_1 _ _ _ Hparent).
    rewrite (_InitializeConstantSymbolEntry_fresh n _ parent_table) by done.
    cbn [inside]. fold stored.
    destruct (after_set_value_frame n stored parent_table) as [Hty Hpar].
    destruct (Hrest parent_table Hok Hnot_parent) as (Hbound & Hget & Hget_dc & Hdesc & Hset).
    split; [done |]. split; [by rewrite Hty |]. split; [done |].
    split.
    { intros _. split; [done |]. intros m w Hne.
      by rewrite <- !own_value_Some, own_value_after_set_value_ne. }
    split; [by intros [=] |]. done.
  - (* the parent is the intrinsic table: a new table is linked in *)
    simpl in Hconstants. subst ptype.
    set (ict := mkEidosSymbolTable kEidosIntrinsicConstantsTable pinternal pslots phash None) in *.
    set (fresh := mkEidosSymbolTable kEidosDefinedConstantsTable
                    (negb p_start_with_hash_default) [] ∅ (Some ict)).
    exists (after_set_value n stored fresh).
    assert (Hfind : find_defined_constants_table this = None).
    { destruct this as [type internal slots hash parent]. simpl in *. subst. done. }
    assert (Hchild : find_child_of_intrinsic_table this = Some 0%nat).
    { destruct this as [type internal slots hash parent]. simpl in *. subst. done. }
    rewrite Hfind, Hchild. cbn [at_depth].
    assert (Hinsert : insert_defined_constants_table this
                      = Returned tt (set_parent this (Some fresh))).
    { unfold insert_defined_constants_table. rewrite Hparent.
      pose proof (new_EidosSymbolTable_with_parent kEidosDefinedConstantsTable ict
                    p_start_with_hash_default) as Hnew.
      unfold new_EidosSymbolTable in *. simpl in *. rewrite !andb_false_r in *. done. }
    rewrite Hinsert. cbn [and_then].
    rewrite (at_depth_1 _ (set_parent this (Some fresh)) fresh) by done.
    assert (Hfresh_ok : storage_ok fresh).
    { split; simpl; [apply NoDup_nil_2 | by destruct (negb _)]. }
    assert (Hfresh_free : ∀ m, ¬ holds fresh m).
    { intros m. unfold holds. simpl.
      destruct (negb _); [by intros ?%not_elem_of_nil |]. rewrite lookup_empty. by intros [? ?]. }
    rewrite (_InitializeConstantSymbolEntry_fresh n _ fresh) by done.
    cbn [inside]. fold stored.
    destruct (after_set_value_frame n stored fresh) as [Hty Hpar].
    destruct (Hrest fresh Hfresh_ok (Hfresh_free n)) as (Hbound & Hget & Hget_dc & Hdesc & Hset).
    split; [by destruct this |]. split; [by rewrite Hty |]. split; [done |].
    split; [by intros [=] |].
    split; [| done].
    intros _. split; [done |]. intros m Hm.
    destruct (decide (m = n)) as [-> | Hne]; [done |].
    exfalso. apply holds_own_value in Hm.
    rewrite own_value_after_set_value_ne in Hm by done.
    apply holds_own_value in Hm. by apply (Hfresh_free m).
Qed.

(** **** Removal *)

Lemma _RemoveSymbol_own_value (g : StringRegistry) (n : N) (flag : bool) (this : EidosSymbolTable) :
  _RemoveSymbol g n flag this
  = match own_value n this with
    | Some _ =>
        match removal_refused g n flag (table_type_ this) with
        | Some msg => Terminated msg this
        | None => Returned tt (after_remove n this)
        end
    | None =>
        match parent_symbol_table_ this with
        | Some parent_table =>
            inside (λ p, set_parent this (Some p)) (_RemoveSymbol g n flag parent_table)
        | None => Returned tt this
        end
    end.
Proof.
  destruct this as [type [] slots hash [parent_table |]];
    unfold own_value, after_remove; simpl.
  - destruct (scan_slots n slots (length slots)) as [i |] eqn:Hscan; [| done].
    apply scan_slots_Some in Hscan as (_ & (slot & -> & _) & _). done.
  - destruct (scan_slots n slots (length slots)) as [i |] eqn:Hscan; [| done].
    apply scan_slots_Some in Hscan as (_ & (slot & -> & _) & _). done.
  - by destruct (hash !! n).
  - by destruct (hash !! n).
Qed.

Lemma remove_slot_split (front back : list EidosSymbolTable_InternalSlot)
    (slot : EidosSymbolTable_InternalSlot) :
  remove_slot (front ++ slot :: back) (length front)
  = match reverse back with
    | [] => front
    | last_slot :: rest => front ++ last_slot :: reverse rest
    end.
Proof.
  unfold remove_slot. rewrite length_app. simpl.
  replace (length front + S (length back) - 1)%nat with (length front + length back)%nat by lia.
  destruct (reverse back) as [| last_slot rest] eqn:Hrev.
  - apply (f_equal reverse) in Hrev. rewrite reverse_involutive in Hrev. subst back. simpl.
    rewrite Nat.add_0_r, Nat.eqb_refl. by rewrite take_app_length.
  - apply (f_equal reverse) in Hrev. rewrite reverse_involutive, reverse_cons in Hrev.
    subst back. rewrite length_app. simpl.
    destruct (Nat.eqb_spec (length front) (length front + (length (reverse rest) + 1))); [lia |].
    assert (Hwhole : front ++ slot :: reverse rest ++ [last_slot]
                     = (front ++ slot :: reverse rest) ++ [last_slot])
      by (by rewrite <- app_assoc).
    assert (Hlen : (length front + (length (reverse rest) + 1))%nat
                   = length (front ++ slot :: reverse rest))
      by (rewrite length_app; simpl; lia).
    rewrite Hwhole, Hlen, take_app_length.
    rewrite lookup_app_r, Nat.sub_diag by lia. simpl.
    rewrite insert_app_r_alt, Nat.sub_diag by lia. done.
Qed.

Lemma remove_slot_Permutation (front back : list EidosSymbolTable_InternalSlot)
    (slot : EidosSymbolTable_InternalSlot) :
  remove_slot (front ++ slot :: back) (length front) ≡ₚ front ++ back.
Proof.
  rewrite remove_slot_split. destruct (reverse back) as [| last_slot rest] eqn:Hrev.
  - apply (f_equal reverse) in Hrev. rewrite reverse_involutive in Hrev. subst back.
    by rewrite app_nil_r.
  - apply (f_equal reverse) in Hrev. rewrite reverse_involutive, reverse_cons in Hrev.
    subst back. apply Permutation_app_head. apply Permutation_cons_append.
Qed.

Lemma first_slot_value_elem_of (m : N) (v : EidosValue)
    (slots : list EidosSymbolTable_InternalSlot) :
  NoDup (map symbol_name_ slots) →
  first_slot_value m slots = Some v
  ↔ {| symbol_name_ := m; symbol_value_SP_ := v |} ∈ slots.
Proof.
  induction slots as [| slot rest IH]; simpl; intros Hnodup.
  - split; [done | by intros ?%not_elem_of_nil].
  - apply NoDup_cons in Hnodup as [Hfirst Hrest]. rewrite elem_of_cons.
    destruct (N.eqb_spec (symbol_name_ slot) m) as [Heq | Hne].
    + split.
      * intros [= <-]. left. destruct slot. simpl in *. by subst.
      * intros [<- | Hin]; [done |]. exfalso. apply Hfirst. rewrite Heq.
        apply list_elem_of_fmap. by exists {| symbol_name_ := m; symbol_value_SP_ := v |}.
    + rewrite IH by done. split; [by right |]. intros [<- | Hin]; [done | done].
Qed.

Lemma own_value_array (m : N) (this : EidosSymbolTable) :
  using_internal_symbols_ this = true →
  NoDup (map symbol_name_ (internal_symbols_ this)) →
  own_value m this = first_slot_value m (internal_symbols_ this).
Proof. intros Hmode Hnodup. unfold own_value. rewrite Hmode. by apply array_value_first. Qed.

Lemma after_remove_spec (n : N) (this : EidosSymbolTable) :
  storage_ok this →
  storage_ok (after_remove n this)
  ∧ own_value n (after_remove n this) = None
  ∧ ∀ m, m ≠ n → own_value m (after_remove n this) = own_value m this.
Proof.
  intros [Hnodup Hstore]. unfold after_remove.
  destruct (using_internal_symbols_ this) eqn:Hmode.
  - destruct (scan_slots n _ _) as [i |] eqn:Hscan.
    + apply scan_slots_Some in Hscan as (_ & (slot & Hslot & Hname) & _).
      apply list_elem_of_split_length in Hslot as (front & back & Hsplit & ->).
      rewrite Hsplit in *. rewrite map_app in Hnodup. simpl in Hnodup.
      apply NoDup_app in Hnodup as (Hfront & Hcross & Hback).
      apply NoDup_cons in Hback as [Hslot_back Hback].
      assert (Hperm := remove_slot_Permutation front back slot).
      assert (Hnodup' : NoDup (map symbol_name_ (remove_slot (front ++ slot :: back) (length front)))).
      { rewrite Hperm, map_app. apply NoDup_app. split; [done |]. split; [| done].
        intros x Hx Hx'. apply (Hcross x Hx). by right. }
      assert (Hmode' : using_internal_symbols_
                         (set_internal_symbols this
                            (remove_slot (front ++ slot :: back) (length front))) = true)
        by done.
      split; [split; simpl; [done | by rewrite Hmode] |].
      split.
      * rewrite own_value_array by done. simpl. apply first_slot_value_None.
        rewrite Hperm, map_app. intros [Hin | Hin]%elem_of_app.
        -- apply (Hcross _ Hin). rewrite <- Hname. by left.
        -- by rewrite <- Hname in Hin.
      * intros m Hne. rewrite !own_value_array; simpl; rewrite ?Hsplit; try done.
        2:{ rewrite map_app. simpl. apply NoDup_app. split; [done |]. split; [done |].
            by apply NoDup_cons. }
        apply option_eq. intros v.
        rewrite !first_slot_value_elem_of.
        2:{ rewrite map_app. simpl. apply NoDup_app. split; [done |]. split; [done |].
            by apply NoDup_cons. }
        2:{ done. }
        rewrite Hperm, !elem_of_app, elem_of_cons.
        split; [tauto |]. intros [? | [Heq | ?]]; [tauto | | tauto].
        exfalso. subst slot. simpl in Hname. congruence.
    + split; [split; [done | by rewrite Hmode] |].
      split; [| done]. unfold own_value. by rewrite Hmode, Hscan.
  - split; [split; simpl; [done | by rewrite Hmode] |].
    rewrite !own_value_set_hash_symbols by done. split; [apply lookup_delete_eq |].
    intros m Hne. rewrite own_value_set_hash_symbols by done.
    rewrite lookup_delete_ne by done. unfold own_value. by rewrite Hmode.
Qed.

Lemma set_parent_same (this parent_table : EidosSymbolTable) :
  parent_symbol_table_ this = Some parent_table → set_parent this (Some parent_table) = this.
Proof. destruct this. simpl. by intros ->. Qed.

Lemma own_value_set_parent (m : N) (this : EidosSymbolTable) (p : option EidosSymbolTable) :
  own_value m (set_parent this p) = own_value m this.
Proof. done. Qed.

Lemma length_chain_set_parent (this parent_table parent' : EidosSymbolTable) :
  parent_symbol_table_ this = Some parent_table →
  length (chain parent') = length (chain parent_table) →
  length (chain (set_parent this (Some parent'))) = length (chain this).
Proof.
  intros Hparent Hlen. rewrite (chain_unfold this), (chain_unfold (set_parent _ _)), Hparent.
  simpl. by rewrite Hlen.
Qed.

Lemma _RemoveSymbol_at_holder (g : StringRegistry) (n : N) (flag : bool)
    (nearer : list EidosSymbolTable) (holder : EidosSymbolTable)
    (further : list EidosSymbolTable) (this : EidosSymbolTable) :
  chain this = nearer ++ holder :: further →
  Forall (λ t, ¬ holds t n) nearer →
  holds holder n →
  match removal_refused g n flag (table_type_ holder) with
  | Some msg => _RemoveSymbol g n flag this = Terminated msg this
  | None => ∃ this', _RemoveSymbol g n flag this = Returned tt this'
                     ∧ removed_from g n holder this this'
  end.
Proof.
  revert this. induction nearer as [| t nearer IH]; intros this Hchain Hnearer Hholds;
    rewrite chain_unfold in Hchain; simpl in Hchain; rewrite _RemoveSymbol_own_value.
  - injection Hchain as <- _.
    apply holds_own_value in Hholds as [v Hv]. rewrite Hv.
    destruct (removal_refused g n flag (table_type_ this)) as [msg |]; [done |].
    exists (after_remove n this). split; [done |].
    assert (Hparent : parent_symbol_table_ (after_remove n this) = parent_symbol_table_ this).
    { unfold after_remove. destruct (using_internal_symbols_ this); [| done].
      by destruct (scan_slots n _ _). }
    split.
    { by rewrite (chain_unfold (after_remove n this)), (chain_unfold this), Hparent. }
    intros Hok. destruct (after_remove_spec n this Hok) as (_ & Hgone & Hframe).
    split.
    + intros m Hne. by rewrite !_GetValue_own_value, Hparent, Hframe.
    + by rewrite _GetValue_own_value, Hgone, Hparent.
  - injection Hchain as <- Hrest.
    apply Forall_cons in Hnearer as [Hnot Hnearer]. apply own_value_None in Hnot. rewrite Hnot.
    destruct (parent_symbol_table_ this) as [parent_table |] eqn:Hparent; [| by destruct nearer].
    specialize (IH parent_table Hrest Hnearer Hholds).
    destruct (removal_refused g n flag (table_type_ holder)) as [msg |].
    + rewrite IH. simpl. by rewrite set_parent_same.
    + destruct IH as (parent' & -> & Hlen & Hpost). simpl.
      exists (set_parent this (Some parent')). split; [done |].
      split; [by apply (length_chain_set_parent _ parent_table) |].
      intros Hok. destruct (Hpost Hok) as [Hframe Hgone]. split.
      * intros m Hne. rewrite !_GetValue_own_value, own_value_set_parent, Hparent. simpl.
        by rewrite Hframe.
      * rewrite _GetValue_own_value, own_value_set_parent, Hnot. simpl. done.
Qed.

(** C5.  [_RemoveSymbol] acts on the nearest table of the chain that holds the
    name.  If that table is the intrinsic-constants table the call terminates,
    whatever the flag; if it is a defined-constants table the call terminates
    when the flag is false and removes the binding when it is true; if it is a
    variables table the binding is always removed.  A refused removal leaves
    the chain as it was.  After a removal (from a table whose storage is in
    order) every other name reads as before and the removed name reads as it
    does from the holder's parent; the chain keeps its length. *)
Theorem RemoveSymbol_by_holder_type (g : StringRegistry) (n : N)
    (nearer : list EidosSymbolTable) (holder : EidosSymbolTable)
    (further : list EidosSymbolTable) (this : EidosSymbolTable) :
  chain this = nearer ++ holder :: further →
  Forall (λ t, ¬ holds t n) nearer →
  holds holder n →
  let removed flag :=
    ∃ this', _RemoveSymbol g n flag this = Returned tt this'
             ∧ removed_from g n holder this this' in
  match table_type_ holder with
  | kEidosIntrinsicConstantsTable =>
      ∀ flag,
        _RemoveSymbol g n flag this
        = Terminated ("ERROR (EidosSymbolTable::_RemoveSymbol): identifier '"
                      +:+ StringForEidosGlobalStringID n g
                      +:+ "' is an intrinsic Eidos constant and thus cannot be removed.") this
  | kEidosDefinedConstantsTable =>
      _RemoveSymbol g n false this
      = Terminated ("ERROR (EidosSymbolTable::_RemoveSymbol): identifier '"
                    +:+ StringForEidosGlobalStringID n g
                    +:+ "' is a constant and thus cannot be removed.") this
      ∧ removed true
  | kVariablesTable => ∀ flag, removed flag
  end.
Proof.
  intros Hchain Hnearer Hholds removed.
  pose proof (λ flag, _RemoveSymbol_at_holder g n flag nearer holder further this
                        Hchain Hnearer Hholds) as Hcases.
  destruct (table_type_ holder).
  - intros flag. by specialize (Hcases flag).
  - split; [by specialize (Hcases false) | by specialize (Hcases true)].
  - intros flag. by specialize (Hcases flag).
Qed.

End SymbolTableFacts.

Section MutationRunFacts.
Import eidos_global mutation_run.
Context `{EidosHeaders}.

Lemma initial_pool_inv : pool_inv initial_pool.
Proof.
  split; simpl.
  - by intros p ?%not_elem_of_nil.
  - intros p [run Hrun]. by rewrite lookup_empty in Hrun.
Qed.

Lemma last_removelast {A} (l : list A) (x : A) : last l = Some x → l = removelast l ++ [x].
Proof.
  intros Hlast. destruct (last_Some l x) as [[l' ->] _]; [done |].
  by rewrite removelast_last.
Qed.

Lemma NewMutationRun_inv (pool : RunPool) :
  pool_inv pool → pool_inv (snd (NewMutationRun pool)).
Proof.
  intros [Hfreed Hbelow]. unfold NewMutationRun.
  destruct (last (s_freed_mutation_runs_ pool)) as [back |] eqn:Hlast; simpl.
  - split; simpl; [| done]. intros p Hp. apply Hfreed.
    rewrite (last_removelast _ _ Hlast). apply elem_of_app. by left.
  - split; simpl.
    + intros p Hp. destruct (Hfreed p Hp) as (run & Hrun & Hcount).
      exists run. split; [| done]. rewrite lookup_insert_ne; [done |].
      intros <-. assert (next_address pool < next_address pool)%N; [| lia].
      apply Hbelow. by exists run.
    + intros p [run Hrun]. destruct (decide (next_address pool = p)) as [<- | Hne]; [lia |].
      rewrite lookup_insert_ne in Hrun by done.
      assert (p < next_address pool)%N by (apply Hbelow; by exists run). lia.
Qed.

Lemma FreeMutationRun_inv (p_run : N) (pool : RunPool) :
  is_Some (runs pool !! p_run) → pool_inv pool → pool_inv (FreeMutationRun p_run pool).
Proof.
  intros [freed Hfreed_run] [Hfreed Hbelow]. split; simpl.
  - intros p Hp. destruct (decide (p_run = p)) as [<- | Hne].
    + exists (with_count freed 0). split; [| done]. by rewrite lookup_alter_eq, Hfreed_run.
    + apply elem_of_app in Hp as [Hp | Hp]; [| by apply list_elem_of_singleton in Hp].
      destruct (Hfreed p Hp) as (run & Hrun & Hcount). exists run.
      split; [| done]. by rewrite lookup_alter_ne.
  - intros p [run Hrun]. apply Hbelow.
    destruct (decide (p_run = p)) as [<- | Hne]; [by exists freed |].
    rewrite lookup_alter_ne in Hrun by done. by exists run.
Qed.

(** A change to a run that keeps its mutation count, or that is made to a run
    off the free list, keeps the invariant. *)
Lemma alter_run_inv (f : MutationRun → MutationRun) (p_run : N) (pool : RunPool) :
  (p_run ∈ s_freed_mutation_runs_ pool → ∀ run, mutation_count_ (f run) = mutation_count_ run) →
  pool_inv pool →
  pool_inv {| runs := alter f p_run (runs pool);
              next_address := next_address pool;
              s_freed_mutation_runs_ := s_freed_mutation_runs_ pool |}.
Proof.
  intros Hcount [Hfreed Hbelow]. split; simpl.
  - intros p Hp. destruct (Hfreed p Hp) as (run & Hrun & Hzero).
    destruct (decide (p_run = p)) as [<- | Hne].
    + exists (f run). split; [by rewrite lookup_alter_eq, Hrun |]. by rewrite Hcount.
    + exists run. split; [by rewrite lookup_alter_ne | done].
  - intros p Hp. apply Hbelow. destruct (decide (p_run = p)) as [<- | Hne].
    + rewrite lookup_alter_eq in Hp. by apply fmap_is_Some in Hp.
    + by rewrite lookup_alter_ne in Hp.
Qed.

Lemma run_pool_call_inv (pool : RunPool) (c : pool_call) :
  match pointer_of c with
  | Some p =>
      is_Some (runs pool !! p) ∧ (modifies_run c = true → p ∉ s_freed_mutation_runs_ pool)
  | None => True
  end →
  pool_inv pool → pool_inv (run_pool_call pool c).
Proof.
  intros Hdisc Hinv. destruct c as [| p | p | p | p n | p | p | p m | p method]; simpl in *.
  - by apply NewMutationRun_inv.
  - destruct Hdisc as [Halloc _]. by apply FreeMutationRun_inv.
  - by apply alter_run_inv.
  - destruct Hdisc as [[run Hrun] _]. unfold Eidos_intrusive_ptr_release. rewrite Hrun.
    assert (Hstep : pool_inv
                      {| runs := <[p := with_ref_count run (uint32_pred (intrusive_ref_count run))]>
                                   (runs pool);
                         next_address := next_address pool;
                         s_freed_mutation_runs_ := s_freed_mutation_runs_ pool |}).
    { assert (Hmap : <[p := with_ref_count run (uint32_pred (intrusive_ref_count run))]>
                       (runs pool)
                     = alter (λ r, with_ref_count r (uint32_pred (intrusive_ref_count r)))
                             p (runs pool)).
      { apply map_eq. intros k. destruct (decide (p = k)) as [<- | Hne].
        - by rewrite lookup_insert_eq, lookup_alter_eq, Hrun.
        - by rewrite lookup_insert_ne, lookup_alter_ne. }
      rewrite Hmap. by apply alter_run_inv. }
    destruct (_ =? _)%N; [| done].
    apply FreeMutationRun_inv; [| done]. simpl. rewrite lookup_insert_eq. by eexists.
  - destruct Hdisc as [_ Hoff]. apply alter_run_inv; [| done]. intros Hin. by destruct Hoff.
  - destruct Hdisc as [_ Hoff]. apply alter_run_inv; [| done]. intros Hin. by destruct Hoff.
  - destruct Hdisc as [_ Hoff]. apply alter_run_inv; [| done]. intros Hin. by destruct Hoff.
  - destruct Hdisc as [_ Hoff]. apply alter_run_inv; [| done]. intros Hin. by destruct Hoff.
  - destruct Hdisc as [_ Hoff]. apply alter_run_inv; [| done]. intros Hin. by destruct Hoff.
Qed.

Lemma run_pool_calls_inv (calls : list pool_call) (pool : RunPool) :
  disciplined pool calls → pool_inv pool → pool_inv (foldl run_pool_call pool calls).
Proof.
  revert pool. induction calls as [| c rest IH]; intros pool Hdisc Hinv; [done |].
  simpl in *. destruct Hdisc as [Hc Hrest]. apply IH; [done |]. by apply run_pool_call_inv.
Qed.

(** C9.  Whatever a disciplined client has done with the pool, the run
    [NewMutationRun] hands out next has size 0.  When the free list is empty
    the run is a newly constructed one at an address not used before, and a
    new run has no mutations; otherwise it is the run at the back of the free
    list, which leaves the list.  [FreeMutationRun] sets the run's mutation
    count to 0 and puts it at the back of the list, so the next
    [NewMutationRun] returns that very run, empty. *)
Theorem NewMutationRun_hands_out_empty_runs (calls : list pool_call) :
  disciplined initial_pool calls →
  let pool := foldl run_pool_call initial_pool calls in
  let run := fst (NewMutationRun pool) in
  let pool' := snd (NewMutationRun pool) in
  size <$> runs pool' !! run = Some 0%Z
  ∧ size new_MutationRun = 0%Z
  ∧ (s_freed_mutation_runs_ pool = [] →
     runs pool !! run = None ∧ runs pool' !! run = Some new_MutationRun)
  ∧ (∀ rest back, s_freed_mutation_runs_ pool = rest ++ [back] →
                  run = back ∧ s_freed_mutation_runs_ pool' = rest ∧ runs pool' = runs pool)
  ∧ (∀ p_run, is_Some (runs pool !! p_run) →
              let freed := FreeMutationRun p_run pool in
              size <$> runs freed !! p_run = Some 0%Z
              ∧ last (s_freed_mutation_runs_ freed) = Some p_run
              ∧ fst (NewMutationRun freed) = p_run
              ∧ size <$> runs (snd (NewMutationRun freed)) !! p_run = Some 0%Z).
Proof.
  intros Hdisc pool run pool'.
  assert (Hinv : pool_inv pool) by (apply run_pool_calls_inv; [done | apply initial_pool_inv]).
  destruct Hinv as [Hfreed Hbelow].
  split; [| split; [done |]; split; [| split]].
  - unfold run, pool', NewMutationRun.
    destruct (last (s_freed_mutation_runs_ pool)) as [back |] eqn:Hlast; simpl.
    + destruct (Hfreed back) as (r & -> & Hcount); [| by rewrite <- Hcount].
      rewrite (last_removelast _ _ Hlast). apply elem_of_app. right. by left.
    + by rewrite lookup_insert_eq.
  - intros Hempty. unfold run, pool', NewMutationRun. rewrite Hempty. simpl.
    split; [| by rewrite lookup_insert_eq].
    apply eq_None_not_Some. intros Hsome. apply Hbelow in Hsome. lia.
  - intros rest back Hlist. unfold run, pool', NewMutationRun.
    rewrite Hlist, last_snoc. simpl. by rewrite removelast_last.
  - intros p_run [r Hr] freed.
    assert (Hsize : size <$> runs freed !! p_run = Some 0%Z).
    { unfold freed. simpl. by rewrite lookup_alter_eq, Hr. }
    assert (Hlast : last (s_freed_mutation_runs_ freed) = Some p_run).
    { unfold freed. simpl. apply last_snoc. }
    split; [done |]. split; [done |].
    unfold NewMutationRun. rewrite Hlast. simpl. split; [done |].
    by rewrite lookup_alter_eq, Hr.
Qed.

End MutationRunFacts.

Section CommandLineFacts.
Import eidos_global eidos_symbol_table eidos_command_line.
Context `{EidosHeaders}.
Variable stack_trace : string.
Variable Script_Parse :
  string → StringRegistry → option (option EidosASTNode) * StringRegistry * string.
Variable Interpreter_Evaluate :
  option EidosASTNode → EidosSymbolTable → StringRegistry
  → option EidosValue_SP * StringRegistry * string.

Lemma string_in_In (s : string) (candidates : list string) :
  string_in s candidates = true ↔ s ∈ candidates.
Proof.
  unfold string_in. rewrite existsb_exists. split.
  - intros (x & Hin & ->%String.eqb_eq). by apply list_elem_of_In.
  - intros Hin. exists s. split; [by apply list_elem_of_In | apply String.eqb_refl].
Qed.

Lemma scan_digits_all_digits (s rest : string) (i : nat) :
  (∀ j, String.get (i + j) s = String.get j rest) →
  (scan_digits s i (String.length rest) =? i + String.length rest)%nat = all_digits rest.
Proof.
  revert i. induction rest as [| c rest IH]; intros i Hget; simpl.
  - rewrite Nat.add_0_r. apply Nat.eqb_refl.
  - pose proof (Hget 0%nat) as H0. rewrite Nat.add_0_r in H0. simpl in H0. rewrite H0.
    destruct (not_a_digit c); simpl.
    + apply Nat.eqb_neq. lia.
    + rewrite <- (IH (S i)).
      * by replace (i + S (String.length rest))%nat with (S i + String.length rest)%nat by lia.
      * intros j. specialize (Hget (S j)). simpl in Hget. rewrite <- Hget. f_equal. lia.
Qed.

Lemma reserved_pattern_test (s : string) (flags : bool) :
  (if (2 <=? String.length s)%nat
   then match String.get 0 s with
        | Some first_ch =>
            if Ascii.eqb first_ch "p" || Ascii.eqb first_ch "g"
               || Ascii.eqb first_ch "m" || Ascii.eqb first_ch "s"
            then if (scan_digits s 1 (String.length s - 1) =? String.length s)%nat
                 then false else flags
            else flags
        | None => flags
        end
   else flags)
  = flags && negb (host_reserved_pattern s).
Proof.
  destruct s as [| first_ch rest]; [by rewrite andb_true_r |].
  destruct rest as [| second rest].
  { simpl. by destruct flags, (Ascii.eqb first_ch "p"), (Ascii.eqb first_ch "g"),
      (Ascii.eqb first_ch "m"), (Ascii.eqb first_ch "s"). }
  remember (String second rest) as tail eqn:Htail.
  assert (Hlong : (2 <=? String.length (String first_ch tail))%nat = true) by (by subst tail).
  assert (Hnonempty : (tail =? "")%string = false) by (by subst tail).
  rewrite Hlong. unfold host_reserved_pattern. rewrite Hnonempty.
  change (String.get 0 (String first_ch tail)) with (Some first_ch). cbv beta iota.
  destruct (Ascii.eqb first_ch "p" || Ascii.eqb first_ch "g"
            || Ascii.eqb first_ch "m" || Ascii.eqb first_ch "s");
    [| simpl; by rewrite andb_true_r].
  replace (String.length (String first_ch tail) - 1)%nat with (String.length tail)
    by (simpl; lia).
  change (String.length (String first_ch tail)) with (1 + String.length tail)%nat.
  rewrite (scan_digits_all_digits (String first_ch tail) tail 1) by done.
  cbn [negb andb].
  destruct (all_digits tail); [by rewrite andb_false_r | by rewrite andb_true_r].
Qed.

(** The names [Eidos_GoodSymbolForDefine] accepts. *)
Lemma Eidos_GoodSymbolForDefine_spec (p_symbol_name : string) :
  Eidos_GoodSymbolForDefine p_symbol_name = true ↔
  (p_symbol_name ∉ intrinsic_constant_names)
  ∧ (p_symbol_name ∉ reserved_keywords)
  ∧ p_symbol_name ≠ "sim"
  ∧ host_reserved_pattern p_symbol_name = false.
Proof.
  unfold Eidos_GoodSymbolForDefine. rewrite reserved_pattern_test.
  rewrite <- !string_in_In, <- String.eqb_neq, andb_true_iff, negb_true_iff.
  destruct (p_symbol_name =? "sim")%string, (string_in p_symbol_name reserved_keywords),
    (string_in p_symbol_name intrinsic_constant_names); intuition congruence.
Qed.

Lemma malformed_definition_ends (save_throws : bool) (constant : string) (G : EidosGlobals) :
  ends_with_diagnostic save_throws (malformed_definition_text constant) G
    (inr (malformed_definition stack_trace save_throws constant G)).
Proof.
  unfold ends_with_diagnostic, malformed_definition, EIDOS_TERMINATION.
  destruct save_throws; cbn [set_throws gEidosTerminateThrows write].
  - unfold terminate_stream, eidos_terminate_nullptr. cbn [print_backtrace_].
    destruct print_backtrace_default; cbn; eexists; exists "";
      by rewrite string_append_empty_r.
  - eexists. exists "". cbn. by rewrite string_append_empty_r.
Qed.

Lemma illegal_name_ends (save_throws : bool) (symbol_name : string) (G : EidosGlobals) :
  ends_with_diagnostic save_throws (illegal_name_text symbol_name) G
    (inr (illegal_name stack_trace save_throws symbol_name G)).
Proof.
  unfold ends_with_diagnostic, illegal_name, raise.
  set (st := set_throws save_throws (termination_globals G)).
  set (st1 := write (EIDOS_TERMINATION st) (illegal_name_text symbol_name) st).
  assert (Hout : EIDOS_TERMINATION st
                 = if save_throws then termination_stream else cerr_stream)
    by (unfold EIDOS_TERMINATION, st; by destruct save_throws).
  assert (Hmode1 : gEidosTerminateThrows st1 = save_throws).
  { unfold st1. rewrite Hout. by destruct save_throws. }
  assert (Hout1 : EIDOS_TERMINATION st1 = EIDOS_TERMINATION st).
  { unfold EIDOS_TERMINATION at 1. rewrite Hmode1. by rewrite Hout. }
  rewrite <- Hout1.
  destruct save_throws.
  - destruct (terminate_stream_throws stack_trace eidos_terminate_nullptr st1 Hmode1)
      as (st' & -> & Hmode' & Hstream).
    exists (with_termination G st'), "". cbn [leave]. split; [done |].
    cbn [contents with_termination termination_globals]. rewrite Hstream.
    unfold st1. rewrite Hout.
    split; [by rewrite string_append_empty_r |]. by repeat split.
  - destruct (terminate_stream_exits stack_trace eidos_terminate_nullptr st1 Hmode1)
      as (st' & rest & -> & Hmode' & Hcerr).
    exists (with_termination G st'), rest. cbn [leave]. split; [done |].
    cbn [contents with_termination termination_globals]. rewrite Hcerr.
    unfold st1. rewrite Hout.
    split; [done |]. split; [done |]. by repeat split.
Qed.

Lemma Eidos_ValueForCommandLineExpression_frame (p_value_expression : string) (G : EidosGlobals) :
  let G' := snd (Eidos_ValueForCommandLineExpression stack_trace Script_Parse
                   Interpreter_Evaluate p_value_expression G) in
  gEidosConstantsSymbolTable G' = gEidosConstantsSymbolTable G
  ∧ gEidosTerminateThrows (termination_globals G')
    = gEidosTerminateThrows (termination_globals G).
Proof.
  unfold Eidos_ValueForCommandLineExpression.
  destruct (Script_Parse _ _) as [[parsed g] text].
  destruct parsed as [AST |]; [| done].
  destruct (new_EidosSymbolTable _ _ _) as [[] symbol_table | msg symbol_table].
  - by destruct (Interpreter_Evaluate _ _ _) as [[value g'] text'].
  - pose proof (terminate_stream_keeps_mode stack_trace
                  (EIDOS_TERMINATION (termination_globals (after_script_code G g text)))
                  eidos_terminate_nullptr
                  (write (EIDOS_TERMINATION (termination_globals (after_script_code G g text)))
                         msg (termination_globals (after_script_code G g text)))) as Hkeep.
    rewrite write_keeps_mode in Hkeep. unfold raise.
    destruct (terminate_stream _ _ _ _); simpl in *; by rewrite Hkeep.
Qed.

(** X31.  One command-line definition [constant], processed in throws mode with
    the caller's mode saved in [save_throws].
    - The string is parsed; if parsing fails, or the tree is not a block
      holding one assignment of an expression to a bare identifier, the run
      ends with the "malformed command-line constant definition" diagnostic.
    - The identifier is checked by [Eidos_GoodSymbolForDefine], which accepts
      exactly the names that are no intrinsic constant, no keyword, not [sim],
      and not [p], [g], [m] or [s] followed by digits only; a refused name ends
      the run with the "illegal defined constant name" diagnostic.
    - The text to the right of the assignment is evaluated in a new variables
      table whose parent is the global constants table; if that fails, the
      run ends with the "malformed" diagnostic.
    - Otherwise the name is interned and the value is handed to
      [_InitializeConstantSymbolEntry] on the global constants table, which
      returns when the build does not check its argument or the value is
      visible; when the table, its storage in order, did not hold the name,
      every scope below the table reads the value back and cannot assign to
      the name.
    A run that ends does so by a runtime error when the caller's mode was
    throws and by [exit(EXIT_FAILURE)] otherwise, the diagnostic and a line end
    having been sent to the stream of that mode; the constants table is as it
    was. *)
Theorem command_line_constant_definition (save_throws : bool) (constant : string)
    (G : EidosGlobals) :
  let run := define_constant stack_trace Script_Parse Interpreter_Evaluate in
  let evaluate := Eidos_ValueForCommandLineExpression stack_trace Script_Parse
                    Interpreter_Evaluate in
  let parsed := (Script_Parse constant (string_registry G)).1.1 in
  let G1 := after_script_code G (Script_Parse constant (string_registry G)).1.2
              (Script_Parse constant (string_registry G)).2 in
  let malformed :=
    ends_with_diagnostic save_throws
      ("ERROR (Eidos_DefineConstantsFromCommandLine): malformed command-line constant definition: "
       +:+ constant) in
  (∀ rest G0,
      G = with_termination G0 (set_throws true (termination_globals G0)) →
      save_throws = gEidosTerminateThrows (termination_globals G0) →
      Eidos_DefineConstantsFromCommandLine stack_trace Script_Parse Interpreter_Evaluate
        (constant :: rest) G0
      = match run save_throws constant G with
        | inl G' => define_constants stack_trace Script_Parse Interpreter_Evaluate
                      save_throws rest G'
        | inr ended => ended
        end)
  ∧ (∀ name, Eidos_GoodSymbolForDefine name = true ↔
             (name ∉ ["T"; "F"; "NULL"; "PI"; "E"; "INF"; "NAN"])
             ∧ (name ∉ ["if"; "else"; "do"; "while"; "for"; "in"; "next"; "break"; "return"])
             ∧ name ≠ "sim"
             ∧ host_reserved_pattern name = false)
  ∧ (parsed = None ∨ (∃ AST, parsed = Some AST ∧ definition_shape AST = None) →
     malformed G1 (run save_throws constant G))
  ∧ (∀ AST name assign_end right_node,
        parsed = Some AST →
        definition_shape AST = Some (name, assign_end, right_node) →
        (Eidos_GoodSymbolForDefine name = false →
         ends_with_diagnostic save_throws
           ("ERROR (Eidos_DefineConstantsFromCommandLine): illegal defined constant name "
            +:+ double_quote +:+ name +:+ double_quote +:+ ".")
           G1 (run save_throws constant G))
        ∧ (Eidos_GoodSymbolForDefine name = true → right_node = None →
           malformed G1 (run save_throws constant G))
        ∧ (Eidos_GoodSymbolForDefine name = true →
           ∀ rhs expression,
             right_node = Some rhs →
             substr_from constant (assign_end + 1) = Some expression →
             let value := (evaluate expression G1).1 in
             let G2 := (evaluate expression G1).2 in
             (∀ rhs_AST g text,
                 Script_Parse expression (string_registry G1) = (Some rhs_AST, g, text) →
                 DEBUG = false
                 ∨ table_type_ (gEidosConstantsSymbolTable G) ≠ kVariablesTable →
                 value
                 = (Interpreter_Evaluate rhs_AST
                      (mkEidosSymbolTable kVariablesTable (negb p_start_with_hash_default) [] ∅
                         (Some (gEidosConstantsSymbolTable G))) g).1.1)
             ∧ (value = None → malformed G2 (run save_throws constant G))
             ∧ (∀ x_value,
                   value = Some x_value →
                   DEBUG = false
                   ∨ (Invisible x_value = false
                      ∧ table_type_ (gEidosConstantsSymbolTable G) ≠ kVariablesTable) →
                   let symbol_id := (EidosGlobalStringIDForString name (string_registry G2)).1 in
                   ∃ G3,
                     run save_throws constant G = inl G3
                     ∧ string_registry G3
                       = (EidosGlobalStringIDForString name (string_registry G2)).2
                     ∧ termination_globals G3 = termination_globals G2
                     ∧ _InitializeConstantSymbolEntry symbol_id x_value
                         (gEidosConstantsSymbolTable G)
                       = Returned tt (gEidosConstantsSymbolTable G3)
                     ∧ (storage_ok (gEidosConstantsSymbolTable G) →
                        ¬ holds (gEidosConstantsSymbolTable G) symbol_id →
                        ∀ g scope,
                          parent_symbol_table_ scope = Some (gEidosConstantsSymbolTable G3) →
                          ¬ holds scope symbol_id →
                          _GetValue g symbol_id scope = Ok (get x_value)
                          ∧ ∀ w, SetValueForSymbol g symbol_id w scope
                                 = Terminated
                                     ("ERROR (EidosSymbolTable::SetValueForSymbol): identifier '"
                                      +:+ StringForEidosGlobalStringID symbol_id g
                                      +:+ "' cannot be redefined because it is a constant.")
                                     scope)))).
Proof.
  intros run evaluate parsed G1 malformed.
  split.
  { intros rest G0 HG Hsave. unfold Eidos_DefineConstantsFromCommandLine.
    by rewrite <- Hsave, <- HG. }
  split; [apply Eidos_GoodSymbolForDefine_spec |].
  unfold run, define_constant, parsed, G1.
  destruct (Script_Parse constant (string_registry G)) as [[parsed' g1] text1].
  cbn [fst snd]. clear parsed G1. set (G1 := after_script_code G g1 text1).
  split.
  { intros [-> | (AST & -> & ->)]; apply malformed_definition_ends. }
  intros AST name assign_end right_node -> ->.
  split; [intros ->; apply illegal_name_ends |].
  split; [intros -> ->; apply malformed_definition_ends |].
  intros -> rhs expression -> ->.
  destruct (Eidos_ValueForCommandLineExpression_frame expression G1) as [Htable2 Hmode2].
  fold evaluate in Htable2, Hmode2.
  change (gEidosConstantsSymbolTable G1) with (gEidosConstantsSymbolTable G) in Htable2.
  fold evaluate. destruct (evaluate expression G1) as [value' G2'] eqn:Hevaluated.
  cbn [fst snd] in *.
  split.
  { intros rhs_AST g text Hparse Hdebug.
    unfold evaluate, Eidos_ValueForCommandLineExpression in Hevaluated.
    rewrite Hparse in Hevaluated.
    assert (Hnew : new_EidosSymbolTable kVariablesTable
                     (Some (gEidosConstantsSymbolTable (after_script_code G1 g text)))
                     p_start_with_hash_default
                   = Returned tt
                       (mkEidosSymbolTable kVariablesTable (negb p_start_with_hash_default) [] ∅
                          (Some (gEidosConstantsSymbolTable G)))).
    { unfold new_EidosSymbolTable. cbn [table_type_eqb andb].
      rewrite andb_false_r.
      change (gEidosConstantsSymbolTable (after_script_code G1 g text))
        with (gEidosConstantsSymbolTable G).
      destruct Hdebug as [-> | Htype]; [done |].
      destruct (table_type_ (gEidosConstantsSymbolTable G)); [| | done];
        by rewrite andb_false_r. }
    rewrite Hnew in Hevaluated.
    change (string_registry (after_script_code G1 g text)) with g in Hevaluated.
    destruct (Interpreter_Evaluate _ _ _) as [[v g'] text']. by injection Hevaluated as <- _. }
  split; [intros ->; apply malformed_definition_ends |].
  intros x_value -> Hdebug.
  destruct (EidosGlobalStringIDForString name (string_registry G2')) as [id g3] eqn:Hintern.
  cbn [fst snd] in *.
  change (gEidosConstantsSymbolTable (with_registry G2' g3))
    with (gEidosConstantsSymbolTable G2').
  rewrite Htable2.
  assert (Hreturns : ∃ table, _InitializeConstantSymbolEntry id x_value
                                (gEidosConstantsSymbolTable G) = Returned tt table).
  { unfold _InitializeConstantSymbolEntry.
    assert (Hchecks : DEBUG && Invisible x_value = false
                      ∧ DEBUG && table_type_eqb (table_type_ (gEidosConstantsSymbolTable G))
                                   kVariablesTable = false).
    { destruct Hdebug as [-> | [-> Htype]]; [done |]. rewrite andb_false_r. split; [done |].
      destruct (table_type_ (gEidosConstantsSymbolTable G)); [| | done]; by rewrite andb_false_r. }
    destruct Hchecks as [-> ->].
    destruct (using_internal_symbols_ _); [destruct (_ <? _)%nat |]; by eexists. }
  destruct Hreturns as [table Hreturns]. rewrite Hreturns.
  exists (with_constants (with_registry G2' g3) table).
  split; [done |]. split; [done |]. split; [done |]. split; [done |].
  intros Hok Hfree g scope Hparent Hscope. cbn [gEidosConstantsSymbolTable with_constants] in Hparent.
  apply _InitializeConstantSymbolEntry_returned in Hreturns as ->; [| done | done].
  assert (Htable : own_value id (after_set_value id (get x_value) (gEidosConstantsSymbolTable G))
                   = Some (get x_value)) by apply own_value_after_set_value.
  apply own_value_None in Hscope.
  split.
  - rewrite _GetValue_own_value, Hscope, Hparent. by rewrite _GetValue_own_value, Htable.
  - intros w. unfold SetValueForSymbol.
    pose proof (set_value_spec g id (get (copy_unless_unique_and_visible w)) scope) as Hspec.
    rewrite Hscope in Hspec. rewrite bool_decide_eq_true_2 in Hspec by done.
    unfold parent_contains in Hspec. rewrite Hparent in Hspec.
    by rewrite ContainsSymbol_own_value, Htable in Hspec.
Qed.

End CommandLineFacts.

(** * Worked examples *)

Section WorkedExamples.
Import eidos_global eidos_symbol_table eidos_command_line mutation_run examples.
#[local] Existing Instance headers.

(** A decidable proposition about concrete data, settled by evaluation. *)
Ltac by_deciding := apply (bool_decide_unpack _); by vm_compute.

(** C10 at work: with the intrinsic names registered and [x] interned, the ID
    interning [y] returns still reads back as [y] after [z] has been interned
    and [y] asked for again, and the ID 999, which nobody issued, reads back
    as "undefined". *)
Lemma StringForEidosGlobalStringID_roundtrip_example :
  (gEidosID_LastContextEntry + N.of_nat (length (intrinsic_registrations ++ [CallIntern "x"]))
     + 1 + N.of_nat (length [CallIntern "z"; CallIntern "y"]) < uint32_modulus)%N
  ∧ StringForEidosGlobalStringID y_id (run_calls registry [CallIntern "z"; CallIntern "y"]) = "y"
  ∧ StringForEidosGlobalStringID 999 (run_calls registry [CallIntern "z"; CallIntern "y"])
    = "undefined".
Proof.
  assert (Hroom : (gEidosID_LastContextEntry
                   + N.of_nat (length (intrinsic_registrations ++ [CallIntern "x"]))
                   + 1 + N.of_nat (length [CallIntern "z"; CallIntern "y"]) < uint32_modulus)%N)
    by (vm_compute; reflexivity).
  split; [exact Hroom |].
  destruct (StringForEidosGlobalStringID_roundtrip
              (intrinsic_registrations ++ [CallIntern "x"]) [CallIntern "z"; CallIntern "y"]
              "y" Hroom) as [Hback Hundefined].
  split.
  - vm_compute in Hback. vm_compute. exact Hback.
  - specialize (Hundefined 999%N).
    assert (Hfresh : 999%N ∉ ids_issued initial_registry
                       ((intrinsic_registrations ++ [CallIntern "x"])
                        ++ CallIntern "y" :: [CallIntern "z"; CallIntern "y"])).
    { by_deciding. }
    specialize (Hundefined Hfresh). vm_compute in Hundefined. vm_compute. exact Hundefined.
Defined.

(** C8 does not hold as stated.  In throws mode the error that leaves the
    terminator carries the fixed text, which is neither the diagnostic
    accumulated in the stream before the call nor the stream's content after
    it; the diagnostic is still in the stream.  In exits mode with no current
    script the terminator ends the line and prints no excerpt and no caret. *)
Lemma runtime_error_does_not_carry_diagnostic :
  (∃ what st',
      terminate_stream "" (EIDOS_TERMINATION raising_state) {| print_backtrace_ := false |}
        raising_state
      = Throws what st'
      ∧ what = "A runtime error occurred in Eidos"
      ∧ (what =? gEidosTermination raising_state)%string = false
      ∧ (what =? gEidosTermination st')%string = false
      ∧ gEidosTermination st' = undefined_y +:+ endl)
  ∧ (∃ st',
        terminate_stream "" (EIDOS_TERMINATION exiting_state_without_script)
          {| print_backtrace_ := false |} exiting_state_without_script
        = Exits EXIT_FAILURE st'
        ∧ std_cerr st' = undefined_y +:+ endl).
Proof.
  split.
  - do 2 eexists. vm_compute. by repeat split.
  - eexists. vm_compute. by repeat split.
Qed.

(** C8 as amended, at work: the exits-mode terminator prints the excerpt of
    [x = y;] with one caret under its fifth byte and exits with status 1; in
    throws mode the trimmed message is the diagnostic and fetching it empties
    the stream. *)
Lemma terminator_throws_or_exits_example :
  (∃ st',
      terminate_stream "" (EIDOS_TERMINATION exiting_state) {| print_backtrace_ := false |}
        exiting_state
      = Exits 1 st'
      ∧ std_cerr st'
        = undefined_y +:+ endl +:+ endl +:+ "Error on script line 1, character 4:" +:+ endl
          +:+ endl +:+ "x = y;" +:+ endl +:+ "    ^" +:+ endl)
  ∧ (∃ st',
        terminate_stream "" (EIDOS_TERMINATION raising_state) {| print_backtrace_ := false |}
          raising_state
        = Throws "A runtime error occurred in Eidos" st'
        ∧ fst (EidosGetTrimmedRaiseMessage st') = undefined_y
        ∧ gEidosTermination (snd (EidosGetTrimmedRaiseMessage st')) = "").
Proof.
  split.
  - destruct (terminator_throws_or_exits "" {| print_backtrace_ := false |} exiting_state)
      as [_ Hexits].
    destruct Hexits as (st' & Hcall & _ & _ & Hprinted); [reflexivity |].
    exists st'. split; [exact Hcall |].
    vm_compute in Hprinted. destruct Hprinted as [Hprinted _].
    vm_compute. exact Hprinted.
  - destruct (terminator_throws_or_exits "" {| print_backtrace_ := false |} raising_state)
      as [Hthrows _].
    destruct Hthrows as (st' & Hcall & _ & _ & _ & _ & Hempty & Htrimmed); [reflexivity |].
    exists st'. split; [exact Hcall |]. split; [| exact Hempty].
    apply (Htrimmed "ERROR (EidosSymbolTable::_GetValue): undefined identifier y" "."%char);
      reflexivity.
Defined.

(** C1 at work: from the scope holding [x = 7], [x] is found in the scope
    itself, [PI] in the intrinsic table behind it, and [y], which no table
    holds, is an undefined identifier. *)
Lemma GetValue_nearest_binding_example :
  _GetValue registry x_id scope_with_x = Ok (get (integer 7))
  ∧ _GetValue registry gEidosID_PI scope_with_x = Ok (get (float M_PI_bits))
  ∧ _GetValue registry y_id scope_with_x
    = Raise "ERROR (EidosSymbolTable::_GetValue): undefined identifier y.".
Proof.
  destruct (GetValue_nearest_binding registry x_id scope_with_x) as [Hx _].
  destruct (GetValue_nearest_binding registry gEidosID_PI scope_with_x) as [HPI _].
  destruct (GetValue_nearest_binding registry y_id scope_with_x) as (_ & Hy & _).
  split; [| split].
  - apply (Hx [] scope_with_x [intrinsic_table]);
      [by vm_compute | apply Forall_nil_2 | apply own_value_Some; by vm_compute].
  - apply (HPI [scope_with_x] intrinsic_table []);
      [by vm_compute | | apply own_value_Some; by vm_compute].
    by_deciding.
  - rewrite Hy; [by vm_compute |]. by_deciding.
Defined.

(** C2 at work: [PI = 4] in the scope terminates as a redefinition of a
    constant, the chain is as it was and [PI] reads as before; [x = 4]
    replaces the scope's own binding. *)
Lemma SetValueForSymbol_redefinition_of_constant_example :
  SetValueForSymbol registry gEidosID_PI (float four_bits) scope_with_x
  = Terminated "ERROR (EidosSymbolTable::SetValueForSymbol): identifier 'PI' cannot be redefined because it is a constant."
               scope_with_x
  ∧ _GetValue registry gEidosID_PI
      (state_of (SetValueForSymbol registry gEidosID_PI (float four_bits) scope_with_x))
    = Ok (get (float M_PI_bits))
  ∧ ∃ this', SetValueForSymbol registry x_id (float four_bits) scope_with_x = Returned tt this'
             ∧ bound_in this' x_id (get (float four_bits)).
Proof.
  pose proof (SetValueForSymbol_redefinition_of_constant registry gEidosID_PI (float four_bits)
                scope_with_x) as HPI.
  pose proof (SetValueForSymbol_redefinition_of_constant registry x_id (float four_bits)
                scope_with_x) as Hx.
  cbv zeta in HPI, Hx.
  destruct HPI as (Hiff & Hfails & _). destruct Hx as (_ & _ & Hreturns).
  assert (Hterminated : terminated (SetValueForSymbol registry gEidosID_PI (float four_bits)
                                      scope_with_x) = true).
  { apply Hiff. split; [by_deciding |].
    exists intrinsic_table. split; [by vm_compute |].
    by_deciding. }
  specialize (Hfails Hterminated).
  split; [| split].
  - vm_compute in Hfails. vm_compute. exact Hfails.
  - rewrite Hfails. by vm_compute.
  - destruct Hreturns as (this' & Hcall & Hbound & _); [by vm_compute |].
    exists this'. split; [exact Hcall |]. vm_compute in Hbound. vm_compute. exact Hbound.
Defined.


(** The setters at work: an invisible value handed to [SetValueForSymbol] is copied
    and the copy is visible; the no-copy setter refuses it; the chain holds no
    invisible value afterwards. *)
Lemma symbol_table_never_stores_invisible_example :
  copy_unless_unique_and_visible (hidden_integer 5) = CopyValues (hidden_integer 5)
  ∧ Invisible (copy_unless_unique_and_visible (hidden_integer 5)) = false
  ∧ SetValueForSymbolNoCopy registry x_id (hidden_integer 5) scope_with_x
    = Terminated "ERROR (EidosSymbolTable::SetValueForSymbol): (internal) no copy requested with invisible value."
                 scope_with_x
  ∧ chain_values_visible
      (state_of (SetValueForSymbol registry x_id (hidden_integer 5) scope_with_x)).
Proof.
  pose proof (symbol_table_never_stores_invisible registry x_id (hidden_integer 5) scope_with_x)
    as Hfacts.
  cbv zeta in Hfacts.
  destruct Hfacts as (Hvisible & Hcopy & _ & _ & _ & Hrefused & _ & Hchain).
  split; [apply Hcopy; by right |]. split; [exact Hvisible |].
  split; [by apply Hrefused |].
  apply Hchain. apply SetValueForSymbol_visible.
  apply new_EidosSymbolTable_visible. by apply new_EidosSymbolTable_visible.
Defined.

(** C5 at work, on the chain scope, defined constants, intrinsic constants:
    [PI] cannot be removed with either flag, the defined constant [y] only
    with the flag set, the variable [x] with either flag. *)
Lemma RemoveSymbol_by_holder_type_example :
  (∀ flag,
      _RemoveSymbol registry gEidosID_PI flag scope_with_constant
      = Terminated "ERROR (EidosSymbolTable::_RemoveSymbol): identifier 'PI' is an intrinsic Eidos constant and thus cannot be removed."
                   scope_with_constant)
  ∧ _RemoveSymbol registry y_id false scope_with_constant
    = Terminated "ERROR (EidosSymbolTable::_RemoveSymbol): identifier 'y' is a constant and thus cannot be removed."
                 scope_with_constant
  ∧ (∃ this', _RemoveSymbol registry y_id true scope_with_constant = Returned tt this'
              ∧ _GetValue registry y_id this'
                = Raise "ERROR (EidosSymbolTable::_GetValue): undefined identifier y."
              ∧ _GetValue registry x_id this' = Ok (get (integer 7)))
  ∧ (∀ flag, ∃ this', _RemoveSymbol registry x_id flag scope_with_constant = Returned tt this'
                      ∧ _GetValue registry x_id this'
                        = Raise "ERROR (EidosSymbolTable::_GetValue): undefined identifier x.").
Proof.
  destruct (parent_symbol_table_ scope_with_constant) as [defined_constants |] eqn:Hdefined;
    [| by vm_compute in Hdefined].
  vm_compute in Hdefined. injection Hdefined as Hdefined.
  pose proof (RemoveSymbol_by_holder_type registry gEidosID_PI
                [scope_with_constant; defined_constants] intrinsic_table []
                scope_with_constant) as HPI.
  pose proof (RemoveSymbol_by_holder_type registry y_id
                [scope_with_constant] defined_constants [intrinsic_table]
                scope_with_constant) as Hy.
  pose proof (RemoveSymbol_by_holder_type registry x_id
                [] scope_with_constant [defined_constants; intrinsic_table]
                scope_with_constant) as Hx.
  subst defined_constants.
  cbv zeta in HPI, Hy, Hx.
  split; [| split; [| split]].
  - intros flag. specialize (HPI ltac:(by vm_compute)).
    specialize (HPI ltac:(by_deciding)).
    specialize (HPI ltac:(by_deciding)).
    specialize (HPI flag). rewrite HPI. by vm_compute.
  - specialize (Hy ltac:(by vm_compute)).
    specialize (Hy ltac:(by_deciding)).
    specialize (Hy ltac:(by_deciding)).
    destruct Hy as [Hrefused _]. rewrite Hrefused. by vm_compute.
  - specialize (Hy ltac:(by vm_compute)).
    specialize (Hy ltac:(by_deciding)).
    specialize (Hy ltac:(by_deciding)).
    destruct Hy as [_ (this' & Hcall & _ & Hafter)].
    destruct Hafter as [Hothers Hgone].
    { split; [by_deciding | by vm_compute]. }
    exists this'. split; [exact Hcall |]. split.
    + rewrite Hgone. by vm_compute.
    + rewrite (Hothers x_id) by done. by vm_compute.
  - intros flag. specialize (Hx ltac:(by vm_compute) ltac:(apply Forall_nil_2)).
    specialize (Hx ltac:(by_deciding)).
    destruct (Hx flag) as (this' & Hcall & _ & Hafter).
    destruct Hafter as [_ Hgone].
    { split; [by_deciding | by vm_compute]. }
    exists this'. split; [exact Hcall |]. rewrite Hgone. by vm_compute.
Defined.

(** C6 at work: defining the constant [y] from the scope that holds [x]
    links a defined-constants table between the scope and the intrinsic
    table; [y] then reads as 3 and cannot be assigned to; defining [x] or [PI]
    is refused. *)
Lemma DefineConstantForSymbol_installs_constant_example :
  table_type_ scope_with_x = kVariablesTable
  ∧ parent_symbol_table_ scope_with_x = Some intrinsic_table
  ∧ constants_chain intrinsic_table
  ∧ storage_ok intrinsic_table
  ∧ (∃ dc,
        DefineConstantForSymbol registry y_id (integer 3) scope_with_x
        = Returned tt (set_parent scope_with_x (Some dc))
        ∧ table_type_ dc = kEidosDefinedConstantsTable
        ∧ parent_symbol_table_ dc = Some intrinsic_table
        ∧ _GetValue registry y_id (set_parent scope_with_x (Some dc)) = Ok (get (integer 3))
        ∧ SetValueForSymbol registry y_id (integer 4) (set_parent scope_with_x (Some dc))
          = Terminated "ERROR (EidosSymbolTable::SetValueForSymbol): identifier 'y' cannot be redefined because it is a constant."
                       (set_parent scope_with_x (Some dc)))
  ∧ DefineConstantForSymbol registry x_id (integer 3) scope_with_x
    = Terminated "ERROR (EidosSymbolTable::DefineConstantForSymbol): identifier 'x' is already defined."
                 scope_with_x
  ∧ DefineConstantForSymbol registry gEidosID_PI (integer 3) scope_with_x
    = Terminated "ERROR (EidosSymbolTable::DefineConstantForSymbol): identifier 'PI' is already defined."
                 scope_with_x.
Proof.
  assert (Htype : table_type_ scope_with_x = kVariablesTable) by (by vm_compute).
  assert (Hparent : parent_symbol_table_ scope_with_x = Some intrinsic_table) by (by vm_compute).
  assert (Hconstants : constants_chain intrinsic_table) by (by vm_compute).
  assert (Hok : storage_ok intrinsic_table).
  { split; [by_deciding | by vm_compute]. }
  do 4 (split; [done |]).
  pose proof (λ n, DefineConstantForSymbol_installs_constant registry n (integer 3)
                     scope_with_x intrinsic_table Htype Hparent Hconstants Hok) as Hdefine.
  cbv zeta in Hdefine.
  split; [| split].
  - destruct (Hdefine y_id) as [_ Hinstalls].
    destruct Hinstalls as (dc & Hcall & Hdc & _ & _ & Hlinked & Hget & _ & _ & Hset);
      [by vm_compute |].
    exists dc. split; [exact Hcall |]. split; [exact Hdc |].
    split; [by apply Hlinked |]. split; [exact Hget |].
    rewrite (Hset (integer 4)). by vm_compute.
  - destruct (Hdefine x_id) as [Hrefused _]. rewrite Hrefused by (by vm_compute). by vm_compute.
  - destruct (Hdefine gEidosID_PI) as [Hrefused _].
    rewrite Hrefused by (by vm_compute). by vm_compute.
Defined.

(** C9 at work: a client takes a run, adds two mutations and frees it; the
    next run handed out is that run again, at address 0, and it is empty. *)
Lemma NewMutationRun_hands_out_empty_runs_example :
  disciplined initial_pool pool_calls
  ∧ fst (NewMutationRun (foldl run_pool_call initial_pool pool_calls)) = 0%N
  ∧ size <$> runs (snd (NewMutationRun (foldl run_pool_call initial_pool pool_calls))) !! 0%N
    = Some 0%Z
  ∧ size <$> runs (foldl run_pool_call initial_pool (take 3 pool_calls)) !! 0%N = Some 2%Z.
Proof.
  assert (Hdisciplined : disciplined initial_pool pool_calls).
  { cbn [disciplined pool_calls pointer_of modifies_run].
    repeat split; try done; try (intros _); by_deciding. }
  split; [exact Hdisciplined |].
  pose proof (NewMutationRun_hands_out_empty_runs pool_calls Hdisciplined) as Hempty.
  cbv zeta in Hempty. destruct Hempty as (Hsize & _).
  split; [by vm_compute |]. split; [| by vm_compute].
  vm_compute in Hsize. vm_compute. exact Hsize.
Defined.

(** X31 at work, in a debug build entered in exits mode and with the stand-in
    front end: [N=10] makes [N] a constant that every scope over the constants
    table reads as 10 and cannot assign to; [N=], which does not parse, ends
    the run with the "malformed" diagnostic; [T=10] ends it with the "illegal
    name" diagnostic. *)
Lemma command_line_constant_definition_example :
  let run := define_constant "" stand_in_parse stand_in_evaluate false in
  (∃ G', run "N=10" debug_globals = inl G'
         ∧ StringForEidosGlobalStringID 100 (string_registry G') = "N"
         ∧ ∀ scope, parent_symbol_table_ scope = Some (gEidosConstantsSymbolTable G') →
                    ¬ holds scope 100%N →
                    _GetValue (string_registry G') 100 scope = Ok (get (integer 10))
                    ∧ terminated (SetValueForSymbol (string_registry G') 100 (integer 11) scope)
                      = true)
  ∧ ends_with_diagnostic false
      "ERROR (Eidos_DefineConstantsFromCommandLine): malformed command-line constant definition: N="
      (after_script_code debug_globals initial_registry syntax_error) (run "N=" debug_globals)
  ∧ ends_with_diagnostic false
      ("ERROR (Eidos_DefineConstantsFromCommandLine): illegal defined constant name "
       +:+ double_quote +:+ "T" +:+ double_quote +:+ ".")
      debug_globals (run "T=10" debug_globals).
Proof.
  intros run.
  pose proof (λ constant, command_line_constant_definition "" stand_in_parse stand_in_evaluate
                            false constant debug_globals) as Hdefinition.
  cbv zeta in Hdefinition.
  split; [| split].
  - destruct (Hdefinition "N=10") as (_ & _ & _ & Hshape).
    specialize (Hshape (block 3 (assignment "N" 1 (leaf kTokenOther "10" 3))) "N" 1%Z
                  (leaf kTokenOther "10" 3) ltac:(by vm_compute) ltac:(by vm_compute)).
    destruct Hshape as (_ & _ & Hgood).
    specialize (Hgood ltac:(by vm_compute)
                  (mkEidosASTNode {| token_type_ := kTokenOther; token_string_ := "10";
                                     token_end_ := 3 |} [])
                  "10" ltac:(by vm_compute) ltac:(by vm_compute)).
    cbv zeta in Hgood. destruct Hgood as (_ & _ & Hvalue).
    specialize (Hvalue (integer 10) ltac:(by vm_compute)
                  ltac:(right; split; by vm_compute)).
    cbv zeta in Hvalue. destruct Hvalue as (G3 & Hrun & Hregistry & _ & _ & Hreads).
    assert (Hid : (EidosGlobalStringIDForString "N"
                     (string_registry
                        (Eidos_ValueForCommandLineExpression "" stand_in_parse stand_in_evaluate
                           "10"
                           (after_script_code debug_globals
                              (stand_in_parse "N=10" (string_registry debug_globals)).1.2
                              (stand_in_parse "N=10" (string_registry debug_globals)).2)).2)).1
                  = 100%N) by (by vm_compute).
    rewrite Hid in Hreads.
    exists G3. split; [exact Hrun |]. split; [rewrite Hregistry; by vm_compute |].
    intros scope Hparent Hnot.
    destruct (Hreads ltac:(split; [by_deciding | by vm_compute])
                ltac:(by_deciding)
                (string_registry G3) scope Hparent Hnot) as [Hget Hset].
    split; [exact Hget |]. by rewrite Hset.
  - destruct (Hdefinition "N=") as (_ & _ & Hmalformed & _).
    specialize (Hmalformed ltac:(left; by vm_compute)).
    vm_compute in Hmalformed. vm_compute. exact Hmalformed.
  - destruct (Hdefinition "T=10") as (_ & _ & _ & Hshape).
    specialize (Hshape (block 3 (assignment "T" 1 (leaf kTokenOther "10" 3))) "T" 1%Z
                  (leaf kTokenOther "10" 3) ltac:(by vm_compute) ltac:(by vm_compute)).
    destruct Hshape as (Hillegal & _).
    specialize (Hillegal ltac:(by vm_compute)).
    vm_compute in Hillegal. vm_compute. exact Hillegal.
Defined.

End WorkedExamples.

(** ** The hand-over of command-line constants to the constants table

    [Eidos_DefineConstantsFromCommandLine] enters the interpreter's result
    with [InitializeConstantSymbolEntry], the set-up entry that "assume[s]
    that this symbol is not yet defined, for maximal set-up speed" and looks
    at its argument in DEBUG builds only; the caller makes neither the copy
    nor the "is already defined" test that [DefineConstantForSymbol] makes
    before it calls the same entry. *)

Section CommandLineHandOver.
Import eidos_global eidos_symbol_table eidos_command_line examples.

(** C4.  A write path that stores an invisible value.  In a release build
    [_InitializeConstantSymbolEntry] stores the invisible value it is handed,
    and [_GetValue] returns it; [Eidos_DefineConstantsFromCommandLine] reaches
    it with the value of the right-hand side as the interpreter returned it.
    With the stand-in front end, [x=f()] on the constants table as constructed,
    which holds visible values only, completes; [x] is then bound to the
    invisible value, in the eighth slot of the table. *)
Lemma command_line_constant_stored_invisible :
  let table := gEidosConstantsSymbolTable release_globals in
  chain_values_visible table
  ∧ Invisible (hidden_integer 5) = true
  ∧ (∃ table',
       @_InitializeConstantSymbolEntry release_headers 100 (hidden_integer 5) table
       = Returned tt table'
       ∧ _GetValue (string_registry release_globals) 100 table'
         = Ok (get (hidden_integer 5)))
  ∧ (∃ left,
       @Eidos_DefineConstantsFromCommandLine release_headers "" stand_in_parse
         stand_in_evaluate ["x=f()"] release_globals
       = Completed left
       ∧ StringForEidosGlobalStringID 100 (string_registry left) = "x"
       ∧ _GetValue (string_registry left) 100 (gEidosConstantsSymbolTable left)
         = Ok (get (hidden_integer 5))
       ∧ internal_symbols_ (gEidosConstantsSymbolTable left) !! 7%nat
         = Some {| symbol_name_ := 100; symbol_value_SP_ := get (hidden_integer 5) |}).
Proof.
  intros table.
  split; [by apply (@new_EidosSymbolTable_visible release_headers) |].
  split; [done |].
  split; eexists; (split; [vm_compute; reflexivity |]); repeat split.
Qed.

(** C7.  Definitions that evaluate and are not installed.
    - In a debug build entered in exits mode, [x=f()] parses, its name is
      accepted and its right-hand side evaluates, to an invisible value; the
      run ends in a runtime error with the internal-error text of
      [_InitializeConstantSymbolEntry] in the termination stream, nothing on
      the error output, [gEidosTerminateThrows] left at [true], and the
      constants table as it was: [x] is undefined.
    - In a release build, [a=10] to [w=10] followed by [N=10] and [N=11] all
      complete; the table has gone over to its hash map, where the second
      definition of [N] changed nothing: [N] reads 10.
    - In a release build, [N=10] and [N=11] alone complete with [N] in two
      slots of the array, of which lookup finds the later one: [N] reads 11. *)
Lemma command_line_definition_not_installed :
  (∃ left,
     @Eidos_DefineConstantsFromCommandLine headers "" stand_in_parse stand_in_evaluate
       ["x=f()"] debug_globals
     = RuntimeError "A runtime error occurred in Eidos" left
     ∧ gEidosTermination (termination_globals left)
       = "ERROR (EidosSymbolTable::_InitializeConstantSymbolEntry): (internal error) this method should be called only for non-invisible objects."
         +:+ endl
     ∧ std_cerr (termination_globals left) = ""
     ∧ gEidosTerminateThrows (termination_globals debug_globals) = false
     ∧ gEidosTerminateThrows (termination_globals left) = true
     ∧ gEidosConstantsSymbolTable left = gEidosConstantsSymbolTable debug_globals
     ∧ StringForEidosGlobalStringID 100 (string_registry left) = "x"
     ∧ _GetValue (string_registry left) 100 (gEidosConstantsSymbolTable left)
       = Raise "ERROR (EidosSymbolTable::_GetValue): undefined identifier x.")
  ∧ (∃ left,
       @Eidos_DefineConstantsFromCommandLine release_headers "" stand_in_parse
         stand_in_evaluate (twenty_three_definitions ++ ["N=10"; "N=11"]) release_globals
       = Completed left
       ∧ StringForEidosGlobalStringID 123 (string_registry left) = "N"
       ∧ using_internal_symbols_ (gEidosConstantsSymbolTable left) = false
       ∧ _GetValue (string_registry left) 123 (gEidosConstantsSymbolTable left)
         = Ok (get (integer 10)))
  ∧ (∃ left,
       @Eidos_DefineConstantsFromCommandLine release_headers "" stand_in_parse
         stand_in_evaluate ["N=10"; "N=11"] release_globals
       = Completed left
       ∧ StringForEidosGlobalStringID 100 (string_registry left) = "N"
       ∧ symbol_name_ <$> internal_symbols_ (gEidosConstantsSymbolTable left)
         = [7; 6; 4; 5; 3; 2; 1; 100; 100]%N
       ∧ _GetValue (string_registry left) 100 (gEidosConstantsSymbolTable left)
         = Ok (get (integer 11))).
Proof.
  split; [| split]; eexists; (split; [vm_compute; reflexivity |]); repeat split.
Qed.

End CommandLineHandOver.

(* ################################################################# *)
(** * Further properties *)

Section SymbolTableComposition.
Import eidos_global eidos_symbol_table.
Context `{EidosHeaders}.

(** **** Small frame facts *)

Lemma after_remove_frame (n : N) (this : EidosSymbolTable) :
  table_type_ (after_remove n this) = table_type_ this
  ∧ parent_symbol_table_ (after_remove n this) = parent_symbol_table_ this.
Proof.
  unfold after_remove. destruct (using_internal_symbols_ this); [| done].
  by destruct (scan_slots _ _ _).
Qed.

Lemma _GetValue_same_own (g : StringRegistry) (m : N) (this this' : EidosSymbolTable) :
  own_value m this' = own_value m this →
  parent_symbol_table_ this' = parent_symbol_table_ this →
  _GetValue g m this' = _GetValue g m this.
Proof. intros Hown Hparent. by rewrite !_GetValue_own_value, Hown, Hparent. Qed.

Lemma ContainsSymbol_false_own (n : N) (this : EidosSymbolTable) :
  ContainsSymbol n this = false → own_value n this = None ∧ parent_contains n this = false.
Proof.
  rewrite ContainsSymbol_own_value. by destruct (own_value n this).
Qed.

Lemma state_of_set_value (g : StringRegistry) (n : N) (v : EidosValue) (this : EidosSymbolTable) :
  state_of (set_value g n v this)
  = if bool_decide (own_value n this = None) && parent_contains n this then this
    else after_set_value n v this.
Proof.
  pose proof (set_value_spec g n v this) as Hspec.
  destruct (bool_decide _ && _); by rewrite Hspec.
Qed.

(** X1.  Removing a name that no table of the chain holds is not an error, unlike
    reading it: the call goes up the whole chain and returns with every table
    as it was. *)
Theorem RemoveSymbol_of_unbound_name (g : StringRegistry) (n : N) (flag : bool)
    (this : EidosSymbolTable) :
  ContainsSymbol n this = false →
  _RemoveSymbol g n flag this = Returned tt this
  ∧ _GetValue g n this = Raise (undefined_identifier g n).
Proof.
  induction this as [type internal slots hash | type internal slots hash parent_table IH]
    using EidosSymbolTable_chain_ind; intros Hnot;
    apply ContainsSymbol_false_own in Hnot as [Hown Hparent];
    rewrite _RemoveSymbol_own_value, _GetValue_own_value, Hown; [done |].
  cbn [parent_symbol_table_]. unfold parent_contains in Hparent. cbn in Hparent.
  destruct (IH Hparent) as [-> ->]. done.
Qed.

Lemma remove_slot_last (slots : list EidosSymbolTable_InternalSlot)
    (slot : EidosSymbolTable_InternalSlot) :
  remove_slot (slots ++ [slot]) (length slots) = slots.
Proof. by rewrite (remove_slot_split slots [] slot). Qed.

Lemma scan_slots_last (n : N) (v : EidosValue) (slots : list EidosSymbolTable_InternalSlot) :
  scan_slots n (slots ++ [ {| symbol_name_ := n; symbol_value_SP_ := v |} ])
             (length (slots ++ [ {| symbol_name_ := n; symbol_value_SP_ := v |} ]))
  = Some (length slots).
Proof.
  rewrite length_app, Nat.add_1_r. simpl.
  rewrite lookup_app_r by lia. rewrite Nat.sub_diag. simpl. by rewrite N.eqb_refl.
Qed.

Lemma holds_same_own (m : N) (this this' : EidosSymbolTable) :
  own_value m this' = own_value m this → holds this' m ↔ holds this m.
Proof. intros Hown. by rewrite !holds_own_value, Hown. Qed.

(** Two chains that answer alike, table by table, enumerate alike. *)
Lemma elem_of_SymbolNames_same (g : StringRegistry) (c v : bool)
    (this this' : EidosSymbolTable) (name : string) :
  (∀ m, own_value m this' = own_value m this) →
  table_type_ this' = table_type_ this →
  parent_symbol_table_ this' = parent_symbol_table_ this →
  name ∈ _SymbolNames g c v this' ↔ name ∈ _SymbolNames g c v this.
Proof.
  intros Hown Htype Hparent. rewrite !elem_of_SymbolNames, Hparent.
  unfold enumerated. rewrite Htype.
  apply Morphisms_Prop.or_iff_morphism; [done |].
  apply Morphisms_Prop.and_iff_morphism; [done |].
  split; intros (m & Hm & ->); exists m; (split; [| done]);
    by apply (holds_same_own m this this' (Hown m)).
Qed.

(** X2.  A variable that is written and then removed leaves no trace: every name
    reads and enumerates as before the write, and unless the write made the
    table switch to its hash table, the table is the very same again. *)
Theorem SetValueForSymbol_then_RemoveSymbol (g : StringRegistry) (n : N)
    (p_value : EidosValue_SP) (flag : bool) (this : EidosSymbolTable) :
  table_type_ this = kVariablesTable →
  storage_ok this →
  ContainsSymbol n this = false →
  ∃ this1 this2,
    SetValueForSymbol g n p_value this = Returned tt this1
    ∧ _RemoveSymbol g n flag this1 = Returned tt this2
    ∧ (∀ m, _GetValue g m this2 = _GetValue g m this)
    ∧ ContainsSymbol n this2 = false
    ∧ (∀ c v name, name ∈ _SymbolNames g c v this2 ↔ name ∈ _SymbolNames g c v this)
    ∧ (using_internal_symbols_ this = false
       ∨ (internal_symbol_count_ this < EIDOS_SYMBOL_TABLE_BASE_SIZE)%nat →
       this2 = this).
Proof.
  intros Htype Hok Hnot.
  pose proof Hnot as [Hown Hparent]%ContainsSymbol_false_own.
  set (stored := get (copy_unless_unique_and_visible p_value)).
  pose proof (after_set_value_frame n stored this) as [Htype1 Hparent1].
  pose proof (own_value_after_set_value n stored this) as Hnew.
  pose proof (storage_ok_after_set_value n stored this Hok) as Hok1.
  pose proof (λ m, own_value_after_set_value_ne n m stored this Hok) as Hkept.
  pose proof (set_value_spec g n stored this) as Hspec.
  rewrite Hparent, andb_false_r in Hspec.
  remember (after_set_value n stored this) as this1 eqn:Hthis1.
  destruct (after_remove_frame n this1) as [Htype2 Hparent2].
  destruct (after_remove_spec n this1 Hok1) as (Hok2 & Hgone & Hothers).
  assert (Hown2 : ∀ m, own_value m (after_remove n this1) = own_value m this).
  { intros m. destruct (decide (m = n)) as [-> | Hne]; [by rewrite Hgone, Hown |].
    rewrite Hothers by done. by apply Hkept. }
  exists this1, (after_remove n this1).
  split; [done |].
  split.
  { rewrite _RemoveSymbol_own_value, Hnew. unfold removal_refused.
    by rewrite Htype1, Htype. }
  split; [intros m; apply _GetValue_same_own; [done | congruence] |].
  split.
  { rewrite ContainsSymbol_own_value, Hown2, Hown. unfold parent_contains in *.
    by rewrite Hparent2, Hparent1. }
  split; [intros c v name; apply elem_of_SymbolNames_same; [done | congruence | congruence] |].
  subst this1. clear Hspec Hnew Hkept Hok1 Hok2 Hgone Hothers Hown2 Htype1 Htype2 Hparent1 Hparent2.
  intros Hstays. destruct Hok as [Hnodup Hstore].
  apply own_value_None in Hown. unfold holds in Hown.
  unfold after_set_value, after_remove, internal_symbol_count_ in *.
  destruct this as [type internal slots hash parent].
  cbn [using_internal_symbols_ internal_symbols_ hash_symbols_] in *.
  destruct internal.
  - apply scan_slots_None_names in Hown. rewrite Hown.
    destruct Hstays as [? | Hroom]; [done |].
    apply Nat.ltb_lt in Hroom. rewrite Hroom.
    cbn [set_internal_symbols using_internal_symbols_ internal_symbols_ hash_symbols_
         table_type_ parent_symbol_table_].
    by rewrite scan_slots_last, remove_slot_last.
  - cbn [set_hash_symbols using_internal_symbols_ internal_symbols_ hash_symbols_
         table_type_ parent_symbol_table_].
    rewrite delete_insert_id; [done |]. by apply eq_None_not_Some.
Qed.

(** **** Writes, seen through the table's own storage *)

Lemma SetValueForSymbol_frame (g : StringRegistry) (n : N) (p_value : EidosValue_SP)
    (this : EidosSymbolTable) :
  table_type_ (state_of (SetValueForSymbol g n p_value this)) = table_type_ this
  ∧ parent_symbol_table_ (state_of (SetValueForSymbol g n p_value this))
    = parent_symbol_table_ this
  ∧ (storage_ok this → storage_ok (state_of (SetValueForSymbol g n p_value this))).
Proof.
  unfold SetValueForSymbol. rewrite state_of_set_value.
  destruct (bool_decide _ && _); [done |].
  destruct (after_set_value_frame n (get (copy_unless_unique_and_visible p_value)) this)
    as [-> ->].
  split; [done |]. split; [done |]. apply storage_ok_after_set_value.
Qed.

Lemma own_value_SetValueForSymbol (g : StringRegistry) (n m : N) (p_value : EidosValue_SP)
    (this : EidosSymbolTable) :
  storage_ok this →
  own_value m (state_of (SetValueForSymbol g n p_value this))
  = if bool_decide (own_value n this = None) && parent_contains n this then own_value m this
    else if bool_decide (m = n) then Some (get (copy_unless_unique_and_visible p_value))
         else own_value m this.
Proof.
  intros Hok. unfold SetValueForSymbol. rewrite state_of_set_value.
  destruct (bool_decide (own_value n this = None) && parent_contains n this); [done |].
  destruct (bool_decide (m = n)) eqn:Hm.
  - apply bool_decide_eq_true in Hm as ->. apply own_value_after_set_value.
  - apply bool_decide_eq_false in Hm. by apply own_value_after_set_value_ne.
Qed.

Lemma terminated_SetValueForSymbol (g : StringRegistry) (n : N) (p_value : EidosValue_SP)
    (this : EidosSymbolTable) :
  terminated (SetValueForSymbol g n p_value this)
  = bool_decide (own_value n this = None) && parent_contains n this.
Proof.
  unfold SetValueForSymbol.
  pose proof (set_value_spec g n (get (copy_unless_unique_and_visible p_value)) this) as Hspec.
  destruct (bool_decide _ && _); by rewrite Hspec.
Qed.

(** X3.  Writes to a table behave like writes to a finite map.  Of two writes to
    one name the first is forgotten; writes to different names can be swapped;
    and a name that was written once can be written again, whatever has been
    defined above the table in the meantime. *)
Theorem SetValueForSymbol_last_write_wins (g : StringRegistry) (n1 n2 : N)
    (v1 v2 : EidosValue_SP) (this : EidosSymbolTable) :
  storage_ok this →
  let write n v t := state_of (SetValueForSymbol g n v t) in
  (∀ m, _GetValue g m (write n1 v2 (write n1 v1 this)) = _GetValue g m (write n1 v2 this))
  ∧ (n1 ≠ n2 →
     ∀ m, _GetValue g m (write n2 v2 (write n1 v1 this))
          = _GetValue g m (write n1 v1 (write n2 v2 this)))
  ∧ (terminated (SetValueForSymbol g n1 v1 this) = false →
     ∀ above, terminated (SetValueForSymbol g n1 v2 (set_parent (write n1 v1 this) above))
              = false).
Proof.
  intros Hok write. subst write. cbv beta.
  assert (Hframe : ∀ n v t, parent_symbol_table_ (state_of (SetValueForSymbol g n v t))
                            = parent_symbol_table_ t)
    by (intros n v t; by destruct (SetValueForSymbol_frame g n v t) as (_ & -> & _)).
  assert (Hstays : ∀ n v t, storage_ok t → storage_ok (state_of (SetValueForSymbol g n v t)))
    by (intros n v t; by destruct (SetValueForSymbol_frame g n v t) as (_ & _ & ?)).
  assert (Hcontains : ∀ n v k t, parent_contains k (state_of (SetValueForSymbol g n v t))
                                 = parent_contains k t)
    by (intros n v k t; unfold parent_contains; by rewrite Hframe).
  split; [| split].
  - intros m. apply _GetValue_same_own; [| by rewrite !Hframe].
    rewrite !own_value_SetValueForSymbol, !Hcontains by auto.
    rewrite ?own_value_SetValueForSymbol by auto.
    repeat case_bool_decide; simpl; try done; try congruence.
    all: destruct (parent_contains n1 this); simpl; try done; congruence.
  - intros Hne m. apply _GetValue_same_own; [| by rewrite !Hframe].
    rewrite !own_value_SetValueForSymbol, !Hcontains by auto.
    rewrite ?own_value_SetValueForSymbol by auto.
    repeat case_bool_decide; simpl; try done; try congruence.
    all: destruct (parent_contains n1 this), (parent_contains n2 this); simpl;
      try done; congruence.
  - intros Hreturned above. rewrite terminated_SetValueForSymbol in *.
    rewrite own_value_set_parent.
    rewrite own_value_SetValueForSymbol by done. rewrite Hreturned.
    rewrite (bool_decide_eq_true_2 (n1 = n1)) by done.
    by rewrite bool_decide_eq_false_2.
Qed.

(** **** Enumeration *)

(** X4.  The enumeration with both flags lists every binding of the chain once:
    it is the constants' list and the variables' list shuffled together, and
    with neither flag nothing is listed. *)
Theorem SymbolNames_constants_and_variables (g : StringRegistry) (this : EidosSymbolTable) :
  _SymbolNames g true true this
  ≡ₚ _SymbolNames g true false this ++ _SymbolNames g false true this
  ∧ _SymbolNames g false false this = []
  ∧ length (_SymbolNames g true true this)
    = sum_list ((λ t, length (own_names t)) <$> chain this)
  ∧ (∀ name, name ∈ _SymbolNames g true false this ↔
             ∃ t m, t ∈ chain this ∧ table_type_ t ≠ kVariablesTable ∧ holds t m
                    ∧ name = StringForEidosGlobalStringID m g)
  ∧ (∀ name, name ∈ _SymbolNames g false true this ↔
             ∃ t m, t ∈ chain this ∧ table_type_ t = kVariablesTable ∧ holds t m
                    ∧ name = StringForEidosGlobalStringID m g).
Proof.
  assert (Hvariables : ∀ t, table_type_eqb (table_type_ t) kVariablesTable = true
                            ↔ table_type_ t = kVariablesTable).
  { intros t. by destruct (table_type_ t). }
  assert (Hnames : ∀ c v (keep : EidosSymbolTable → Prop),
             (∀ t, enumerated c v t = true ↔ keep t) →
             ∀ this name,
               name ∈ _SymbolNames g c v this ↔
               ∃ t m, t ∈ chain this ∧ keep t ∧ holds t m
                      ∧ name = StringForEidosGlobalStringID m g).
  { intros c v keep Hkeep. clear this.
    induction this as [type internal slots hash | type internal slots hash parent_table IH]
      using EidosSymbolTable_chain_ind; intros name;
      rewrite elem_of_SymbolNames, chain_unfold; cbn [parent_symbol_table_].
    - split.
      + intros [(p & [=] & _) | (Hen & m & Hm & ->)].
        eexists _, m. split; [by left |]. split; [by apply Hkeep | done].
      + intros (t & m & Ht & Hk & Hm & ->). apply list_elem_of_singleton in Ht as ->.
        right. split; [by apply Hkeep | by exists m].
    - split.
      + intros [(p & [= <-] & Hin) | (Hen & m & Hm & ->)].
        * apply IH in Hin as (t & m & Ht & Hk & Hm & ->).
          exists t, m. split; [by right | done].
        * eexists _, m. split; [by left |]. split; [by apply Hkeep | done].
      + intros (t & m & Ht & Hk & Hm & ->). apply elem_of_cons in Ht as [-> | Ht].
        * right. split; [by apply Hkeep | by exists m].
        * left. exists parent_table. split; [done |]. apply IH. by exists t, m. }
  split; [| split; [| split; [| split]]].
  - induction this as [type internal slots hash | type internal slots hash parent_table IH]
      using EidosSymbolTable_chain_ind;
      rewrite !_SymbolNames_own_names; cbn [parent_symbol_table_]; unfold enumerated;
      cbn [table_type_ andb orb].
    + destruct (table_type_eqb type kVariablesTable); simpl; by rewrite ?app_nil_r.
    + rewrite IH. destruct (table_type_eqb type kVariablesTable); simpl;
        rewrite ?app_nil_r; solve_Permutation.
  - induction this as [type internal slots hash | type internal slots hash parent_table IH]
      using EidosSymbolTable_chain_ind;
      rewrite !_SymbolNames_own_names; cbn [parent_symbol_table_]; unfold enumerated;
      cbn [andb orb]; [done | by rewrite IH].
  - induction this as [type internal slots hash | type internal slots hash parent_table IH]
      using EidosSymbolTable_chain_ind;
      rewrite !_SymbolNames_own_names, chain_unfold; cbn [parent_symbol_table_];
      unfold enumerated; cbn [andb orb].
    + rewrite orb_negb_l. simpl. rewrite length_map. lia.
    + rewrite orb_negb_l. rewrite length_app, IH, length_map. simpl. apply Nat.add_comm.
  - apply Hnames. intros t. unfold enumerated. cbn [andb orb]. rewrite orb_false_r.
    rewrite negb_true_iff, <- not_true_iff_false. by rewrite Hvariables.
  - apply Hnames. intros t. unfold enumerated. cbn [andb orb]. by rewrite Hvariables.
Qed.

End SymbolTableComposition.

Section SymbolTableShape.
Import eidos_global eidos_symbol_table eidos_symbol_table_shape.
Context `{EidosHeaders}.

Lemma chain_types_unfold (this : EidosSymbolTable) :
  chain_types this
  = table_type_ this :: match parent_symbol_table_ this with
                        | Some parent_table => chain_types parent_table
                        | None => []
                        end.
Proof. unfold chain_types. rewrite chain_unfold. by destruct (parent_symbol_table_ this). Qed.

Lemma chain_types_frame (this this' : EidosSymbolTable) :
  table_type_ this' = table_type_ this →
  parent_symbol_table_ this' = parent_symbol_table_ this →
  chain_types this' = chain_types this.
Proof. intros Htype Hparent. by rewrite (chain_types_unfold this'), Htype, Hparent, <- chain_types_unfold. Qed.

Lemma set_value_chain_types (g : StringRegistry) (n : N) (v : EidosValue)
    (this : EidosSymbolTable) :
  chain_types (state_of (set_value g n v this)) = chain_types this.
Proof.
  rewrite state_of_set_value. destruct (bool_decide _ && _); [done |].
  destruct (after_set_value_frame n v this). by apply chain_types_frame.
Qed.

Lemma _RemoveSymbol_chain_types (g : StringRegistry) (n : N) (flag : bool)
    (this : EidosSymbolTable) :
  chain_types (state_of (_RemoveSymbol g n flag this)) = chain_types this.
Proof.
  induction this as [type internal slots hash | type internal slots hash parent_table IH]
    using EidosSymbolTable_chain_ind; rewrite _RemoveSymbol_own_value.
  - destruct (own_value n _); [| done].
    destruct (removal_refused _ _ _ _); [done |]. simpl.
    destruct (after_remove_frame n (mkEidosSymbolTable type internal slots hash None)).
    by apply chain_types_frame.
  - destruct (own_value n _).
    + destruct (removal_refused _ _ _ _); [done |]. simpl.
      destruct (after_remove_frame n
                  (mkEidosSymbolTable type internal slots hash (Some parent_table))).
      by apply chain_types_frame.
    + cbn [parent_symbol_table_]. rewrite state_of_inside.
      rewrite !chain_types_unfold. cbn. by rewrite IH.
Qed.

Lemma _InitializeConstantSymbolEntry_frame (n : N) (p_value : EidosValue_SP)
    (this : EidosSymbolTable) :
  table_type_ (state_of (_InitializeConstantSymbolEntry n p_value this)) = table_type_ this
  ∧ parent_symbol_table_ (state_of (_InitializeConstantSymbolEntry n p_value this))
    = parent_symbol_table_ this.
Proof.
  unfold _InitializeConstantSymbolEntry.
  destruct (DEBUG && Invisible p_value); [done |].
  destruct (DEBUG && table_type_eqb _ _); [done |].
  destruct (using_internal_symbols_ this) eqn:Hmode; [destruct (_ <? _)%nat |]; simpl;
    unfold _SwitchToHash; rewrite ?Hmode; done.
Qed.

Lemma at_depth_chain_types (k : nat) (method : EidosSymbolTable → outcome EidosSymbolTable unit)
    (this : EidosSymbolTable) :
  (∀ t, chain_types (state_of (method t)) = chain_types t) →
  chain_types (state_of (at_depth k method this)) = chain_types this.
Proof.
  intros Hmethod. revert this. induction k as [| k IH]; intros this; [apply Hmethod |].
  destruct this as [type internal slots hash [parent_table |]]; [| done].
  cbn [at_depth]. rewrite state_of_inside, !chain_types_unfold. cbn. by rewrite IH.
Qed.

(** **** Where [DefineConstantForSymbol] looks *)

Lemma table_type_eqb_eq (a b : EidosSymbolTableType) : table_type_eqb a b = true ↔ a = b.
Proof. by destruct a, b. Qed.

Lemma find_defined_constants_table_None (this : EidosSymbolTable) :
  find_defined_constants_table this = None ↔ kEidosDefinedConstantsTable ∉ chain_types this.
Proof.
  induction this as [type internal slots hash | type internal slots hash parent_table IH]
    using EidosSymbolTable_chain_ind; rewrite chain_types_unfold; cbn.
  - destruct (table_type_eqb type kEidosDefinedConstantsTable) eqn:Htype.
    + apply table_type_eqb_eq in Htype as ->. split; [done |]. intros Hnot. destruct Hnot. by left.
    + split; [| done]. intros _ Hin. apply list_elem_of_singleton in Hin as <-. done.
  - destruct (table_type_eqb type kEidosDefinedConstantsTable) eqn:Htype.
    + apply table_type_eqb_eq in Htype as ->. split; [done |]. intros Hnot. destruct Hnot. by left.
    + rewrite fmap_None, IH, not_elem_of_cons. split; [| by intros [_ ?]].
      intros Hnot. split; [| done]. intros <-. done.
Qed.

Lemma find_defined_constants_table_Some (this : EidosSymbolTable) (k : nat) :
  find_defined_constants_table this = Some k →
  chain_types this !! k = Some kEidosDefinedConstantsTable.
Proof.
  revert k.
  induction this as [type internal slots hash | type internal slots hash parent_table IH]
    using EidosSymbolTable_chain_ind; intros k; rewrite chain_types_unfold; cbn.
  - destruct (table_type_eqb type kEidosDefinedConstantsTable) eqn:Htype; [| done].
    apply table_type_eqb_eq in Htype as ->. by intros [= <-].
  - destruct (table_type_eqb type kEidosDefinedConstantsTable) eqn:Htype.
    + apply table_type_eqb_eq in Htype as ->. by intros [= <-].
    + destruct (find_defined_constants_table parent_table) as [k' |]; [| done].
      intros [= <-]. by apply IH.
Qed.

Lemma find_child_of_intrinsic_table_None (this : EidosSymbolTable) :
  find_child_of_intrinsic_table this = None
  ↔ kEidosIntrinsicConstantsTable ∉ tail (chain_types this).
Proof.
  induction this as [type internal slots hash | type internal slots hash parent_table IH]
    using EidosSymbolTable_chain_ind; rewrite chain_types_unfold; cbn.
  - split; [| done]. intros _. apply not_elem_of_nil.
  - rewrite (chain_types_unfold parent_table).
    destruct (table_type_eqb (table_type_ parent_table) kEidosIntrinsicConstantsTable) eqn:Htype.
    + apply table_type_eqb_eq in Htype as ->. split; [done |]. intros Hnot. destruct Hnot. by left.
    + rewrite fmap_None, IH, chain_types_unfold, not_elem_of_cons. cbn.
      split; [| by intros [_ ?]]. intros Hnot. split; [| done].
      intros Heq. rewrite <- Heq in Htype. done.
Qed.

(** The new table goes in directly in front of the intrinsic table. *)
Lemma insert_defined_constants_table_at_depth (c : nat) (this : EidosSymbolTable) :
  find_child_of_intrinsic_table this = Some c →
  ∃ this1 front back,
    at_depth c insert_defined_constants_table this = Returned tt this1
    ∧ chain_types this = front ++ kEidosIntrinsicConstantsTable :: back
    ∧ length front = S c
    ∧ chain_types this1
      = front ++ kEidosDefinedConstantsTable :: kEidosIntrinsicConstantsTable :: back.
Proof.
  revert c.
  induction this as [type internal slots hash | type internal slots hash parent_table IH]
    using EidosSymbolTable_chain_ind; intros c; cbn [find_child_of_intrinsic_table]; [done |].
  destruct (table_type_eqb (table_type_ parent_table) kEidosIntrinsicConstantsTable) eqn:Htype.
  - apply table_type_eqb_eq in Htype. intros [= <-]. cbn [at_depth].
    unfold insert_defined_constants_table, new_EidosSymbolTable. cbn [parent_symbol_table_].
    rewrite Htype. cbn [table_type_eqb andb]. rewrite !andb_false_r.
    eexists _, [type], (tail (chain_types parent_table)).
    split; [done |]. unfold chain_types.
    cbn [chain fmap list_fmap table_type_ parent_symbol_table_ set_parent].
    rewrite (chain_unfold parent_table), fmap_cons, Htype. done.
  - destruct (find_child_of_intrinsic_table parent_table) as [c' |] eqn:Hfind; [| done].
    intros [= <-]. destruct (IH c' eq_refl) as (parent1 & front & back & Hcall & Htypes & Hlen & Htypes1).
    cbn [at_depth]. rewrite Hcall. cbn [inside].
    eexists _, (type :: front), back. split; [done |].
    rewrite (chain_types_unfold (mkEidosSymbolTable type internal slots hash (Some parent_table))).
    rewrite (chain_types_unfold (mkEidosSymbolTable type internal slots hash (Some parent1))).
    cbn [table_type_ parent_symbol_table_].
    rewrite Htypes, Htypes1. cbn [length app]. by rewrite Hlen.
Qed.

(** Entered at a table that exists and is no variables table, a visible value
    is taken in every build. *)
Lemma at_depth_Initialize_returns (n : N) (p_value : EidosValue_SP) (k : nat)
    (type : EidosSymbolTableType) (this : EidosSymbolTable) :
  chain_types this !! k = Some type →
  type ≠ kVariablesTable →
  Invisible p_value = false →
  terminated (at_depth k (_InitializeConstantSymbolEntry n p_value) this) = false.
Proof.
  intros Hk Htype Hvisible. revert this Hk. induction k as [| k IH]; intros this Hk;
    rewrite chain_types_unfold in Hk.
  - injection Hk as Hk. cbn [at_depth]. unfold _InitializeConstantSymbolEntry.
    rewrite Hvisible, andb_false_r.
    assert (table_type_eqb (table_type_ this) kVariablesTable = false) as ->.
    { apply not_true_iff_false. rewrite table_type_eqb_eq. congruence. }
    rewrite andb_false_r.
    destruct (using_internal_symbols_ this); [destruct (_ <? _)%nat |]; done.
  - destruct this as [type' internal slots hash [parent_table |]]; [| done].
    cbn in Hk. cbn [at_depth]. specialize (IH parent_table Hk).
    by destruct (at_depth k _ parent_table).
Qed.

Lemma DefineConstantForSymbol_unfold (g : StringRegistry) (n : N) (p_value : EidosValue_SP)
    (this : EidosSymbolTable) :
  ContainsSymbol n this = false →
  DefineConstantForSymbol g n p_value this
  = let stored := copy_unless_unique_and_visible p_value in
    match find_defined_constants_table this with
    | Some k => at_depth k (_InitializeConstantSymbolEntry n stored) this
    | None =>
        match find_child_of_intrinsic_table this with
        | Some c =>
            and_then (at_depth c insert_defined_constants_table this)
                     (λ _ this1, at_depth (S c) (_InitializeConstantSymbolEntry n stored) this1)
        | None => Terminated no_child_of_intrinsic_table this
        end
    end.
Proof.
  intros Hnot. unfold DefineConstantForSymbol. rewrite Hnot.
  destruct (find_defined_constants_table this); [done |].
  destruct (find_child_of_intrinsic_table this); [| done].
  by destruct (at_depth _ insert_defined_constants_table this).
Qed.

Lemma _GetValue_Ok_ContainsSymbol (g : StringRegistry) (n : N) (v : EidosValue)
    (this : EidosSymbolTable) :
  _GetValue g n this = Ok v → ContainsSymbol n this = true.
Proof.
  induction this as [type internal slots hash | type internal slots hash parent_table IH]
    using EidosSymbolTable_chain_ind;
    rewrite _GetValue_own_value, ContainsSymbol_own_value;
    by destruct (own_value n _).
Qed.

(** X5.  No call changes the type of a table or the order of the chain.  The one
    call that lengthens the chain is [DefineConstantForSymbol], by one
    defined-constants table directly in front of the intrinsic table, and only
    when the chain had no defined-constants table.  In a debug build the
    constructor refuses a root that is not the intrinsic table, a parent for
    the intrinsic table, and a variables table as a parent. *)
Theorem chain_types_are_kept (g : StringRegistry) (n : N) (p_value : EidosValue_SP)
    (flag : bool) (this : EidosSymbolTable) :
  chain_types (state_of (SetValueForSymbol g n p_value this)) = chain_types this
  ∧ chain_types (state_of (SetValueForSymbolNoCopy g n p_value this)) = chain_types this
  ∧ chain_types (state_of (_RemoveSymbol g n flag this)) = chain_types this
  ∧ chain_types (state_of (_InitializeConstantSymbolEntry n p_value this)) = chain_types this
  ∧ (chain_types (state_of (DefineConstantForSymbol g n p_value this)) = chain_types this
     ∨ ((kEidosDefinedConstantsTable ∉ chain_types this)
        ∧ ∃ front back,
            front ≠ []
            ∧ chain_types this = front ++ kEidosIntrinsicConstantsTable :: back
            ∧ chain_types (state_of (DefineConstantForSymbol g n p_value this))
              = front ++ kEidosDefinedConstantsTable :: kEidosIntrinsicConstantsTable :: back))
  ∧ (∀ type parent start_with_hash built,
        DEBUG = true →
        new_EidosSymbolTable type parent start_with_hash = Returned tt built →
        chain_types built = type :: from_option chain_types [] parent
        ∧ match parent with
          | None => type = kEidosIntrinsicConstantsTable
          | Some parent_table =>
              type ≠ kEidosIntrinsicConstantsTable
              ∧ table_type_ parent_table ≠ kVariablesTable
          end).
Proof.
  assert (Hinit : ∀ m v t, chain_types (state_of (_InitializeConstantSymbolEntry m v t))
                           = chain_types t).
  { intros m v t. destruct (_InitializeConstantSymbolEntry_frame m v t).
    by apply chain_types_frame. }
  split; [apply set_value_chain_types |].
  split.
  { unfold SetValueForSymbolNoCopy. destruct (Invisible p_value); [done |].
    apply set_value_chain_types. }
  split; [apply _RemoveSymbol_chain_types |].
  split; [apply Hinit |].
  split.
  - destruct (ContainsSymbol n this) eqn:Hcontains.
    { left. unfold DefineConstantForSymbol. by rewrite Hcontains. }
    rewrite (DefineConstantForSymbol_unfold g n p_value this Hcontains). cbv zeta.
    destruct (find_defined_constants_table this) as [k |] eqn:Hfind.
    { left. by apply at_depth_chain_types. }
    destruct (find_child_of_intrinsic_table this) as [c |] eqn:Hchild; [| by left].
    right. split; [by apply find_defined_constants_table_None |].
    destruct (insert_defined_constants_table_at_depth c this Hchild)
      as (this1 & front & back & -> & Htypes & Hlen & Htypes1).
    exists front, back. split; [by destruct front |]. split; [done |].
    cbn [and_then]. by rewrite at_depth_chain_types.
  - intros type parent start_with_hash built Hdebug.
    unfold new_EidosSymbolTable. rewrite Hdebug. cbn [andb].
    destruct parent as [parent_table |].
    + destruct (table_type_eqb type kEidosIntrinsicConstantsTable) eqn:Htype; [done |].
      destruct (table_type_eqb (table_type_ parent_table) kVariablesTable) eqn:Hparent; [done |].
      intros [= <-]. split; [done |].
      rewrite <- not_true_iff_false, table_type_eqb_eq in Htype, Hparent. done.
    + destruct (table_type_eqb type kEidosIntrinsicConstantsTable) eqn:Htype; [| done].
      apply table_type_eqb_eq in Htype as ->. cbn [negb].
      intros Hbuilt. split; [| done].
      assert (Hstate : built = state_of (Returned tt built : outcome EidosSymbolTable unit))
        by done.
      rewrite Hstate, <- Hbuilt.
      apply (and_then_state (λ t, chain_types t = [kEidosIntrinsicConstantsTable]));
        [by rewrite Hinit |].
      do 5 (intros _ ?st ?Hst; apply and_then_state; [by rewrite Hinit |]).
      intros _ st' Hst'. by rewrite Hinit.
Qed.

(** X6.  [DefineConstantForSymbol] terminates in exactly two situations: the name
    is bound somewhere in the chain, or the chain offers no place for a
    constant (no defined-constants table, and no intrinsic table behind the
    receiver in front of which one could go).  A name once defined cannot be
    defined again. *)
Theorem DefineConstantForSymbol_fails_exactly_when (g : StringRegistry) (n : N)
    (p_value : EidosValue_SP) (this : EidosSymbolTable) :
  (terminated (DefineConstantForSymbol g n p_value this) = true ↔
   ContainsSymbol n this = true
   ∨ ((kEidosDefinedConstantsTable ∉ chain_types this)
      ∧ (kEidosIntrinsicConstantsTable ∉ tail (chain_types this))))
  ∧ (ContainsSymbol n this = false →
     kEidosDefinedConstantsTable ∉ chain_types this →
     kEidosIntrinsicConstantsTable ∉ tail (chain_types this) →
     DefineConstantForSymbol g n p_value this
     = Terminated "ERROR (EidosSymbolTable::DefineConstantForSymbol): (internal) could not find child symbol table of the intrinsic constants table."
                  this)
  ∧ (Forall storage_ok (chain this) →
     ∀ this', DefineConstantForSymbol g n p_value this = Returned tt this' →
              ∀ again, DefineConstantForSymbol g n again this'
                       = Terminated ("ERROR (EidosSymbolTable::DefineConstantForSymbol): identifier '"
                                     +:+ StringForEidosGlobalStringID n g
                                     +:+ "' is already defined.") this').
Proof.
  pose proof (copy_unless_unique_and_visible_visible p_value) as Hvisible.
  split; [| split].
  - destruct (ContainsSymbol n this) eqn:Hcontains.
    { unfold DefineConstantForSymbol. rewrite Hcontains. split; [by left | done]. }
    rewrite (DefineConstantForSymbol_unfold g n p_value this Hcontains). cbv zeta.
    rewrite <- find_defined_constants_table_None, <- find_child_of_intrinsic_table_None.
    destruct (find_defined_constants_table this) as [k |] eqn:Hfind.
    { rewrite (at_depth_Initialize_returns _ _ k kEidosDefinedConstantsTable);
        [| by apply find_defined_constants_table_Some | done | done].
      split; [done | by intros [? | [? _]]]. }
    destruct (find_child_of_intrinsic_table this) as [c |] eqn:Hchild.
    + destruct (insert_defined_constants_table_at_depth c this Hchild)
        as (this1 & front & back & -> & Htypes & Hlen & Htypes1).
      cbn [and_then].
      rewrite (at_depth_Initialize_returns _ _ (S c) kEidosDefinedConstantsTable);
        [| | done | done].
      * split; [done | by intros [? | [_ ?]]].
      * rewrite Htypes1, lookup_app_r by lia. by rewrite Hlen, Nat.sub_diag.
    + split; [by right | done].
  - intros Hcontains Hdc%find_defined_constants_table_None
      Hchild%find_child_of_intrinsic_table_None.
    by rewrite (DefineConstantForSymbol_unfold g n p_value this Hcontains), Hdc, Hchild.
  - intros Hok this' Hdefined again.
    apply (DefineConstantForSymbol_GetValue g) in Hdefined; [| done].
    apply _GetValue_Ok_ContainsSymbol in Hdefined.
    unfold DefineConstantForSymbol. by rewrite Hdefined.
Qed.

End SymbolTableShape.

Section SymbolTableStorage.
Import eidos_global eidos_symbol_table eidos_symbol_table_shape.
Context `{EidosHeaders}.

Lemma Forall_chain_unfold (P : EidosSymbolTable → Prop) (this : EidosSymbolTable) :
  Forall P (chain this) ↔
  P this ∧ match parent_symbol_table_ this with
           | Some parent_table => Forall P (chain parent_table)
           | None => True
           end.
Proof.
  rewrite chain_unfold, Forall_cons.
  destruct (parent_symbol_table_ this); [done |]. split; [by intros [? _] | by intros [? _]].
Qed.

Lemma storage_ok_set_parent (this : EidosSymbolTable) (p : option EidosSymbolTable) :
  storage_ok (set_parent this p) ↔ storage_ok this.
Proof. done. Qed.

Lemma set_value_storage (g : StringRegistry) (n : N) (v : EidosValue) (this : EidosSymbolTable) :
  Forall storage_ok (chain this) → Forall storage_ok (chain (state_of (set_value g n v this))).
Proof.
  intros Hok. rewrite state_of_set_value. destruct (bool_decide _ && _); [done |].
  apply Forall_chain_unfold in Hok as [Hthis Hparent]. apply Forall_chain_unfold.
  destruct (after_set_value_frame n v this) as [_ ->].
  split; [by apply storage_ok_after_set_value | done].
Qed.

Lemma _RemoveSymbol_storage (g : StringRegistry) (n : N) (flag : bool) (this : EidosSymbolTable) :
  Forall storage_ok (chain this) →
  Forall storage_ok (chain (state_of (_RemoveSymbol g n flag this))).
Proof.
  induction this as [type internal slots hash | type internal slots hash parent_table IH]
    using EidosSymbolTable_chain_ind; intros Hok; rewrite _RemoveSymbol_own_value;
    pose proof Hok as [Hthis Hparent]%Forall_chain_unfold.
  - destruct (own_value n _); [| done].
    destruct (removal_refused _ _ _ _); [done |]. simpl.
    apply Forall_chain_unfold. destruct (after_remove_frame n
      (mkEidosSymbolTable type internal slots hash None)) as [_ ->].
    split; [by apply after_remove_spec | done].
  - destruct (own_value n _).
    + destruct (removal_refused _ _ _ _); [done |]. simpl.
      apply Forall_chain_unfold. destruct (after_remove_frame n
        (mkEidosSymbolTable type internal slots hash (Some parent_table))) as [_ ->].
      split; [by apply after_remove_spec | done].
    + cbn [parent_symbol_table_] in *. rewrite state_of_inside.
      apply Forall_chain_unfold. split; [done |]. cbn. by apply IH.
Qed.

Lemma _InitializeConstantSymbolEntry_storage (n : N) (p_value : EidosValue_SP)
    (this : EidosSymbolTable) :
  storage_ok this → ¬ holds this n →
  storage_ok (state_of (_InitializeConstantSymbolEntry n p_value this)).
Proof.
  intros Hok Hnot.
  destruct (_InitializeConstantSymbolEntry n p_value this) as [[] this' | msg this'] eqn:Hcall.
  - apply _InitializeConstantSymbolEntry_returned in Hcall as ->; [| done | done].
    by apply storage_ok_after_set_value.
  - revert Hcall. unfold _InitializeConstantSymbolEntry.
    destruct (DEBUG && Invisible p_value); [by intros [= _ <-] |].
    destruct (DEBUG && table_type_eqb _ _); [by intros [= _ <-] |].
    by destruct (using_internal_symbols_ this); [destruct (_ <? _)%nat |].
Qed.

Lemma at_depth_Forall (P Q : EidosSymbolTable → Prop) (k : nat)
    (method : EidosSymbolTable → outcome EidosSymbolTable unit) (this : EidosSymbolTable) :
  (∀ t p, P t → Q (set_parent t p)) →
  (∀ t, Forall P (chain t) → Forall Q (chain (state_of (method t)))) →
  Forall P (chain this) → Forall Q (chain (state_of (at_depth k method this))).
Proof.
  intros Hframe Hmethod. revert this. induction k as [| k IH]; intros this Hall;
    [by apply Hmethod |].
  destruct this as [type internal slots hash [parent_table |]].
  - cbn [at_depth]. rewrite state_of_inside.
    apply Forall_chain_unfold in Hall as [Hthis Hparent]. apply Forall_chain_unfold.
    split; [exact (Hframe _ _ Hthis) |]. cbn. by apply IH.
  - cbn. apply Forall_chain_unfold in Hall as [Hthis _]. apply Forall_cons.
    split; [exact (Hframe _ _ Hthis) | done].
Qed.

Lemma insert_defined_constants_table_Forall (P : EidosSymbolTable → Prop) (c : nat)
    (this this1 : EidosSymbolTable) :
  (∀ t p, P t → P (set_parent t p)) →
  P (mkEidosSymbolTable kEidosDefinedConstantsTable (negb p_start_with_hash_default) [] ∅ None) →
  find_child_of_intrinsic_table this = Some c →
  at_depth c insert_defined_constants_table this = Returned tt this1 →
  Forall P (chain this) → Forall P (chain this1).
Proof.
  intros Hframe Hfresh. revert c this1.
  induction this as [type internal slots hash | type internal slots hash parent_table IH]
    using EidosSymbolTable_chain_ind; intros c this1; cbn [find_child_of_intrinsic_table];
    [done |].
  destruct (table_type_eqb (table_type_ parent_table) kEidosIntrinsicConstantsTable) eqn:Htype.
  - intros [= <-]. cbn [at_depth]. unfold insert_defined_constants_table.
    cbn [parent_symbol_table_].
    pose proof (new_EidosSymbolTable_with_parent kEidosDefinedConstantsTable parent_table
                  p_start_with_hash_default) as Hnew.
    destruct (new_EidosSymbolTable _ _ _) as [[] fresh | msg fresh]; [| done].
    cbn in Hnew. subst fresh. intros [= <-] [Hthis Hparent]%Forall_chain_unfold.
    apply Forall_chain_unfold. split; [exact (Hframe _ _ Hthis) |].
    cbn. apply Forall_cons. split; [exact (Hframe _ _ Hfresh) | done].
  - destruct (find_child_of_intrinsic_table parent_table) as [c' |] eqn:Hfind; [| done].
    intros [= <-]. cbn [at_depth].
    destruct (at_depth c' _ parent_table) as [[] parent1 | msg parent1] eqn:Hcall; [| done].
    intros [= <-] [Hthis Hparent]%Forall_chain_unfold.
    apply Forall_chain_unfold. split; [exact (Hframe _ _ Hthis) |].
    cbn. by eapply IH.
Qed.

(** X7.  The storage discipline that lookups rely on (no name in two slots of the
    array, only one of the two stores in use) holds along the whole chain
    after every call if it held before. *)
Theorem storage_stays_in_order (g : StringRegistry) (n : N) (p_value : EidosValue_SP)
    (flag : bool) (this : EidosSymbolTable) :
  Forall storage_ok (chain this) →
  Forall storage_ok (chain (state_of (SetValueForSymbol g n p_value this)))
  ∧ Forall storage_ok (chain (state_of (SetValueForSymbolNoCopy g n p_value this)))
  ∧ Forall storage_ok (chain (state_of (_RemoveSymbol g n flag this)))
  ∧ Forall storage_ok (chain (state_of (DefineConstantForSymbol g n p_value this)))
  ∧ Forall storage_ok (chain (_SwitchToHash this))
  ∧ (¬ holds this n →
     Forall storage_ok (chain (state_of (_InitializeConstantSymbolEntry n p_value this)))).
Proof.
  intros Hok.
  split; [by apply set_value_storage |].
  split.
  { unfold SetValueForSymbolNoCopy. destruct (Invisible p_value); [done |].
    by apply set_value_storage. }
  split; [by apply _RemoveSymbol_storage |].
  assert (Hinit : ∀ v t, Forall (λ t, storage_ok t ∧ ¬ holds t n) (chain t) →
                         Forall storage_ok
                           (chain (state_of (_InitializeConstantSymbolEntry n v t)))).
  { intros v t [[Ht Hfree] Hparent]%Forall_chain_unfold. apply Forall_chain_unfold.
    destruct (_InitializeConstantSymbolEntry_frame n v t) as [_ ->].
    split; [by apply _InitializeConstantSymbolEntry_storage |].
    destruct (parent_symbol_table_ t); [| done].
    eapply Forall_impl; [done |]. by intros ? [? _]. }
  split; [| split].
  - destruct (ContainsSymbol n this) eqn:Hcontains.
    { unfold DefineConstantForSymbol. by rewrite Hcontains. }
    assert (Hfree : Forall (λ t, storage_ok t ∧ ¬ holds t n) (chain this)).
    { apply ContainsSymbol_false_chain in Hcontains.
      apply Forall_and. by split. }
    rewrite (DefineConstantForSymbol_unfold g n p_value this Hcontains). cbv zeta.
    destruct (find_defined_constants_table this) as [k |].
    { apply (at_depth_Forall (λ t, storage_ok t ∧ ¬ holds t n)); [by intros t p [? _] | | done].
      apply Hinit. }
    destruct (find_child_of_intrinsic_table this) as [c |] eqn:Hchild; [| done].
    destruct (at_depth c insert_defined_constants_table this) as [[] this1 | msg this1] eqn:Hins.
    + cbn [and_then].
      apply (at_depth_Forall (λ t, storage_ok t ∧ ¬ holds t n)); [by intros t p [? _] | apply Hinit |].
      apply (insert_defined_constants_table_Forall _ c this this1); [done | | done | done | done].
      split.
      * split; cbn; [apply NoDup_nil_2 | by destruct (negb _)].
      * unfold holds. cbn. destruct (negb _); [apply not_elem_of_nil |].
        rewrite lookup_empty. by intros [? ?].
    + cbn [and_then state_of].
      destruct (insert_defined_constants_table_at_depth c this Hchild) as (? & ? & ? & Hret & _).
      congruence.
  - apply Forall_chain_unfold in Hok as [[Hnodup Hstore] Hparent]. apply Forall_chain_unfold.
    unfold _SwitchToHash. destruct (using_internal_symbols_ this) eqn:Hmode; cbn.
    + split; [| done]. split; cbn; [apply NoDup_nil_2 | done].
    + split; [split; [done | by rewrite Hmode] | done].
  - intros Hnot. apply Forall_chain_unfold in Hok as [Hthis Hparent].
    apply Forall_chain_unfold.
    destruct (_InitializeConstantSymbolEntry_frame n p_value this) as [_ ->].
    split; [by apply _InitializeConstantSymbolEntry_storage | done].
Qed.

(** **** The constructor's seven entries *)

Lemma and_then_return {St} (o : outcome St unit) : and_then o (λ _ st, Returned tt st) = o.
Proof. by destruct o as [[] st | msg st]. Qed.

Lemma new_EidosSymbolTable_enter_constants (type : EidosSymbolTableType) (start_with_hash : bool) :
  DEBUG && negb (table_type_eqb type kEidosIntrinsicConstantsTable) = false →
  new_EidosSymbolTable type None start_with_hash
  = enter_constants intrinsic_entries
      (mkEidosSymbolTable type (negb start_with_hash) [] ∅ None).
Proof.
  intros Hcheck. unfold new_EidosSymbolTable. rewrite Hcheck.
  unfold intrinsic_entries. cbn [enter_constants].
  do 6 (destruct (_InitializeConstantSymbolEntry _ _ _) as [[] ? | ? ?]; cbn [and_then];
        [| done]).
  by rewrite and_then_return.
Qed.

Lemma enter_constants_spec (entries : list (N * EidosValue_SP)) (this : EidosSymbolTable) :
  NoDup entries.*1 →
  storage_ok this →
  table_type_ this ≠ kVariablesTable →
  (∀ id value, (id, value) ∈ entries → ¬ holds this id ∧ Invisible value = false) →
  ∃ this',
    enter_constants entries this = Returned tt this'
    ∧ storage_ok this'
    ∧ table_type_ this' = table_type_ this
    ∧ parent_symbol_table_ this' = parent_symbol_table_ this
    ∧ (∀ id value, (id, value) ∈ entries → own_value id this' = Some (get value))
    ∧ (∀ m, m ∉ entries.*1 → own_value m this' = own_value m this).
Proof.
  revert this. induction entries as [| [id value] rest IH]; intros this Hnodup Hok Htype Hnew.
  { exists this. do 4 (split; [done |]).
    split; [intros id value Hin; by apply not_elem_of_nil in Hin | done]. }
  cbn in Hnodup. apply NoDup_cons in Hnodup as [Hid Hnodup].
  destruct (Hnew id value) as [Hfree Hvisible]; [by left |].
  cbn [enter_constants].
  rewrite (_InitializeConstantSymbolEntry_fresh id value this) by done.
  cbn [and_then].
  destruct (after_set_value_frame id (get value) this) as [Htype1 Hparent1].
  destruct (IH (after_set_value id (get value) this)) as (this' & Hcall & Hok' & Htype' & Hparent' & Hin & Hout).
  - done.
  - by apply storage_ok_after_set_value.
  - by rewrite Htype1.
  - intros id' value' Hin. destruct (Hnew id' value') as [Hfree' Hvisible']; [by right |].
    split; [| done]. apply own_value_None.
    rewrite own_value_after_set_value_ne; [by apply own_value_None | done |].
    intros ->. apply Hid. apply list_elem_of_fmap. by exists (id, value').
  - exists this'. split; [done |]. split; [done |].
    split; [congruence |]. split; [congruence |]. split.
    + intros id' value' [[= -> ->] | Hrest]%elem_of_cons; [| by apply Hin].
      rewrite Hout by done. apply own_value_after_set_value.
    + intros m [Hne Hrest]%not_elem_of_cons. cbn in Hne.
      rewrite Hout by done. by apply own_value_after_set_value_ne.
Qed.

(** X8.  A table constructed without a parent comes back holding exactly the
    seven intrinsic constants, each with its value, provided their seven IDs
    differ from one another.  In a debug build only the intrinsic type is
    accepted for such a table. *)
Theorem new_EidosSymbolTable_without_parent (g : StringRegistry)
    (type : EidosSymbolTableType) (start_with_hash : bool) :
  NoDup intrinsic_ids →
  (DEBUG = true → type ≠ kEidosIntrinsicConstantsTable →
   terminated (new_EidosSymbolTable type None start_with_hash) = true)
  ∧ ∃ this,
      new_EidosSymbolTable kEidosIntrinsicConstantsTable None start_with_hash = Returned tt this
      ∧ chain this = [this]
      ∧ storage_ok this
      ∧ table_type_ this = kEidosIntrinsicConstantsTable
      ∧ (∀ m, ContainsSymbol m this = true ↔ m ∈ intrinsic_ids)
      ∧ _GetValue g gEidosID_T this = Ok {| value_data := ValueLogical [true]; invisible_ := false |}
      ∧ _GetValue g gEidosID_F this = Ok {| value_data := ValueLogical [false]; invisible_ := false |}
      ∧ _GetValue g gEidosID_NULL this = Ok {| value_data := ValueNULL; invisible_ := false |}
      ∧ _GetValue g gEidosID_PI this
        = Ok {| value_data := ValueFloat [M_PI_bits]; invisible_ := false |}
      ∧ _GetValue g gEidosID_E this
        = Ok {| value_data := ValueFloat [M_E_bits]; invisible_ := false |}
      ∧ _GetValue g gEidosID_INF this
        = Ok {| value_data := ValueFloat [infinity_bits]; invisible_ := false |}
      ∧ _GetValue g gEidosID_NAN this
        = Ok {| value_data := ValueFloat [quiet_NaN_bits]; invisible_ := false |}.
Proof.
  intros Hnodup. split.
  { intros Hdebug Htype. unfold new_EidosSymbolTable. rewrite Hdebug.
    assert (table_type_eqb type kEidosIntrinsicConstantsTable = false) as ->; [| done].
    apply not_true_iff_false. by rewrite table_type_eqb_eq. }
  rewrite new_EidosSymbolTable_enter_constants by (by rewrite andb_false_r).
  set (empty := mkEidosSymbolTable kEidosIntrinsicConstantsTable (negb start_with_hash) [] ∅ None).
  assert (Hfree : ∀ m, own_value m empty = None).
  { intros m. unfold own_value, empty. cbn. by destruct (negb start_with_hash). }
  destruct (enter_constants_spec intrinsic_entries empty)
    as (this & Hcall & Hok & Htype & Hparent & Hin & Hout).
  - done.
  - split; cbn; [apply NoDup_nil_2 | by destruct (negb _)].
  - done.
  - intros id value Hentry. split; [by apply own_value_None |].
    unfold intrinsic_entries in Hentry.
    repeat (apply elem_of_cons in Hentry as [[= -> ->] | Hentry]; [done |]).
    by apply not_elem_of_nil in Hentry.
  - exists this. split; [done |].
    split; [by rewrite chain_unfold, Hparent |]. split; [done |]. split; [done |].
    assert (Hget : ∀ id value, (id, value) ∈ intrinsic_entries →
                               _GetValue g id this = Ok (get value)).
    { intros id value Hentry. by rewrite _GetValue_own_value, (Hin id value Hentry). }
    split.
    { intros m. rewrite ContainsSymbol_own_value. unfold parent_contains. rewrite Hparent.
      destruct (decide (m ∈ intrinsic_ids)) as [Hm | Hm].
      - pose proof Hm as Hentry. change intrinsic_ids with (intrinsic_entries.*1) in Hentry.
        apply list_elem_of_fmap in Hentry as ([id value] & Heq & Hentry). cbn in Heq. subst m.
        by rewrite (Hin id value Hentry).
      - change intrinsic_ids with (intrinsic_entries.*1) in Hm.
        rewrite (Hout m Hm), Hfree. done. }
    assert (Hhas : ∀ id d, (id, static_value d) ∈ intrinsic_entries →
                           _GetValue g id this = Ok {| value_data := d; invisible_ := false |}).
    { intros id d Hentry. by rewrite (Hget _ _ Hentry). }
    unfold intrinsic_entries in Hhas.
    repeat split; apply Hhas; repeat constructor.
Qed.

End SymbolTableStorage.

Section SymbolTableIsConst.
Import eidos_global eidos_symbol_table eidos_symbol_table_shape.
Context `{EidosHeaders}.

Lemma _GetValue_IsConst_own_value (g : StringRegistry) (n : N) (this : EidosSymbolTable) :
  _GetValue_IsConst g n this
  = match own_value n this with
    | Some v => Ok (v, negb (table_type_eqb (table_type_ this) kVariablesTable))
    | None =>
        match parent_symbol_table_ this with
        | Some parent_table => _GetValue_IsConst g n parent_table
        | None => Raise (undefined_identifier g n)
        end
    end.
Proof. by destruct this as [type [] slots hash [parent_table |]]. Qed.

Lemma _GetValue_IsConst_value (g : StringRegistry) (n : N) (this : EidosSymbolTable) :
  _GetValue g n this
  = match _GetValue_IsConst g n this with
    | Ok (v, _) => Ok v
    | Raise msg => Raise msg
    end.
Proof.
  induction this as [type internal slots hash | type internal slots hash parent_table IH]
    using EidosSymbolTable_chain_ind;
    rewrite _GetValue_own_value, _GetValue_IsConst_own_value;
    by destruct (own_value n _).
Qed.

Lemma _GetValue_IsConst_holder (g : StringRegistry) (n : N) (this : EidosSymbolTable)
    (v : EidosValue) (is_const : bool) :
  _GetValue_IsConst g n this = Ok (v, is_const) →
  ∃ nearer holder further,
    chain this = nearer ++ holder :: further
    ∧ Forall (λ t, ¬ holds t n) nearer
    ∧ holds holder n
    ∧ own_value n holder = Some v
    ∧ is_const = negb (table_type_eqb (table_type_ holder) kVariablesTable).
Proof.
  induction this as [type internal slots hash | type internal slots hash parent_table IH]
    using EidosSymbolTable_chain_ind;
    rewrite _GetValue_IsConst_own_value; cbn [parent_symbol_table_];
    destruct (own_value n _) as [found |] eqn:Hown.
  - intros [= <- <-]. eexists [], _, []. split; [done |]. split; [done |].
    split; [| done]. apply dec_stable. intros Hnot%own_value_None. congruence.
  - done.
  - intros [= <- <-]. eexists [], _, _. rewrite chain_unfold. split; [done |].
    split; [done |]. split; [| done].
    apply dec_stable. intros Hnot%own_value_None. congruence.
  - intros Hparent. destruct (IH Hparent) as (nearer & holder & further & Hchain & Hnone & Hrest).
    eexists (_ :: nearer), holder, further. rewrite chain_unfold. cbn [parent_symbol_table_].
    rewrite Hchain. split; [done |]. split; [| done].
    constructor; [by apply own_value_None | done].
Qed.

(** X30.  _GetValue_IsConst returns the value _GetValue returns and fails
    where and as _GetValue fails; the flag it sets says whether the nearest
    table that holds the name is something other than a variables table.  For
    a variables table over constant tables the flag is therefore true exactly
    when SetValueForSymbol on the same name is refused. *)
Theorem GetValue_IsConst_tells_constants (g : StringRegistry) (n : N)
    (p_value : EidosValue_SP) (this : EidosSymbolTable) :
  _GetValue g n this
  = match _GetValue_IsConst g n this with
    | Ok (v, _) => Ok v
    | Raise msg => Raise msg
    end
  ∧ (∀ v is_const,
       _GetValue_IsConst g n this = Ok (v, is_const) →
       ∃ nearer holder further,
         chain this = nearer ++ holder :: further
         ∧ Forall (λ t, ¬ holds t n) nearer
         ∧ holds holder n
         ∧ is_const = negb (table_type_eqb (table_type_ holder) kVariablesTable))
  ∧ (table_type_ this = kVariablesTable →
     Forall (λ t, table_type_ t ≠ kVariablesTable) (tail (chain this)) →
     ∀ v is_const,
       _GetValue_IsConst g n this = Ok (v, is_const) →
       terminated (SetValueForSymbol g n p_value this) = is_const).
Proof.
  split; [apply _GetValue_IsConst_value |]. split.
  { intros v is_const Hcall.
    destruct (_GetValue_IsConst_holder g n this v is_const Hcall)
      as (nearer & holder & further & Hchain & Hnone & Hholds & _ & Hflag).
    by exists nearer, holder, further. }
  intros Htype Hconstants v is_const Hcall.
  unfold SetValueForSymbol. cbv zeta.
  pose proof (set_value_spec g n (get (copy_unless_unique_and_visible p_value)) this) as Hset.
  rewrite _GetValue_IsConst_own_value in Hcall.
  destruct (own_value n this) as [found |] eqn:Hown.
  - injection Hcall as <- <-. rewrite Htype. cbn.
    rewrite bool_decide_eq_false_2 in Hset by done. cbn in Hset. by rewrite Hset.
  - rewrite bool_decide_eq_true_2 in Hset by done. cbn [andb] in Hset.
    rewrite chain_unfold in Hconstants. cbn [tail] in Hconstants.
    unfold parent_contains in Hset.
    destruct (parent_symbol_table_ this) as [parent_table |]; [| done].
    destruct (_GetValue_IsConst_holder g n parent_table v is_const Hcall)
      as (nearer & holder & further & Hchain & _ & _ & _ & ->).
    assert (ContainsSymbol n parent_table = true) as Hcontains.
    { apply (_GetValue_Ok_ContainsSymbol g n v). rewrite _GetValue_IsConst_value, Hcall. done. }
    rewrite Hcontains in Hset. rewrite Hset. cbn.
    assert (table_type_ holder ≠ kVariablesTable) as Hholder.
    { apply (proj1 (Forall_forall _ _) Hconstants). rewrite Hchain.
      apply elem_of_app. right. by left. }
    by destruct (table_type_ holder).
Qed.

End SymbolTableIsConst.

Section MutationRunMethodFacts.
Import eidos_global mutation_run mutation_run_methods.
Context `{EidosHeaders}.

Lemma contents_length (run : MutationRun) :
  run_ok run → length (contents run) = Z.to_nat (mutation_count_ run).
Proof.
  intros [Hcount Hlen _ _]. unfold contents. rewrite length_take. lia.
Qed.

Lemma take_S_insert (l : list Z) (n : nat) (x : Z) :
  n < length l → take (S n) (<[n := x]> l) = take n l ++ [x].
Proof.
  intros Hn. rewrite (take_S_r _ _ x).
  - by rewrite take_insert_ge by lia.
  - by apply list_lookup_insert_eq.
Qed.

Lemma emplace_back_spec (p : Z) (run : MutationRun) :
  run_ok run → locking_violation run = false →
  ∃ run', emplace_back p run = Some run'
          ∧ mutation_count_ run' = (mutation_count_ run + 1)%Z
          ∧ take (Z.to_nat (mutation_count_ run + 1)) (mutations_ run') = contents run ++ [p]
          ∧ run_ok run'
          ∧ intrusive_ref_count run' = intrusive_ref_count run
          ∧ operation_id_ run' = operation_id_ run
          ∧ (if (mutation_count_ run =? mutation_capacity_ run)%Z
             then mutation_capacity_ run' = grow_capacity (mutation_capacity_ run)
                  ∧ on_internal_buffer run' = false
             else mutation_capacity_ run' = mutation_capacity_ run
                  ∧ on_internal_buffer run' = on_internal_buffer run
                  ∧ mutations_ run' = <[Z.to_nat (mutation_count_ run) := p]> (mutations_ run)).
Proof.
  intros [Hcount Hlen Hmin Hbuffer] Hlock. unfold emplace_back. rewrite Hlock.
  unfold contents, SLIM_MUTRUN_BUFFER_SIZE in *.
  destruct (mutation_count_ run =? mutation_capacity_ run)%Z eqn:Hfull.
  - apply Z.eqb_eq in Hfull. eexists. split; [done |]. cbn.
    set (capacity := if on_internal_buffer run then _ else _).
    assert (capacity = grow_capacity (mutation_capacity_ run)) as Hcapacity.
    { subst capacity. unfold grow_capacity. destruct (on_internal_buffer run); [| done].
      by rewrite Hbuffer. }
    assert (mutation_capacity_ run < capacity)%Z as Hgrows.
    { rewrite Hcapacity. unfold grow_capacity. destruct (_ <? 32)%Z; lia. }
    clearbody capacity.
    split; [done |]. split.
    { replace (Z.to_nat (mutation_count_ run + 1)) with (S (Z.to_nat (mutation_count_ run)))
        by lia.
      rewrite take_S_insert by (rewrite length_app, length_replicate; lia).
      rewrite take_app_le by lia. done. }
    split.
    { split; cbn; unfold SLIM_MUTRUN_BUFFER_SIZE; [lia | | lia | done].
      rewrite length_insert, length_app, length_replicate. lia. }
    done.
  - apply Z.eqb_neq in Hfull. eexists. split; [done |]. cbn.
    split; [done |]. split.
    { replace (Z.to_nat (mutation_count_ run + 1)) with (S (Z.to_nat (mutation_count_ run)))
        by lia.
      rewrite take_S_insert by lia. done. }
    split; [| done].
    split; cbn; unfold SLIM_MUTRUN_BUFFER_SIZE; [lia | | lia | done].
    rewrite length_insert. lia.
Qed.


Lemma emplace_back_contents (p : Z) (run run' : MutationRun) :
  run_ok run → emplace_back p run = Some run' →
  contents run' = contents run ++ [p] ∧ run_ok run'
  ∧ mutation_count_ run' = (mutation_count_ run + 1)%Z.
Proof.
  intros Hok Hcall.
  assert (locking_violation run = false) as Hlock.
  { unfold emplace_back in Hcall. by destruct (locking_violation run). }
  destruct (emplace_back_spec p run Hok Hlock) as (run2 & Hcall2 & Hsize & Htake & Hok2 & _).
  rewrite Hcall in Hcall2. injection Hcall2 as <-.
  split; [| done]. unfold contents at 1. by rewrite Hsize.
Qed.

Lemma scan_for_elem_of (p : Z) (l : list Z) : scan_for p l = true ↔ p ∈ l.
Proof.
  induction l as [| x l IH]; cbn.
  - split; [done | by intros ?%not_elem_of_nil].
  - rewrite elem_of_cons. destruct (x =? p)%Z eqn:Heq.
    + apply Z.eqb_eq in Heq. by split; [left |].
    + apply Z.eqb_neq in Heq. rewrite IH. split; [by right | by intros [-> |]].
Qed.

Lemma pop_back_after_emplace_back (p : Z) (run run' : MutationRun) :
  run_ok run → emplace_back p run = Some run' →
  ∃ run'', pop_back run' = Some run''
           ∧ contents run'' = contents run
           ∧ mutation_capacity_ run'' = mutation_capacity_ run'
           ∧ mutations_ run'' = mutations_ run'.
Proof.
  intros Hok Hcall.
  assert (locking_violation run = false) as Hlock.
  { unfold emplace_back in Hcall. by destruct (locking_violation run). }
  destruct (emplace_back_spec p run Hok Hlock)
    as (run2 & Hcall2 & Hsize & Htake & Hok' & Href & _).
  rewrite Hcall in Hcall2. injection Hcall2 as <-.
  assert (locking_violation run' = false) as Hlock'.
  { unfold locking_violation in *. by rewrite Href. }
  unfold pop_back. rewrite Hlock', Hsize.
  destruct Hok as [Hcount Hlen _ _].
  rewrite (proj2 (Z.ltb_lt _ _)) by lia.
  eexists. split; [done |]. split; [| done].
  unfold contents in *. cbn.
  replace (mutation_count_ run + 1 - 1)%Z with (mutation_count_ run) by lia.
  apply (f_equal (take (Z.to_nat (mutation_count_ run)))) in Htake.
  rewrite take_take, take_app_le in Htake by (rewrite length_take; lia).
  rewrite take_take, Nat.min_id in Htake.
  by rewrite Nat.min_l in Htake by lia.
Qed.

(** X9.  emplace_back adds its argument at the end of the run and nothing
    else: the entries in use become the old ones followed by the new index,
    the run stays well formed, the capacity is kept while there is room and
    follows the growth policy otherwise, and a pop_back directly afterwards
    gives back the old entries. *)
Theorem emplace_back_appends (p_mutation_index : Z) (run : MutationRun) :
  run_ok run → locking_violation run = false →
  ∃ run',
    emplace_back p_mutation_index run = Some run'
    ∧ contents run' = contents run ++ [p_mutation_index]
    ∧ size run' = (size run + 1)%Z
    ∧ run_ok run'
    ∧ mutation_capacity_ run'
      = (if (mutation_count_ run <? mutation_capacity_ run)%Z then mutation_capacity_ run
         else grow_capacity (mutation_capacity_ run))
    ∧ ∃ run'', pop_back run' = Some run''
               ∧ contents run'' = contents run
               ∧ mutation_capacity_ run'' = mutation_capacity_ run'.
Proof.
  intros Hok Hlock.
  destruct (emplace_back_spec p_mutation_index run Hok Hlock)
    as (run' & Hcall & Hsize & Htake & Hok' & Href & _ & Hcapacity).
  exists run'. split; [done |].
  assert (contents run' = contents run ++ [p_mutation_index]) as Hcontents.
  { unfold contents at 1. by rewrite Hsize. }
  split; [done |]. split; [done |]. split; [done |]. split.
  { destruct Hok as [Hcount _ _ _].
    destruct (mutation_count_ run =? mutation_capacity_ run)%Z eqn:Hfull.
    - apply Z.eqb_eq in Hfull. rewrite (proj2 (Z.ltb_ge _ _)) by lia. by destruct Hcapacity.
    - apply Z.eqb_neq in Hfull. rewrite (proj2 (Z.ltb_lt _ _)) by lia. by destruct Hcapacity. }
  destruct (pop_back_after_emplace_back p_mutation_index run run' Hok Hcall)
    as (run'' & Hpop & Hpopped & Hkept & _).
  by exists run''.
Qed.

Lemma memcpy_take (dst : list Z) (offset : nat) (src : list Z) :
  (offset ≤ length dst)%nat →
  take (offset + length src) (memcpy dst offset src) = take offset dst ++ src.
Proof.
  intros Hoffset. unfold memcpy.
  rewrite app_assoc, take_app_length'; [done |].
  rewrite length_app, length_take. lia.
Qed.

Lemma memcpy_length (dst : list Z) (offset : nat) (src : list Z) :
  (offset + length src ≤ length dst)%nat → length (memcpy dst offset src) = length dst.
Proof.
  intros Hroom. unfold memcpy. rewrite !length_app, length_take, length_drop. lia.
Qed.

Lemma memcpy_keeps_front (dst : list Z) (offset : nat) (src : list Z) (n : nat) :
  (n ≤ offset)%nat → (offset ≤ length dst)%nat → take n (memcpy dst offset src) = take n dst.
Proof.
  intros Hn Hoffset. unfold memcpy.
  rewrite take_app_le by (rewrite length_take; lia).
  rewrite take_take. f_equal. lia.
Qed.

Lemma grow_capacity_grows (capacity : Z) :
  (1 ≤ capacity)%Z → (capacity < grow_capacity capacity)%Z.
Proof. intros Hpos. unfold grow_capacity. destruct (_ <? 32)%Z; lia. Qed.

Lemma grow_until_spec (fuel : nat) (needed capacity : Z) :
  (1 ≤ capacity)%Z → (needed - capacity ≤ Z.of_nat fuel)%Z →
  ∃ grown, grow_until fuel needed capacity = Some grown
           ∧ (needed ≤ grown)%Z ∧ (capacity ≤ grown)%Z
           ∧ (grown ≤ Z.max capacity (Z.max 62 (needed + 15)))%Z.
Proof.
  revert capacity. induction fuel as [| fuel IH]; intros capacity Hpos Hfuel; cbn.
  - destruct (Z.gtb_spec needed capacity) as [Hmore | Hmore]; [lia | exists capacity; split; [done | lia]].
  - destruct (Z.gtb_spec needed capacity) as [Hmore | Hmore]; [| exists capacity; split; [done | lia]].
    pose proof (grow_capacity_grows capacity Hpos) as Hgrows.
    destruct (IH (grow_capacity capacity)) as (grown & -> & Hneeded & Hfrom & Hbound);
      [lia | lia |].
    exists grown. split; [done |]. split; [done |]. split; [lia |].
    assert (grow_capacity capacity ≤ Z.max 62 (needed + 15))%Z; [| lia].
    unfold grow_capacity. destruct (Z.ltb_spec capacity 32); lia.
Qed.

(** X10.  emplace_back_bulk adds the first p_copy_count of the given
    indices at the end of the run, in their order, and returns: the growth
    loops end.  The run stays well formed; it is not reallocated when the new
    entries fit, and otherwise the new capacity covers them and is at most
    the larger of 62 and the needed size plus 15. *)
Theorem emplace_back_bulk_appends (p_mutation_indices : list Z) (p_copy_count : Z)
    (run : MutationRun) :
  run_ok run → locking_violation run = false →
  (0 ≤ p_copy_count ≤ Z.of_nat (length p_mutation_indices))%Z →
  ∃ run',
    emplace_back_bulk p_mutation_indices p_copy_count run = Some run'
    ∧ contents run' = contents run ++ take (Z.to_nat p_copy_count) p_mutation_indices
    ∧ size run' = (size run + p_copy_count)%Z
    ∧ run_ok run'
    ∧ (if (size run + p_copy_count <=? mutation_capacity_ run)%Z
       then mutation_capacity_ run' = mutation_capacity_ run
            ∧ on_internal_buffer run' = on_internal_buffer run
       else (mutation_capacity_ run < mutation_capacity_ run'
             ≤ Z.max 62 (size run + p_copy_count + 15))%Z
            ∧ on_internal_buffer run' = false).
Proof.
  intros Hok Hlock Hcopy. pose proof (contents_length run Hok) as Hcontents.
  destruct Hok as [Hcount Hlen Hmin Hbuffer].
  unfold emplace_back_bulk, size. rewrite Hlock. cbv zeta.
  set (needed := (mutation_count_ run + p_copy_count)%Z).
  set (src := take (Z.to_nat p_copy_count) p_mutation_indices).
  assert (length src = Z.to_nat p_copy_count) as Hsrc.
  { unfold src. rewrite length_take. lia. }
  unfold SLIM_MUTRUN_BUFFER_SIZE in *.
  assert (∀ grown : MutationRun,
            mutation_count_ grown = mutation_count_ run →
            take (Z.to_nat (mutation_count_ run)) (mutations_ grown) = contents run →
            length (mutations_ grown) = Z.to_nat (mutation_capacity_ grown) →
            (needed ≤ mutation_capacity_ grown)%Z →
            (4 ≤ mutation_capacity_ grown)%Z →
            (on_internal_buffer grown = true → mutation_capacity_ grown = 4%Z) →
            let run' :=
              {| intrusive_ref_count := intrusive_ref_count grown;
                 mutation_count_ := mutation_count_ grown + p_copy_count;
                 mutation_capacity_ := mutation_capacity_ grown;
                 mutations_ := memcpy (mutations_ grown) (Z.to_nat (mutation_count_ grown)) src;
                 on_internal_buffer := on_internal_buffer grown;
                 operation_id_ := operation_id_ grown |} in
            contents run' = contents run ++ src ∧ run_ok run') as Hfinish.
  { intros grown Hsame Hfront Hlength Hroom Hfour Hbuf run'. unfold needed in *. split.
    - unfold contents at 1, run'. cbn [mutation_count_ mutations_]. rewrite Hsame.
      replace (Z.to_nat (mutation_count_ run + p_copy_count))
        with (Z.to_nat (mutation_count_ run) + length src) by lia.
      rewrite memcpy_take by lia. by rewrite Hfront.
    - split; cbn; unfold SLIM_MUTRUN_BUFFER_SIZE; [lia | | lia | done].
      rewrite memcpy_length; lia. }
  destruct (Z.gtb_spec needed (mutation_capacity_ run)) as [Hmore | Hmore].
  - rewrite (proj2 (Z.leb_gt _ _)) by lia.
    pose proof (grow_capacity_grows (mutation_capacity_ run)) as Hgrows.
    destruct (on_internal_buffer run) eqn:Hon.
    + change (4 * 2)%Z with 8%Z.
      destruct (grow_until_spec (Z.to_nat needed) needed 8)
        as (capacity & -> & Hneeded & Hfrom & Hbound); [lia | lia |].
      cbn [mbind option_bind]. eexists. split; [done |].
      match goal with
      | |- contents ?r = _ ∧ _ => match r with context [memcpy (mutations_ ?g)] =>
            pose proof (Hfinish g) as Hgrown end
      end.
      cbn in Hgrown. destruct Hgrown as [Hnew Hok']; try done; try lia.
      { unfold memcpy. rewrite take_0. cbn [app]. rewrite take_app_length'; [done | lia]. }
      { rewrite memcpy_length; rewrite length_replicate; [done | lia]. }
      split; [done |]. split; [done |]. split; [done |].
      cbn. rewrite (Hbuffer eq_refl). split; [lia | done].
    + destruct (grow_until_spec (Z.to_nat needed) needed (grow_capacity (mutation_capacity_ run)))
        as (capacity & -> & Hneeded & Hfrom & Hbound); [lia | lia |].
      cbn [mbind option_bind]. eexists. split; [done |].
      match goal with
      | |- contents ?r = _ ∧ _ => match r with context [memcpy (mutations_ ?g)] =>
            pose proof (Hfinish g) as Hgrown end
      end.
      cbn in Hgrown. destruct Hgrown as [Hnew Hok']; try done; try lia.
      { rewrite resize_ge by lia. by rewrite take_app_le by lia. }
      { by rewrite length_resize. }
      split; [done |]. split; [done |]. split; [done |].
      cbn. split; [| done]. split; [lia |].
      assert (grow_capacity (mutation_capacity_ run) ≤ Z.max 62 (needed + 15))%Z; [| lia].
      unfold grow_capacity. destruct (Z.ltb_spec (mutation_capacity_ run) 32); lia.
  - rewrite (proj2 (Z.leb_le _ _)) by lia.
    cbn [mbind option_bind]. eexists. split; [done |].
    destruct (Hfinish run) as [Hnew Hok']; try done; try lia.
Qed.

End MutationRunMethodFacts.

Section SortedInsertionFacts.
Import eidos_global mutation_run mutation_run_methods.
Context `{EidosHeaders}.
Variable CompareMutations : Z → Z → bool.
Variable position : Z → Z.
Hypothesis compares_positions : ∀ a b, CompareMutations a b = (position a <? position b)%Z.

Lemma find_sort_position_spec (p : Z) (k : nat) (before : list Z) :
  ∃ l1 l2, before = l1 ++ l2
           ∧ find_sort_position CompareMutations p k before = k + length l1
           ∧ Forall (λ x, CompareMutations p x = false) l1
           ∧ match l2 with [] => True | y :: _ => CompareMutations p y = true end.
Proof.
  revert k. induction before as [| x before IH]; intros k; cbn.
  - exists [], []. cbn. split; [done |]. split; [lia | done].
  - destruct (CompareMutations p x) eqn:Hx.
    + exists [], (x :: before). cbn. split; [done |]. split; [lia | done].
    + destruct (IH (S k)) as (l1 & l2 & -> & -> & Hl1 & Hl2).
      exists (x :: l1), l2. cbn. split; [done |]. split; [lia |].
      split; [by constructor | done].
Qed.

Lemma move_upward (l1 l2 pad : list Z) (p : Z) :
  l2 ≠ [] →
  <[length l1 := p]> (memmove (l1 ++ l2 ++ p :: pad) (S (length l1)) (length l1) (length l2))
  = l1 ++ p :: l2 ++ pad.
Proof.
  intros Hl2. destruct l2 as [| y l2]; [done |]. unfold memmove, memcpy.
  rewrite drop_app_length, take_app_length.
  replace (take (S (length l1)) (l1 ++ (y :: l2) ++ p :: pad)) with (l1 ++ [y]).
  2: { rewrite take_app_ge by lia. replace (S (length l1) - length l1) with 1 by lia. done. }
  replace (drop (S (length l1) + length (y :: l2)) (l1 ++ (y :: l2) ++ p :: pad)) with pad.
  2: { rewrite drop_app_ge by lia.
       replace (S (length l1) + length (y :: l2) - length l1) with (S (length (y :: l2))) by lia.
       change ((y :: l2) ++ p :: pad) with (y :: (l2 ++ p :: pad)).
       cbn [drop length]. rewrite drop_app_ge by lia.
       replace (S (length l2) - length l2) with 1 by lia. done. }
  rewrite <- (Nat.add_0_r (length l1)) at 1.
  rewrite <- app_assoc. by rewrite insert_app_r.
Qed.

Lemma sorted_by_app (l1 l2 : list Z) :
  sorted_by position (l1 ++ l2)
  ↔ sorted_by position l1 ∧ sorted_by position l2
    ∧ Forall (λ x, Forall (λ y, (position x ≤ position y)%Z) l2) l1.
Proof.
  induction l1 as [| x l1 IH]; cbn.
  - split; [by intros ? | by intros (_ & ? & _)].
  - rewrite Forall_app, IH, Forall_cons. tauto.
Qed.

Lemma emplace_back_layout (p : Z) (run : MutationRun) :
  run_ok run → locking_violation run = false →
  ∃ run' pad,
    emplace_back p run = Some run'
    ∧ mutation_count_ run' = (mutation_count_ run + 1)%Z
    ∧ mutations_ run' = contents run ++ p :: pad
    ∧ run_ok run'
    ∧ locking_violation run' = false.
Proof.
  intros Hok Hlock.
  destruct (emplace_back_spec p run Hok Hlock)
    as (run' & Hcall & Hsize & Htake & Hok' & Href & _).
  exists run', (drop (Z.to_nat (mutation_count_ run + 1)) (mutations_ run')).
  split; [done |]. split; [done |]. split.
  - rewrite <- (take_drop (Z.to_nat (mutation_count_ run + 1)) (mutations_ run')) at 1.
    by rewrite Htake, <- app_assoc.
  - split; [done |]. unfold locking_violation in *. by rewrite Href.
Qed.

Lemma with_mutations_ok (run : MutationRun) (mutations : list Z) :
  run_ok run → length mutations = length (mutations_ run) → run_ok (with_mutations run mutations).
Proof. intros [? Hlen ? ?] Hsame. split; cbn; try done. by rewrite Hsame. Qed.

(** Where the loop of insert_sorted_mutation leaves the new mutation. *)
Lemma insert_sorted_mutation_spec (p : Z) (run : MutationRun) :
  run_ok run → locking_violation run = false →
  ∃ run' l1 l2,
    insert_sorted_mutation CompareMutations p run = Some run'
    ∧ run_ok run'
    ∧ mutation_count_ run' = (mutation_count_ run + 1)%Z
    ∧ contents run = l1 ++ l2
    ∧ contents run' = l1 ++ p :: l2
    ∧ Forall (λ x, CompareMutations p x = false) l1
    ∧ match l2 with [] => True | y :: _ => CompareMutations p y = true end.
Proof.
  intros Hok Hlock. pose proof (contents_length run Hok) as Hlength.
  destruct (emplace_back_layout p run Hok Hlock)
    as (run1 & pad & Hcall & Hsize & Hlayout & Hok1 & Hlock1).
  unfold insert_sorted_mutation. rewrite Hcall. cbn [mbind option_bind].
  assert (0 ≤ mutation_count_ run)%Z as Hcount by (by destruct Hok as [[? ?] _ _ _]).
  assert (contents run1 = contents run ++ [p]) as Hcontents1.
  { unfold contents at 1. rewrite Hsize, Hlayout.
    rewrite cons_middle, app_assoc, take_app_length'; [done |]. rewrite length_app. cbn. lia. }
  destruct (Z.eqb_spec (mutation_count_ run1) 1) as [Hone | Hmore].
  { exists run1, [], []. split; [done |]. split; [done |]. split; [done |].
    assert (contents run = []) as Hempty.
    { apply length_zero_iff_nil. lia. }
    rewrite Hcontents1, Hempty. done. }
  unfold begin_pointer, end_pointer_const. rewrite Hlock1. cbn [mbind option_bind].
  rewrite Hsize.
  replace (Z.to_nat (mutation_count_ run + 1) - 1) with (length (contents run)) by lia.
  rewrite Hlayout, take_app_length.
  destruct (find_sort_position_spec p 0 (contents run)) as (l1 & l2 & Hsplit & -> & Hl1 & Hl2).
  rewrite Hsplit. cbn [Nat.add]. rewrite length_app.
  destruct (Nat.eqb_spec (length l1) (length l1 + length l2)) as [Hend | Hinside].
  - assert (l2 = []) as -> by (apply length_zero_iff_nil; lia).
    exists run1, l1, []. split; [done |]. split; [done |]. split; [done |].
    split; [done |]. rewrite Hcontents1, Hsplit, app_nil_r. done.
  - assert (l2 ≠ []) as Hl2_nonempty by (intros ->; cbn in Hinside; lia).
    eexists _, l1, l2. split; [done |].
    assert (mutations_ run1 = l1 ++ l2 ++ p :: pad) as Hlayout1.
    { by rewrite Hlayout, Hsplit, <- app_assoc. }
    unfold move_upward_and_put. rewrite Hlayout1.
    replace (length l1 + length l2 - length l1) with (length l2) by lia.
    rewrite move_upward by done.
    split.
    { apply with_mutations_ok; [done |]. rewrite Hlayout1, !length_app. cbn.
      rewrite !length_app. cbn. lia. }
    split; [done |]. split; [done |]. split; [| done].
    unfold contents. cbn [with_mutations mutation_count_ mutations_]. rewrite Hsize.
    rewrite Hsplit, length_app in Hlength.
    change (l1 ++ p :: l2 ++ pad) with (l1 ++ (p :: l2) ++ pad).
    rewrite app_assoc, take_app_length'; [done |]. rewrite length_app. cbn. lia.
Qed.


Lemma sorted_insertion (p : Z) (l1 l2 : list Z) :
  sorted_by position (l1 ++ l2) →
  Forall (λ x, CompareMutations p x = false) l1 →
  match l2 with [] => True | y :: _ => CompareMutations p y = true end →
  Forall (λ x, (position x ≤ position p)%Z) l1
  ∧ Forall (λ x, (position p < position x)%Z) l2
  ∧ sorted_by position (l1 ++ p :: l2).
Proof.
  intros (Hs1 & Hs2 & Hcross)%sorted_by_app Hl1 Hl2.
  assert (Forall (λ x, (position x ≤ position p)%Z) l1) as Hbefore.
  { eapply Forall_impl; [exact Hl1 |]. intros x Hx. cbv beta in Hx. rewrite compares_positions in Hx.
    by apply Z.ltb_ge in Hx. }
  assert (Forall (λ x, (position p < position x)%Z) l2) as Hafter.
  { destruct l2 as [| y l2]; [done |]. rewrite compares_positions in Hl2.
    apply Z.ltb_lt in Hl2. destruct Hs2 as [Hy _]. constructor; [done |].
    eapply Forall_impl; [exact Hy |]. intros z Hz. cbn in Hz. lia. }
  split; [done |]. split; [done |].
  apply sorted_by_app. split; [done |]. split.
  - cbn. split; [| done]. eapply Forall_impl; [exact Hafter |]. intros z Hz. cbn in Hz. lia.
  - apply Forall_forall. intros x Hx. constructor.
    + by apply (proj1 (Forall_forall _ _) Hbefore).
    + by apply (proj1 (Forall_forall _ _) Hcross).
Qed.

Lemma find_unique_sort_position_new (p : Z) (k : nat) (before : list Z) :
  p ∉ before →
  find_unique_sort_position CompareMutations p k before
  = LeftAt (find_sort_position CompareMutations p k before).
Proof.
  revert k. induction before as [| x before IH]; intros k Hnew; cbn; [done |].
  apply not_elem_of_cons in Hnew as [Hx Hbefore].
  destruct (CompareMutations p x); [done |].
  rewrite (proj2 (Z.eqb_neq _ _)) by done. by apply IH.
Qed.

Lemma find_unique_sort_position_old (p : Z) (k : nat) (before : list Z) :
  sorted_by position before → p ∈ before →
  find_unique_sort_position CompareMutations p k before = Discarded.
Proof.
  revert k. induction before as [| x before IH]; intros k Hsorted Hold; cbn.
  - by apply not_elem_of_nil in Hold.
  - destruct Hsorted as [Hx Hsorted]. rewrite compares_positions.
    apply elem_of_cons in Hold as [-> | Hold].
    + rewrite Z.ltb_irrefl, Z.eqb_refl. done.
    + pose proof (proj1 (Forall_forall _ _) Hx p Hold) as Hle. cbn in Hle.
      rewrite (proj2 (Z.ltb_ge _ _)) by done.
      destruct (p =? x)%Z; [done |]. by apply IH.
Qed.

End SortedInsertionFacts.


Section SortedInsertionTheorems.
Import eidos_global mutation_run mutation_run_methods.
Context `{EidosHeaders}.

(** X11.  insert_sorted_mutation, when CompareMutations compares the
    positions of two mutations, keeps a run sorted by position: it returns,
    the new index goes after every entry whose position is not greater and
    before every entry whose position is greater, the other entries keep
    their order, and the run stays well formed. *)
Theorem insert_sorted_mutation_keeps_order (CompareMutations : Z → Z → bool)
    (position : Z → Z) (p_mutation_index : Z) (run : MutationRun) :
  (∀ a b, CompareMutations a b = (position a <? position b)%Z) →
  run_ok run → locking_violation run = false →
  sorted_by position (contents run) →
  ∃ run' before after,
    insert_sorted_mutation CompareMutations p_mutation_index run = Some run'
    ∧ contents run = before ++ after
    ∧ contents run' = before ++ p_mutation_index :: after
    ∧ Forall (λ x, (position x ≤ position p_mutation_index)%Z) before
    ∧ Forall (λ x, (position p_mutation_index < position x)%Z) after
    ∧ sorted_by position (contents run')
    ∧ size run' = (size run + 1)%Z
    ∧ run_ok run'.
Proof.
  intros Hcompare Hok Hlock Hsorted.
  destruct (insert_sorted_mutation_spec CompareMutations p_mutation_index run Hok Hlock)
    as (run' & l1 & l2 & Hcall & Hok' & Hsize & Hsplit & Hnew & Hl1 & Hl2).
  rewrite Hsplit in Hsorted.
  destruct (sorted_insertion CompareMutations position Hcompare p_mutation_index l1 l2
              Hsorted Hl1 Hl2) as (Hbefore & Hafter & Hsorted').
  exists run', l1, l2. rewrite Hnew. done.
Qed.

(** X12.  insert_sorted_mutation_if_unique on a run sorted by position
    leaves the entries as they are when the index is already among them, and
    otherwise does what insert_sorted_mutation does; either way the run stays
    sorted and well formed, and a run without repeated entries stays so. *)
Theorem insert_sorted_mutation_if_unique_adds_once (CompareMutations : Z → Z → bool)
    (position : Z → Z) (p_mutation_index : Z) (run : MutationRun) :
  (∀ a b, CompareMutations a b = (position a <? position b)%Z) →
  run_ok run → locking_violation run = false →
  sorted_by position (contents run) →
  ∃ run',
    insert_sorted_mutation_if_unique CompareMutations p_mutation_index run = Some run'
    ∧ (p_mutation_index ∈ contents run → contents run' = contents run)
    ∧ (p_mutation_index ∉ contents run →
       Some (contents run')
       = contents <$> insert_sorted_mutation CompareMutations p_mutation_index run)
    ∧ (∀ q, q ∈ contents run' ↔ q = p_mutation_index ∨ q ∈ contents run)
    ∧ (NoDup (contents run) → NoDup (contents run'))
    ∧ sorted_by position (contents run')
    ∧ run_ok run'.
Proof.
  intros Hcompare Hok Hlock Hsorted. pose proof (contents_length run Hok) as Hlength.
  destruct (emplace_back_layout p_mutation_index run Hok Hlock)
    as (run1 & pad & Hcall & Hsize & Hlayout & Hok1 & Hlock1).
  assert (0 ≤ mutation_count_ run)%Z as Hcount by (by destruct Hok as [[? ?] _ _ _]).
  destruct (insert_sorted_mutation_spec CompareMutations p_mutation_index run Hok Hlock)
    as (run2 & l1 & l2 & Hcall2 & Hok2 & Hsize2 & Hsplit & Hnew & Hl1 & Hl2).
  pose proof Hsorted as Hsorted2. rewrite Hsplit in Hsorted2.
  destruct (sorted_insertion CompareMutations position Hcompare p_mutation_index l1 l2
              Hsorted2 Hl1 Hl2) as (_ & _ & Hsorted').
  destruct (decide (p_mutation_index ∈ contents run)) as [Hold | Hfresh].
  - (* already there: discarded off the end *)
    assert (mutation_count_ run1 ≠ 1%Z) as Hmore.
    { intros Hone. assert (contents run = []) as Hempty by (apply length_zero_iff_nil; lia).
      rewrite Hempty in Hold. by apply not_elem_of_nil in Hold. }
    exists (with_count run1 (mutation_count_ run1 - 1)).
    assert (contents (with_count run1 (mutation_count_ run1 - 1)) = contents run) as Hsame.
    { unfold contents at 1. cbn. rewrite Hsize, Hlayout.
      replace (Z.to_nat (mutation_count_ run + 1 - 1)) with (length (contents run)) by lia.
      by rewrite take_app_length. }
    split.
    { unfold insert_sorted_mutation_if_unique. rewrite Hcall. cbn [mbind option_bind].
      rewrite (proj2 (Z.eqb_neq _ _)) by done.
      unfold begin_pointer, end_pointer_const. rewrite Hlock1. cbn [mbind option_bind].
      rewrite Hsize.
      replace (Z.to_nat (mutation_count_ run + 1) - 1) with (length (contents run)) by lia.
      rewrite Hlayout, take_app_length.
      by rewrite (find_unique_sort_position_old CompareMutations position Hcompare). }
    rewrite Hsame. split; [done |]. split; [done |]. split.
    { intros q. split; [by right | by intros [-> |]]. }
    split; [done |]. split; [done |].
    destruct Hok1 as [? ? ? ?]. split; cbn; try done. lia.
  - (* new: the same as insert_sorted_mutation *)
    exists run2. split.
    { rewrite <- Hcall2. unfold insert_sorted_mutation_if_unique, insert_sorted_mutation.
      rewrite Hcall. cbn [mbind option_bind]. destruct (_ =? 1)%Z; [done |].
      destruct (begin_pointer run1) as [begin |]; [| done]. cbn [mbind option_bind].
      rewrite find_unique_sort_position_new; [done |].
      unfold end_pointer_const. rewrite Hsize.
      replace (Z.to_nat (mutation_count_ run + 1) - 1) with (length (contents run)) by lia.
      by rewrite Hlayout, take_app_length. }
    split; [done |]. split; [by rewrite Hcall2 |]. split.
    { intros q. rewrite Hnew, Hsplit, !elem_of_app, elem_of_cons. tauto. }
    split.
    { rewrite Hnew, Hsplit. intros Hnodup.
      apply NoDup_app in Hnodup as (Hn1 & Hcross & Hn2).
      rewrite Hsplit in Hfresh. apply not_elem_of_app in Hfresh as [Hf1 Hf2].
      apply NoDup_app. split; [done |]. split.
      - intros x Hx [-> | Hx2]%elem_of_cons; [done | by apply (Hcross x)].
      - by constructor. }
    by rewrite Hnew.
Qed.

End SortedInsertionTheorems.

Section MutationRunComparisonFacts.
Import eidos_global mutation_run mutation_run_methods.
Context `{EidosHeaders}.

Lemma every_fourth_from_drop (skip : nat) (l : list Z) :
  every_fourth_from skip l = every_fourth (drop skip l).
Proof.
  revert skip. induction l as [| x l IH]; intros skip.
  - by rewrite drop_nil.
  - destruct skip as [| skip]; [done |]. cbn. by rewrite IH.
Qed.

Lemma Hash_loop_every_fourth (run : MutationRun) (fuel mut_index : nat) (hash : Z) :
  run_ok run →
  (length (contents run) - mut_index ≤ fuel)%nat →
  Hash_loop fuel run (Z.of_nat mut_index) hash
  = foldl (λ hash entry, Hash_step entry hash) hash (every_fourth (drop mut_index (contents run))).
Proof.
  intros Hok. pose proof (contents_length run Hok) as Hlength.
  destruct Hok as [Hcount Hlen _ _].
  revert mut_index hash. induction fuel as [| fuel IH]; intros mut_index hash Hfuel.
  - rewrite drop_ge by lia. done.
  - cbn [Hash_loop]. destruct (Z.ltb_spec (Z.of_nat mut_index) (mutation_count_ run)) as [Hin | Hout].
    + assert (contents run !! mut_index = Some (mutations_ run !!! mut_index)) as Hentry.
      { unfold contents. rewrite lookup_take_lt by lia. apply list_lookup_lookup_total_lt. lia. }
      rewrite (drop_S _ _ _ Hentry). unfold every_fourth at 1. cbn [every_fourth_from].
      rewrite every_fourth_from_drop, drop_drop. cbn [foldl].
      rewrite Nat2Z.id.
      replace (Z.of_nat mut_index + 4)%Z with (Z.of_nat (mut_index + 4)) by lia.
      rewrite IH by lia. do 3 f_equal. lia.
    + rewrite drop_ge by lia. done.
Qed.

Lemma Hash_of_contents (run : MutationRun) :
  run_ok run →
  Hash run
  = to_int64 (foldl (λ hash entry, Hash_step entry hash)
                    (to_uint64 (Z.of_nat (length (contents run))))
                    (every_fourth (contents run))).
Proof.
  intros Hok. pose proof (contents_length run Hok) as Hlength. unfold Hash.
  change 0%Z with (Z.of_nat 0). rewrite Hash_loop_every_fourth by (done || lia).
  rewrite drop_0. destruct Hok as [Hcount _ _ _]. do 3 f_equal. lia.
Qed.

Lemma Identical_contents (a b : MutationRun) :
  run_ok a → run_ok b → Identical b a = true ↔ contents a = contents b.
Proof.
  intros Ha Hb. pose proof (contents_length a Ha) as Hla.
  pose proof (contents_length b Hb) as Hlb.
  destruct Ha as [Hca _ _ _], Hb as [Hcb _ _ _]. unfold Identical.
  destruct (Z.eqb_spec (mutation_count_ a) (mutation_count_ b)) as [Hsame | Hdiff]; cbn [negb].
  - fold (contents a). rewrite Hsame. fold (contents b).
    case_bool_decide; cbn [negb]; by split.
  - split; [done |]. intros Heq. rewrite Heq in Hla. lia.
Qed.

End MutationRunComparisonFacts.

Section MutationRunComparisonTheorems.
Import eidos_global mutation_run mutation_run_methods.
Context `{EidosHeaders}.

Lemma Hash_step_range (entry hash : Z) : (0 ≤ Hash_step entry hash < uint64_modulus)%Z.
Proof. unfold Hash_step, to_uint64. by apply Z.mod_pos_bound. Qed.

Lemma foldl_Hash_step_range (l : list Z) (hash : Z) :
  (0 ≤ hash < uint64_modulus)%Z →
  (0 ≤ foldl (λ hash entry, Hash_step entry hash) hash l < uint64_modulus)%Z.
Proof.
  revert hash. induction l as [| x l IH]; intros hash Hhash; cbn; [done |].
  apply IH, Hash_step_range.
Qed.

(** X13.  Hash starts from the number of entries and folds its step over
    entries 0, 4, 8, ... of the run only, so the result fits int64_t and two
    runs of one size that agree on every fourth entry have the same Hash,
    whatever the entries in between. *)
Theorem Hash_reads_every_fourth_entry (run : MutationRun) :
  run_ok run →
  Hash run
  = to_int64 (foldl (λ hash entry, Hash_step entry hash) (to_uint64 (size run))
                    (every_fourth (contents run)))
  ∧ (- 2 ^ 63 ≤ Hash run < 2 ^ 63)%Z
  ∧ ∀ other, run_ok other → size other = size run →
             every_fourth (contents other) = every_fourth (contents run) →
             Hash other = Hash run.
Proof.
  intros Hok.
  assert (∀ r, run_ok r →
               Hash r = to_int64 (foldl (λ hash entry, Hash_step entry hash)
                                        (to_uint64 (size r)) (every_fourth (contents r))))
    as Hshape.
  { intros r Hr. rewrite (Hash_of_contents r Hr), (contents_length r Hr).
    destruct Hr as [Hcount _ _ _]. unfold size. do 3 f_equal. lia. }
  split; [by apply Hshape |]. split.
  - rewrite (Hshape run Hok).
    pose proof (foldl_Hash_step_range (every_fourth (contents run)) (to_uint64 (size run)))
      as Hrange.
    unfold to_int64, uint64_modulus in *.
    destruct (Z.ltb_spec (foldl (λ hash entry, Hash_step entry hash) (to_uint64 (size run))
                                (every_fourth (contents run))) (2 ^ 63)) as [Hlow | Hhigh].
    + assert (0 ≤ to_uint64 (size run) < 2 ^ 64)%Z as Hstart
        by (unfold to_uint64, uint64_modulus; by apply Z.mod_pos_bound).
      specialize (Hrange Hstart). lia.
    + assert (0 ≤ to_uint64 (size run) < 2 ^ 64)%Z as Hstart
        by (unfold to_uint64, uint64_modulus; by apply Z.mod_pos_bound).
      specialize (Hrange Hstart). lia.
  - intros other Hother Hsize Hevery.
    by rewrite (Hshape other Hother), (Hshape run Hok), Hsize, Hevery.
Qed.

(** X14.  Identical answers true exactly when the two runs hold the same
    entries in the same order, whatever their capacities and the entries past
    their sizes; it does not depend on which run is the argument, and
    identical runs have the same Hash. *)
Theorem Identical_iff_same_contents (p_run run : MutationRun) :
  run_ok p_run → run_ok run →
  (Identical p_run run = true ↔ contents run = contents p_run)
  ∧ Identical p_run run = Identical run p_run
  ∧ (Identical p_run run = true → Hash run = Hash p_run).
Proof.
  intros Hp Hr. pose proof (Identical_contents run p_run Hr Hp) as Hforth.
  pose proof (Identical_contents p_run run Hp Hr) as Hback.
  split; [done |]. split.
  - destruct (Identical p_run run) eqn:H1, (Identical run p_run) eqn:H2; try done.
    + pose proof (proj1 Hforth eq_refl) as Hsame. symmetry in Hsame.
      by apply Hback in Hsame.
    + pose proof (proj1 Hback eq_refl) as Hsame. symmetry in Hsame.
      by apply Hforth in Hsame.
  - intros Hsame%Hforth. by rewrite (Hash_of_contents run Hr), (Hash_of_contents p_run Hp), Hsame.
Qed.

(** X15.  copy_from_run gives the receiving run the entries of the source:
    it returns, the entries in use become those of the source, Identical then
    answers true and the two runs have the same Hash; the receiver keeps its
    array when the source's entries fit and takes the source's capacity
    otherwise, and stays well formed. *)
Theorem copy_from_run_makes_identical (p_source_run run : MutationRun) :
  run_ok p_source_run → run_ok run → locking_violation run = false →
  ∃ run',
    copy_from_run p_source_run run = Some run'
    ∧ contents run' = contents p_source_run
    ∧ run_ok run'
    ∧ Identical p_source_run run' = true
    ∧ Hash run' = Hash p_source_run
    ∧ intrusive_ref_count run' = intrusive_ref_count run
    ∧ mutation_capacity_ run'
      = (if (size p_source_run <=? mutation_capacity_ run)%Z then mutation_capacity_ run
         else mutation_capacity_ p_source_run).
Proof.
  intros Hsource Hok Hlock. pose proof (contents_length p_source_run Hsource) as Hlength.
  unfold copy_from_run. rewrite Hlock. cbv zeta. eexists. split; [done |].
  match goal with |- contents ?r = _ ∧ _ => set (run' := r) end.
  assert (contents run' = contents p_source_run ∧ run_ok run'
          ∧ mutation_capacity_ run'
            = (if (size p_source_run <=? mutation_capacity_ run)%Z then mutation_capacity_ run
               else mutation_capacity_ p_source_run)) as (Hcontents & Hok' & Hcapacity).
  { subst run'. destruct Hsource as [Hcs Hls Hms Hbs], Hok as [Hc Hl Hm Hb]. unfold size.
    unfold SLIM_MUTRUN_BUFFER_SIZE in *.
    destruct (Z.gtb_spec (mutation_count_ p_source_run) (mutation_capacity_ run)) as [Hmore | Hfits].
    - rewrite (proj2 (Z.leb_gt _ _)) by lia. split; [| split; [| done]].
      + unfold contents at 1. cbn [mutation_count_ mutations_].
        replace (Z.to_nat (mutation_count_ p_source_run))
          with (0 + length (contents p_source_run)) by lia.
        by rewrite memcpy_take by lia.
      + split; cbn [mutation_count_ mutation_capacity_ mutations_ on_internal_buffer];
          unfold SLIM_MUTRUN_BUFFER_SIZE; [lia | | lia | done].
        rewrite memcpy_length; rewrite length_resize; lia.
    - rewrite (proj2 (Z.leb_le _ _)) by lia. split; [| split; [| done]].
      + unfold contents at 1. cbn [mutation_count_ mutations_].
        replace (Z.to_nat (mutation_count_ p_source_run))
          with (0 + length (contents p_source_run)) by lia.
        by rewrite memcpy_take by lia.
      + split; cbn [mutation_count_ mutation_capacity_ mutations_ on_internal_buffer];
          unfold SLIM_MUTRUN_BUFFER_SIZE; [lia | | lia | done].
        rewrite memcpy_length; lia. }
  split; [done |]. split; [done |].
  assert (Identical p_source_run run' = true) as Hidentical.
  { by apply Identical_contents. }
  split; [done |]. split.
  { by rewrite (Hash_of_contents run' Hok'), (Hash_of_contents p_source_run Hsource), Hcontents. }
  split; [| done]. subst run'. cbn. by destruct (_ >? _)%Z.
Qed.

(** X16.  contains_mutation answers true exactly for the indices among the
    entries in use, in any order and sorted or not: after an emplace_back it
    finds the added index and what it found before, and after the pop_back
    that undoes the emplace_back it answers as it did at first, although the
    popped index is still in the array. *)
Theorem contains_mutation_finds_entries_in_use (p_mutation_index q : Z) (run : MutationRun) :
  run_ok run → locking_violation run = false →
  (contains_mutation q run = true ↔ q ∈ contents run)
  ∧ ∃ run' run'',
      emplace_back p_mutation_index run = Some run'
      ∧ pop_back run' = Some run''
      ∧ contains_mutation q run'
        = (q =? p_mutation_index)%Z || contains_mutation q run
      ∧ contains_mutation q run'' = contains_mutation q run
      ∧ mutations_ run'' !! Z.to_nat (size run) = Some p_mutation_index.
Proof.
  intros Hok Hlock. split; [apply scan_for_elem_of |].
  destruct (emplace_back_spec p_mutation_index run Hok Hlock) as (run' & Hcall & _).
  destruct (emplace_back_contents p_mutation_index run run' Hok Hcall) as (Hcontents & _ & _).
  destruct (pop_back_after_emplace_back p_mutation_index run run' Hok Hcall)
    as (run'' & Hpop & Hcontents'' & _ & Hsame).
  exists run', run''. split; [done |]. split; [done |].
  unfold contains_mutation. rewrite Hcontents, Hcontents''. split; [| split; [done |]].
  - apply eq_true_iff_eq. rewrite orb_true_iff, !scan_for_elem_of, elem_of_app, Z.eqb_eq.
    rewrite list_elem_of_singleton. tauto.
  - rewrite Hsame.
    pose proof (contents_length run Hok) as Hlength.
    assert (contents run' !! Z.to_nat (size run) = Some p_mutation_index) as Hentry.
    { rewrite Hcontents. unfold size. rewrite <- Hlength.
      by rewrite lookup_app_r, Nat.sub_diag by lia. }
    unfold contents in Hentry. by apply lookup_take_Some in Hentry as [? _].
Qed.

(** X18.  Taking a reference to a run and dropping it again leaves the
    pool as it was when other references remain, and sends a run that had no
    reference to the free list, exactly as FreeMutationRun does. *)
Theorem add_ref_then_release (p_value : N) (pool : RunPool) (run : MutationRun) :
  runs pool !! p_value = Some run →
  (intrusive_ref_count run + 1 < uint32_modulus)%N →
  Eidos_intrusive_ptr_release p_value (Eidos_intrusive_ptr_add_ref p_value pool)
  = (if (intrusive_ref_count run =? 0)%N then FreeMutationRun p_value pool else pool).
Proof.
  intros Hrun Hroom. unfold Eidos_intrusive_ptr_release, Eidos_intrusive_ptr_add_ref.
  cbn [runs next_address s_freed_mutation_runs_].
  rewrite lookup_alter_eq, Hrun. cbn [fmap option_fmap option_map].
  change (intrusive_ref_count (with_ref_count run ?c)) with c.
  assert (uint32_pred (uint32_succ (intrusive_ref_count run)) = intrusive_ref_count run) as ->.
  { unfold uint32_pred, uint32_succ, uint32_modulus in *.
    rewrite (N.mod_small (_ + 1)) by done.
    replace (intrusive_ref_count run + 1 + 2 ^ 32 - 1)%N
      with (intrusive_ref_count run + 1 * 2 ^ 32)%N by lia.
    rewrite N.Div0.mod_add. apply N.mod_small. lia. }
  assert (with_ref_count (with_ref_count run (uint32_succ (intrusive_ref_count run)))
                         (intrusive_ref_count run) = run) as ->.
  { by destruct run. }
  rewrite insert_alter_eq, (insert_id _ _ _ Hrun).
  destruct (intrusive_ref_count run =? 0)%N; by destruct pool.
Qed.

End MutationRunComparisonTheorems.

Section RegistryMoreFacts.
Import eidos_global eidos_global_strings.
Context `{EidosHeaders}.

Lemma intern_known (g : StringRegistry) (s : string) (id : N) :
  gStringToID g !! s = Some id → EidosGlobalStringIDForString s g = (id, g).
Proof. intros Hs. unfold EidosGlobalStringIDForString. by rewrite Hs. Qed.

Lemma register_each_spec (entries : list (string * N)) (g : StringRegistry) :
  NoDup entries.*1 → NoDup entries.*2 →
  Forall (λ id, (id < gEidosID_LastContextEntry)%N) entries.*2 →
  (∀ s, s ∈ entries.*1 → gStringToID g !! s = None) →
  (∀ id, id ∈ entries.*2 → gIDToString g !! id = None) →
  ∃ g', register_each entries g = Returned tt g'
        ∧ gNextUnusedID g' = gNextUnusedID g
        ∧ (∀ s id, (s, id) ∈ entries →
                   gStringToID g' !! s = Some id ∧ gIDToString g' !! id = Some s)
        ∧ (∀ s, s ∉ entries.*1 → gStringToID g' !! s = gStringToID g !! s)
        ∧ (∀ id, id ∉ entries.*2 → gIDToString g' !! id = gIDToString g !! id).
Proof.
  revert g. induction entries as [| [s id] rest IH]; intros g Hstrings Hids Hrange Hfresh Hfree.
  - exists g. split; [done |]. split; [done |]. split; [| done].
    intros s id Hin. by apply not_elem_of_nil in Hin.
  - cbn [fmap list_fmap fst snd] in *.
    apply NoDup_cons in Hstrings as [Hs Hstrings]. apply NoDup_cons in Hids as [Hid Hids].
    apply Forall_cons in Hrange as [Hbelow Hrange].
    cbn [register_each]. unfold Eidos_RegisterStringForGlobalID.
    rewrite (Hfresh s) by (by left). rewrite (Hfree id) by (by left).
    rewrite (proj2 (N.leb_gt _ _)) by done. cbn [and_then].
    set (g1 := {| gStringToID := <[s := id]> (gStringToID g);
                  gIDToString := <[id := s]> (gIDToString g);
                  gNextUnusedID := gNextUnusedID g |}).
    destruct (IH g1) as (g' & Hcall & Hnext & Hin & Hout1 & Hout2); try done.
    { intros s' Hs'. cbn. rewrite lookup_insert_ne by (intros ->; done).
      apply Hfresh. by right. }
    { intros id' Hid'. cbn. rewrite lookup_insert_ne by (intros ->; done).
      apply Hfree. by right. }
    exists g'. split; [done |]. split; [done |]. split; [| split].
    + intros s' id' [[= -> ->] | Hrest]%elem_of_cons.
      * rewrite Hout1, Hout2 by done. cbn. by rewrite !lookup_insert_eq.
      * by apply Hin.
    + intros s' [Hne Hs']%not_elem_of_cons. rewrite Hout1 by done. cbn.
      by rewrite lookup_insert_ne.
    + intros id' [Hne Hid']%not_elem_of_cons. rewrite Hout2 by done. cbn.
      by rewrite lookup_insert_ne.
Qed.

Lemma Eidos_RegisterStringForGlobalID_inv (s : string) (id : N) (g : StringRegistry) :
  registry_inv g →
  registry_inv (state_of (Eidos_RegisterStringForGlobalID s id g))
  ∧ gNextUnusedID (state_of (Eidos_RegisterStringForGlobalID s id g)) = gNextUnusedID g.
Proof.
  intros [Hback Hbelow Hfloor]. unfold Eidos_RegisterStringForGlobalID.
  destruct (gStringToID g !! s) as [old |] eqn:Hs; cbn; [done |].
  destruct (gIDToString g !! id) as [olds |] eqn:Hid; cbn; [done |].
  destruct (N.leb_spec gEidosID_LastContextEntry id) as [Hle | Hlt]; cbn; [done |].
  split; [| done]. split; cbn.
  - intros s' id' Hl. destruct (decide (s = s')) as [-> | Hne].
    + rewrite lookup_insert_eq in Hl. injection Hl as <-. by rewrite lookup_insert_eq.
    + rewrite lookup_insert_ne in Hl by done. specialize (Hback _ _ Hl).
      rewrite lookup_insert_ne; [done |]. intros ->. congruence.
  - intros id' [x Hx]. destruct (decide (id = id')) as [<- | Hne]; [lia |].
    rewrite lookup_insert_ne in Hx by done. apply Hbelow. by exists x.
  - done.
Qed.

End RegistryMoreFacts.

Section RegistryMoreTheorems.
Import eidos_global eidos_global_strings.
Context `{EidosHeaders}.

(** X19.  EidosGlobalStringIDForString gives each string one ID of its
    own: asking again for a string returns the ID it got and changes nothing,
    two strings get the same ID only if they are the same string, and a
    string not seen before gets the next unused ID, which is never in the
    range kept for registered strings. *)
Theorem EidosGlobalStringIDForString_one_id_per_string
    (calls : list registry_call) (s1 s2 : string) :
  (gEidosID_LastContextEntry + N.of_nat (length calls) + 2 < uint32_modulus)%N →
  let g := run_calls initial_registry calls in
  let '(id1, g1) := EidosGlobalStringIDForString s1 g in
  let '(id2, g2) := EidosGlobalStringIDForString s2 g1 in
  (id1 = id2 ↔ s1 = s2)
  ∧ EidosGlobalStringIDForString s1 g2 = (id1, g2)
  ∧ EidosGlobalStringIDForString s2 g2 = (id2, g2)
  ∧ (gStringToID g !! s1 = None →
     id1 = gNextUnusedID g ∧ (gEidosID_LastContextEntry ≤ id1)%N
     ∧ StringForEidosGlobalStringID id1 g = gEidosStr_undefined).
Proof.
  intros Hroom g.
  destruct (EidosGlobalStringIDForString s1 g) as [id1 g1] eqn:H1.
  destruct (EidosGlobalStringIDForString s2 g1) as [id2 g2] eqn:H2.
  assert (g2 = run_calls initial_registry (calls ++ [CallIntern s1; CallIntern s2])) as Hall.
  { unfold run_calls. rewrite foldl_app. cbn [foldl run_call].
    fold (run_calls initial_registry calls). fold g. rewrite H1. cbn [snd]. by rewrite H2. }
  assert (registry_inv g) as Hinv.
  { apply run_calls_inv; [apply initial_registry_inv | cbn; lia]. }
  assert (registry_inv g2) as Hinv2.
  { rewrite Hall. apply run_calls_inv; [apply initial_registry_inv |].
    rewrite length_app. cbn [gNextUnusedID initial_registry length]. lia. }
  assert (gStringToID g1 !! s1 = Some id1) as Hs1.
  { pose proof (intern_binds g s1) as Hb. by rewrite H1 in Hb. }
  assert (gStringToID g2 !! s2 = Some id2) as Hs2.
  { pose proof (intern_binds g1 s2) as Hb. by rewrite H2 in Hb. }
  assert (gStringToID g2 !! s1 = Some id1) as Hs1'.
  { replace g2 with (run_call g1 (CallIntern s2)) by (cbn [run_call]; by rewrite H2).
    by apply run_call_keeps_id. }
  split; [| split; [by apply intern_known | split; [by apply intern_known |]]].
  - split.
    + intros <-. pose proof (inv_back _ Hinv2 _ _ Hs1') as Hb1.
      pose proof (inv_back _ Hinv2 _ _ Hs2) as Hb2. congruence.
    + intros <-. congruence.
  - intros Hnew. unfold EidosGlobalStringIDForString in H1. rewrite Hnew in H1.
    injection H1 as <- <-. split; [done |]. split; [apply (inv_floor _ Hinv) |].
    unfold StringForEidosGlobalStringID.
    destruct (gIDToString g !! gNextUnusedID g) as [found |] eqn:Hfound; [| done].
    pose proof (inv_below _ Hinv (gNextUnusedID g)) as Hbelow.
    assert (gNextUnusedID g < gNextUnusedID g)%N by (apply Hbelow; by exists found). lia.
Qed.

(** X20.  Eidos_RegisterStringForGlobalID either refuses and leaves the
    registry as it was, which it does exactly when the string has an ID, the
    ID has a string, or the ID is outside the range for registered strings,
    or it binds the two for good: whatever is registered or interned
    afterwards, the string interns to that ID and the ID reads back as the
    string. *)
Theorem Eidos_RegisterStringForGlobalID_binds_or_refuses
    (p_string : string) (p_string_id : N) (g : StringRegistry) (calls : list registry_call) :
  registry_inv g →
  (gNextUnusedID g + N.of_nat (length calls) < uint32_modulus)%N →
  let call := Eidos_RegisterStringForGlobalID p_string p_string_id g in
  (terminated call = true
   ↔ is_Some (gStringToID g !! p_string) ∨ is_Some (gIDToString g !! p_string_id)
     ∨ (gEidosID_LastContextEntry ≤ p_string_id)%N)
  ∧ (terminated call = true → state_of call = g)
  ∧ (terminated call = false →
     let g' := run_calls (state_of call) calls in
     EidosGlobalStringIDForString p_string g' = (p_string_id, g')
     ∧ StringForEidosGlobalStringID p_string_id g' = p_string).
Proof.
  intros Hinv Hroom call.
  destruct (Eidos_RegisterStringForGlobalID_inv p_string p_string_id g Hinv) as [Hinv1 Hnext].
  fold call in Hinv1, Hnext.
  split; [| split].
  - unfold call, Eidos_RegisterStringForGlobalID.
    destruct (gStringToID g !! p_string) as [old |]; cbn.
    { split; [intros _; left; by eexists | done]. }
    destruct (gIDToString g !! p_string_id) as [old |]; cbn.
    { split; [intros _; right; left; by eexists | done]. }
    destruct (N.leb_spec gEidosID_LastContextEntry p_string_id) as [Hout | Hin]; cbn.
    { split; [intros _; by right; right | done]. }
    split; [done |]. intros [[? [=]] | [[? [=]] | Hle]]. lia.
  - unfold call, Eidos_RegisterStringForGlobalID.
    destruct (gStringToID g !! p_string); [done |].
    destruct (gIDToString g !! p_string_id); [done |].
    by destruct (gEidosID_LastContextEntry <=? p_string_id)%N.
  - intros Hreturned g'.
    assert (gStringToID (state_of call) !! p_string = Some p_string_id) as Hbound.
    { unfold call, Eidos_RegisterStringForGlobalID in *.
      destruct (gStringToID g !! p_string); [done |].
      destruct (gIDToString g !! p_string_id); [done |].
      destruct (gEidosID_LastContextEntry <=? p_string_id)%N; [done |].
      cbn. by rewrite lookup_insert_eq. }
    assert (gStringToID g' !! p_string = Some p_string_id) as Hkept.
    { by apply run_calls_keeps_id. }
    assert (registry_inv g') as Hinv'.
    { apply run_calls_inv; [done |]. rewrite Hnext. done. }
    split; [by apply intern_known |].
    unfold StringForEidosGlobalStringID. by rewrite (inv_back _ Hinv' _ _ Hkept).
Qed.

Section WithStringIDs.
Context `{EidosStringIDs}.

(** X21.  When the IDs the header gives to the 23 registered strings are
    distinct and lie in the range for registered strings, the first
    Eidos_RegisterGlobalStringsAndIDs registers all of them without a
    diagnostic: each string then interns to its ID, each ID reads back as its
    string, and the first string interned afterwards gets
    gEidosID_LastContextEntry.  A second call does nothing. *)
Theorem Eidos_RegisterGlobalStringsAndIDs_registers_once :
  NoDup global_strings_and_ids.*2 →
  Forall (λ id, (id < gEidosID_LastContextEntry)%N) global_strings_and_ids.*2 →
  ∃ g,
    Eidos_RegisterGlobalStringsAndIDs {| been_here := false; the_registry := initial_registry |}
    = Returned tt {| been_here := true; the_registry := g |}
    ∧ (∀ s id, (s, id) ∈ global_strings_and_ids →
               EidosGlobalStringIDForString s g = (id, g)
               ∧ StringForEidosGlobalStringID id g = s)
    ∧ (∀ s, s ∉ global_strings_and_ids.*1 →
            fst (EidosGlobalStringIDForString s g) = gEidosID_LastContextEntry)
    ∧ Eidos_RegisterGlobalStringsAndIDs {| been_here := true; the_registry := g |}
      = Returned tt {| been_here := true; the_registry := g |}.
Proof.
  intros Hids Hrange.
  destruct (register_each_spec global_strings_and_ids initial_registry)
    as (g & Hcall & Hnext & Hin & Hout1 & Hout2); try done.
  { apply (bool_decide_unpack _). by vm_compute. }
  exists g. unfold Eidos_RegisterGlobalStringsAndIDs. cbn [been_here the_registry negb].
  rewrite Hcall. cbn [inside]. split; [done |]. split; [| split; [| done]].
  - intros s id Hentry. destruct (Hin s id Hentry) as [Hs Hid].
    split; [by apply intern_known |]. unfold StringForEidosGlobalStringID. by rewrite Hid.
  - intros s Hs. unfold EidosGlobalStringIDForString. rewrite (Hout1 s Hs). cbn.
    by rewrite lookup_empty.
Qed.

End WithStringIDs.

End RegistryMoreTheorems.

Section ErrorPositionFacts.
Import eidos_global eidos_global_position.

Lemma string_length_prepend3 (a : string) : String.length ("   " +:+ a) = 3 + String.length a.
Proof. done. Qed.

Lemma spaces_append (n m : nat) : spaces (n + m) = spaces n +:+ spaces m.
Proof. induction n as [| n IH]; [done |]. cbn [spaces Nat.add]. by rewrite IH. Qed.

Lemma spaces_length (n : nat) : String.length (spaces n) = n.
Proof. induction n as [| n IH]; [done |]. cbn. by rewrite IH. Qed.

Lemma emit_lengths (script_string : string) (i : Z) (count : nat) :
  emit_indicator_padding script_string i count
  = spaces (String.length (emit_script_line script_string i count)).
Proof.
  revert i. induction count as [| count IH]; intros i; [done |].
  cbn [emit_indicator_padding emit_script_line].
  destruct (Ascii.eqb (char_at script_string i) tab).
  - rewrite IH. done.
  - destruct (is_line_break (char_at script_string i)); [done |].
    cbn [String.length spaces]. by rewrite IH.
Qed.

Lemma emit_script_line_more (script_string : string) (i : Z) (count more : nat) :
  ∃ rest, emit_script_line script_string i (count + more)
          = emit_script_line script_string i count +:+ rest
          ∧ ((∀ j, (i ≤ j < i + Z.of_nat count)%Z →
                   is_line_break (char_at script_string j) = false) →
             rest = emit_script_line script_string (i + Z.of_nat count) more).
Proof.
  revert i. induction count as [| count IH]; intros i.
  - exists (emit_script_line script_string i more). split; [done |]. intros _.
    by rewrite Z.add_0_r.
  - cbn [Nat.add emit_script_line]. destruct (IH (i + 1)%Z) as (rest & Heq & Hrest).
    destruct (Ascii.eqb (char_at script_string i) tab) eqn:Htab.
    + exists rest. split.
      * rewrite Heq. done.
      * intros Hclean. replace (i + Z.of_nat (S count))%Z with (i + 1 + Z.of_nat count)%Z by lia.
        apply Hrest. intros j Hj. apply Hclean. lia.
    + destruct (is_line_break (char_at script_string i)) eqn:Hbreak.
      * exists "". split; [done |]. intros Hclean. rewrite Hclean in Hbreak by lia. done.
      * exists rest. split.
        -- rewrite Heq. done.
        -- intros Hclean.
           replace (i + Z.of_nat (S count))%Z with (i + 1 + Z.of_nat count)%Z by lia.
           apply Hrest. intros j Hj. apply Hclean. lia.
Qed.

Lemma scan_to_line_start_spec (script_string : string) (lineStart : nat) :
  let found := scan_to_line_start script_string lineStart in
  (found ≤ lineStart)%nat
  ∧ (∀ j, (found ≤ j < lineStart)%nat →
          is_line_break (char_at script_string (Z.of_nat j)) = false)
  ∧ (found = 0
     ∨ is_line_break (char_at script_string (Z.of_nat found - 1)) = true).
Proof.
  induction lineStart as [| before IH]; cbn [scan_to_line_start].
  - split; [done |]. split; [lia | by left].
  - destruct (is_line_break (char_at script_string (Z.of_nat before))) eqn:Hbreak.
    + split; [done |]. split; [lia |]. right.
      by replace (Z.of_nat (S before) - 1)%Z with (Z.of_nat before) by lia.
    + destruct IH as (Hle & Hclean & Hstart). split; [lia |]. split; [| done].
      intros j Hj. destruct (decide (j = before)) as [-> | Hne]; [done |].
      apply Hclean. lia.
Qed.

Lemma count_newlines (script_string : string) (indices : list Z) (lineNumber : Z) :
  foldl (λ lineNumber i,
           if Ascii.eqb (char_at script_string i) newline then (lineNumber + 1)%Z
           else lineNumber) lineNumber indices
  = (lineNumber
     + Z.of_nat (length (filter (λ i, char_at script_string i = newline) indices)))%Z.
Proof.
  revert lineNumber. induction indices as [| i indices IH]; intros lineNumber; cbn [foldl].
  - cbn. lia.
  - rewrite IH. destruct (Ascii.eqb_spec (char_at script_string i) newline) as [Heq | Hne].
    + rewrite filter_cons_True by done. cbn [length]. lia.
    + by rewrite filter_cons_False by done.
Qed.

Lemma scan_to_line_end_ge (script_string : string) (lineEnd : Z) (remaining : nat) :
  (lineEnd ≤ scan_to_line_end script_string lineEnd remaining)%Z.
Proof.
  revert lineEnd. induction remaining as [| remaining IH]; intros lineEnd; cbn; [lia |].
  destruct (is_line_break _); [lia |]. specialize (IH (lineEnd + 1)%Z). lia.
Qed.

End ErrorPositionFacts.

Section ErrorPositionTheorems.
Import eidos_global eidos_global_position.

Lemma locate_error_line_start (script_string : string) (p_start p_end : Z) :
  (0 ≤ p_start < Z.of_nat (String.length script_string))%Z →
  ∃ lineStart lineEnd lineNumber,
    locate_error_line script_string p_start p_end = (lineStart, lineEnd, lineNumber)
    ∧ (0 ≤ lineStart ≤ p_start)%Z
    ∧ (∀ j, (lineStart ≤ j < p_start)%Z → is_line_break (char_at script_string j) = false)
    ∧ (lineStart = 0%Z ∨ is_line_break (char_at script_string (lineStart - 1)) = true)
    ∧ lineNumber
      = (1 + Z.of_nat (length (filter (λ i, char_at script_string i = newline)
                                      (seqZ 0 lineStart))))%Z.
Proof.
  intros Hstart. unfold locate_error_line. cbv zeta.
  rewrite (proj2 (Z.ltb_lt p_start _)) by lia. rewrite count_newlines.
  destruct (Z.ltb_spec 0 p_start) as [Hpos | Hzero]; cbv beta iota.
  - pose proof (scan_to_line_start_spec script_string (Z.to_nat p_start)) as Hscan.
    cbv zeta in Hscan. destruct Hscan as (Hle & Hclean & Hbreak).
    do 3 eexists. split; [done |]. split; [lia |]. split; [| split; [| done]].
    + intros j Hj. specialize (Hclean (Z.to_nat j)).
      rewrite Z2Nat.id in Hclean by lia. apply Hclean. lia.
    + destruct Hbreak as [-> | Hbreak]; [by left | by right].
  - do 3 eexists. split; [done |]. split; [lia |]. split; [intros j Hj; lia |].
    split; [left; lia | done].
Qed.

(** X22.  For an error that starts inside the script,
    eidos_script_error_position sets the column to the distance from the
    start of the error back to the nearest line break (or to the start of the
    script), and the line to one more than the number of newline characters
    before that point: a carriage return starts a new line for the column but
    does not count as a line.  eidos_log_script_error leaves the same two
    values. *)
Theorem eidos_script_error_position_line_and_column (script_string : string)
    (p_start p_end : Z) (p_out : ostream) (p_inside_lambda : bool) (st : TerminationGlobals) :
  (0 ≤ p_start ≤ p_end)%Z →
  (p_start < Z.of_nat (String.length script_string))%Z →
  (p_end ≤ Z.of_nat (String.length script_string))%Z →
  let st' := eidos_script_error_position p_start p_end (Some script_string) st in
  let column := gEidosErrorLineCharacter st' in
  (0 ≤ column ≤ p_start)%Z
  ∧ (∀ j, (p_start - column ≤ j < p_start)%Z →
          is_line_break (char_at script_string j) = false)
  ∧ (column = p_start
     ∨ is_line_break (char_at script_string (p_start - column - 1)) = true)
  ∧ gEidosErrorLine st'
    = (1 + Z.of_nat (length (filter (λ i, char_at script_string i = newline)
                                    (seqZ 0 (p_start - column)))))%Z
  ∧ gEidosErrorLine
      (eidos_log_script_error p_out p_start p_end (Some script_string) p_inside_lambda st)
    = gEidosErrorLine st'
  ∧ gEidosErrorLineCharacter
      (eidos_log_script_error p_out p_start p_end (Some script_string) p_inside_lambda st)
    = column.
Proof.
  intros Horder Hstart Hend st' column.
  destruct (locate_error_line_start script_string p_start p_end)
    as (lineStart & lineEnd & lineNumber & Hlocate & Hrange & Hclean & Hbreak & Hnumber);
    [lia |].
  assert (gEidosErrorLine st' = lineNumber ∧ column = (p_start - lineStart)%Z) as [Hline Hcolumn].
  { unfold column, st', eidos_script_error_position. cbv zeta.
    rewrite (proj2 (Z.leb_le 0 p_start)), (proj2 (Z.leb_le p_start p_end)) by lia.
    rewrite (proj2 (Z.leb_le p_start _)), (proj2 (Z.leb_le p_end _)) by lia.
    cbn [andb]. rewrite Hlocate. done. }
  rewrite Hline, Hcolumn.
  replace (p_start - (p_start - lineStart))%Z with lineStart by lia.
  split; [lia |]. split; [done |]. split.
  { destruct Hbreak as [-> | Hbreak]; [left; lia | by right]. }
  split; [done |].
  unfold eidos_log_script_error.
  rewrite (proj2 (Z.leb_le 0 p_start)), (proj2 (Z.leb_le p_start p_end)) by lia.
  rewrite (proj2 (Z.leb_le p_start _)), (proj2 (Z.leb_le p_end _)) by lia.
  cbn [andb]. rewrite Hlocate. by destruct p_out.
Qed.

(** X23.  eidos_script_error_position reports no position, line -1 and
    column -1, when there is no script or the range is negative, reversed or
    beyond the end of the script, whatever the two globals held before;
    eidos_log_script_error prints nothing in these cases and leaves the
    previous line and column in place. *)
Theorem eidos_script_error_position_without_position (p_start p_end : Z)
    (p_script : option string) (p_out : ostream) (p_inside_lambda : bool)
    (st : TerminationGlobals) :
  match p_script with
  | Some script_string =>
      (p_start < 0 ∨ p_end < p_start ∨ Z.of_nat (String.length script_string) < p_end)%Z
  | None => True
  end →
  gEidosErrorLine (eidos_script_error_position p_start p_end p_script st) = (-1)%Z
  ∧ gEidosErrorLineCharacter (eidos_script_error_position p_start p_end p_script st) = (-1)%Z
  ∧ eidos_log_script_error p_out p_start p_end p_script p_inside_lambda st = st.
Proof.
  intros Hbad. unfold eidos_script_error_position, eidos_log_script_error. cbv zeta.
  destruct p_script as [script_string |]; [| done].
  destruct (Z.leb_spec 0 p_start); cbn [andb]; [| done].
  destruct (Z.leb_spec p_start p_end); cbn [andb]; [| done].
  destruct (Z.leb_spec p_start (Z.of_nat (String.length script_string))); cbn [andb]; [| done].
  destruct (Z.leb_spec p_end (Z.of_nat (String.length script_string))); [lia | done].
Qed.

(** X24.  In the excerpt eidos_log_script_error prints, the carets start
    in the column where the first character of the error is shown: the
    indicator line is padded with as many spaces as the script line takes up
    to the start of the error, tabs counted as three, and the script line as
    printed begins with exactly that part. *)
Theorem indicator_lines_up_with_script_line (script_string : string) (p_start p_end : Z) :
  (0 ≤ p_start ≤ p_end)%Z →
  (p_end ≤ Z.of_nat (String.length script_string))%Z →
  ∃ lineStart lineEnd lineNumber shown rest,
    locate_error_line script_string p_start p_end = (lineStart, lineEnd, lineNumber)
    ∧ shown = emit_script_line script_string lineStart (Z.to_nat (p_start - lineStart))
    ∧ emit_script_line script_string lineStart (Z.to_nat (lineEnd - lineStart + 1))
      = shown +:+ rest
    ∧ emit_indicator_padding script_string lineStart (Z.to_nat (p_start - lineStart))
      = spaces (String.length shown)
    ∧ ((p_start < Z.of_nat (String.length script_string))%Z →
       rest = emit_script_line script_string p_start (Z.to_nat (lineEnd - p_start + 1))).
Proof.
  intros Horder Hend.
  destruct (locate_error_line script_string p_start p_end) as [[lineStart lineEnd] lineNumber]
    eqn:Hlocate.
  assert (lineStart ≤ p_start ∧ p_start ≤ lineEnd + 1
          ∧ ((p_start < Z.of_nat (String.length script_string))%Z →
             ∀ j, (lineStart ≤ j < p_start)%Z →
                  is_line_break (char_at script_string j) = false))%Z
    as (Hbefore & Hafter & Hclean).
  { unfold locate_error_line in Hlocate. cbv zeta in Hlocate.
    injection Hlocate as Hstart Hend' _. split; [| split].
    - rewrite <- Hstart.
      set (lineStart0 := if (p_start <? Z.of_nat (String.length script_string))%Z
                         then p_start else (Z.of_nat (String.length script_string) - 1)%Z).
      assert (lineStart0 ≤ p_start)%Z as Hle0.
      { unfold lineStart0. destruct (Z.ltb_spec p_start (Z.of_nat (String.length script_string)));
          lia. }
      clearbody lineStart0. destruct (Z.ltb_spec 0 lineStart0) as [Hpos | Hzero]; [| lia].
      pose proof (scan_to_line_start_spec script_string (Z.to_nat lineStart0)) as Hscan.
      cbv zeta in Hscan. lia.
    - rewrite <- Hend'.
      match goal with |- (_ ≤ scan_to_line_end ?s ?e ?r + 1)%Z =>
        pose proof (scan_to_line_end_ge s e r) as Hge end.
      destruct (Z.ltb_spec p_end (Z.of_nat (String.length script_string))); lia.
    - intros Hinside j Hj. rewrite <- Hstart in Hj.
      rewrite (proj2 (Z.ltb_lt p_start _)) in Hj by done.
      destruct (Z.ltb_spec 0 p_start) as [Hpos | Hzero]; [| lia].
      pose proof (scan_to_line_start_spec script_string (Z.to_nat p_start)) as Hscan.
      cbv zeta in Hscan. destruct Hscan as (_ & Hclean & _).
      specialize (Hclean (Z.to_nat j)). rewrite Z2Nat.id in Hclean by lia.
      apply Hclean. lia. }
  destruct (emit_script_line_more script_string lineStart (Z.to_nat (p_start - lineStart))
              (Z.to_nat (lineEnd - p_start + 1))) as (rest & Hsplit & Hrest).
  exists lineStart, lineEnd, lineNumber. eexists. exists rest.
  split; [done |]. split; [done |].
  split; [| split; [apply emit_lengths |]].
  - rewrite <- Hsplit. f_equal. lia.
  - intros Hinside. rewrite Hrest.
    + f_equal. lia.
    + intros j Hj. apply Hclean; [done | lia].
Qed.

End ErrorPositionTheorems.

Section RaiseMessageFacts.
Import eidos_global eidos_global_position.

Lemma find_last_not_line_break_spec (message : string) (k : nat) :
  (k ≤ String.length message)%nat →
  match find_last_not_line_break message k with
  | Some endpos =>
      (endpos < k)%nat
      ∧ (∃ c, String.get endpos message = Some c ∧ is_line_break c = false)
      ∧ ∀ i c, (endpos < i < k)%nat → String.get i message = Some c → is_line_break c = true
  | None => ∀ i c, (i < k)%nat → String.get i message = Some c → is_line_break c = true
  end.
Proof.
  induction k as [| k IH]; intros Hk; cbn [find_last_not_line_break].
  - intros i c Hi. lia.
  - specialize (IH ltac:(lia)).
    destruct (String.get k message) as [c |] eqn:Hget.
    + destruct (is_line_break c) eqn:Hbreak.
      * destruct (find_last_not_line_break message k) as [endpos |].
        -- destruct IH as (Hlt & Hc & Hrest). split; [lia |]. split; [done |].
           intros i c' Hi Hget'. destruct (decide (i = k)) as [-> | Hne]; [congruence |].
           apply (Hrest i); [lia | done].
        -- intros i c' Hi Hget'. destruct (decide (i = k)) as [-> | Hne]; [congruence |].
           apply (IH i); [lia | done].
      * split; [lia |]. split; [by exists c |]. intros i c' Hi. lia.
    + exfalso. revert Hget. clear -Hk. revert k Hk.
      induction message as [| x message IH]; intros k Hk Hget; cbn in *; [lia |].
      destruct k as [| k]; [done |]. apply (IH k); [lia | done].
Qed.

Lemma substring_all (message : string) : substring 0 (String.length message) message = message.
Proof. induction message as [| x message IH]; [done |]. cbn. by rewrite IH. Qed.

Lemma get_beyond (message : string) (i : nat) (c : ascii) :
  String.get i message = Some c → (i < String.length message)%nat.
Proof.
  revert i. induction message as [| x message IH]; intros i Hget; cbn in *; [done |].
  destruct i as [| i]; [lia |]. apply IH in Hget. lia.
Qed.

Lemma substring_split (message : string) (n : nat) :
  (n ≤ String.length message)%nat →
  message = substring 0 n message +:+ substring n (String.length message - n) message
  ∧ String.length (substring 0 n message) = n.
Proof.
  revert n. induction message as [| x message IH]; intros n Hn; cbn in Hn.
  - replace n with 0 by lia. done.
  - destruct n as [| n].
    + split; [| done]. rewrite Nat.sub_0_r, substring_all. done.
    + destruct (IH n ltac:(lia)) as [Hsplit Hlength]. cbn. rewrite Hlength. split; [| done].
      by rewrite string_append_cons, <- Hsplit.
Qed.

Lemma get_append_r' (a b : string) (i : nat) :
  String.get i b = String.get (String.length a + i) (a +:+ b).
Proof. induction a as [| x a IH]; [done |]. cbn. done. Qed.

Lemma get_append_l' (a b : string) (i : nat) :
  (i < String.length a)%nat → String.get i (a +:+ b) = String.get i a.
Proof.
  revert i. induction a as [| x a IH]; intros i Hi; cbn in *; [lia |].
  destruct i as [| i]; [done |]. apply IH. lia.
Qed.

(** X25.  In throws mode EidosGetTrimmedRaiseMessage empties the stream
    and returns its text without the line breaks at its end, so that the
    result ends in another character; a text made of line breaks only is
    returned as it is, line breaks included.  In exits mode it returns the
    empty string and leaves the stream alone. *)
Theorem EidosGetTrimmedRaiseMessage_trims_line_breaks (st : TerminationGlobals) :
  let message := gEidosTermination st in
  let trimmed := fst (EidosGetTrimmedRaiseMessage st) in
  let st' := snd (EidosGetTrimmedRaiseMessage st) in
  (gEidosTerminateThrows st = true →
   gEidosTermination st' = ""
   ∧ (∃ tail, message = trimmed +:+ tail ∧ only_line_breaks tail)
   ∧ (only_line_breaks message → trimmed = message)
   ∧ (trimmed = ""
      ∨ only_line_breaks message
      ∨ ∃ c, String.get (String.length trimmed - 1) trimmed = Some c
             ∧ is_line_break c = false))
  ∧ (gEidosTerminateThrows st = false → trimmed = "" ∧ st' = st).
Proof.
  intros message trimmed st'. subst trimmed st'. unfold EidosGetTrimmedRaiseMessage.
  split; intros ->; [| done]. fold message.
  pose proof (find_last_not_line_break_spec message (String.length message) ltac:(lia)) as Hfind.
  destruct (find_last_not_line_break message (String.length message)) as [endpos |];
    cbn [fst snd].
  - destruct Hfind as (Hlt & (c & Hget & Hc) & Hrest).
    destruct (substring_split message (S endpos) ltac:(lia)) as [Hsplit Hlength].
    replace (endpos + 1) with (S endpos) by lia.
    split; [done |]. split; [| split].
    + eexists. split; [exact Hsplit |]. intros i c' Hget'.
      rewrite (get_append_r' (substring 0 (S endpos) message)), <- Hsplit, Hlength in Hget'.
      apply (Hrest (S endpos + i) c'); [| done]. split; [lia |].
      by apply (get_beyond _ _ c').
    + intros Hall. specialize (Hall endpos c Hget). congruence.
    + right. right. exists c. rewrite Hlength. replace (S endpos - 1) with endpos by lia.
      split; [| done]. rewrite <- Hget. rewrite Hsplit at 2.
      symmetry. apply get_append_l'. lia.
  - split; [done |]. split; [| split].
    + exists "". split.
      * by rewrite string_append_empty_r.
      * intros i c. by destruct i.
    + done.
    + right. left. intros i c Hget. apply (Hfind i c); [| done].
      by apply (get_beyond _ _ c).
Qed.

End RaiseMessageFacts.

Section RandomBoolFacts.
Import eidos_rng.
Variable gsl_rng : Type.
Variable gsl_rng_get : gsl_rng → Z * gsl_rng.

Lemma low_bit (buffer : Z) : negb (Z.land buffer 1 =? 0)%Z = Z.testbit buffer 0.
Proof.
  change 1%Z with (Z.ones 1). rewrite Z.land_ones by lia. rewrite <- Z.bit0_mod.
  by destruct (Z.testbit buffer 0).
Qed.

Lemma random_bools_from_buffer (count : nat) (r : gsl_rng) (st : RandomBoolGlobals) :
  (Z.of_nat count ≤ gEidos_random_bool_bit_counter st)%Z →
  random_bools gsl_rng gsl_rng_get count r st
  = ((λ i, Z.testbit (gEidos_random_bool_bit_buffer st) (Z.of_nat (S i))) <$> seq 0 count,
     r,
     {| gEidos_random_bool_bit_counter := gEidos_random_bool_bit_counter st - Z.of_nat count;
        gEidos_random_bool_bit_buffer :=
          Z.shiftr (gEidos_random_bool_bit_buffer st) (Z.of_nat count) |}).
Proof.
  revert st. induction count as [| count IH]; intros st Hcount.
  - cbn. rewrite Z.shiftr_0_r, Z.sub_0_r. by destruct st.
  - cbn [random_bools]. unfold eidos_random_bool.
    rewrite (proj2 (Z.ltb_lt _ _)) by lia. cbv zeta.
    rewrite IH by (cbn; lia). cbn [gEidos_random_bool_bit_counter gEidos_random_bool_bit_buffer].
    f_equal; [f_equal |].
    + cbn [seq fmap list_fmap]. f_equal.
      * rewrite low_bit, Z.shiftr_spec by lia. done.
      * rewrite <- fmap_S_seq. rewrite <- list_fmap_compose. apply list_fmap_ext.
        intros _ i _. cbn. rewrite Z.shiftr_spec by lia. f_equal. lia.
    + f_equal; [lia |]. rewrite Z.shiftr_shiftr by lia. f_equal. lia.
Qed.

Lemma random_bools_S (count : nat) (r : gsl_rng) (st : RandomBoolGlobals) :
  random_bools gsl_rng gsl_rng_get (S count) r st
  = (let '(retval, r, st) := eidos_random_bool gsl_rng gsl_rng_get r st in
     let '(rest, r, st) := random_bools gsl_rng gsl_rng_get count r st in
     (retval :: rest, r, st)).
Proof. done. Qed.

(** X26.  eidos_random_bool asks the generator for a number once in 32
    calls: when no bits are left, the next 32 calls take one number from the
    generator and return its bits 0 to 31, lowest first, after which no bits
    are left again. *)
Theorem eidos_random_bool_uses_32_bits_per_number (r : gsl_rng) (st : RandomBoolGlobals) :
  (gEidos_random_bool_bit_counter st ≤ 0)%Z →
  let '(number, r') := gsl_rng_get r in
  random_bools gsl_rng gsl_rng_get 32 r st
  = ((λ i, Z.testbit number (Z.of_nat i)) <$> seq 0 32,
     r',
     {| gEidos_random_bool_bit_counter := 0;
        gEidos_random_bool_bit_buffer := Z.shiftr number 31 |}).
Proof.
  intros Hempty. destruct (gsl_rng_get r) as [number r'] eqn:Hget.
  rewrite (random_bools_S 31). unfold eidos_random_bool.
  rewrite (proj2 (Z.ltb_ge _ _)) by lia. rewrite Hget.
  rewrite random_bools_from_buffer by (cbn; lia).
  cbn [gEidos_random_bool_bit_counter gEidos_random_bool_bit_buffer].
  by rewrite low_bit.
Qed.

End RandomBoolFacts.

Section MemoryCheckFacts.
Import eidos_memory.

Lemma initial_memory_globals_inv (flag : bool) : memory_inv flag (initial_memory_globals flag).
Proof. split; cbn; try done. lia. Qed.

Lemma EidosGetMaxRSS_range (limit : option Z) (st : MemoryGlobals) :
  EidosGetMaxRSS_beenHere st = false →
  (0 ≤ fst (EidosGetMaxRSS limit st) ≤ unlimited_above)%Z.
Proof.
  intros Hfresh. unfold EidosGetMaxRSS. rewrite Hfresh. cbn [negb fst].
  destruct limit as [rlim_max |]; [| by unfold unlimited_above].
  cbv zeta. destruct (Z.gtb_spec (rlim_max mod size_t_modulus) unlimited_above) as [Hbig | Hfits].
  - by unfold unlimited_above.
  - split; [| done]. by apply Z.mod_pos_bound.
Qed.

Lemma EidosCheckRSSAgainstMax_inv (flag : bool) (os : system_answers)
    (p_message1 p_message2 : string) (st : MemoryGlobals) :
  memory_inv flag st → memory_inv flag (EidosCheckRSSAgainstMax os p_message1 p_message2 st).
Proof.
  intros Hinv. unfold EidosCheckRSSAgainstMax.
  set (st1 := if negb (EidosCheckRSSAgainstMax_beenHere st) then _ else st).
  assert (memory_inv flag st1 ∧ EidosCheckRSSAgainstMax_beenHere st1 = true
          ∧ (eidos_do_memory_checks st1 = true → warnings_printed st1 = [])) as (Hinv1 & Hbeen & Hquiet).
  { subst st1. destruct (EidosCheckRSSAgainstMax_beenHere st) eqn:Hhere; cbn [negb].
    - split; [done |]. split; [done |]. intros Hon.
      destruct (warnings_printed st) as [| w ws] eqn:Hw; [done |].
      pose proof (warned_is_off _ _ Hinv) as Hoff. rewrite Hw in Hoff.
      rewrite Hoff in Hon; done.
    - destruct (fresh_is_quiet _ _ Hinv Hhere) as (Hfresh & Hnone & Hflag).
      pose proof (EidosGetMaxRSS_range (getrlimit os) st Hfresh) as Hrange.
      unfold EidosGetMaxRSS in *. rewrite Hfresh in *. cbn [negb fst] in *.
      set (limit := match getrlimit os with Some _ => _ | None => _ end) in *.
      clearbody limit. cbn [warnings_printed eidos_do_memory_checks].
      set (max_rss := if negb (limit =? 0)%Z then _ else limit).
      assert (0 ≤ max_rss ≤ unlimited_above)%Z as Hmax.
      { subst max_rss. destruct (limit =? 0)%Z; cbn [negb]; [done |].
        destruct (close_to_limit _ _); [by unfold unlimited_above | done]. }
      clearbody max_rss. split; [| split; [done | by rewrite Hnone]].
      split; cbn; rewrite ?Hnone; try done.
      + cbn. lia.
      + intros _ ->. done.
      + intros ->. rewrite Hflag. by destruct (max_rss =? 0)%Z. }
  clearbody st1.
  destruct (eidos_do_memory_checks st1) eqn:Hon; cbn [andb]; [| done].
  destruct (Z.eqb_spec (EidosCheckRSSAgainstMax_max_rss st1) 0) as [Hzero | Hlimit];
    cbn [negb]; [done |].
  destruct (close_to_limit (current_rss os) (EidosCheckRSSAgainstMax_max_rss st1)) eqn:Hclose;
    [| done].
  specialize (Hquiet eq_refl). pose proof (limit_sane _ _ Hinv1 Hbeen) as Hsane.
  split; cbn; rewrite ?Hquiet; cbn; try done.
  - intros _. destruct flag; [done |]. pose proof (off_stays _ _ Hinv1 eq_refl). congruence.
  - constructor; [| done]. cbn. split; [lia | done].
  - intros Hfresh. congruence.
Qed.

(** X27.  However often EidosCheckRSSAgainstMax is called and whatever
    the system answers, it prints at most one warning; a warning is printed
    only while eidos_do_memory_checks is on, for a limit of at most 1024 TB
    that the memory in use plus 10 MB exceeds, and switches the flag off.  The
    limit is fixed by the first call: with no limit, or when that call finds
    the memory in use within 10 MB of it already, the flag is switched off
    and no warning is ever printed. *)
Theorem EidosCheckRSSAgainstMax_warns_once (flag : bool)
    (calls : list (system_answers * string * string)) :
  let st := check_calls (initial_memory_globals flag) calls in
  (length (warnings_printed st) ≤ 1)%nat
  ∧ (warnings_printed st ≠ [] → eidos_do_memory_checks st = false ∧ flag = true)
  ∧ Forall (λ w, (0 < warning_max_rss w ≤ unlimited_above)%Z
                 ∧ close_to_limit (warning_current_rss w) (warning_max_rss w) = true)
           (warnings_printed st)
  ∧ (∀ os p_message1 p_message2 rest,
       calls = (os, p_message1, p_message2) :: rest →
       let limit := fst (EidosGetMaxRSS (getrlimit os) (initial_memory_globals flag)) in
       (limit = 0%Z ∨ close_to_limit (current_rss_at_first_call os) limit = true →
        warnings_printed st = [] ∧ eidos_do_memory_checks st = false)
       ∧ (warnings_printed st ≠ [] →
          Forall (λ w, warning_max_rss w = limit) (warnings_printed st))).
Proof.
  intros st.
  assert (∀ calls st0, memory_inv flag st0 → memory_inv flag (check_calls st0 calls)) as Hall.
  { clear. intros calls. induction calls as [| [[os m1] m2] calls IH]; intros st0 Hinv; [done |].
    unfold check_calls. cbn [foldl]. apply IH. by apply EidosCheckRSSAgainstMax_inv. }
  pose proof (Hall calls _ (initial_memory_globals_inv flag)) as Hinv. fold st in Hinv.
  split; [apply (at_most_one _ _ Hinv) |]. split.
  { intros Hwarned. split; [by apply (warned_is_off _ _ Hinv) | by apply (warned_was_on _ _ Hinv)]. }
  split; [apply (warnings_real _ _ Hinv) |].
  intros os m1 m2 rest Hcalls limit.
  (* after the first call the limit is fixed *)
  set (st1 := EidosCheckRSSAgainstMax os m1 m2 (initial_memory_globals flag)).
  assert (st = check_calls st1 rest) as Hrest by (unfold st; rewrite Hcalls; done).
  assert (∀ calls st0,
            EidosCheckRSSAgainstMax_beenHere st0 = true →
            EidosCheckRSSAgainstMax_beenHere (check_calls st0 calls) = true
            ∧ EidosCheckRSSAgainstMax_max_rss (check_calls st0 calls)
              = EidosCheckRSSAgainstMax_max_rss st0
            ∧ (eidos_do_memory_checks st0 = false →
               check_calls st0 calls = st0)
            ∧ ∃ new, warnings_printed (check_calls st0 calls) = warnings_printed st0 ++ new
                     ∧ Forall (λ w, warning_max_rss w = EidosCheckRSSAgainstMax_max_rss st0) new)
    as Hfixed.
  { clear. intros calls. induction calls as [| [[os m1] m2] calls IH]; intros st0 Hbeen.
    - split; [done |]. split; [done |]. split; [done |]. exists []. by rewrite app_nil_r.
    - unfold check_calls. cbn [foldl]. fold (check_calls (EidosCheckRSSAgainstMax os m1 m2 st0) calls).
      assert (EidosCheckRSSAgainstMax_beenHere (EidosCheckRSSAgainstMax os m1 m2 st0) = true
              ∧ EidosCheckRSSAgainstMax_max_rss (EidosCheckRSSAgainstMax os m1 m2 st0)
                = EidosCheckRSSAgainstMax_max_rss st0
              ∧ (eidos_do_memory_checks st0 = false →
                 EidosCheckRSSAgainstMax os m1 m2 st0 = st0)
              ∧ ∃ new, warnings_printed (EidosCheckRSSAgainstMax os m1 m2 st0)
                       = warnings_printed st0 ++ new
                       ∧ Forall (λ w, warning_max_rss w = EidosCheckRSSAgainstMax_max_rss st0) new)
        as (Hb & Hm & Hoff & new1 & Hnew1 & Hall1).
      { unfold EidosCheckRSSAgainstMax. rewrite Hbeen. cbn [negb].
        destruct (eidos_do_memory_checks st0); cbn [andb].
        - destruct (negb _); [| by (repeat split; try done; exists []; rewrite app_nil_r)].
          destruct (close_to_limit _ _);
            [| by (repeat split; try done; exists []; rewrite app_nil_r)].
          cbn. repeat split; try done. eexists. split; [done |]. by constructor.
        - repeat split; try done. exists []. by rewrite app_nil_r. }
      destruct (IH _ Hb) as (Hb' & Hm' & Hoff' & new2 & Hnew2 & Hall2).
      split; [done |]. split; [congruence |]. split.
      + intros Hflag. rewrite (Hoff Hflag) in *. by apply Hoff'.
      + exists (new1 ++ new2). rewrite Hnew2, Hnew1, app_assoc. split; [done |].
        apply Forall_app. split; [done |]. by rewrite <- Hm. }
  assert (EidosCheckRSSAgainstMax_beenHere st1 = true) as Hbeen1.
  { unfold st1, EidosCheckRSSAgainstMax. cbn [initial_memory_globals
      EidosCheckRSSAgainstMax_beenHere negb].
    destruct (EidosGetMaxRSS _ _) as [max_rss st0]. cbn.
    destruct (_ && _); [| done]. by destruct (close_to_limit _ _). }
  destruct (Hfixed rest st1 Hbeen1) as (_ & Hsame & Hoff & new & Hnew & Hlimit).
  rewrite <- Hrest in *.
  (* the first call *)
  assert (let max_rss :=
            if negb (limit =? 0)%Z
            then if close_to_limit (current_rss_at_first_call os) limit then 0%Z else limit
            else limit in
          EidosCheckRSSAgainstMax_max_rss st1 = max_rss
          ∧ (max_rss = 0%Z → eidos_do_memory_checks st1 = false ∧ warnings_printed st1 = [])
          ∧ Forall (λ w, warning_max_rss w = max_rss) (warnings_printed st1)) as Hfirst.
  { subst limit st1. unfold EidosCheckRSSAgainstMax, EidosGetMaxRSS.
    cbn [initial_memory_globals EidosCheckRSSAgainstMax_beenHere EidosGetMaxRSS_beenHere negb fst].
    set (limit := match getrlimit os with Some _ => _ | None => _ end). clearbody limit.
    cbv zeta. set (max_rss := if negb (limit =? 0)%Z then _ else limit). clearbody max_rss.
    cbn [eidos_do_memory_checks EidosCheckRSSAgainstMax_max_rss warnings_printed].
    destruct (Z.eqb_spec max_rss 0) as [-> | Hne]; cbn [negb andb].
    - done.
    - rewrite andb_true_r. destruct flag; cbn; [| done].
      destruct (close_to_limit (current_rss os) max_rss); cbn; [| done].
      split; [done |]. split; [done |]. by constructor. }
  cbv zeta in Hfirst. destruct Hfirst as (Hmax & Hzero & Hfirst_warnings).
  rewrite <- Hmax in Hzero, Hfirst_warnings. split.
  - intros Hnone.
    assert (EidosCheckRSSAgainstMax_max_rss st1 = 0%Z) as Hmax0.
    { rewrite Hmax. destruct Hnone as [-> | Hclose]; [done |].
      destruct (limit =? 0)%Z eqn:Hl; cbn [negb]; [by apply Z.eqb_eq in Hl |].
      by rewrite Hclose. }
    destruct (Hzero Hmax0) as [Hflag Hquiet]. rewrite (Hoff Hflag). done.
  - intros Hwarned.
    assert (EidosCheckRSSAgainstMax_max_rss st1 = limit) as Hkept.
    { destruct (Z.eqb_spec limit 0) as [Hl | Hl]; cbn [negb] in Hmax; [done |].
      destruct (close_to_limit (current_rss_at_first_call os) limit) eqn:Hclose; [| done].
      exfalso. destruct (Hzero Hmax) as [Hflag Hquiet]. rewrite (Hoff Hflag) in Hwarned. done. }
    rewrite Hnew. apply Forall_app. split; by rewrite <- Hkept.
Qed.


End MemoryCheckFacts.

Section ClampFacts.
Import slim_global.

Lemma to_int32_in_range (z : Z) : (- 2 ^ 31 ≤ z < 2 ^ 31)%Z → to_int32 z = z.
Proof. intros Hz. unfold to_int32. rewrite Z.mod_small; lia. Qed.

(** X29.  The four SLiMClampTo...Type functions return the value in
    the type's legal range that is nearest to their argument: the argument
    itself when it is in the range, the nearer bound otherwise.  The
    conversion to the 32-bit type never changes the value, so the result is
    in the range, and clamping keeps the order of its arguments. *)
Theorem SLiMClamp_returns_nearest_legal_value (p_long_value : Z) :
  SLiMClampToGenerationType p_long_value = Z.max 1 (Z.min SLIM_MAX_GENERATION p_long_value)
  ∧ SLiMClampToPositionType p_long_value = Z.max 0 (Z.min SLIM_MAX_BASE_POSITION p_long_value)
  ∧ SLiMClampToObjectidType p_long_value = Z.max 0 (Z.min SLIM_MAX_ID_VALUE p_long_value)
  ∧ SLiMClampToPopsizeType p_long_value = Z.max 0 (Z.min SLIM_MAX_SUBPOP_SIZE p_long_value)
  ∧ (1 ≤ SLiMClampToGenerationType p_long_value ≤ SLIM_MAX_GENERATION)%Z
  ∧ (0 ≤ SLiMClampToPositionType p_long_value ≤ SLIM_MAX_BASE_POSITION)%Z
  ∧ (0 ≤ SLiMClampToObjectidType p_long_value ≤ SLIM_MAX_ID_VALUE)%Z
  ∧ (0 ≤ SLiMClampToPopsizeType p_long_value ≤ SLIM_MAX_SUBPOP_SIZE)%Z
  ∧ ∀ other, (p_long_value ≤ other)%Z →
             (SLiMClampToGenerationType p_long_value ≤ SLiMClampToGenerationType other
              ∧ SLiMClampToPositionType p_long_value ≤ SLiMClampToPositionType other
              ∧ SLiMClampToObjectidType p_long_value ≤ SLiMClampToObjectidType other
              ∧ SLiMClampToPopsizeType p_long_value ≤ SLiMClampToPopsizeType other)%Z.
Proof.
  assert (∀ v, SLiMClampToGenerationType v = Z.max 1 (Z.min SLIM_MAX_GENERATION v)) as Hg.
  { intros v. unfold SLiMClampToGenerationType, SLIM_MAX_GENERATION.
    destruct (Z.ltb_spec v 1); [lia |]. destruct (Z.gtb_spec v 1000000000).
    - rewrite to_int32_in_range; lia.
    - rewrite to_int32_in_range; lia. }
  assert (∀ v, SLiMClampToPositionType v = Z.max 0 (Z.min SLIM_MAX_BASE_POSITION v)) as Hp.
  { intros v. unfold SLiMClampToPositionType, SLIM_MAX_BASE_POSITION.
    destruct (Z.ltb_spec v 0); [lia |]. destruct (Z.gtb_spec v 1000000000).
    - rewrite to_int32_in_range; lia.
    - rewrite to_int32_in_range; lia. }
  assert (∀ v, SLiMClampToObjectidType v = Z.max 0 (Z.min SLIM_MAX_ID_VALUE v)) as Ho.
  { intros v. unfold SLiMClampToObjectidType, SLIM_MAX_ID_VALUE.
    destruct (Z.ltb_spec v 0); [lia |]. destruct (Z.gtb_spec v 1000000000).
    - rewrite to_int32_in_range; lia.
    - rewrite to_int32_in_range; lia. }
  assert (∀ v, SLiMClampToPopsizeType v = Z.max 0 (Z.min SLIM_MAX_SUBPOP_SIZE v)) as Hs.
  { intros v. unfold SLiMClampToPopsizeType, SLIM_MAX_SUBPOP_SIZE.
    destruct (Z.ltb_spec v 0); [lia |]. destruct (Z.gtb_spec v 1000000000).
    - rewrite to_int32_in_range; lia.
    - rewrite to_int32_in_range; lia. }
  repeat split; try done; rewrite ?Hg, ?Hp, ?Ho, ?Hs;
    unfold SLIM_MAX_GENERATION, SLIM_MAX_BASE_POSITION, SLIM_MAX_ID_VALUE, SLIM_MAX_SUBPOP_SIZE;
    lia.
Qed.

End ClampFacts.

Section FurtherWorkedExamples.
Import eidos_global eidos_symbol_table mutation_run examples.
Import eidos_symbol_table_shape mutation_run_methods eidos_global_strings.
Import eidos_global_position eidos_rng eidos_memory more_examples.
#[local] Existing Instance headers.
#[local] Existing Instance string_ids.

(** A decidable proposition about concrete data, settled by evaluation. *)
Ltac by_evaluation := apply (bool_decide_unpack _); by vm_compute.

(** A concrete run is well formed. *)
Ltac run_is_ok := split; cbn; unfold SLIM_MUTRUN_BUFFER_SIZE; [lia | reflexivity | lia | done].

(** X1 at work: removing [y], which no table holds, from the scope holding
    [x = 7] returns with the scope as it was, while reading [y] is an
    error. *)
Lemma RemoveSymbol_of_unbound_name_example :
  ContainsSymbol y_id scope_with_x = false
  ∧ _RemoveSymbol registry y_id false scope_with_x = Returned tt scope_with_x
  ∧ _GetValue registry y_id scope_with_x
    = Raise "ERROR (EidosSymbolTable::_GetValue): undefined identifier y.".
Proof.
  assert (Hnot : ContainsSymbol y_id scope_with_x = false) by (by vm_compute).
  destruct (RemoveSymbol_of_unbound_name registry y_id false scope_with_x Hnot)
    as [Hremove Hget].
  split; [exact Hnot |]. split; [exact Hremove |]. rewrite Hget. by vm_compute.
Defined.

(** X2 at work: writing [x = 7] into the empty scope and removing [x] again
    gives back the empty scope. *)
Lemma SetValueForSymbol_then_RemoveSymbol_example :
  table_type_ variables_table = kVariablesTable
  ∧ storage_ok variables_table
  ∧ ContainsSymbol x_id variables_table = false
  ∧ ∃ this1,
      SetValueForSymbol registry x_id (integer 7) variables_table = Returned tt this1
      ∧ _RemoveSymbol registry x_id false this1 = Returned tt variables_table.
Proof.
  assert (Htype : table_type_ variables_table = kVariablesTable) by (by vm_compute).
  assert (Hok : storage_ok variables_table).
  { split; [by_evaluation | by vm_compute]. }
  assert (Hnot : ContainsSymbol x_id variables_table = false) by (by vm_compute).
  do 3 (split; [done |]).
  destruct (SetValueForSymbol_then_RemoveSymbol registry x_id (integer 7) false
              variables_table Htype Hok Hnot)
    as (this1 & this2 & Hset & Hremove & _ & _ & _ & Hsame).
  exists this1. split; [exact Hset |]. rewrite Hremove. f_equal. apply Hsame.
  right. vm_compute. lia.
Defined.

(** X3 at work: after [x = 1; x = 2] the scope reads [x] as 2, and
    [x = 1; y = 2] leaves [x] as [y = 2; x = 1] does. *)
Lemma SetValueForSymbol_last_write_wins_example :
  storage_ok variables_table
  ∧ _GetValue registry x_id
      (state_of (SetValueForSymbol registry x_id (integer 2)
                   (state_of (SetValueForSymbol registry x_id (integer 1) variables_table))))
    = Ok (get (integer 2))
  ∧ _GetValue registry x_id
      (state_of (SetValueForSymbol registry y_id (integer 2)
                   (state_of (SetValueForSymbol registry x_id (integer 1) variables_table))))
    = Ok (get (integer 1)).
Proof.
  assert (Hok : storage_ok variables_table).
  { split; [by_evaluation | by vm_compute]. }
  split; [exact Hok |].
  pose proof (SetValueForSymbol_last_write_wins registry x_id y_id (integer 1) (integer 2)
                variables_table Hok) as Hwrites.
  cbv zeta in Hwrites. destruct Hwrites as (Hlast & Hswap & _).
  split.
  - rewrite (Hlast x_id). by vm_compute.
  - rewrite (Hswap ltac:(by vm_compute) x_id). by vm_compute.
Defined.

(** X7 at work: the chain with the defined constant [y], built by two calls
    from well-kept tables, is well kept. *)
Lemma storage_stays_in_order_example :
  Forall storage_ok (chain scope_with_x)
  ∧ Forall storage_ok (chain scope_with_constant).
Proof.
  assert (Hok : Forall storage_ok (chain scope_with_x)).
  { vm_compute. repeat constructor; by_evaluation. }
  split; [exact Hok |].
  destruct (storage_stays_in_order registry y_id (integer 3) false scope_with_x Hok)
    as (_ & _ & _ & Hdefine & _).
  exact Hdefine.
Defined.

(** X8 at work: with the IDs 1 to 7 the intrinsic table comes back with [T]
    true and [PI] bound, and without a binding for the ID 8. *)
Lemma new_EidosSymbolTable_without_parent_example :
  NoDup intrinsic_ids
  ∧ ∃ this,
      new_EidosSymbolTable kEidosIntrinsicConstantsTable None false = Returned tt this
      ∧ _GetValue registry gEidosID_T this
        = Ok {| value_data := ValueLogical [true]; invisible_ := false |}
      ∧ ContainsSymbol gEidosID_PI this = true
      ∧ ContainsSymbol 8 this = false.
Proof.
  assert (Hids : NoDup intrinsic_ids) by by_evaluation.
  split; [exact Hids |].
  destruct (new_EidosSymbolTable_without_parent registry kVariablesTable false Hids)
    as (_ & this & Hcall & _ & _ & _ & Hcontains & HT & _).
  exists this. split; [exact Hcall |]. split; [exact HT |]. split.
  - apply Hcontains. by_evaluation.
  - apply not_true_iff_false. rewrite Hcontains. by_evaluation.
Defined.

(** X9 at work: a fourth mutation goes into the last place of the internal
    buffer and is popped off again; the capacity stays 4. *)
Lemma emplace_back_appends_example :
  run_ok three_mutations
  ∧ locking_violation three_mutations = false
  ∧ ∃ run' run'',
      emplace_back 41 three_mutations = Some run'
      ∧ contents run' = [10; 25; 30; 41]%Z
      ∧ mutation_capacity_ run' = 4%Z
      ∧ pop_back run' = Some run''
      ∧ contents run'' = [10; 25; 30]%Z.
Proof.
  assert (Hok : run_ok three_mutations) by run_is_ok.
  assert (Hlock : locking_violation three_mutations = false) by (by vm_compute).
  do 2 (split; [done |]).
  destruct (emplace_back_appends 41 three_mutations Hok Hlock)
    as (run' & Hcall & Hcontents & _ & _ & Hcapacity & run'' & Hpop & Hpopped & _).
  exists run', run''. split; [exact Hcall |]. split; [exact Hcontents |].
  split; [exact Hcapacity |]. split; [exact Hpop | exact Hpopped].
Defined.

(** X10 at work: adding six mutations at once to the three in the internal
    buffer takes the run to a capacity of 16; of the seven offered only the
    first six are copied. *)
Lemma emplace_back_bulk_appends_example :
  run_ok three_mutations
  ∧ locking_violation three_mutations = false
  ∧ (0 ≤ 6 ≤ Z.of_nat (length [41; 52; 63; 74; 85; 96; 99]%Z))%Z
  ∧ ∃ run',
      emplace_back_bulk [41; 52; 63; 74; 85; 96; 99]%Z 6 three_mutations = Some run'
      ∧ contents run' = [10; 25; 30; 41; 52; 63; 74; 85; 96]%Z
      ∧ mutation_capacity_ run' = 16%Z
      ∧ on_internal_buffer run' = false.
Proof.
  assert (Hok : run_ok three_mutations) by run_is_ok.
  assert (Hlock : locking_violation three_mutations = false) by (by vm_compute).
  assert (Hcount : (0 ≤ 6 ≤ Z.of_nat (length [41; 52; 63; 74; 85; 96; 99]%Z))%Z)
    by (cbn; lia).
  do 3 (split; [done |]).
  destruct (emplace_back_bulk_appends [41; 52; 63; 74; 85; 96; 99]%Z 6 three_mutations
              Hok Hlock Hcount) as (run' & Hcall & Hcontents & _ & _ & Hgrown).
  exists run'. split; [exact Hcall |]. split; [exact Hcontents |].
  pose proof Hcall as Hrun. vm_compute in Hrun. injection Hrun as <-. by vm_compute.
Defined.

(** X11 at work: mutation 27, at the position of mutation 25, goes between
    25 and 30. *)
Lemma insert_sorted_mutation_keeps_order_example :
  (∀ a b, compare_in_block a b = (position_in_block a <? position_in_block b)%Z)
  ∧ run_ok three_mutations
  ∧ locking_violation three_mutations = false
  ∧ sorted_by position_in_block (contents three_mutations)
  ∧ ∃ run',
      insert_sorted_mutation compare_in_block 27 three_mutations = Some run'
      ∧ contents run' = [10; 25; 27; 30]%Z
      ∧ sorted_by position_in_block (contents run').
Proof.
  assert (Hcompare : ∀ a b, compare_in_block a b
                            = (position_in_block a <? position_in_block b)%Z) by done.
  assert (Hok : run_ok three_mutations) by run_is_ok.
  assert (Hlock : locking_violation three_mutations = false) by (by vm_compute).
  assert (Hsorted : sorted_by position_in_block (contents three_mutations)).
  { vm_compute. repeat split; repeat constructor; by intros [=]. }
  do 4 (split; [done |]).
  destruct (insert_sorted_mutation_keeps_order compare_in_block position_in_block 27
              three_mutations Hcompare Hok Hlock Hsorted)
    as (run' & before & after & Hcall & _ & _ & _ & _ & Hsorted' & _).
  exists run'. split; [exact Hcall |]. split; [| exact Hsorted'].
  pose proof Hcall as Hrun. vm_compute in Hrun. injection Hrun as <-. by vm_compute.
Defined.

(** X12 at work: mutation 25 is in the run already and is not added again;
    mutation 27 is added. *)
Lemma insert_sorted_mutation_if_unique_adds_once_example :
  (∀ a b, compare_in_block a b = (position_in_block a <? position_in_block b)%Z)
  ∧ run_ok three_mutations
  ∧ locking_violation three_mutations = false
  ∧ sorted_by position_in_block (contents three_mutations)
  ∧ (∃ run',
       insert_sorted_mutation_if_unique compare_in_block 25 three_mutations = Some run'
       ∧ contents run' = [10; 25; 30]%Z)
  ∧ (∃ run',
       insert_sorted_mutation_if_unique compare_in_block 27 three_mutations = Some run'
       ∧ contents run' = [10; 25; 27; 30]%Z).
Proof.
  assert (Hcompare : ∀ a b, compare_in_block a b
                            = (position_in_block a <? position_in_block b)%Z) by done.
  assert (Hok : run_ok three_mutations) by run_is_ok.
  assert (Hlock : locking_violation three_mutations = false) by (by vm_compute).
  assert (Hsorted : sorted_by position_in_block (contents three_mutations)).
  { vm_compute. repeat split; repeat constructor; by intros [=]. }
  do 4 (split; [done |]).
  split.
  - destruct (insert_sorted_mutation_if_unique_adds_once compare_in_block position_in_block 25
                three_mutations Hcompare Hok Hlock Hsorted) as (run' & Hcall & Hold & _).
    exists run'. split; [exact Hcall |]. rewrite Hold; [by vm_compute |]. by_evaluation.
  - destruct (insert_sorted_mutation_if_unique_adds_once compare_in_block position_in_block 27
                three_mutations Hcompare Hok Hlock Hsorted) as (run' & Hcall & _ & Hnew & _).
    exists run'. split; [exact Hcall |].
    specialize (Hnew ltac:(by_evaluation)).
    assert (contents <$> insert_sorted_mutation compare_in_block 27 three_mutations
            = Some [10; 25; 27; 30]%Z) as Hinserted by (by vm_compute).
    rewrite Hinserted in Hnew. by injection Hnew.
Defined.

(** X13 at work: two runs of six mutations that agree in the first and fifth
    place have the same Hash, whatever the other four are. *)
Lemma Hash_reads_every_fourth_entry_example :
  run_ok six_mutations
  ∧ run_ok six_others
  ∧ contents six_mutations = [10; 25; 30; 41; 52; 63]%Z
  ∧ contents six_others = [10; 26; 31; 41; 52; 64]%Z
  ∧ Hash six_others = Hash six_mutations
  ∧ Hash six_mutations = Hash_step 52 (Hash_step 10 6).
Proof.
  assert (Hok : run_ok six_mutations) by run_is_ok.
  assert (Hother : run_ok six_others) by run_is_ok.
  do 2 (split; [done |]). do 2 (split; [by vm_compute |]).
  destruct (Hash_reads_every_fourth_entry six_mutations Hok) as (Hshape & _ & Hcollide).
  split.
  - apply Hcollide; [exact Hother | by vm_compute | by vm_compute].
  - rewrite Hshape. by vm_compute.
Defined.

(** X14 at work: the run of three mutations in its buffer and the run of
    three in an array of eight are identical, and have the same Hash. *)
Lemma Identical_iff_same_contents_example :
  run_ok three_of_eight
  ∧ run_ok three_mutations
  ∧ Identical three_of_eight three_mutations = true
  ∧ Hash three_mutations = Hash three_of_eight
  ∧ Identical six_mutations three_mutations = false.
Proof.
  assert (Hok : run_ok three_mutations) by run_is_ok.
  assert (Height : run_ok three_of_eight) by run_is_ok.
  assert (Hsix : run_ok six_mutations) by run_is_ok.
  do 2 (split; [done |]).
  destruct (Identical_iff_same_contents three_of_eight three_mutations Height Hok)
    as (Hsame & _ & Hhash).
  assert (Hidentical : Identical three_of_eight three_mutations = true).
  { apply Hsame. by vm_compute. }
  split; [exact Hidentical |]. split; [by apply Hhash |].
  destruct (Identical_iff_same_contents six_mutations three_mutations Hsix Hok)
    as (Hdiffer & _ & _).
  apply not_true_iff_false. rewrite Hdiffer. by vm_compute.
Defined.

(** X15 at work: copying the six mutations into the run that sits in its
    internal buffer gives it the source's capacity of 8 and the same six
    mutations. *)
Lemma copy_from_run_makes_identical_example :
  run_ok six_mutations
  ∧ run_ok three_mutations
  ∧ locking_violation three_mutations = false
  ∧ ∃ run',
      copy_from_run six_mutations three_mutations = Some run'
      ∧ contents run' = [10; 25; 30; 41; 52; 63]%Z
      ∧ Identical six_mutations run' = true
      ∧ mutation_capacity_ run' = 8%Z.
Proof.
  assert (Hok : run_ok three_mutations) by run_is_ok.
  assert (Hsix : run_ok six_mutations) by run_is_ok.
  assert (Hlock : locking_violation three_mutations = false) by (by vm_compute).
  do 3 (split; [done |]).
  destruct (copy_from_run_makes_identical six_mutations three_mutations Hsix Hok Hlock)
    as (run' & Hcall & Hcontents & _ & Hidentical & _ & _ & Hcapacity).
  exists run'. split; [exact Hcall |]. split; [exact Hcontents |].
  split; [exact Hidentical | exact Hcapacity].
Defined.

(** X16 at work: mutation 77 lies past the end of the run of three and is
    not found; 25 is found; after [emplace_back(41)] and [pop_back()] 41 is
    not found although it is in the array. *)
Lemma contains_mutation_finds_entries_in_use_example :
  run_ok three_mutations
  ∧ locking_violation three_mutations = false
  ∧ contains_mutation 25 three_mutations = true
  ∧ contains_mutation 77 three_mutations = false
  ∧ ∃ run' run'',
      emplace_back 41 three_mutations = Some run'
      ∧ pop_back run' = Some run''
      ∧ contains_mutation 41 run' = true
      ∧ contains_mutation 41 run'' = false
      ∧ mutations_ run'' !! 3%nat = Some 41%Z.
Proof.
  assert (Hok : run_ok three_mutations) by run_is_ok.
  assert (Hlock : locking_violation three_mutations = false) by (by vm_compute).
  do 2 (split; [done |]).
  destruct (contains_mutation_finds_entries_in_use 41 25 three_mutations Hok Hlock)
    as (Hfound & _).
  destruct (contains_mutation_finds_entries_in_use 41 77 three_mutations Hok Hlock)
    as (Hmissing & _).
  destruct (contains_mutation_finds_entries_in_use 41 41 three_mutations Hok Hlock)
    as (_ & run' & run'' & Hcall & Hpop & Hadded & Hpopped & Hleft).
  split; [apply Hfound; by_evaluation |].
  split; [apply not_true_iff_false; rewrite Hmissing; by_evaluation |].
  exists run', run''. split; [exact Hcall |]. split; [exact Hpop |].
  split; [rewrite Hadded; by vm_compute |]. split; [rewrite Hpopped; by vm_compute |].
  exact Hleft.
Defined.

(** X18 at work: a second pointer to the run at address 0 comes and goes,
    and the pool is as before. *)
Lemma add_ref_then_release_example :
  runs pool_with_run !! 0%N = Some three_mutations
  ∧ (intrusive_ref_count three_mutations + 1 < uint32_modulus)%N
  ∧ Eidos_intrusive_ptr_release 0 (Eidos_intrusive_ptr_add_ref 0 pool_with_run) = pool_with_run.
Proof.
  assert (Hrun : runs pool_with_run !! 0%N = Some three_mutations) by (by vm_compute).
  assert (Hroom : (intrusive_ref_count three_mutations + 1 < uint32_modulus)%N)
    by (by vm_compute).
  do 2 (split; [done |]).
  exact (add_ref_then_release 0 pool_with_run three_mutations Hrun Hroom).
Defined.

(** X19 at work: after the intrinsic names are registered, [x] and [y] get
    the IDs 100 and 101, and asking for [x] again returns 100. *)
Lemma EidosGlobalStringIDForString_one_id_per_string_example :
  (gEidosID_LastContextEntry + N.of_nat (length intrinsic_registrations) + 2
   < uint32_modulus)%N
  ∧ ∃ g1 g2,
      EidosGlobalStringIDForString "x" (run_calls initial_registry intrinsic_registrations)
      = (100%N, g1)
      ∧ EidosGlobalStringIDForString "y" g1 = (101%N, g2)
      ∧ EidosGlobalStringIDForString "x" g2 = (100%N, g2).
Proof.
  assert (Hroom : (gEidosID_LastContextEntry + N.of_nat (length intrinsic_registrations) + 2
                   < uint32_modulus)%N) by (by vm_compute).
  split; [exact Hroom |].
  pose proof (EidosGlobalStringIDForString_one_id_per_string intrinsic_registrations "x" "y"
                Hroom) as Hids.
  cbv zeta in Hids.
  destruct (EidosGlobalStringIDForString "x" (run_calls initial_registry intrinsic_registrations))
    as [id1 g1] eqn:Hx.
  destruct (EidosGlobalStringIDForString "y" g1) as [id2 g2] eqn:Hy.
  destruct Hids as (_ & Hagain & _).
  assert (id1 = 100%N) as ->.
  { change id1 with (fst (id1, g1)). rewrite <- Hx. by vm_compute. }
  assert (id2 = 101%N) as ->.
  { change id2 with (fst (id2, g2)). rewrite <- Hy.
    change g1 with (snd (100%N, g1)). rewrite <- Hx. by vm_compute. }
  by exists g1, g2.
Defined.

(** X20 at work: registering [size] under the ID 9 binds the two, also after
    [x] has been interned; registering [T] a second time is refused. *)
Lemma Eidos_RegisterStringForGlobalID_binds_or_refuses_example :
  registry_inv registry
  ∧ (gNextUnusedID registry + N.of_nat (length [CallIntern "x"]) < uint32_modulus)%N
  ∧ fst (EidosGlobalStringIDForString "size"
           (run_calls (state_of (Eidos_RegisterStringForGlobalID "size" 9 registry))
                      [CallIntern "x"])) = 9%N
  ∧ StringForEidosGlobalStringID 9
      (run_calls (state_of (Eidos_RegisterStringForGlobalID "size" 9 registry))
                 [CallIntern "x"]) = "size"
  ∧ state_of (Eidos_RegisterStringForGlobalID "T" 50 registry) = registry.
Proof.
  assert (Hinv : registry_inv registry).
  { apply run_calls_inv; [apply initial_registry_inv | by vm_compute]. }
  assert (Hroom : (gNextUnusedID registry + N.of_nat (length [CallIntern "x"])
                   < uint32_modulus)%N) by (by vm_compute).
  do 2 (split; [done |]).
  pose proof (Eidos_RegisterStringForGlobalID_binds_or_refuses "size" 9 registry
                [CallIntern "x"] Hinv Hroom) as Hsize.
  pose proof (Eidos_RegisterStringForGlobalID_binds_or_refuses "T" 50 registry
                [CallIntern "x"] Hinv Hroom) as HT.
  cbv zeta in Hsize, HT.
  destruct Hsize as (_ & _ & Hbound). destruct HT as (_ & Hrefused & _).
  destruct (Hbound ltac:(by vm_compute)) as [Hintern Hback].
  split; [by rewrite Hintern |]. split; [exact Hback |].
  apply Hrefused. by vm_compute.
Defined.

(** X21 at work: with the IDs 1 to 23 of the examples all 23 strings are
    registered; [color] then interns to 23, 9 reads back as [size], and [sim],
    which is not among them, gets the ID 100. *)
Lemma Eidos_RegisterGlobalStringsAndIDs_registers_once_example :
  NoDup global_strings_and_ids.*2
  ∧ Forall (λ id, (id < gEidosID_LastContextEntry)%N) global_strings_and_ids.*2
  ∧ ∃ g,
      Eidos_RegisterGlobalStringsAndIDs
        {| been_here := false; the_registry := initial_registry |}
      = Returned tt {| been_here := true; the_registry := g |}
      ∧ fst (EidosGlobalStringIDForString "color" g) = 23%N
      ∧ StringForEidosGlobalStringID 9 g = "size"
      ∧ fst (EidosGlobalStringIDForString "sim" g) = 100%N.
Proof.
  assert (Hids : NoDup global_strings_and_ids.*2) by by_evaluation.
  assert (Hrange : Forall (λ id, (id < gEidosID_LastContextEntry)%N)
                          global_strings_and_ids.*2).
  { vm_compute. repeat constructor. }
  do 2 (split; [done |]).
  destruct (Eidos_RegisterGlobalStringsAndIDs_registers_once Hids Hrange)
    as (g & Hcall & Hin & Hout & _).
  exists g. split; [exact Hcall |].
  destruct (Hin "color" 23%N ltac:(by_evaluation)) as [Hcolor _].
  destruct (Hin "size" 9%N ltac:(by_evaluation)) as [_ Hsize].
  split; [by rewrite Hcolor |]. split; [exact Hsize |].
  apply Hout. by_evaluation.
Defined.

(** X22 at work: in the script of two lines the [c] at byte 12 is on line 2,
    five characters after the line break. *)
Lemma eidos_script_error_position_line_and_column_example :
  (0 ≤ 12 ≤ 12)%Z
  ∧ (12 < Z.of_nat (String.length two_lines))%Z
  ∧ (12 ≤ Z.of_nat (String.length two_lines))%Z
  ∧ gEidosErrorLine (eidos_script_error_position 12 12 (Some two_lines) raising_state) = 2%Z
  ∧ gEidosErrorLineCharacter (eidos_script_error_position 12 12 (Some two_lines) raising_state)
    = 5%Z
  ∧ gEidosErrorLine
      (eidos_log_script_error cerr_stream 12 12 (Some two_lines) false raising_state) = 2%Z.
Proof.
  assert (Horder : (0 ≤ 12 ≤ 12)%Z) by lia.
  assert (Hstart : (12 < Z.of_nat (String.length two_lines))%Z) by (vm_compute; reflexivity).
  assert (Hend : (12 ≤ Z.of_nat (String.length two_lines))%Z) by (vm_compute; by intros [=]).
  do 3 (split; [done |]).
  pose proof (eidos_script_error_position_line_and_column two_lines 12 12 cerr_stream false
                raising_state Horder Hstart Hend) as Hposition.
  cbv zeta in Hposition. destruct Hposition as (_ & _ & _ & _ & Hline & _).
  assert (gEidosErrorLine (eidos_script_error_position 12 12 (Some two_lines) raising_state)
          = 2%Z) as Htwo by (by vm_compute).
  split; [exact Htwo |]. split; [by vm_compute |]. by rewrite Hline.
Defined.

(** X23 at work: a range that ends past the end of the script has no
    position, and nothing is printed for it. *)
Lemma eidos_script_error_position_without_position_example :
  (12 < 0 ∨ 20 < 12 ∨ Z.of_nat (String.length two_lines) < 20)%Z
  ∧ gEidosErrorLine (eidos_script_error_position 12 20 (Some two_lines) raising_state)
    = (-1)%Z
  ∧ eidos_log_script_error cerr_stream 12 20 (Some two_lines) false raising_state
    = raising_state.
Proof.
  assert (Hbad : (12 < 0 ∨ 20 < 12 ∨ Z.of_nat (String.length two_lines) < 20)%Z).
  { right. right. vm_compute. reflexivity. }
  split; [exact Hbad |].
  destruct (eidos_script_error_position_without_position 12 20 (Some two_lines) cerr_stream
              false raising_state Hbad) as (Hline & _ & Hquiet).
  split; [exact Hline | exact Hquiet].
Defined.

(** X24 at work: the second line of the script is printed with its tab as
    three spaces, and the indicator is padded with seven spaces, the width
    of the tab and of [b = ] as printed. *)
Lemma indicator_lines_up_with_script_line_example :
  (0 ≤ 12 ≤ 12)%Z
  ∧ (12 ≤ Z.of_nat (String.length two_lines))%Z
  ∧ ∃ lineStart lineEnd lineNumber,
      locate_error_line two_lines 12 12 = (lineStart, lineEnd, lineNumber)
      ∧ emit_script_line two_lines lineStart (Z.to_nat (lineEnd - lineStart + 1))
        = "   b = " +:+ "c;"
      ∧ emit_indicator_padding two_lines lineStart (Z.to_nat (12 - lineStart)) = "       ".
Proof.
  assert (Horder : (0 ≤ 12 ≤ 12)%Z) by lia.
  assert (Hend : (12 ≤ Z.of_nat (String.length two_lines))%Z) by (vm_compute; by intros [=]).
  do 2 (split; [done |]).
  destruct (indicator_lines_up_with_script_line two_lines 12 12 Horder Hend)
    as (lineStart & lineEnd & lineNumber & shown & rest & Hlocate & Hshown & Hline & Hpad
        & Hrest).
  exists lineStart, lineEnd, lineNumber. split; [exact Hlocate |].
  pose proof Hlocate as Hwhere. vm_compute in Hwhere. injection Hwhere as <- <- <-.
  assert (shown = "   b = ") as -> by (rewrite Hshown; by vm_compute).
  assert (rest = "c;") as ->.
  { rewrite Hrest; [by vm_compute | vm_compute; reflexivity]. }
  split; [exact Hline |]. rewrite Hpad. by vm_compute.
Defined.

(** X26 at work: 32 random booleans from the counting generator are the bits
    of its first number, 0xA5, and the generator has moved on by one. *)
Lemma eidos_random_bool_uses_32_bits_per_number_example :
  (gEidos_random_bool_bit_counter
     {| gEidos_random_bool_bit_counter := 0; gEidos_random_bool_bit_buffer := 0 |} ≤ 0)%Z
  ∧ ∃ st',
      random_bools nat counting_rng 32 0%nat
        {| gEidos_random_bool_bit_counter := 0; gEidos_random_bool_bit_buffer := 0 |}
      = ([true; false; true; false; false; true; false; true] ++ replicate 24 false, 1%nat, st')
      ∧ gEidos_random_bool_bit_counter st' = 0%Z.
Proof.
  assert (Hempty : (gEidos_random_bool_bit_counter
                      {| gEidos_random_bool_bit_counter := 0;
                         gEidos_random_bool_bit_buffer := 0 |} ≤ 0)%Z) by (cbn; lia).
  split; [exact Hempty |].
  pose proof (eidos_random_bool_uses_32_bits_per_number nat counting_rng 0%nat _ Hempty)
    as Hbits.
  cbn [counting_rng] in Hbits. eexists. split; [rewrite Hbits; by vm_compute | done].
Defined.

End FurtherWorkedExamples.

